(** * Labelling and measurements ([cupyx.scipy.ndimage])

    A shallow embedding of [cupyx/scipy/ndimage/measurements.py]: [label],
    [_generate_binary_structure], [_label] and the five element-wise
    kernels of the labelling engine; the kernels [_ndimage_sum_kernel],
    [_ndimage_mean_kernel] and [_ndimage_sum_kernel_2]; and
    [_safely_castable_to_int], [_select], [minimum], [maximum], [median],
    [minimum_position], [maximum_position] and [extrema]; with their
    properties proved over it.

    Conventions of the embedding.
    - An [int]/[int32] of the CUDA kernels is a [Z]; wherever the source
      converts the kernel index [i] to [int] or multiplies or adds [int]s
      that can leave the 32-bit range, the model applies [wrap32].
    - An array is the row-major (C order) list of its cells together with
      its shape.  Only the comparison of a field cell with zero is observed
      by the code, so a cell of any real dtype is represented by a [Z] that
      is zero exactly when the cell is.
    - The connect, count, labels and finalize kernels are pools of per-cell
      threads over a shared memory; one step of a thread performs at most
      one access to a cell that another thread may touch, and a schedule (a
      list of thread numbers) says which thread moves next.  Accesses are
      sequentially consistent.  What a schedule leaves unfinished is run to
      completion thread by thread, as a grid-stride loop would.  The init
      kernel writes each cell from the field cell of the same index only
      and is a map.
    - The theorems about the kernels assume [ints_fit]: at most [2^30]
      cells and a flat array of directions that an [int] can index.  In
      that range no [int] operation of the kernels overflows, in particular
      not the sum [j_min + j_max] of the binary search.
    - The measurements are modelled on images that hold integers.  A
      [float64] accumulator is the integer it holds, and an addition
      rounds it to 53 significant bits.
    - Library functions that the model does not fix ([cupy.lexsort],
      which may order cells with equal keys as it likes, and
      [cupy.median]) are parameters of the model. *)

From Stdlib Require Import ZArith List Lia Bool Arith Permutation Sorted.
From Stdlib Require Import Relations Ascii FinFun.
Import ListNotations.
Open Scope Z_scope.

(** * Part I: the program *)

(** ** Machine integers and flat arrays *)

Module Int32.

Definition max_signed : Z := 2 ^ 31 - 1.
Definition min_signed : Z := - 2 ^ 31.

(** Two's complement reduction of an integer to 32 bits. *)
Definition wrap32 (z : Z) : Z := (z + 2 ^ 31) mod 2 ^ 32 - 2 ^ 31.

Definition in_range (z : Z) : Prop := min_signed <= z <= max_signed.

End Int32.
Import Int32.

Module Arr.

(** In-place store [l[n] = v]; a store outside the buffer is undefined
    behaviour in the source and leaves the model's list unchanged. *)
Fixpoint upd {A : Type} (n : nat) (v : A) (l : list A) : list A :=
  match l, n with
  | [], _ => []
  | _ :: t, O => v :: t
  | h :: t, S n' => h :: upd n' v t
  end.

(** Load and store of an [int32] buffer at an [int] index. *)
Definition rd (l : list Z) (i : Z) : Z := nth (Z.to_nat i) l 0.
Definition wr (l : list Z) (i v : Z) : list Z := upd (Z.to_nat i) v l.

Definition len (l : list Z) : Z := Z.of_nat (length l).

(** [0, 1, ..., n-1] as [int]s. *)
Definition zrange (n : Z) : list Z := map Z.of_nat (seq 0 (Z.to_nat n)).

End Arr.
Import Arr.

(** ** Arrays, dtypes and the arguments of [label] *)

(** The numeric dtypes of an array, with the one-character code that
    [dtype.char] returns.  [float16] is left out: its conversion from
    [int32] can overflow to infinity, which a [Z] cell cannot hold. *)
Inductive dtype : Type :=
| bool_ | int8 | uint8 | int16 | uint16 | int32 | uint32 | int64 | uint64
| float32 | float64 | complex64 | complex128.

Definition char (d : dtype) : ascii :=
  match d with
  | bool_ => "?" | int8 => "b" | uint8 => "B" | int16 => "h" | uint16 => "H"
  | int32 => "i" | uint32 => "I" | int64 => "l" | uint64 => "L"
  | float32 => "f" | float64 => "d" | complex64 => "F" | complex128 => "D"
  end%char.

Definition dtype_eqb (a b : dtype) : bool := Ascii.eqb (char a) (char b).

(** [c in 'FD'] *)
Definition char_in (c : ascii) (s : list ascii) : bool := existsb (Ascii.eqb c) s.

Definition is_complex (d : dtype) : bool := char_in (char d) ["F"; "D"]%char.

Record ndarray : Type := mk_ndarray {
  arr_dtype : dtype;
  arr_shape : list Z;
  arr_data : list Z
}.

Definition prod_shape (shape : list Z) : Z := fold_right Z.mul 1 shape.

Definition ndim (a : ndarray) : Z := Z.of_nat (length (arr_shape a)).
Definition size (a : ndarray) : Z := prod_shape (arr_shape a).

(** An array object holds one cell per index of its shape, and no axis has
    a negative length. *)
Definition well_formed (a : ndarray) : Prop :=
  Forall (fun d => 0 <= d) (arr_shape a) /\ len (arr_data a) = size a.

Definition well_formedb (a : ndarray) : bool :=
  forallb (fun d => 0 <=? d) (arr_shape a) && (len (arr_data a) =? size a).

Definition shape_eqb (s t : list Z) : bool :=
  (length s =? length t)%nat && forallb (fun p => fst p =? snd p) (combine s t).

(** ** Multi-indices *)

(** All multi-indices of a shape in row-major order ([numpy.ndindex]). *)
Fixpoint ndindex (shape : list Z) : list (list Z) :=
  match shape with
  | [] => [[]]
  | d :: rest => flat_map (fun c => map (cons c) (ndindex rest)) (zrange d)
  end.

(** [numpy.where(a != 0)]: the multi-indices of the non-zero cells in
    row-major order.  numpy returns one coordinate array per axis; row [r]
    of the model is [(elems[0][r], ..., elems[ndim-1][r])]. *)
Definition numpy_where (a : ndarray) : list (list Z) :=
  map fst (filter (fun p => negb (snd p =? 0))
                  (combine (ndindex (arr_shape a)) (arr_data a))).

(** [numpy.array(structure, dtype=bool)] *)
Definition as_bool_array (a : ndarray) : ndarray :=
  {| arr_dtype := bool_;
     arr_shape := arr_shape a;
     arr_data := map (fun v => if v =? 0 then 0 else 1) (arr_data a) |}.

Definition zsum (l : list Z) : Z := fold_right Z.add 0 l.

(** [_generate_binary_structure(rank, connectivity)] *)
Definition _generate_binary_structure (rank : nat) (connectivity : Z) : ndarray :=
  let connectivity := if connectivity <? 1 then 1 else connectivity in
  if (rank <? 1)%nat then
    {| arr_dtype := bool_; arr_shape := []; arr_data := [1] |}
  else
    let output := map (fun c => zsum (map (fun ck => Z.abs (ck - 1)) c))
                      (ndindex (repeat 3 rank)) in
    {| arr_dtype := bool_;
       arr_shape := repeat 3 rank;
       arr_data := map (fun o => if o <=? connectivity then 1 else 0) output |}.

(** ** The offset compiler (first lines of [_label]) *)

(** [offset = vecs[0]; for dm in range(1, ndim): offset = offset * 3 + vecs[dm]]
    for one active cell of the structure. *)
Definition enc (v : list Z) : Z :=
  match v with
  | [] => 0
  | v0 :: rest => fold_left (fun offset x => offset * 3 + x) rest v0
  end.

(** [vecs]: the offsets of the structure's active cells from its centre. *)
Definition vecs (structure : ndarray) : list (list Z) :=
  map (map (fun e => e - 1)) (numpy_where structure).

(** [dirs]: the offsets kept by [numpy.where(offset < 0)]. *)
Definition dirs_of (structure : ndarray) : list (list Z) :=
  filter (fun v => enc v <? 0) (vecs structure).

(** ** Thread pools

    An element-wise kernel launched with [size = n] runs its body once for
    every [i] in [0, n).  The body of cell [i] is a thread with a local
    state; [step i m l] lets it perform its next action on the shared
    memory [m]. *)

Section Pool.

Context {M L : Type}.
Variable step : Z -> M -> L -> M * L.

Definition pool_step (st : M * list L) (t : nat) : M * list L :=
  match nth_error (snd st) t with
  | Some l => let (m', l') := step (Z.of_nat t) (fst st) l in
              (m', upd t l' (snd st))
  | None => st
  end.

(** The threads move in the order given by the schedule. *)
Definition run (sched : list nat) (st : M * list L) : M * list L :=
  fold_left pool_step sched st.

(** Every thread in turn is given [fuel] further steps. *)
Definition completion (fuel n : nat) : list nat :=
  flat_map (fun t => repeat t fuel) (seq 0 n).

(** The kernel launch: [n] threads from the local state [l0], scheduled by
    [sched] and then run to completion. *)
Definition launch (sched : list nat) (fuel n : nat) (l0 : L) (m : M) : M * list L :=
  run (sched ++ completion fuel n) (m, repeat l0 n).

End Pool.

(** ** The kernels *)

(** [atomicCAS(&y[addr], compare, val)]: the new buffer and the old value. *)
Definition atomicCAS (y : list Z) (addr compare val : Z) : list Z * Z :=
  let old := rd y addr in
  (if old =? compare then wr y addr val else y, old).

(** [atomicAdd(&c[addr], val)]: the new buffer and the old value. *)
Definition atomicAdd (c : list Z) (addr val : Z) : list Z * Z :=
  let old := rd c addr in
  (wr c addr (wrap32 (old + val)), old).

(** [cupyx_nd_label_init]: no thread reads a cell of another. *)
Definition _kernel_init (x : list Z) : list Z :=
  map (fun p => if snd p =? 0 then -1 else wrap32 (fst p))
      (combine (zrange (len x)) x).

Section Connect.

Variables (shape dirs : list Z) (ndirs ndim : Z).

(** The loop over [dm] of the connect kernel.  [dm] counts the axes still
    to visit: the iteration run here has loop variable [dm - 1].  The
    result is [k], or [-1] after the [break]. *)
Fixpoint neighbour_loop (dr : Z) (dm : nat) (rest stride k : Z) : Z :=
  match dm with
  | O => k
  | S dm' =>
      let d := Z.of_nat dm' in
      let pos := wrap32 (Z.rem rest (rd shape d)
                         + rd dirs (wrap32 (d + wrap32 (dr * ndim)))) in
      if (pos <? 0) || (pos >=? rd shape d) then -1
      else neighbour_loop dr dm' (Z.quot rest (rd shape d))
                          (wrap32 (stride * rd shape d))
                          (wrap32 (k + wrap32 (pos * stride)))
  end.

Definition neighbour (j dr : Z) : Z :=
  neighbour_loop dr (Z.to_nat ndim) j 1 0.

End Connect.

(** Program points of one thread of the connect kernel. *)
Inductive connect_pc : Type :=
| CStart                     (* if (y[i] < 0) continue; *)
| CDir (dr : Z)              (* head of the loop over dr, up to the test of y[k] *)
| CFindJ (dr j k : Z)        (* the test j != y[j] *)
| CLoadJ (dr j k : Z)        (* j = y[j] *)
| CFindK (dr j k : Z)        (* the test k != y[k] *)
| CLoadK (dr j k : Z)        (* k = y[k] *)
| CCas (dr j k : Z)          (* if (j == k) break; and the atomicCAS *)
| CDone.

Section ConnectStep.

(** [nbr i dr] is the value of [k] after the loop over [dm]. *)
Variables (ndirs : Z) (nbr : Z -> Z -> Z).

Definition connect_step (i : Z) (y : list Z) (pc : connect_pc) : list Z * connect_pc :=
  match pc with
  | CStart =>
      if rd y i <? 0 then (y, CDone) else (y, CDir 0)
  | CDir dr =>
      if dr <? ndirs then
        let j := wrap32 i in
        let k := nbr j dr in
        if k <? 0 then (y, CDir (dr + 1))
        else if rd y k <? 0 then (y, CDir (dr + 1))
        else (y, CFindJ dr j k)
      else (y, CDone)
  | CFindJ dr j k =>
      if negb (j =? rd y j) then (y, CLoadJ dr j k) else (y, CFindK dr j k)
  | CLoadJ dr j k => (y, CFindJ dr (rd y j) k)
  | CFindK dr j k =>
      if negb (k =? rd y k) then (y, CLoadK dr j k) else (y, CCas dr j k)
  | CLoadK dr j k => (y, CFindK dr j (rd y k))
  | CCas dr j k =>
      if j =? k then (y, CDir (dr + 1))
      else if j <? k then
        let (y', old) := atomicCAS y k k j in
        if old =? k then (y', CDir (dr + 1)) else (y', CFindJ dr j old)
      else
        let (y', old) := atomicCAS y j j k in
        if old =? j then (y', CDir (dr + 1)) else (y', CFindJ dr old k)
  | CDone => (y, CDone)
  end.

End ConnectStep.

(** Steps that bring one thread of the connect kernel to its end when it
    runs alone on a buffer of [n] cells. *)
Definition connect_fuel (n : nat) (ndirs : Z) : nat :=
  (Z.to_nat ndirs * (10 * n + 6) + 2)%nat.

(** [cupyx_nd_label_connect], launched with [size = y.size]. *)
Definition _kernel_connect (sched : list nat)
           (shape dirs : list Z) (ndirs ndim : Z) (y : list Z) : list Z :=
  fst (launch (connect_step ndirs (neighbour shape dirs ndim)) sched
              (connect_fuel (length y) ndirs) (length y) CStart y).

(** Program points of one thread of the count kernel. *)
Inductive count_pc : Type :=
| KStart                     (* if (y[i] < 0) continue; int j = i; *)
| KFind (j : Z)              (* the test j != y[j] *)
| KLoad (j : Z)              (* j = y[j] *)
| KEnd (j : Z)               (* if (j != i) y[i] = j; else atomicAdd(&count[0], 1); *)
| KDone.

(** The memory of the count and labels kernels: a buffer and [count]. *)
Definition count_step (i : Z) (m : list Z * list Z) (pc : count_pc)
  : (list Z * list Z) * count_pc :=
  let (y, count) := m in
  match pc with
  | KStart => if rd y i <? 0 then (m, KDone) else (m, KFind (wrap32 i))
  | KFind j => if negb (j =? rd y j) then (m, KLoad j) else (m, KEnd j)
  | KLoad j => (m, KFind (rd y j))
  | KEnd j =>
      if negb (j =? i) then ((wr y i j, count), KDone)
      else ((y, fst (atomicAdd count 0 1)), KDone)
  | KDone => (m, KDone)
  end.

Definition count_fuel (n : nat) : nat := (2 * n + 3)%nat.

(** [cupyx_nd_label_count], launched with [size = y.size]. *)
Definition _kernel_count (sched : list nat) (y count : list Z) : list Z * list Z :=
  fst (launch count_step sched (count_fuel (length y)) (length y) KStart (y, count)).

(** Program points of one thread of the labels kernel. *)
Inductive labels_pc : Type :=
| LStart                     (* if (y[i] != i) continue; *)
| LAdd                       (* int j = atomicAdd(&count[1], 1); *)
| LStore (j : Z)             (* labels[j] = i; *)
| LDone.

Definition labels_step (y : list Z) (i : Z) (m : list Z * list Z) (pc : labels_pc)
  : (list Z * list Z) * labels_pc :=
  let (labels, count) := m in
  match pc with
  | LStart => if negb (rd y i =? i) then (m, LDone) else (m, LAdd)
  | LAdd => let (count', j) := atomicAdd count 1 1 in ((labels, count'), LStore j)
  | LStore j => ((wr labels j (wrap32 i), count), LDone)
  | LDone => (m, LDone)
  end.

(** [cupyx_nd_label_labels], launched with [size = y.size]. *)
Definition _kernel_labels (sched : list nat) (y count labels : list Z)
  : list Z * list Z :=
  fst (launch (labels_step y) sched 3 (length y) LStart (labels, count)).

(** [cupy.sort] on a one-dimensional [int32] array. *)
Fixpoint insert_sorted (a : Z) (l : list Z) : list Z :=
  match l with
  | [] => [a]
  | b :: t => if a <=? b then a :: l else b :: insert_sorted a t
  end.

Definition sort (l : list Z) : list Z := fold_right insert_sorted [] l.

(** Program points of one thread of the finalize kernel. *)
Inductive finalize_pc : Type :=
| FStart                           (* if (y[i] < 0) { y[i] = 0; continue; } ... *)
| FLoop (yi j_min j_max j : Z)     (* the test j_min < j_max and the loop body *)
| FDone.

Definition finalize_step (maxlabel : Z) (labels : list Z)
           (i : Z) (y : list Z) (pc : finalize_pc) : list Z * finalize_pc :=
  match pc with
  | FStart =>
      if rd y i <? 0 then (wr y i 0, FDone)
      else
        let yi := rd y i in
        let j_min := 0 in
        let j_max := wrap32 (maxlabel - 1) in
        (y, FLoop yi j_min j_max (Z.quot (wrap32 (j_min + j_max)) 2))
  | FLoop yi j_min j_max j =>
      if j_min <? j_max then
        if yi =? rd labels j then (wr y i (wrap32 (j + 1)), FDone)
        else if yi <? rd labels j then
          let j_max := wrap32 (j - 1) in
          (y, FLoop yi j_min j_max (Z.quot (wrap32 (j_min + j_max)) 2))
        else
          let j_min := wrap32 (j + 1) in
          (y, FLoop yi j_min j_max (Z.quot (wrap32 (j_min + j_max)) 2))
      else (wr y i (wrap32 (j + 1)), FDone)
  | FDone => (y, FDone)
  end.

Definition finalize_fuel (maxlabel : Z) : nat := (Z.to_nat maxlabel + 2)%nat.

(** [cupyx_nd_label_finalize], launched with [size = y.size]. *)
Definition _kernel_finalize (sched : list nat) (maxlabel : Z) (labels y : list Z)
  : list Z :=
  fst (launch (finalize_step maxlabel labels) sched
              (finalize_fuel maxlabel) (length y) FStart y).

(** The interleavings of the four kernels that share memory between
    threads. *)
Record schedule : Type := mk_schedule {
  sched_connect : list nat;
  sched_count : list nat;
  sched_labels : list nat;
  sched_finalize : list nat
}.

(** [_label(x, structure, y)]: the buffer [y] after the call and the
    returned [maxlabel].  [x] is the field's data, [y_shape] its shape. *)
Definition _label (sched : schedule) (x : list Z) (y_shape : list Z)
           (structure : ndarray) : list Z * Z :=
  let x_ndim := wrap32 (Z.of_nat (length y_shape)) in
  let dirs := dirs_of structure in
  let ndirs := wrap32 (Z.of_nat (length dirs)) in
  let y_shape := map wrap32 y_shape in
  let count := [0; 0] in
  let y := _kernel_init x in
  let y := _kernel_connect (sched_connect sched) y_shape (concat dirs) ndirs x_ndim y in
  let (y, count) := _kernel_count (sched_count sched) y count in
  let maxlabel := rd count 0 in
  let labels := repeat 0 (Z.to_nat maxlabel) in
  let (labels, count) := _kernel_labels (sched_labels sched) y count labels in
  let y := _kernel_finalize (sched_finalize sched) maxlabel (sort labels) y in
  (y, maxlabel).

Definition sequential : schedule := mk_schedule [] [] [] [].

(** ** The entry point [label] *)

(** The exceptions [label] raises.  The specification calls them
    TypeMismatch, RankMismatch and ShapeMismatch. *)
Inductive py_exception : Type :=
| TypeError       (* input is no cupy.ndarray, or is complex *)
| RuntimeError    (* structure and input must have equal rank *)
| ValueError.     (* structure dimensions must be equal to 3; output shape not correct *)

Inductive input_arg : Type :=
| CupyArray (a : ndarray)
| NotCupyArray.

(** [structure]: [None] or an array (a [cupy.ndarray] or any array-like). *)
Inductive structure_arg : Type :=
| StructureNone
| StructureArray (a : ndarray).

(** [output]: [None], a dtype, or a [cupy.ndarray]. *)
Inductive output_arg : Type :=
| OutputNone
| OutputDtype (d : dtype)
| OutputArray (a : ndarray).

(** What [label] returns: [maxlabel] alone when the caller provided the
    output array (which the call has filled), the pair otherwise. *)
Inductive label_return : Type :=
| ReturnCount (maxlabel : Z) (output : ndarray)
| ReturnPair (output : ndarray) (maxlabel : Z).

Definition returned_maxlabel (r : label_return) : Z :=
  match r with ReturnCount m _ => m | ReturnPair _ m => m end.

(** The output array after the call. *)
Definition returned_output (r : label_return) : ndarray :=
  match r with ReturnCount _ o => o | ReturnPair o _ => o end.

Definition wrap_signed (bits v : Z) : Z :=
  (v + 2 ^ (bits - 1)) mod 2 ^ bits - 2 ^ (bits - 1).

Definition wrap_unsigned (bits v : Z) : Z := v mod 2 ^ bits.

(** Rounding of an integer to a binary float with [p] significant bits
    (round to nearest, ties to even); no overflow occurs for [int32]. *)
Definition round_float (p v : Z) : Z :=
  let a := Z.abs v in
  if a <? 2 ^ p then v
  else
    let e := Z.log2 a - p + 1 in
    let q := a / 2 ^ e in
    let r := a mod 2 ^ e in
    let half := 2 ^ (e - 1) in
    let q' := if (half <? r) || ((r =? half) && Z.odd q) then q + 1 else q in
    Z.sgn v * q' * 2 ^ e.

(** Conversion of an [int32] value to a cell of dtype [d]
    ([output[...] = y[...]]). *)
Definition astype (d : dtype) (v : Z) : Z :=
  match d with
  | bool_ => if v =? 0 then 0 else 1
  | int8 => wrap_signed 8 v
  | uint8 => wrap_unsigned 8 v
  | int16 => wrap_signed 16 v
  | uint16 => wrap_unsigned 16 v
  | int32 => wrap_signed 32 v
  | uint32 => wrap_unsigned 32 v
  | int64 => wrap_signed 64 v
  | uint64 => wrap_unsigned 64 v
  | float32 | complex64 => round_float 24 v
  | float64 | complex128 => round_float 53 v
  end.

(** [cupy.empty(shape, dtype)]: the cells are unspecified until written;
    the model holds zeros. *)
Definition empty (shape : list Z) (d : dtype) : ndarray :=
  {| arr_dtype := d; arr_shape := shape;
     arr_data := repeat 0 (Z.to_nat (prod_shape shape)) |}.

(** [output[...] = v] with conversion to the dtype of [output]. *)
Definition fill (output : ndarray) (v : Z) : ndarray :=
  {| arr_dtype := arr_dtype output; arr_shape := arr_shape output;
     arr_data := map (fun _ => astype (arr_dtype output) v) (arr_data output) |}.

(** [output[...] = y[...]] *)
Definition assign (output : ndarray) (y : list Z) : ndarray :=
  {| arr_dtype := arr_dtype output; arr_shape := arr_shape output;
     arr_data := map (astype (arr_dtype output)) y |}.

(** [label(input, structure=None, output=None)] *)
Definition label (sched : schedule) (input : input_arg)
           (structure : structure_arg) (output : output_arg)
  : py_exception + label_return :=
  match input with
  | NotCupyArray => inl TypeError
  | CupyArray input =>
    if is_complex (arr_dtype input) then inl TypeError else
    let structure :=
      match structure with
      | StructureNone =>
          _generate_binary_structure (length (arr_shape input)) 1
      | StructureArray s => s
      end in
    let structure := as_bool_array structure in
    if negb (ndim structure =? ndim input) then inl RuntimeError else
    if existsb (fun i => negb (i =? 3)) (arr_shape structure) then inl ValueError
    else
      let checked :=
        match output with
        | OutputArray o =>
            if negb (shape_eqb (arr_shape o) (arr_shape input)) then None
            else Some (true, o)
        | OutputNone => Some (false, empty (arr_shape input) int32)
        | OutputDtype d => Some (false, empty (arr_shape input) d)
        end in
      match checked with
      | None => inl ValueError
      | Some (caller_provided_output, output) =>
          let (output, maxlabel) :=
            if size input =? 0 then (output, 0)
            else if ndim input =? 0 then
              let maxlabel := if rd (arr_data input) 0 =? 0 then 0 else 1 in
              (fill output maxlabel, maxlabel)
            else
              let (y, maxlabel) :=
                _label sched (arr_data input) (arr_shape input) structure in
              if negb (dtype_eqb (arr_dtype output) int32)
              then (assign output y, maxlabel)
              else ({| arr_dtype := arr_dtype output;
                       arr_shape := arr_shape output;
                       arr_data := y |}, maxlabel)
          in
          if caller_provided_output then inr (ReturnCount maxlabel output)
          else inr (ReturnPair output maxlabel)
      end
  end.

(** ** Helpers of the measurement functions *)

(** [dt.itemsize] *)
Definition itemsize (d : dtype) : Z :=
  match d with
  | bool_ | int8 | uint8 => 1
  | int16 | uint16 => 2
  | int32 | uint32 | float32 => 4
  | int64 | uint64 | float64 | complex64 => 8
  | complex128 => 16
  end.

(** [cupy.issubdtype(dt, cupy.signedinteger)] *)
Definition is_signedinteger (d : dtype) : bool :=
  match d with int8 | int16 | int32 | int64 => true | _ => false end.

(** [cupy.issubdtype(dt, cupy.unsignedinteger)] *)
Definition is_unsignedinteger (d : dtype) : bool :=
  match d with uint8 | uint16 | uint32 | uint64 => true | _ => false end.

(** [_safely_castable_to_int(dt)].  [int_size] is
    [cupy.dtype(int).itemsize], the size in bytes of the platform's
    default integer (8, or 4 where a C long has 32 bits). *)
Definition _safely_castable_to_int (int_size : Z) (dt : dtype) : bool :=
  (is_signedinteger dt && (itemsize dt <=? int_size))
  || (is_unsignedinteger dt && (itemsize dt <? int_size)).

(** [numpy.cumprod] of a list of [int64]: the running products. *)
Fixpoint cumprod_from (acc : Z) (l : list Z) : list Z :=
  match l with
  | [] => []
  | a :: t => let p := wrap_signed 64 (acc * a) in p :: cumprod_from p t
  end.

Definition cumprod (l : list Z) : list Z := cumprod_from 1 l.

(** [dim_prod = numpy.cumprod([1] + list(dims[:0:-1]))[::-1]]; the slice
    [dims[:0:-1]] runs from the last axis down to the second. *)
Definition dim_prod (dims : list Z) : list Z :=
  rev (cumprod (1 :: rev (tl dims))).

(** [//] and [%] on numpy integers: floor division and the remainder with
    the sign of the divisor; both give 0 for a zero divisor. *)
Definition floor_divide (a b : Z) : Z := if b =? 0 then 0 else a / b.
Definition remainder (a b : Z) : Z := if b =? 0 then 0 else a mod b.

(** [tuple((result // dim_prod) % dims)] for a flat position [result] in
    an array of shape [dims], as [minimum_position], [maximum_position]
    and [extrema] compute it.  The two operands of [%] have the rank of
    the array as length; for rank 0 the second is empty and so is the
    tuple. *)
Definition position_tuple (dims : list Z) (result : Z) : list Z :=
  map (fun p => remainder (floor_divide result (fst p)) (snd p))
      (combine (dim_prod dims) dims).

(** [[tuple(v) for v in (result.reshape(-1, 1) // dim_prod) % dims]] *)
Definition position_tuples (dims : list Z) (result : list Z) : list (list Z) :=
  map (position_tuple dims) result.

(** ** The kernels of [sum] and [mean]

    These kernels accumulate in [float64].  The model covers images whose
    cells hold integers (of an integer dtype, or floats with integral
    values): a [float64] with an integral value is represented by that
    integer, and an addition of two such numbers returns their sum rounded
    to 53 significant bits, which is what the hardware does below the
    overflow threshold of the format.  [labels] and [index] are arrays of
    one integer dtype, so that the C comparison [labels == index[j]]
    compares their values. *)

(** Conversion of an integer cell to [double]. *)
Definition to_double (v : Z) : Z := round_float 53 v.

(** [atomicAdd(&out[addr], val)] on a [float64] buffer. *)
Definition atomicAdd_double (out : list Z) (addr val : Z) : list Z :=
  wr out addr (round_float 53 (rd out addr + val)).

(** [atomicAdd(&count[addr], val)] on a [uint64] buffer. *)
Definition atomicAdd_uint64 (count : list Z) (addr val : Z) : list Z :=
  wr count addr (wrap_unsigned 64 (rd count addr + val)).

(** [for (ptrdiff_t j = j0; j < size; j++) if (labels == index[j]) ...]:
    the [j] at which the loop reaches the test that succeeds, if any;
    [steps] is the number of iterations left before [j] reaches [size]. *)
Fixpoint match_loop (index : list Z) (label j : Z) (steps : nat) : option Z :=
  match steps with
  | O => None
  | S s => if label =? rd index j then Some j
           else match_loop index label (j + 1) s
  end.

Inductive sum_pc : Type :=
| SStart                     (* the loop over j, up to the atomicAdd *)
| SDone.

(** One thread of [_ndimage_sum_kernel]: the loop reads [index] only, the
    [atomicAdd] is its one access to shared memory. *)
Definition sum_step (input labels index : list Z) (size : Z)
           (i : Z) (out : list Z) (pc : sum_pc) : list Z * sum_pc :=
  match pc with
  | SStart =>
      match match_loop index (rd labels i) 0 (Z.to_nat size) with
      | Some j => (atomicAdd_double out j (to_double (rd input i)), SDone)
      | None => (out, SDone)
      end
  | SDone => (out, SDone)
  end.

(** [_ndimage_sum_kernel(input, labels, index, size, out)], one thread per
    cell of [input]; the value is the buffer [out] after the launch. *)
Definition _ndimage_sum_kernel (sched : list nat) (input labels index : list Z)
           (size : Z) (out : list Z) : list Z :=
  fst (launch (sum_step input labels index size) sched 1 (length input)
              SStart out).

Inductive mean_pc : Type :=
| MStart                     (* the loop over j, up to the first atomicAdd *)
| MCount (j : Z)             (* atomicAdd(&count[j], 1); break; *)
| MDone.

(** One thread of [_ndimage_mean_kernel]; the memory is [(out, count)]. *)
Definition mean_step (input labels index : list Z) (size : Z)
           (i : Z) (m : list Z * list Z) (pc : mean_pc)
  : (list Z * list Z) * mean_pc :=
  let (out, count) := m in
  match pc with
  | MStart =>
      match match_loop index (rd labels i) 0 (Z.to_nat size) with
      | Some j => ((atomicAdd_double out j (to_double (rd input i)), count),
                   MCount j)
      | None => (m, MDone)
      end
  | MCount j => ((out, atomicAdd_uint64 count j 1), MDone)
  | MDone => (m, MDone)
  end.

(** [_ndimage_mean_kernel(input, labels, index, size, out, count)]: the
    buffers [(out, count)] after the launch. *)
Definition _ndimage_mean_kernel (sched : list nat) (input labels index : list Z)
           (size : Z) (out count : list Z) : list Z * list Z :=
  fst (launch (mean_step input labels index size) sched 2 (length input)
              MStart (out, count)).

(** [a.sum(...)] for cells of dtype [d] whose exact sum is [v]: integers
    accumulate in [int64], or in [uint64] for an unsigned dtype, with
    wrap-around.  Floats are added in their own format, in an order that
    the library chooses; for them the model gives the rounded exact sum,
    which is the result whenever no partial sum needs rounding. *)
Definition sum_wrap (d : dtype) (v : Z) : Z :=
  match d with
  | float32 | complex64 => round_float 24 v
  | float64 | complex128 => round_float 53 v
  | _ => if is_unsignedinteger d then wrap_unsigned 64 v else wrap_signed 64 v
  end.













(** ** [_select] and the functions built on it

    The model covers an [input] and [labels] of one shape (for which
    [cupy.broadcast_arrays] returns them unchanged) that hold integers, and
    an [index] that is [None], a Python integer or a one-dimensional array
    of integers of the default integer type.  Arrays are given by their
    flat data in row-major order, which is the order of [ravel()] and of
    boolean-mask indexing. *)

(** An entry of a result: an integer (a value of [input] or a flat
    position), or the [float64] [twice / 2.0] of a median. *)
Inductive value : Type :=
| VInt (v : Z)
| VHalf (twice : Z).

(** A result array: zero-dimensional, or of the shape of [index]. *)
Inductive select_array : Type :=
| Scalar0 (v : value)
| Array1 (vs : list value).

Record select_flags : Type := mk_flags {
  find_min : bool;
  find_max : bool;
  find_min_positions : bool;
  find_max_positions : bool;
  find_median : bool
}.

Inductive index_arg : Type :=
| IndexNone
| IndexScalar (v : Z)
| IndexArray (a : list Z).

(** [a.min()] and [a.max()]; [None] stands for the [ValueError] that a
    reduction without identity raises on an empty array. *)
Definition amin (l : list Z) : option Z :=
  match l with [] => None | a :: t => Some (fold_left Z.min t a) end.

Definition amax (l : list Z) : option Z :=
  match l with [] => None | a :: t => Some (fold_left Z.max t a) end.

(** The cell that the entry [i] of an index array names in an array of
    [n] cells: the library wraps such an index around [n], so that a
    negative one counts from the end. *)
Definition wrap_index (n i : Z) : Z := i mod n.

Definition take (a : list Z) (i : Z) : Z := rd a (wrap_index (len a) i).

(** [a[idx]] for an array of indices. *)
Definition gather (a idx : list Z) : list Z := map (take a) idx.

(** [a[idx] = vals] for arrays of indices and values.  The stores are
    performed here in the order of [idx]; the library leaves open which
    of several stores to one cell is the last. *)
Definition scatter (a idx vals : list Z) : list Z :=
  fold_left (fun (b : list Z) (p : Z * Z) =>
               wr b (wrap_index (len b) (fst p)) (snd p))
            (combine idx vals) a.

(** [a[mask]] *)
Definition compress (mask : list bool) (a : list Z) : list Z :=
  map snd (filter (fun p : bool * Z => fst p) (combine mask a)).

(** [cupy.bincount(l)] for non-negative integers. *)
Definition bincount (l : list Z) : list Z :=
  match amax l with
  | None => []
  | Some mx => map (fun v => Z.of_nat (count_occ Z.eq_dec l v)) (zrange (mx + 1))
  end.

Fixpoint cumsum_from (acc : Z) (l : list Z) : list Z :=
  match l with
  | [] => []
  | a :: t => (acc + a) :: cumsum_from (acc + a) t
  end.

(** [cupy.cumsum(l)] *)
Definition cumsum (l : list Z) : list Z := cumsum_from 0 l.

(** The first result of [cupy.unique(l, return_inverse=True)]: the
    distinct values in ascending order. *)
Definition unique (l : list Z) : list Z := nodup Z.eq_dec (sort l).

(** [cupy.searchsorted(u, v)] for an ascending [u]: the number of entries
    below [v]; for an entry of [u] this is its position, which is what the
    second result of [cupy.unique] holds for every label. *)
Definition searchsorted (u : list Z) (v : Z) : Z :=
  Z.of_nat (length (filter (fun a => a <? v) u)).

(** [positions[vals == v][0]] *)
Definition first_equal (v : Z) (vals positions : list Z) : Z :=
  hd 0 (compress (map (fun a => a =? v) vals) positions).

(** [label_change_index], [min_index] and [max_index] of [_select], for
    the labels [ls] of the sorted cells. *)
Definition label_change_index (ls : list Z) : list Z := cumsum (bincount ls).

Definition min_index (ls : list Z) : list Z :=
  0 :: removelast (label_change_index ls).

Definition max_index (ls : list Z) : list Z :=
  map (fun v => v - 1) (label_change_index ls).

(** [r = cupy.zeros(size, ...); r[labels[idx]] = a[idx]] *)
Definition per_label (size : Z) (ls idx a : list Z) : list Z :=
  scatter (repeat 0 (Z.to_nat size)) (gather ls idx) (gather a idx).

Section Select.

(** [cupy.dtype(int).itemsize]. *)
Variable int_size : Z.

(** [cupy.lexsort(cupy.stack((input, labels)))]: indices that sort the
    cells by label and, within a label, by value.  The library does not
    say how it orders cells with equal keys, so the function is a
    parameter. *)
Variable lexsort : list Z -> list Z -> list nat.

(** [cupy.median] of a one-dimensional array. *)
Variable cupy_median : list Z -> py_exception + value.

(** The inner function [single_group(vals, positions)] of [_select]. *)
Definition single_group (flags : select_flags) (vals positions : list Z)
  : py_exception + list select_array :=
  let extrema_asked :=
    find_min flags || find_min_positions flags
    || find_max flags || find_max_positions flags in
  match amin vals, amax vals with
  | Some mn, Some mx =>
      let result :=
        (if find_min flags then [Scalar0 (VInt mn)] else [])
        ++ (if find_min_positions flags
            then [Scalar0 (VInt (first_equal mn vals positions))] else [])
        ++ (if find_max flags then [Scalar0 (VInt mx)] else [])
        ++ (if find_max_positions flags
            then [Scalar0 (VInt (first_equal mx vals positions))] else []) in
      if find_median flags then
        match cupy_median vals with
        | inl e => inl e
        | inr m => inr (result ++ [Scalar0 m])
        end
      else inr result
  | _, _ =>
      if extrema_asked then inl ValueError
      else if find_median flags then
        match cupy_median vals with
        | inl e => inl e
        | inr m => inr [Scalar0 m]
        end
      else inr []
  end.

(** The part of [_select] for an array [index]. *)
Definition select_by_index (flags : select_flags) (input labels : ndarray)
           (index : list Z) : py_exception + list select_array :=
  let x := arr_data input in
  let l := arr_data labels in
  match amin l, amax l with
  | Some lmin, Some lmax =>
      let remap :=
        negb (_safely_castable_to_int int_size (arr_dtype labels))
        || (lmin <? 0) || (lmax >? len l) in
      (* labels, idxs, found and labels.max() + 1 *)
      let l' :=
        if remap then map (searchsorted (unique l)) l else l in
      let idxs :=
        if remap then
          map (fun i => if i >=? len (unique l) then 0 else i)
              (map (searchsorted (unique l)) index)
        else index in
      let found :=
        if remap then
          map (fun p : Z * Z => take (unique l) (fst p) =? snd p)
              (combine idxs index)
        else map (fun i => (i >=? 0) && (i <=? lmax)) idxs in
      let lmax' := match amax l' with Some m => m | None => 0 end in
      let top :=
        if remap then wrap_signed 64 (lmax' + 1)
        else astype (arr_dtype labels) (lmax' + 1) in
      let idxs :=
        map (fun p : Z * bool => if snd p then fst p else top)
            (combine idxs found) in
      (* the cells sorted by label, then by value *)
      let order := lexsort x l' in
      let xs := map (fun c => nth c x 0) order in
      let ls := map (fun c => nth c l' 0) order in
      let positions := map (fun c => nth c (zrange (len x)) 0) order in
      let at_min (a : list Z) :=
        gather (per_label (lmax' + 2) ls (min_index ls) a) idxs in
      let at_max (a : list Z) :=
        gather (per_label (lmax' + 2) ls (max_index ls) a) idxs in
      let locs := zrange (len ls) in
      let lo := at_min locs in
      let hi := at_max locs in
      let step := map (fun p : Z * Z => (snd p - fst p) / 2) (combine lo hi) in
      let lo := map (fun p : Z * Z => fst p + snd p) (combine lo step) in
      let hi := map (fun p : Z * Z => fst p - snd p) (combine hi step) in
      inr ((if find_min flags then [Array1 (map VInt (at_min xs))] else [])
           ++ (if find_min_positions flags
               then [Array1 (map VInt (at_min positions))] else [])
           ++ (if find_max flags then [Array1 (map VInt (at_max xs))] else [])
           ++ (if find_max_positions flags
               then [Array1 (map VInt (at_max positions))] else [])
           ++ (if find_median flags
               then [Array1 (map (fun p : Z * Z =>
                                    VHalf (astype (arr_dtype input)
                                                    (take xs (fst p)
                                                     + take xs (snd p))))
                                 (combine lo hi))]
               else []))
  | _, _ => inl ValueError
  end.

(** [_select(input, labels, index, find_min, ...)] *)
Definition _select (flags : select_flags) (input : ndarray)
           (labels : option ndarray) (index : index_arg)
  : py_exception + list select_array :=
  let positions := zrange (len (arr_data input)) in
  match labels with
  | None => single_group flags (arr_data input) positions
  | Some labels =>
      match index with
      | IndexNone =>
          let mask := map (fun v => 0 <? v) (arr_data labels) in
          single_group flags (compress mask (arr_data input))
                       (compress mask positions)
      | IndexScalar v =>
          let mask := map (fun a => a =? v) (arr_data labels) in
          single_group flags (compress mask (arr_data input))
                       (compress mask positions)
      | IndexArray a => select_by_index flags input labels a
      end
  end.

(** [_select(...)[0]] *)
Definition first_result (r : py_exception + list select_array)
  : py_exception + select_array :=
  match r with
  | inl e => inl e
  | inr rs => match rs with a :: _ => inr a | [] => inl ValueError end
  end.

(** [minimum(input, labels, index)] *)
Definition minimum (input : ndarray) (labels : option ndarray)
           (index : index_arg) : py_exception + select_array :=
  first_result (_select (mk_flags true false false false false)
                        input labels index).

(** [maximum(input, labels, index)] *)
Definition maximum (input : ndarray) (labels : option ndarray)
           (index : index_arg) : py_exception + select_array :=
  first_result (_select (mk_flags false true false false false)
                        input labels index).

(** What [minimum_position] and [maximum_position] return: a tuple, or a
    list of tuples. *)
Inductive position_return : Type :=
| OneTuple (t : list Z)
| TupleList (ts : list (list Z)).

Definition as_position (v : value) : Z :=
  match v with VInt p => p | VHalf p => p end.

(** The lines of [minimum_position] and [maximum_position] after the
    call of [_select]. *)
Definition positions_of (dims : list Z) (result : select_array)
  : position_return :=
  match result with
  | Scalar0 v => OneTuple (position_tuple dims (as_position v))
  | Array1 vs => TupleList (position_tuples dims (map as_position vs))
  end.

(** [minimum_position(input, labels, index)] *)
Definition minimum_position (input : ndarray) (labels : option ndarray)
           (index : index_arg) : py_exception + position_return :=
  match first_result (_select (mk_flags false false true false false)
                              input labels index) with
  | inl e => inl e
  | inr r => inr (positions_of (arr_shape input) r)
  end.

(** [maximum_position(input, labels, index)] *)
Definition maximum_position (input : ndarray) (labels : option ndarray)
           (index : index_arg) : py_exception + position_return :=
  match first_result (_select (mk_flags false false false true false)
                              input labels index) with
  | inl e => inl e
  | inr r => inr (positions_of (arr_shape input) r)
  end.


(** [extrema(input, labels, index)]: the minimums, the maximums and
    their positions. *)
Definition extrema (input : ndarray) (labels : option ndarray)
           (index : index_arg)
  : py_exception
    + (select_array * select_array * position_return * position_return) :=
  match _select (mk_flags true true true true false) input labels index with
  | inl e => inl e
  | inr [minimums; min_positions; maximums; max_positions] =>
      inr (minimums, maximums,
           positions_of (arr_shape input) min_positions,
           positions_of (arr_shape input) max_positions)
  | inr _ => inl ValueError
  end.

End Select.

(** ** [sum] and [mean]

    The model covers an [input] and [labels] that are arrays of one shape
    and hold integers, and an [index] that is [None], a Python integer
    or a one-dimensional array of integers. *)







(** * Part II: the vocabulary of the properties *)

(** The structure passes the checks of [label] for a field of rank [r]. *)
Definition validated (r : nat) (structure : ndarray) : Prop :=
  arr_shape structure = repeat 3 r /\ well_formed structure.

Definition neg (v : list Z) : list Z := map Z.opp v.

(** The active offsets are closed under negation. *)
Definition centrosymmetric (structure : ndarray) : Prop :=
  forall v, In v (vecs structure) -> In (neg v) (vecs structure).

Definition vec_eqb (v w : list Z) : bool := shape_eqb v w.

Definition centrosymmetricb (structure : ndarray) : bool :=
  forallb (fun v => existsb (vec_eqb (neg v)) (vecs structure)) (vecs structure).

Definition trit (x : Z) : Prop := -1 <= x <= 1.

(** Cell [i] of the field [x] is active. *)
Definition active (x : list Z) (i : Z) : bool :=
  (0 <=? i) && (i <? len x) && negb (rd x i =? 0).

(** [while (j != y[j]) { j = y[j]; }] with a bound on the iterations. *)
Fixpoint find_fuel (fuel : nat) (y : list Z) (j : Z) : Z :=
  match fuel with
  | O => j
  | S f => if j =? rd y j then j else find_fuel f y (rd y j)
  end.

Definition find (y : list Z) (j : Z) : Z := find_fuel (length y) y j.

(** Number of parent links between [j] and its root. *)
Fixpoint depth_fuel (fuel : nat) (y : list Z) (j : Z) : nat :=
  match fuel with
  | O => O
  | S f => if j =? rd y j then O else S (depth_fuel f y (rd y j))
  end.

Definition depth (y : list Z) (j : Z) : nat := depth_fuel (length y) y j.

(** The [int] arithmetic of the kernels stays in range: the field has at
    most [2^30] cells (so that no flat index, stride or sum of two
    positions overflows) and the flat array of directions can be indexed
    by an [int]. *)
Definition ints_fit (y_shape : list Z) (structure : ndarray) : Prop :=
  prod_shape y_shape <= 2 ^ 30 /\
  (Z.of_nat (length (dirs_of structure)) + 1) * Z.of_nat (length y_shape)
  <= max_signed.

(** Example inputs. *)
Definition face3 : ndarray :=
  {| arr_dtype := bool_; arr_shape := [3]; arr_data := [1; 1; 1] |}.

(** * Part III: proofs *)

(** ** Facts about machine integers and flat arrays *)

Section Int32Facts.

Lemma wrap32_id z : in_range z -> wrap32 z = z.
Proof.
  unfold in_range, min_signed, max_signed, wrap32; intros H.
  rewrite Z.mod_small; lia.
Qed.

Lemma wrap32_range z : in_range (wrap32 z).
Proof.
  unfold in_range, min_signed, max_signed, wrap32.
  pose proof (Z.mod_pos_bound (z + 2 ^ 31) (2 ^ 32) ltac:(lia)); lia.
Qed.

End Int32Facts.

Section ArrFacts.

Context {A : Type}.

Lemma length_upd n (v : A) l : length (upd n v l) = length l.
Proof. revert n; induction l; intros [|n]; simpl; auto. Qed.

Lemma nth_upd_eq n (v : A) l d : (n < length l)%nat -> nth n (upd n v l) d = v.
Proof.
  revert n; induction l; intros [|n]; simpl; intros; try lia; auto.
  apply IHl; lia.
Qed.

Lemma nth_upd_ne n m (v : A) l d : n <> m -> nth m (upd n v l) d = nth m l d.
Proof.
  revert n m; induction l; intros [|n] [|m]; simpl; intros; auto;
    congruence.
Qed.

Lemma nth_error_upd_eq n (v : A) l :
  (n < length l)%nat -> nth_error (upd n v l) n = Some v.
Proof.
  revert n; induction l; intros [|n]; simpl; intros; try lia; auto.
  apply IHl; lia.
Qed.

Lemma nth_error_upd_ne n m (v : A) l :
  n <> m -> nth_error (upd n v l) m = nth_error l m.
Proof.
  revert n m; induction l; intros [|n] [|m]; simpl; intros; auto;
    congruence.
Qed.

End ArrFacts.

Lemma len_wr l i v : len (wr l i v) = len l.
Proof. unfold len, wr; now rewrite length_upd. Qed.

Lemma rd_wr_eq l i v : 0 <= i < len l -> rd (wr l i v) i = v.
Proof. unfold rd, wr, len; intros; apply nth_upd_eq; lia. Qed.

Lemma rd_wr_ne l i j v : 0 <= i -> 0 <= j -> i <> j -> rd (wr l i v) j = rd l j.
Proof. unfold rd, wr; intros; apply nth_upd_ne; lia. Qed.

Lemma rd_wr l i j v :
  0 <= i < len l -> 0 <= j ->
  rd (wr l i v) j = if Z.eq_dec j i then v else rd l j.
Proof.
  intros; destruct (Z.eq_dec j i) as [->|];
    [apply rd_wr_eq | apply rd_wr_ne]; lia.
Qed.

Lemma in_zrange n i : In i (zrange n) <-> 0 <= i < n.
Proof.
  unfold zrange; rewrite in_map_iff; split.
  - intros (k & <- & Hk); apply in_seq in Hk; lia.
  - intros H; exists (Z.to_nat i); split; [lia | apply in_seq; lia].
Qed.

Lemma NoDup_zrange n : NoDup (zrange n).
Proof.
  unfold zrange; apply Injective_map_NoDup;
    [intros a b; lia | apply seq_NoDup].
Qed.

Lemma length_zrange n : length (zrange n) = Z.to_nat n.
Proof. unfold zrange; now rewrite length_map, length_seq. Qed.

(** ** Facts about arrays and shapes *)

Lemma dtype_eqb_eq a b : dtype_eqb a b = true <-> a = b.
Proof. destruct a, b; cbv; split; intros H; try reflexivity; discriminate H. Qed.

Lemma well_formedb_spec a : well_formedb a = true <-> well_formed a.
Proof.
  unfold well_formedb, well_formed.
  rewrite andb_true_iff, forallb_forall, Forall_forall, Z.eqb_eq.
  split; intros [H ?]; split; auto; intros x Hx; specialize (H x Hx); lia.
Qed.

Lemma shape_eqb_eq s t : shape_eqb s t = true <-> s = t.
Proof.
  unfold shape_eqb; revert t; induction s as [|a s IH]; intros [|b t]; simpl;
    try (split; [discriminate | congruence]); [tauto|].
  rewrite andb_true_iff in *; rewrite andb_true_iff, Z.eqb_eq.
  specialize (IH t); rewrite andb_true_iff in IH.
  split.
  - intros (Hl & -> & Hf); f_equal; apply IH; auto.
  - intros [= -> ->]; destruct IH as [_ IH]; specialize (IH eq_refl); tauto.
Qed.

Lemma centrosymmetricb_spec s : centrosymmetricb s = true <-> centrosymmetric s.
Proof.
  unfold centrosymmetricb, centrosymmetric; rewrite forallb_forall.
  split; intros H v Hv; specialize (H v Hv).
  - apply existsb_exists in H as (w & Hw & E).
    apply shape_eqb_eq in E; now subst.
  - apply existsb_exists; exists (neg v); split; auto.
    now apply shape_eqb_eq.
Qed.

(** ** Multi-indices *)

Section Ndindex.

Lemma in_ndindex shape c :
  In c (ndindex shape) <-> Forall2 (fun ck d => 0 <= ck < d) c shape.
Proof.
  revert c; induction shape as [|d rest IH]; intros c; simpl.
  - split; [intros [<-|[]]; constructor | intros H; inversion H; auto].
  - rewrite in_flat_map; split.
    + intros (c0 & H0 & H1); apply in_map_iff in H1 as (c' & <- & H1).
      constructor; [now apply in_zrange | now apply IH].
    + intros H; inversion H as [|c0 ? c' ? H0 H1]; subst.
      exists c0; split; [now apply in_zrange |].
      apply in_map; now apply IH.
Qed.

Lemma NoDup_flat_map {A B : Type} (f : A -> list B) l :
  NoDup l -> (forall a, In a l -> NoDup (f a)) ->
  (forall a b x, In a l -> In b l -> In x (f a) -> In x (f b) -> a = b) ->
  NoDup (flat_map f l).
Proof.
  induction l as [|a l IH]; simpl; intros Hl Hf Hd; [constructor|].
  inversion Hl; subst.
  assert (NoDup (flat_map f l)) as IH' by (apply IH; eauto).
  clear IH; revert IH'.
  assert (forall x, In x (f a) -> ~ In x (flat_map f l)) as Hx.
  { intros x Hx Hin; apply in_flat_map in Hin as (b & Hb & Hxb).
    assert (a = b) by (eapply Hd; eauto); subst; contradiction. }
  specialize (Hf a (or_introl eq_refl)); revert Hx Hf.
  generalize (f a) (flat_map f l); intros la lb; induction la; simpl; intros; auto.
  inversion Hf; subst; constructor.
  - rewrite in_app_iff; intros [?|?]; [contradiction | eapply Hx; eauto].
  - apply IHla; auto.
Qed.

Lemma NoDup_ndindex shape : NoDup (ndindex shape).
Proof.
  induction shape as [|d rest IH]; simpl.
  - constructor; [intros [] | constructor].
  - apply NoDup_flat_map.
    + apply NoDup_zrange.
    + intros a _; apply Injective_map_NoDup; auto; intros x y; congruence.
    + intros a b x _ _ Ha Hb.
      apply in_map_iff in Ha as (? & <- & _), Hb as (? & [=] & _); auto.
Qed.

Lemma length_ndindex shape :
  Forall (fun d => 0 <= d) shape ->
  Z.of_nat (length (ndindex shape)) = prod_shape shape.
Proof.
  induction 1 as [|d rest Hd _ IH]; simpl; auto.
  rewrite <- IH; clear IH.
  assert (forall l : list Z,
             length (flat_map (fun c => map (cons c) (ndindex rest)) l)
             = (length l * length (ndindex rest))%nat) as E.
  { induction l; simpl; auto; rewrite length_app, length_map; lia. }
  rewrite E, length_zrange; lia.
Qed.

End Ndindex.

(** ** Properties of the offset compiler *)

Section Offsets.

Definition encode (a : Z) (v : list Z) : Z :=
  fold_left (fun offset x => offset * 3 + x) v a.

Lemma enc_encode v : enc v = encode 0 v.
Proof. destruct v; reflexivity. Qed.

Lemma encode_shift a v :
  encode a v = a * 3 ^ Z.of_nat (length v) + encode 0 v.
Proof.
  unfold encode; revert a; induction v as [|x v IH]; intros a.
  - simpl; lia.
  - cbn [fold_left length]; rewrite IH, (IH (0 * 3 + x)).
    rewrite Nat2Z.inj_succ, Z.pow_succ_r by lia; ring.
Qed.

Lemma encode_bound v :
  Forall trit v -> 2 * Z.abs (encode 0 v) <= 3 ^ Z.of_nat (length v) - 1.
Proof.
  induction v as [|x v IH] using rev_ind; intros Hv.
  - simpl; lia.
  - apply Forall_app in Hv as [Hv Hx]; inversion Hx as [|? ? Hx' _]; subst.
    specialize (IH Hv); unfold encode in *; rewrite fold_left_app.
    cbn [fold_left]; rewrite length_app; cbn [length].
    rewrite Nat2Z.inj_add, Z.pow_add_r by lia; change (3 ^ Z.of_nat 1) with 3.
    unfold trit in Hx'; lia.
Qed.

Lemma encode_neg a v : encode (- a) (neg v) = - encode a v.
Proof.
  unfold encode, neg; revert a; induction v as [|x v IH]; intros a; simpl; auto.
  rewrite <- IH; f_equal; ring.
Qed.

Lemma enc_neg v : enc (neg v) = - enc v.
Proof. rewrite !enc_encode; apply (encode_neg 0). Qed.

Lemma enc_zero_inv v :
  Forall trit v -> enc v = 0 -> v = repeat 0 (length v).
Proof.
  rewrite enc_encode; induction v as [|x v IH]; intros Hv E; auto.
  inversion Hv as [|? ? Hx Hv']; subst.
  change (encode 0 (x :: v)) with (encode (0 * 3 + x) v) in E.
  rewrite encode_shift in E.
  pose proof (encode_bound v Hv') as B.
  assert (0 < 3 ^ Z.of_nat (length v)) as P by (apply Z.pow_pos_nonneg; lia).
  assert (x = 0) as -> by (unfold trit in Hx; nia).
  simpl; f_equal; apply IH; auto; lia.
Qed.

Lemma enc_repeat_zero r : enc (repeat 0 r) = 0.
Proof.
  rewrite enc_encode; unfold encode; induction r; simpl; auto.
Qed.

Lemma neg_involutive v : neg (neg v) = v.
Proof.
  unfold neg; rewrite map_map; rewrite <- (map_id v) at 2.
  apply map_ext; intros; lia.
Qed.

Lemma length_neg v : length (neg v) = length v.
Proof. apply length_map. Qed.

Lemma in_numpy_where a c :
  In c (numpy_where a) -> In c (ndindex (arr_shape a)).
Proof.
  unfold numpy_where; intros H.
  apply in_map_iff in H as ([c' x] & <- & H).
  apply filter_In in H as [H _]; now apply in_combine_l in H.
Qed.

Lemma NoDup_map_fst_filter {A B : Type} (f : A * B -> bool) l (d : list B) :
  NoDup l -> NoDup (map fst (filter f (combine l d))).
Proof.
  intros Hl; revert d; induction Hl as [|a l Ha Hl IH]; intros [|b d];
    simpl; try constructor.
  destruct (f (a, b)); simpl; auto.
  constructor; auto.
  intros H; apply in_map_iff in H as ([a' b'] & E & H); simpl in E; subst.
  apply filter_In in H as [H _]; apply in_combine_l in H; contradiction.
Qed.

Lemma NoDup_numpy_where a : NoDup (numpy_where a).
Proof. apply NoDup_map_fst_filter, NoDup_ndindex. Qed.

Lemma NoDup_vecs s : NoDup (vecs s).
Proof.
  unfold vecs; apply Injective_map_NoDup; [| apply NoDup_numpy_where].
  intros v; induction v as [|x v IH]; intros [|y w]; simpl; try congruence.
  intros [= E1 E2]; f_equal; [lia | auto].
Qed.

Lemma NoDup_dirs_of s : NoDup (dirs_of s).
Proof. apply NoDup_filter, NoDup_vecs. Qed.

Lemma in_dirs_of s v : In v (dirs_of s) <-> In v (vecs s) /\ enc v < 0.
Proof. unfold dirs_of; now rewrite filter_In, Z.ltb_lt. Qed.

Lemma vecs_shape r s v :
  validated r s -> In v (vecs s) -> length v = r /\ Forall trit v.
Proof.
  intros [Hs _] Hv; unfold vecs in Hv.
  apply in_map_iff in Hv as (c & <- & Hc).
  apply in_numpy_where, in_ndindex in Hc; rewrite Hs in Hc.
  rewrite length_map; clear Hs; revert c Hc.
  induction r; intros c Hc; inversion Hc; subst; simpl; auto.
  destruct (IHr _ H3) as [-> ?]; split; auto.
  constructor; auto; unfold trit; lia.
Qed.

End Offsets.

(** For a centrosymmetric structure accepted by [label] for rank [r], the
    filter [enc v < 0] keeps exactly one of [v] and [-v] for every active
    non-zero offset [v], never keeps the all-zero offset, keeps no offset
    twice and keeps active offsets only. *)
Lemma dirs_of_one_direction (r : nat) (s : ndarray) :
  validated r s -> centrosymmetric s ->
  (forall v, In v (vecs s) -> v <> repeat 0 r ->
     (In v (dirs_of s) /\ ~ In (neg v) (dirs_of s)) \/
     (In (neg v) (dirs_of s) /\ ~ In v (dirs_of s)))
  /\ ~ In (repeat 0 r) (dirs_of s)
  /\ NoDup (dirs_of s)
  /\ (forall v, In v (dirs_of s) -> In v (vecs s) /\ v <> repeat 0 r).
Proof.
  intros Hs Hc; repeat split.
  - intros v Hv Hnz.
    destruct (vecs_shape r s v Hs Hv) as [Hl Ht].
    assert (enc v <> 0) as Hne.
    { intros E; apply enc_zero_inv in E; auto; congruence. }
    rewrite !in_dirs_of, enc_neg.
    destruct (Z_lt_ge_dec (enc v) 0); [left | right];
      (split; [split; auto; lia | intros [_ ?]; lia]).
  - rewrite in_dirs_of, enc_repeat_zero; lia.
  - apply NoDup_dirs_of.
  - now apply in_dirs_of in H.
  - apply in_dirs_of in H as [_ H]; intros ->.
    rewrite enc_repeat_zero in H; lia.
Qed.

(** ** Invariants and completion of a thread pool *)

Section PoolFacts.

Context {M L : Type}.
Variable step : Z -> M -> L -> M * L.
Variable Inv : M * list L -> Prop.
Variable done : L -> bool.
Variable mu : M -> L -> nat.
Variable bound : nat.

Hypothesis Inv_step : forall st t, Inv st -> Inv (pool_step step st t).
Hypothesis done_step : forall i m l, done l = true -> step i m l = (m, l).
Hypothesis mu_step :
  forall m ls t l, Inv (m, ls) -> nth_error ls t = Some l -> done l = false ->
    (mu (fst (step (Z.of_nat t) m l)) (snd (step (Z.of_nat t) m l)) < mu m l)%nat.
Hypothesis mu_bound :
  forall m ls t l, Inv (m, ls) -> nth_error ls t = Some l -> (mu m l <= bound)%nat.

Definition thread_done (st : M * list L) (t : nat) : Prop :=
  exists l, nth_error (snd st) t = Some l /\ done l = true.

Lemma upd_same (ls : list L) t l : nth_error ls t = Some l -> upd t l ls = ls.
Proof.
  revert t; induction ls as [|a ls IH]; intros [|t]; simpl; try discriminate.
  - now intros [= ->].
  - intros H; f_equal; auto.
Qed.

Lemma run_inv sched st : Inv st -> Inv (run step sched st).
Proof.
  unfold run; revert st; induction sched; simpl; auto.
Qed.

Lemma run_app s1 s2 (st : M * list L) :
  run step (s1 ++ s2) st = run step s2 (run step s1 st).
Proof. apply fold_left_app. Qed.

Lemma pool_step_length st t :
  length (snd (pool_step step st t)) = length (snd st).
Proof.
  unfold pool_step; destruct (nth_error (snd st) t); auto.
  destruct (step _ _ _); simpl; apply length_upd.
Qed.

Lemma run_length sched st : length (snd (run step sched st)) = length (snd st).
Proof.
  unfold run; revert st; induction sched; simpl; auto; intros st.
  now rewrite IHsched, pool_step_length.
Qed.

Lemma pool_step_other st t t' :
  t <> t' -> nth_error (snd (pool_step step st t)) t' = nth_error (snd st) t'.
Proof.
  unfold pool_step; intros Hne; destruct (nth_error (snd st) t); auto.
  destruct (step _ _ _); simpl; now apply nth_error_upd_ne.
Qed.

Lemma pool_step_self st t l :
  nth_error (snd st) t = Some l ->
  pool_step step st t
  = (fst (step (Z.of_nat t) (fst st) l),
     upd t (snd (step (Z.of_nat t) (fst st) l)) (snd st)).
Proof. unfold pool_step; intros ->; now destruct (step _ _ _). Qed.

Lemma pool_step_done st t l :
  nth_error (snd st) t = Some l -> done l = true -> pool_step step st t = st.
Proof.
  intros Hl Hd; rewrite (pool_step_self _ _ _ Hl), done_step by auto; simpl.
  rewrite upd_same by auto; now destruct st.
Qed.

Lemma thread_done_step st t t' :
  thread_done st t' -> thread_done (pool_step step st t) t'.
Proof.
  intros (l & Hl & Hd); exists l; split; auto.
  destruct (Nat.eq_dec t t') as [->|Hne].
  - now rewrite (pool_step_done _ _ _ Hl Hd).
  - now rewrite pool_step_other.
Qed.

Lemma thread_done_run sched st t :
  thread_done st t -> thread_done (run step sched st) t.
Proof.
  unfold run; revert st; induction sched; simpl; auto; intros st H.
  apply IHsched, thread_done_step, H.
Qed.

Lemma run_repeat_done fuel : forall st t l,
  Inv st -> nth_error (snd st) t = Some l -> (mu (fst st) l <= fuel)%nat ->
  thread_done (run step (repeat t fuel) st) t.
Proof.
  induction fuel as [|fuel IH]; intros [m ls] t l HI Hl Hmu; simpl in *.
  - destruct (done l) eqn:Hd; [exists l; auto |].
    pose proof (mu_step m ls t l HI Hl Hd); lia.
  - destruct (done l) eqn:Hd.
    + apply (thread_done_run (repeat t fuel)), thread_done_step.
      exists l; auto.
    + pose proof (mu_step m ls t l HI Hl Hd) as Hlt.
      pose proof (Inv_step (m, ls) t HI) as HI'.
      rewrite (pool_step_self (m, ls) t l Hl) in *; simpl in *.
      eapply IH; [exact HI' | |].
      * simpl; apply nth_error_upd_eq.
        apply nth_error_Some; congruence.
      * simpl; lia.
Qed.

Lemma completion_done fuel ts : forall st,
  Inv st -> (bound <= fuel)%nat ->
  forall t, In t ts -> (t < length (snd st))%nat ->
  thread_done (run step (flat_map (fun t => repeat t fuel) ts) st) t.
Proof.
  induction ts as [|a ts IH]; intros st HI Hf t Hin Ht; [destruct Hin|].
  simpl; rewrite run_app.
  assert (Inv (run step (repeat a fuel) st)) as HI' by now apply run_inv.
  destruct (Nat.eq_dec a t) as [->|Hne].
  - apply thread_done_run.
    destruct (nth_error (snd st) t) as [l|] eqn:Hl;
      [| apply nth_error_None in Hl; lia].
    eapply run_repeat_done; eauto.
    destruct st as [m ls]; simpl in *.
    pose proof (mu_bound m ls t l HI Hl); lia.
  - apply IH; auto; [destruct Hin; congruence | now rewrite run_length].
Qed.

Theorem launch_done sched fuel n l0 m :
  Inv (m, repeat l0 n) -> (bound <= fuel)%nat ->
  let st := launch step sched fuel n l0 m in
  Inv st /\ length (snd st) = n /\ Forall (fun l => done l = true) (snd st).
Proof.
  intros HI Hf st; unfold launch in st.
  assert (length (snd st) = n) as Hlen.
  { unfold st; rewrite run_length; simpl; apply repeat_length. }
  split; [now apply run_inv | split; auto].
  apply Forall_forall; intros l Hl.
  apply In_nth_error in Hl as (t & Hl).
  assert (t < n)%nat as Ht.
  { rewrite <- Hlen; apply nth_error_Some; congruence. }
  unfold st in *; rewrite run_app in *.
  destruct (completion_done fuel (seq 0 n) (run step sched (m, repeat l0 n)))
    with (t := t) as (l' & Hl' & Hd); auto.
  - now apply run_inv.
  - apply in_seq; lia.
  - rewrite run_length; simpl; now rewrite repeat_length.
  - unfold completion in Hl; congruence.
Qed.

End PoolFacts.

(** ** The parent forest held in the working buffer *)

Section Forest.

Variable x : list Z.

Local Abbreviation act i := (active x i = true).

(** The predicate of the union tie-break: an inactive cell holds [-1], an
    active cell holds the index of an active cell that is not larger than
    its own. *)
Definition forest (y : list Z) : Prop :=
  len y = len x /\
  forall i, 0 <= i < len x ->
    (act i -> 0 <= rd y i <= i /\ act (rd y i)) /\
    (active x i = false -> rd y i = -1).

Lemma act_range i : act i -> 0 <= i < len x.
Proof. unfold active; intros H; lia. Qed.

Lemma act_iff i : act i <-> 0 <= i < len x /\ rd x i <> 0.
Proof. unfold active; lia. Qed.

Lemma forest_act y i : forest y -> act i -> 0 <= rd y i <= i /\ act (rd y i).
Proof. intros [_ F] H; apply F; auto using act_range. Qed.

Lemma forest_inactive y i :
  forest y -> 0 <= i < len x -> active x i = false -> rd y i = -1.
Proof. intros [_ F] H; apply F; auto. Qed.

Lemma forest_active_iff y i :
  forest y -> 0 <= i < len x -> (act i <-> 0 <= rd y i).
Proof.
  intros F H; split; intros A; [apply (forest_act y i F A)|].
  destruct (active x i) eqn:E; auto.
  rewrite (forest_inactive y i F H E) in A; lia.
Qed.

Lemma find_fuel_spec y : forest y -> forall fuel j,
  act j -> (Z.to_nat j <= fuel)%nat ->
  let r := find_fuel fuel y j in rd y r = r /\ 0 <= r <= j /\ act r.
Proof.
  intros F; induction fuel as [|fuel IH]; intros j A Hf; simpl.
  - pose proof (forest_act y j F A); pose proof (act_range j A).
    assert (j = 0) as -> by lia; split; [lia | split; [lia | auto]].
  - pose proof (forest_act y j F A) as [B A']; pose proof (act_range j A).
    destruct (Z.eqb_spec j (rd y j)) as [E|E].
    + split; [lia | split; [lia | auto]].
    + destruct (IH (rd y j) A') as (R1 & R2 & R3); [lia|].
      split; [auto | split; [lia | auto]].
Qed.

Lemma find_fuel_stable y : forest y -> forall f1 f2 j,
  act j -> (Z.to_nat j <= f1)%nat -> (Z.to_nat j <= f2)%nat ->
  find_fuel f1 y j = find_fuel f2 y j.
Proof.
  intros F; induction f1 as [|f1 IH]; intros f2 j A H1 H2.
  - pose proof (forest_act y j F A); pose proof (act_range j A).
    assert (j = 0) as -> by lia.
    assert (rd y 0 = 0) as E by lia.
    destruct f2; simpl; auto; rewrite E; reflexivity.
  - pose proof (forest_act y j F A) as [B A']; pose proof (act_range j A).
    destruct f2 as [|f2]; simpl.
    + assert (j = 0) as -> by lia.
      assert (rd y 0 = 0) as -> by lia; reflexivity.
    + destruct (Z.eqb_spec j (rd y j)); auto.
      apply IH; auto; lia.
Qed.

Lemma len_length (l : list Z) : len l = Z.of_nat (length l).
Proof. reflexivity. Qed.

Lemma find_spec y j :
  forest y -> act j ->
  rd y (find y j) = find y j /\ 0 <= find y j <= j /\ act (find y j).
Proof.
  intros F A; apply find_fuel_spec; auto.
  pose proof (act_range j A); destruct F as [E _]; unfold len in *; lia.
Qed.

Lemma find_root y j : rd y j = j -> find y j = j.
Proof.
  unfold find; intros E; destruct (length y); simpl; auto.
  now rewrite E, Z.eqb_refl.
Qed.

Lemma find_parent y j : forest y -> act j -> find y j = find y (rd y j).
Proof.
  intros F A; pose proof (forest_act y j F A) as [B A'].
  pose proof (act_range j A) as R.
  destruct (Z.eq_dec (rd y j) j) as [E|E]; [now rewrite E|].
  unfold find; destruct (length y) as [|f] eqn:Hl.
  - destruct F as [F _]; unfold len in *; lia.
  - assert (len y = len x) as El by apply F; unfold len in El, R.
    rewrite (find_fuel_stable y F (S f) f (rd y j)) by (auto; lia).
    simpl; destruct (Z.eqb_spec j (rd y j)); [lia | reflexivity].
Qed.

Lemma find_idem y j : forest y -> act j -> find y (find y j) = find y j.
Proof. intros F A; apply find_root, find_spec; auto. Qed.

(** Strong induction over cell indices. *)
Lemma cell_ind (P : Z -> Prop) :
  (forall a, (forall b, 0 <= b < a -> P b) -> P a) -> forall a, P a.
Proof.
  intros H a; destruct (Z_lt_le_dec a 0) as [Hn|Hp].
  - apply H; intros; lia.
  - revert a Hp; apply (Zlt_0_ind P); intros a IH _; apply H.
    intros b Hb; apply IH; lia.
Qed.

(** A successful [atomicCAS(&y[k], k, j)] with [j < k]. *)
Lemma forest_union y j k :
  forest y -> act j -> act k -> rd y k = k -> j < k ->
  forest (wr y k j).
Proof.
  intros F Aj Ak Rk Hjk; pose proof F as [E F'].
  pose proof (act_range j Aj); pose proof (act_range k Ak).
  split; [now rewrite len_wr|].
  intros i Hi; rewrite rd_wr by lia.
  destruct (Z.eq_dec i k) as [->|Hne]; [|apply F'; auto].
  split; [intros _; split; [lia | auto] | congruence].
Qed.

Lemma find_union y j k :
  forest y -> act j -> act k -> rd y k = k -> j < k ->
  forall a, act a ->
    find (wr y k j) a = if find y a =? k then find y j else find y a.
Proof.
  intros F Aj Ak Rk Hjk.
  pose proof (forest_union y j k F Aj Ak Rk Hjk) as F'.
  pose proof (act_range j Aj); pose proof (act_range k Ak).
  pose proof F as [E Fy].
  intros a; induction a as [a IH] using cell_ind; intros Aa.
  pose proof (act_range a Aa).
  pose proof (forest_act y a F Aa) as [Ba Aa'].
  destruct (Z.eq_dec a k) as [->|Hne].
  - rewrite (find_parent _ k F' Ak), rd_wr_eq by lia.
    rewrite IH by (auto; lia).
    rewrite (find_root y k Rk), Z.eqb_refl.
    pose proof (find_spec y j F Aj).
    destruct (Z.eqb_spec (find y j) k); auto; lia.
  - destruct (Z.eq_dec (rd y a) a) as [Ra|Ra].
    + assert (rd (wr y k j) a = a) as Ra' by (rewrite rd_wr_ne; auto; lia).
      rewrite (find_root _ a Ra'), (find_root y a Ra).
      destruct (Z.eqb_spec a k); auto; contradiction.
    + rewrite (find_parent _ a F' Aa), rd_wr_ne by lia.
      rewrite IH by (auto; lia).
      now rewrite <- (find_parent y a F Aa).
Qed.

(** The store [y[i] = j] of the count kernel: [j] is the root of [i]. *)
Lemma forest_compress y i :
  forest y -> act i -> forest (wr y i (find y i)).
Proof.
  intros F A; pose proof F as [E F'].
  pose proof (act_range i A); pose proof (find_spec y i F A) as (R1 & R2 & R3).
  split; [now rewrite len_wr|].
  intros a Ha; rewrite rd_wr by lia.
  destruct (Z.eq_dec a i) as [->|Hne]; [|apply F'; auto].
  split; [intros _; split; [lia | auto] | congruence].
Qed.

Lemma find_compress y i :
  forest y -> act i ->
  forall a, act a -> find (wr y i (find y i)) a = find y a.
Proof.
  intros F A.
  pose proof (forest_compress y i F A) as F'.
  pose proof (act_range i A); pose proof (find_spec y i F A) as (R1 & R2 & R3).
  pose proof F as [E Fy].
  intros a; induction a as [a IH] using cell_ind; intros Aa.
  pose proof (act_range a Aa).
  pose proof (forest_act y a F Aa) as [Ba Aa'].
  destruct (Z.eq_dec a i) as [->|Hne].
  - destruct (Z.eq_dec (find y i) i) as [Ri|Ri].
    + rewrite Ri in *; apply find_root; rewrite rd_wr_eq; auto; lia.
    + rewrite (find_parent _ i F' A), rd_wr_eq by lia.
      rewrite IH by (auto; lia); apply find_idem; auto.
  - destruct (Z.eq_dec (rd y a) a) as [Ra|Ra].
    + assert (rd (wr y i (find y i)) a = a) as Ra'
        by (rewrite rd_wr_ne; auto; lia).
      now rewrite (find_root _ a Ra'), (find_root y a Ra).
    + rewrite (find_parent _ a F' Aa), rd_wr_ne by lia.
      rewrite IH by (auto; lia).
      now rewrite <- (find_parent y a F Aa).
Qed.

Lemma depth_root y j : rd y j = j -> depth y j = O.
Proof.
  unfold depth; intros E; destruct (length y); simpl; auto.
  now rewrite E, Z.eqb_refl.
Qed.

Lemma depth_fuel_stable y : forest y -> forall f1 f2 j,
  act j -> (Z.to_nat j <= f1)%nat -> (Z.to_nat j <= f2)%nat ->
  depth_fuel f1 y j = depth_fuel f2 y j /\ (depth_fuel f1 y j <= Z.to_nat j)%nat.
Proof.
  intros F; induction f1 as [|f1 IH]; intros f2 j A H1 H2.
  - pose proof (forest_act y j F A); pose proof (act_range j A).
    assert (j = 0) as -> by lia.
    assert (rd y 0 = 0) as E by lia.
    destruct f2; simpl; auto; rewrite E; simpl; auto.
  - pose proof (forest_act y j F A) as [B A']; pose proof (act_range j A).
    destruct f2 as [|f2]; simpl.
    + assert (j = 0) as -> by lia.
      assert (rd y 0 = 0) as -> by lia; simpl; auto.
    + destruct (Z.eqb_spec j (rd y j)); [split; auto; lia|].
      destruct (IH f2 (rd y j)) as [-> ?]; auto; lia.
Qed.

Lemma depth_parent y j :
  forest y -> act j -> rd y j <> j -> depth y j = S (depth y (rd y j)).
Proof.
  intros F A E; pose proof (forest_act y j F A) as [B A'].
  pose proof (act_range j A) as R.
  unfold depth; destruct (length y) as [|f] eqn:Hl.
  - destruct F as [F _]; unfold len in *; lia.
  - assert (len y = len x) as El by apply F; unfold len in El, R.
    destruct (depth_fuel_stable y F (S f) f (rd y j)) as [-> _]; auto; try lia.
    simpl; destruct (Z.eqb_spec j (rd y j)); [lia | reflexivity].
Qed.

Lemma depth_bound y j : forest y -> act j -> (depth y j <= Z.to_nat j)%nat.
Proof.
  intros F A; pose proof (act_range j A).
  unfold depth; eapply (depth_fuel_stable y F _ (length y)); auto;
    destruct F as [F _]; unfold len in *; lia.
Qed.

End Forest.

(** ** The connect kernel *)

Section ConnectProof.

Variable x : list Z.
Variable ndirs : Z.
Variable nbr : Z -> Z -> Z.

Hypothesis x_fits : len x <= max_signed.
Hypothesis ndirs_nonneg : 0 <= ndirs.
Hypothesis nbr_range :
  forall i dr, 0 <= i < len x -> 0 <= dr < ndirs -> nbr i dr < len x.

Local Abbreviation act i := (active x i = true).

(** The edges the kernel examines: from an active cell along a retained
    direction to an active cell. *)
Definition edge (a b : Z) : Prop :=
  act a /\ act b /\ exists dr, 0 <= dr < ndirs /\ nbr a dr = b.

(** Connectivity: the equivalence generated by the edges. *)
Definition conn : Z -> Z -> Prop := clos_refl_sym_trans Z edge.

Lemma conn_refl a : conn a a.
Proof. apply rst_refl. Qed.

Lemma conn_sym a b : conn a b -> conn b a.
Proof. apply rst_sym. Qed.

Lemma conn_trans a b c : conn a b -> conn b c -> conn a c.
Proof. apply rst_trans. Qed.

Lemma conn_act a b : conn a b -> (act a <-> act b).
Proof.
  induction 1 as [a b (Ha & Hb & _)| | |]; tauto.
Qed.

(** Every parent link joins connected cells. *)
Definition links_sound (y : list Z) : Prop :=
  forall i, act i -> conn i (rd y i).

Lemma conn_find y a :
  forest x y -> links_sound y -> act a -> conn a (find y a).
Proof.
  intros F S; induction a as [a IH] using cell_ind; intros A.
  destruct (forest_act x y a F A) as [B A'].
  destruct (Z.eq_dec (rd y a) a) as [E|E].
  - rewrite find_root by auto; apply conn_refl.
  - rewrite (find_parent x y a F A).
    eapply conn_trans; [apply S; auto | apply IH; auto; lia].
Qed.

Lemma find_conn y a b :
  forest x y -> links_sound y -> act a -> act b ->
  find y a = find y b -> conn a b.
Proof.
  intros F S A B E.
  eapply conn_trans; [apply (conn_find y a F S A)|].
  rewrite E; apply conn_sym, conn_find; auto.
Qed.

(** What a step of a thread may do to the buffer: nothing, or hang a root
    under a smaller active cell of the same component. *)
Definition guar (y y' : list Z) : Prop :=
  y' = y \/
  exists j k, act j /\ act k /\ rd y k = k /\ j < k /\ conn j k /\ y' = wr y k j.

Lemma guar_forest y y' : forest x y -> guar y y' -> forest x y'.
Proof.
  intros F [->|(j & k & Aj & Ak & R & Hjk & _ & ->)]; auto.
  now apply forest_union.
Qed.

Lemma guar_links y y' :
  forest x y -> links_sound y -> guar y y' -> links_sound y'.
Proof.
  intros F S [->|(j & k & Aj & Ak & R & Hjk & C & ->)]; auto.
  intros i A; pose proof (act_range x i A); pose proof (act_range x k Ak).
  assert (len y = len x) as El by apply F.
  rewrite rd_wr by lia.
  destruct (Z.eq_dec i k) as [->|]; [now apply conn_sym | now apply S].
Qed.

Lemma guar_find y y' a b :
  forest x y -> guar y y' -> act a -> act b ->
  find y a = find y b -> find y' a = find y' b.
Proof.
  intros F [->|(j & k & Aj & Ak & R & Hjk & _ & ->)] A B E; auto.
  rewrite !(find_union x y j k) by auto; now rewrite E.
Qed.

Lemma guar_nonroot y y' j :
  forest x y -> guar y y' -> act j -> rd y j <> j -> rd y' j <> j.
Proof.
  intros F [->|(j' & k & Aj & Ak & R & Hjk & _ & ->)] A E; auto.
  pose proof (act_range x j A); pose proof (act_range x k Ak).
  rewrite rd_wr_ne; auto; try lia; congruence.
Qed.

(** The directions before [dr] have been dealt with by thread [i]. *)
Definition hist (y : list Z) (i dr : Z) : Prop :=
  forall dr', 0 <= dr' < dr -> act (nbr i dr') -> find y i = find y (nbr i dr').

Definition pair_inv (y : list Z) (i dr j k : Z) : Prop :=
  act i /\ 0 <= dr < ndirs /\ hist y i dr /\ act (nbr i dr) /\
  act j /\ act k /\ find y j = find y i /\ find y k = find y (nbr i dr).

Definition connect_tinv (y : list Z) (i : Z) (pc : connect_pc) : Prop :=
  match pc with
  | CStart => True
  | CDir dr => act i /\ 0 <= dr <= ndirs /\ hist y i dr
  | CFindJ dr j k | CFindK dr j k | CCas dr j k => pair_inv y i dr j k
  | CLoadJ dr j k => pair_inv y i dr j k /\ rd y j <> j
  | CLoadK dr j k => pair_inv y i dr j k /\ rd y k <> k
  | CDone => act i -> hist y i ndirs
  end.

Lemma guar_hist y y' i dr :
  forest x y -> guar y y' -> act i -> hist y i dr -> hist y' i dr.
Proof.
  intros F G A H dr' Hdr A'; eapply guar_find; eauto.
Qed.

Lemma guar_pair y y' i dr j k :
  forest x y -> guar y y' -> pair_inv y i dr j k -> pair_inv y' i dr j k.
Proof.
  intros F G (Ai & Hdr & H & An & Aj & Ak & E1 & E2).
  repeat split; auto; try lia;
    eauto using guar_hist; eapply guar_find; eauto.
Qed.

Lemma guar_tinv y y' i pc :
  forest x y -> guar y y' -> connect_tinv y i pc -> connect_tinv y' i pc.
Proof.
  intros F G; destruct pc; simpl; auto.
  - intros (A & Hdr & H); eauto using guar_hist.
  - eauto using guar_pair.
  - intros [P E]; split; [eauto using guar_pair|].
    eapply guar_nonroot; eauto; apply P.
  - eauto using guar_pair.
  - intros [P E]; split; [eauto using guar_pair|].
    eapply guar_nonroot; eauto; apply P.
  - eauto using guar_pair.
  - intros H A; eauto using guar_hist.
Qed.

Lemma hist_next y i dr :
  hist y i dr -> (act (nbr i dr) -> find y i = find y (nbr i dr)) ->
  hist y i (dr + 1).
Proof.
  intros H Hd dr' Hdr A.
  destruct (Z.eq_dec dr' dr) as [->|]; [auto | apply H; auto; lia].
Qed.

Lemma wrap32_cell i : 0 <= i < len x -> wrap32 i = i.
Proof.
  intros H; apply wrap32_id; unfold in_range, min_signed, max_signed in *; lia.
Qed.

(** One step of thread [i]: the buffer changes as [guar] allows and the
    thread's own invariant holds afterwards. *)
Lemma connect_step_sound y i pc :
  forest x y -> links_sound y -> 0 <= i < len x -> connect_tinv y i pc ->
  guar y (fst (connect_step ndirs nbr i y pc)) /\
  connect_tinv (fst (connect_step ndirs nbr i y pc)) i
               (snd (connect_step ndirs nbr i y pc)).
Proof.
  intros F S Hi T.
  assert (guar y y) as G0 by now left.
  destruct pc as [|dr|dr j k|dr j k|dr j k|dr j k|dr j k|]; simpl in *.
  - (* CStart *)
    destruct (Z.ltb_spec (rd y i) 0); simpl; split; auto.
    + intros A; apply (forest_act x y i F) in A; lia.
    + assert (act i) by (apply (forest_active_iff x y i F Hi); lia).
      repeat split; auto; try lia; intros dr'; lia.
  - (* CDir *)
    destruct T as (A & Hdr & H).
    rewrite (wrap32_cell i Hi).
    destruct (Z.ltb_spec dr ndirs); simpl; [|split; auto].
    2:{ intros _; assert (dr = ndirs) as <- by lia; auto. }
    destruct (Z.ltb_spec (nbr i dr) 0); simpl.
    { split; auto; repeat split; auto; try lia.
      apply hist_next; auto; intros A'; apply act_range in A'; lia. }
    assert (0 <= nbr i dr < len x) as Hk
      by (split; auto; apply nbr_range; auto; lia).
    destruct (Z.ltb_spec (rd y (nbr i dr)) 0); simpl; split; auto.
    + repeat split; auto; try lia.
      apply hist_next; auto; intros A'.
      apply (forest_act x y _ F) in A'; lia.
    + assert (act (nbr i dr)) by (apply (forest_active_iff x y _ F Hk); lia).
      repeat split; auto; lia.
  - (* CFindJ *)
    destruct (Z.eqb_spec j (rd y j)); simpl; split; auto.
  - (* CLoadJ *)
    destruct T as [(Ai & Hdr & H & An & Aj & Ak & E1 & E2) E].
    split; auto.
    destruct (forest_act x y j F Aj) as [B A'].
    repeat split; auto; try lia.
    now rewrite <- (find_parent x y j F Aj).
  - (* CFindK *)
    destruct (Z.eqb_spec k (rd y k)); simpl; split; auto.
  - (* CLoadK *)
    destruct T as [(Ai & Hdr & H & An & Aj & Ak & E1 & E2) E].
    split; auto.
    destruct (forest_act x y k F Ak) as [B A'].
    repeat split; auto; try lia.
    now rewrite <- (find_parent x y k F Ak).
  - (* CCas *)
    destruct T as (Ai & Hdr & H & An & Aj & Ak & E1 & E2).
    assert (conn j k) as C.
    { apply conn_trans with i; [apply (find_conn y); auto|].
      apply conn_trans with (nbr i dr).
      - apply rst_step; repeat split; auto; exists dr; split; auto.
      - apply (find_conn y); auto. }
    destruct (forest_act x y j F Aj) as [Bj Aj'].
    destruct (forest_act x y k F Ak) as [Bk Ak'].
    destruct (Z.eqb_spec j k) as [->|Hne]; simpl.
    { split; auto; repeat split; auto; try lia.
      apply hist_next; auto; intros _; congruence. }
    destruct (Z.ltb_spec j k) as [Hlt|Hge]; unfold atomicCAS.
    + destruct (Z.eqb_spec (rd y k) k) as [R|R]; simpl.
      * assert (guar y (wr y k j)) as G.
        { right; exists j, k; repeat split; auto. }
        split; auto; repeat split; auto; try lia.
        apply hist_next; [eapply guar_hist; eauto|]; intros _.
        rewrite !(find_union x y j k) by auto.
        rewrite <- E2, (find_root y k R), Z.eqb_refl, <- E1.
        destruct (Z.eqb_spec (find y j) k); auto.
      * split; auto; repeat split; auto; try lia.
        now rewrite <- (find_parent x y k F Ak).
    + destruct (Z.eqb_spec (rd y j) j) as [R|R]; simpl.
      * assert (guar y (wr y j k)) as G.
        { right; exists k, j; repeat split; auto; [lia | now apply conn_sym]. }
        split; auto; repeat split; auto; try lia.
        apply hist_next; [eapply guar_hist; eauto|]; intros _.
        rewrite !(find_union x y k j) by (auto; lia).
        rewrite <- E1, (find_root y j R), Z.eqb_refl, <- E2.
        destruct (Z.eqb_spec (find y k) j); auto.
      * split; auto; repeat split; auto; try lia.
        now rewrite <- (find_parent x y j F Aj).
  - split; auto.
Qed.

(** The invariant of the pool of connect threads. *)
Definition connect_inv (st : list Z * list connect_pc) : Prop :=
  forest x (fst st) /\ links_sound (fst st) /\
  length (snd st) = length x /\
  forall t pc, nth_error (snd st) t = Some pc ->
               connect_tinv (fst st) (Z.of_nat t) pc.

Lemma connect_inv_step st t :
  connect_inv st -> connect_inv (pool_step (connect_step ndirs nbr) st t).
Proof.
  intros (F & S & Hlen & T).
  destruct (nth_error (snd st) t) as [pc|] eqn:Hpc.
  2:{ unfold pool_step; rewrite Hpc; exact (conj F (conj S (conj Hlen T))). }
  assert (0 <= Z.of_nat t < len x) as Hi.
  { unfold len; rewrite <- Hlen.
    assert (t < length (snd st))%nat by (apply nth_error_Some; congruence); lia. }
  destruct (connect_step_sound (fst st) (Z.of_nat t) pc F S Hi (T t pc Hpc))
    as [G T'].
  rewrite (pool_step_self _ st t pc Hpc); unfold connect_inv; cbn [fst snd].
  split; [eapply guar_forest; eauto|].
  split; [eapply guar_links; eauto|].
  split; [now rewrite length_upd|].
  intros t' pc' H'.
  destruct (Nat.eq_dec t t') as [<-|Hne].
  - rewrite nth_error_upd_eq in H' by (apply nth_error_Some; congruence).
    now injection H' as <-.
  - rewrite nth_error_upd_ne in H' by auto.
    eapply guar_tinv; eauto.
Qed.

Definition connect_done (pc : connect_pc) : bool :=
  match pc with CDone => true | _ => false end.

(** A bound on the steps thread [pc] still takes when it runs alone. *)
Definition connect_mu (y : list Z) (pc : connect_pc) : nat :=
  let M := (10 * length x + 6)%nat in
  let base dr := (Z.to_nat (ndirs - dr - 1) * M + 2)%nat in
  let s j k := (5 * (depth y j + depth y k))%nat in
  match pc with
  | CStart => Z.to_nat ndirs * M + 2
  | CDir dr => Z.to_nat (ndirs - dr) * M + 1
  | CFindJ dr j k => base dr + s j k + 4
  | CLoadJ dr j k => base dr + s j k + 3
  | CFindK dr j k => base dr + s j k + 2
  | CLoadK dr j k => base dr + s j k + 1
  | CCas dr j k => base dr + s j k
  | CDone => 0
  end%nat.

Lemma depth_lt y j : forest x y -> act j -> (depth y j < length x)%nat.
Proof.
  intros F A; pose proof (depth_bound x y j F A).
  pose proof (act_range x j A); unfold len in *; lia.
Qed.

Lemma to_nat_succ a : 0 <= a -> Z.to_nat (a + 1) = S (Z.to_nat a).
Proof. lia. Qed.

Lemma connect_mu_step y ls t pc :
  connect_inv (y, ls) -> nth_error ls t = Some pc -> connect_done pc = false ->
  (connect_mu (fst (connect_step ndirs nbr (Z.of_nat t) y pc))
              (snd (connect_step ndirs nbr (Z.of_nat t) y pc))
   < connect_mu y pc)%nat.
Proof.
  intros (F & S & Hlen & T) Hpc Hd; simpl in *.
  specialize (T t pc Hpc).
  assert (0 <= Z.of_nat t < len x) as Hi.
  { unfold len; rewrite <- Hlen.
    assert (t < length ls)%nat by (apply nth_error_Some; congruence); lia. }
  set (i := Z.of_nat t) in *.
  set (M := (10 * length x + 6)%nat).
  assert (forall dr, dr < ndirs ->
            (Z.to_nat (ndirs - dr) * M = M + Z.to_nat (ndirs - dr - 1) * M)%nat)
    as HM.
  { intros dr Hdr; replace (ndirs - dr) with (ndirs - dr - 1 + 1) by ring.
    rewrite to_nat_succ by lia; simpl; lia. }
  destruct pc as [|dr|dr j k|dr j k|dr j k|dr j k|dr j k|];
    simpl in *; try discriminate.
  - destruct (rd y i <? 0); simpl; fold M; [lia|].
    rewrite Z.sub_0_r; lia.
  - destruct T as (A & Hdr & H).
    rewrite (wrap32_cell i Hi).
    destruct (Z.ltb_spec dr ndirs); simpl; [|lia].
    assert (Z.to_nat (ndirs - (dr + 1)) = Z.to_nat (ndirs - dr - 1)) as E
      by (f_equal; ring).
    destruct (Z.ltb_spec (nbr i dr) 0); simpl; fold M.
    { rewrite E, (HM dr) by lia; unfold M; lia. }
    assert (0 <= nbr i dr < len x) as Hk
      by (split; auto; apply nbr_range; auto; lia).
    destruct (Z.ltb_spec (rd y (nbr i dr)) 0); simpl; fold M.
    { rewrite E, (HM dr) by lia; unfold M; lia. }
    assert (act (nbr i dr)) as Ak
      by (apply (forest_active_iff x y _ F Hk); lia).
    pose proof (depth_lt y i F A); pose proof (depth_lt y _ F Ak).
    rewrite (HM dr) by lia; unfold M; lia.
  - destruct (Z.eqb_spec j (rd y j)); simpl; fold M; lia.
  - destruct T as [(Ai & Hdr & H & An & Aj & Ak & E1 & E2) E].
    rewrite (depth_parent x y j F Aj E); fold M; lia.
  - destruct (Z.eqb_spec k (rd y k)); simpl; fold M; lia.
  - destruct T as [(Ai & Hdr & H & An & Aj & Ak & E1 & E2) E].
    rewrite (depth_parent x y k F Ak E); fold M; lia.
  - destruct T as (Ai & Hdr & H & An & Aj & Ak & E1 & E2).
    assert (Z.to_nat (ndirs - (dr + 1)) = Z.to_nat (ndirs - dr - 1)) as E
      by (f_equal; ring).
    destruct (Z.eqb_spec j k); simpl; fold M; [rewrite E; lia|].
    destruct (Z.ltb_spec j k); unfold atomicCAS.
    + destruct (Z.eqb_spec (rd y k) k) as [R|R]; simpl; fold M;
        [rewrite E; lia|].
      rewrite (depth_parent x y k F Ak R); lia.
    + destruct (Z.eqb_spec (rd y j) j) as [R|R]; simpl; fold M;
        [rewrite E; lia|].
      rewrite (depth_parent x y j F Aj R); lia.
Qed.

Lemma connect_mu_bound y ls t pc :
  connect_inv (y, ls) -> nth_error ls t = Some pc ->
  (connect_mu y pc <= connect_fuel (length x) ndirs)%nat.
Proof.
  intros (F & S & Hlen & T) Hpc; simpl in *.
  specialize (T t pc Hpc); unfold connect_fuel.
  set (M := (10 * length x + 6)%nat).
  assert (forall dr, 0 <= dr <= ndirs ->
            (Z.to_nat (ndirs - dr) * M <= Z.to_nat ndirs * M)%nat) as HM.
  { intros dr Hdr; apply Nat.mul_le_mono_r; lia. }
  assert (forall dr j k, pair_inv y (Z.of_nat t) dr j k ->
            (Z.to_nat (ndirs - dr - 1) * M + 2
             + 5 * (depth y j + depth y k) + 4
             <= Z.to_nat ndirs * M + 2)%nat) as HP.
  { intros dr j k (Ai & Hdr & H & An & Aj & Ak & E1 & E2).
    pose proof (depth_lt y j F Aj); pose proof (depth_lt y k F Ak).
    assert (Z.to_nat ndirs * M
            = M + Z.to_nat (ndirs - 1) * M)%nat as ->.
    { replace ndirs with (ndirs - 1 + 1) at 1 by ring.
      rewrite to_nat_succ by lia; simpl; lia. }
    assert (Z.to_nat (ndirs - dr - 1) * M <= Z.to_nat (ndirs - 1) * M)%nat
      by (apply Nat.mul_le_mono_r; lia).
    unfold M in *; lia. }
  destruct pc as [|dr|dr j k|dr j k|dr j k|dr j k|dr j k|];
    cbn [connect_mu connect_tinv] in *; fold M.
  - lia.
  - destruct T as (A & Hdr & H); specialize (HM dr Hdr); lia.
  - specialize (HP dr j k T); lia.
  - specialize (HP dr j k (proj1 T)); lia.
  - specialize (HP dr j k T); lia.
  - specialize (HP dr j k (proj1 T)); lia.
  - specialize (HP dr j k T); lia.
  - lia.
Qed.

(** After any interleaving of the connect threads, two active cells have
    the same root exactly when they are connected. *)
Theorem connect_partition sched y0 :
  forest x y0 -> (forall i, act i -> rd y0 i = i) ->
  let y := fst (launch (connect_step ndirs nbr) sched
                       (connect_fuel (length x) ndirs) (length x) CStart y0) in
  forest x y /\
  forall a b, act a -> act b -> (find y a = find y b <-> conn a b).
Proof.
  intros F0 R0 y.
  destruct (launch_done (connect_step ndirs nbr) connect_inv connect_done
              connect_mu (connect_fuel (length x) ndirs)
              connect_inv_step)
    with (sched := sched) (fuel := connect_fuel (length x) ndirs)
         (n := length x) (l0 := CStart) (m := y0)
    as ((F & S & Hlen & T) & Hn & D); auto.
  - intros i m [] H; simpl in *; congruence.
  - intros m ls t l HI Hl Hd; apply (connect_mu_step m ls t l HI Hl Hd).
  - intros m ls t l HI Hl; apply (connect_mu_bound m ls t l HI Hl).
  - split; [exact F0 | split; [| split]]; cbn [fst snd].
    + intros i A; rewrite R0 by auto; apply conn_refl.
    + apply repeat_length.
    + intros t pc H; apply nth_error_In, repeat_spec in H; now subst.
  - fold y in F, S, T.
    set (st := launch _ _ _ _ _ _) in *.
    assert (forall a, act a -> hist y a ndirs) as H.
    { intros a A; pose proof (act_range x a A) as Ra; unfold len in Ra.
      destruct (nth_error (snd st) (Z.to_nat a)) as [pc|] eqn:Hpc.
      2:{ apply nth_error_None in Hpc; lia. }
      specialize (T _ _ Hpc); rewrite Z2Nat.id in T by lia.
      rewrite Forall_forall in D; specialize (D pc (nth_error_In _ _ Hpc)).
      destruct pc; try discriminate; auto. }
    split; auto; intros a b A B; split; [now apply find_conn|].
    clear B; intros C; revert A.
    induction C as [a b (Aa & Ab & dr & Hdr & E)|a|a b C IH|a b c C1 IH1 C2 IH2];
      intros A; auto.
    + subst b; now apply (H a Aa dr Hdr).
    + symmetry; apply IH; now apply (conn_act a b C).
    + rewrite IH1 by auto; apply IH2; now apply (conn_act a b C1).
Qed.

End ConnectProof.

(** ** Counting the threads that satisfy a test *)

Definition count_if (p : nat -> bool) (n : nat) : nat :=
  length (filter p (seq 0 n)).

Lemma count_if_S p n :
  count_if p (S n) = (count_if p n + if p n then 1 else 0)%nat.
Proof.
  unfold count_if; rewrite seq_S, filter_app, length_app; simpl.
  destruct (p n); reflexivity.
Qed.

Lemma count_if_ext p q n :
  (forall t, (t < n)%nat -> p t = q t) -> count_if p n = count_if q n.
Proof.
  induction n as [|n IH]; intros H; auto.
  rewrite !count_if_S, IH, (H n) by auto; reflexivity.
Qed.

Lemma count_if_flip p q n t :
  (t < n)%nat -> p t = false -> q t = true ->
  (forall t', (t' < n)%nat -> t' <> t -> p t' = q t') ->
  count_if q n = S (count_if p n).
Proof.
  induction n as [|n IH]; intros Ht Hp Hq H; [lia|].
  rewrite !count_if_S.
  destruct (Nat.eq_dec t n) as [->|Hne].
  - rewrite Hp, Hq, (count_if_ext p q n); [lia|].
    intros t' Ht'; apply H; lia.
  - rewrite IH by (auto; lia).
    rewrite (H n) by lia; lia.
Qed.

Lemma count_if_le p n : (count_if p n <= n)%nat.
Proof.
  induction n as [|n IH]; auto.
  rewrite count_if_S; destruct (p n); lia.
Qed.

(** ** The count kernel *)

Section CountProof.

Variable x : list Z.
Variable y0 : list Z.

Hypothesis x_fits : len x <= max_signed.
Hypothesis forest0 : forest x y0.

Local Abbreviation act i := (active x i = true).

Definition count_done (pc : count_pc) : bool :=
  match pc with KDone => true | _ => false end.

Definition count_tinv (y : list Z) (i : Z) (pc : count_pc) : Prop :=
  match pc with
  | KStart => True
  | KFind j => act i /\ act j /\ find y j = find y i
  | KLoad j => (act i /\ act j /\ find y j = find y i) /\ rd y j <> j
  | KEnd j => (act i /\ act j /\ find y j = find y i) /\ rd y j = j
  | KDone => act i -> rd y i = find y i
  end.

(** The threads that have finished on a root. *)
Definition counted (y : list Z) (ls : list count_pc) (t : nat) : bool :=
  match nth_error ls t with
  | Some KDone => rd y (Z.of_nat t) =? Z.of_nat t
  | _ => false
  end.

Definition count_inv (st : (list Z * list Z) * list count_pc) : Prop :=
  let y := fst (fst st) in
  let count := snd (fst st) in
  forest x y /\ (forall a, act a -> find y a = find y0 a) /\
  len count = 2 /\ rd count 1 = 0 /\
  rd count 0 = Z.of_nat (count_if (counted y (snd st)) (length x)) /\
  length (snd st) = length x /\
  forall t pc, nth_error (snd st) t = Some pc -> count_tinv y (Z.of_nat t) pc.

(** The store of thread [i] moves a non-root to its root. *)
Definition count_guar (i : Z) (y y' : list Z) : Prop :=
  y' = y \/ (act i /\ rd y i <> i /\ y' = wr y i (find y i)).

Lemma nonroot_find_lt y i :
  forest x y -> act i -> rd y i <> i -> find y i < i.
Proof.
  intros F A E; destruct (forest_act x y i F A) as [B A'].
  rewrite (find_parent x y i F A).
  pose proof (find_spec x y (rd y i) F A'); lia.
Qed.

Lemma count_guar_forest i y y' : forest x y -> count_guar i y y' -> forest x y'.
Proof. intros F [->|(A & _ & ->)]; auto; now apply forest_compress. Qed.

Lemma count_guar_find i y y' a :
  forest x y -> count_guar i y y' -> act a -> find y' a = find y a.
Proof. intros F [->|(A & _ & ->)] Aa; auto; now apply (find_compress x). Qed.

Lemma count_guar_rd i y y' a :
  forest x y -> count_guar i y y' -> 0 <= a -> a <> i -> rd y' a = rd y a.
Proof.
  intros F [->|(A & _ & ->)] Ha Hne; auto.
  pose proof (act_range x i A); rewrite rd_wr_ne; auto; lia.
Qed.

Lemma count_guar_tinv i y y' t pc :
  forest x y -> count_guar i y y' -> Z.of_nat t <> i ->
  count_tinv y (Z.of_nat t) pc -> count_tinv y' (Z.of_nat t) pc.
Proof.
  intros F G Hne; pose proof (count_guar_find i y y') as Hf.
  destruct pc as [|j|j|j|]; simpl; auto.
  - intros (A & Aj & E); rewrite !Hf; auto.
  - intros [(A & Aj & E) R]; rewrite !Hf; auto; repeat split; auto.
    destruct G as [->|(Ai & Ri & ->)]; auto.
    pose proof (act_range x i Ai); pose proof (act_range x j Aj).
    assert (len y = len x) as El by apply F.
    rewrite rd_wr by lia; destruct (Z.eq_dec j i) as [->|]; auto.
    pose proof (nonroot_find_lt y i F Ai Ri); lia.
  - intros [(A & Aj & E) R]; rewrite !Hf; auto; repeat split; auto.
    destruct G as [->|(Ai & Ri & ->)]; auto.
    pose proof (act_range x i Ai); pose proof (act_range x j Aj).
    rewrite rd_wr_ne; auto; try lia; congruence.
  - intros H A; rewrite Hf, (count_guar_rd i y y'); auto; lia.
Qed.

Definition count_flag (y : list Z) (i : Z) (pc : count_pc) : bool :=
  match pc with KDone => rd y i =? i | _ => false end.

Lemma count_step_sound y count i pc :
  forest x y -> 0 <= i < len x -> count_tinv y i pc ->
  let st' := count_step i (y, count) pc in
  count_guar i y (fst (fst st')) /\ count_tinv (fst (fst st')) i (snd st') /\
  ((snd (fst st') = count /\
    count_flag (fst (fst st')) i (snd st') = count_flag y i pc) \/
   (snd (fst st') = fst (atomicAdd count 0 1) /\
    count_flag (fst (fst st')) i (snd st') = true /\ count_flag y i pc = false)).
Proof.
  intros F Hi T.
  assert (count_guar i y y) as G0 by now left.
  assert (wrap32 i = i) as Wi.
  { apply wrap32_id; unfold in_range, min_signed, max_signed in *; lia. }
  destruct pc as [|j|j|j|]; cbn [count_step count_tinv] in *.
  - rewrite Wi; destruct (Z.ltb_spec (rd y i) 0); cbn [fst snd count_flag].
    + split; [auto | split; [| left; split; auto; lia]].
      intros A; apply (forest_act x y i F) in A; lia.
    + assert (act i) by (apply (forest_active_iff x y i F Hi); lia).
      split; [auto | split; [simpl; auto | now left]].
  - destruct (Z.eqb_spec j (rd y j)); cbn [fst snd negb count_flag];
      (split; [auto | split; [simpl; auto | now left]]).
  - destruct T as [(A & Aj & E) R]; destruct (forest_act x y j F Aj) as [B A'].
    cbn [fst snd count_flag].
    split; [auto | split; [simpl | now left]].
    repeat split; auto; now rewrite <- (find_parent x y j F Aj).
  - destruct T as [(A & Aj & E) R].
    assert (find y i = j) as Ej by (rewrite <- E; now apply find_root).
    destruct (Z.eqb_spec j i) as [->|Hne]; cbn [fst snd negb count_flag].
    + split; [auto | split; [simpl; congruence | right]].
      rewrite R, Z.eqb_refl; auto.
    + assert (rd y i <> i) as Ri.
      { intros Ri; rewrite (find_root y i Ri) in Ej; congruence. }
      assert (count_guar i y (wr y i j)) as G by (right; subst j; auto).
      assert (len y = len x) as El by apply F.
      assert (rd (wr y i j) i = j) as Rw by (apply rd_wr_eq; lia).
      split; [auto | split; [simpl | left; split; auto]].
      * intros _; rewrite Rw, (count_guar_find i y _ i F G A); auto.
      * rewrite Rw; lia.
  - cbn [fst snd count_flag]; split; [auto | split; [auto | now left]].
Qed.

Lemma counted_flag y ls t pc :
  nth_error ls t = Some pc -> counted y ls t = count_flag y (Z.of_nat t) pc.
Proof. unfold counted; intros ->; now destruct pc. Qed.

Lemma count_inv_step st t : count_inv st -> count_inv (pool_step count_step st t).
Proof.
  destruct st as [[y count] ls].
  intros (F & Hf & Hc2 & Hc1 & Hc0 & Hlen & T); cbn [fst snd] in *.
  destruct (nth_error ls t) as [pc|] eqn:Hpc.
  2:{ unfold pool_step; cbn [fst snd]; rewrite Hpc.
      exact (conj F (conj Hf (conj Hc2 (conj Hc1 (conj Hc0 (conj Hlen T)))))). }
  assert (t < length x)%nat as Ht
    by (rewrite <- Hlen; apply nth_error_Some; congruence).
  assert (0 <= Z.of_nat t < len x) as Hi by (unfold len; lia).
  destruct (count_step_sound y count (Z.of_nat t) pc F Hi (T t pc Hpc))
    as (G & T' & C).
  rewrite (pool_step_self count_step (y, count, ls) t pc Hpc); cbn [fst snd] in *.
  destruct (count_step (Z.of_nat t) (y, count) pc) as [[y' count'] pc'] eqn:Es.
  cbn [fst snd] in *.
  assert (forall t', (t' < length x)%nat -> t' <> t ->
            counted y ls t' = counted y' (upd t pc' ls) t') as Ho.
  { intros t' _ Hne; unfold counted; rewrite nth_error_upd_ne by auto.
    destruct (nth_error ls t') as [[]|]; auto.
    rewrite (count_guar_rd (Z.of_nat t) y y'); auto; lia. }
  assert (nth_error (upd t pc' ls) t = Some pc') as Hpc'.
  { apply nth_error_upd_eq; apply nth_error_Some; congruence. }
  unfold count_inv; cbn [fst snd].
  split; [eapply count_guar_forest; eauto|].
  split; [intros a A; rewrite (count_guar_find (Z.of_nat t) y y'); auto|].
  assert (len count' = 2 /\ rd count' 1 = 0 /\
          rd count' 0
          = Z.of_nat (count_if (counted y' (upd t pc' ls)) (length x)))
    as (? & ? & ?); [| repeat split; auto].
  - destruct C as [[-> E]|(-> & E1 & E2)].
    + repeat split; auto; rewrite Hc0; f_equal.
      apply count_if_ext; intros t' Ht'.
      destruct (Nat.eq_dec t' t) as [->|Hne]; [|now apply Ho].
      now rewrite (counted_flag _ _ _ _ Hpc), (counted_flag _ _ _ _ Hpc').
    + unfold atomicAdd; cbn [fst].
      rewrite len_wr, (rd_wr_ne count 0 1), (rd_wr_eq count 0) by lia.
      repeat split; auto.
      rewrite (count_if_flip (counted y ls) (counted y' (upd t pc' ls))
                             (length x) t); auto.
      * pose proof (count_if_le (counted y' (upd t pc' ls)) (length x)) as Hle.
        rewrite (count_if_flip (counted y ls) (counted y' (upd t pc' ls))
                               (length x) t) in Hle; auto.
        { rewrite Hc0, wrap32_id; [lia|].
          unfold in_range, min_signed, max_signed, len in *; lia. }
        { now rewrite (counted_flag _ _ _ _ Hpc). }
        { now rewrite (counted_flag _ _ _ _ Hpc'). }
      * now rewrite (counted_flag _ _ _ _ Hpc).
      * now rewrite (counted_flag _ _ _ _ Hpc').
  - now rewrite length_upd.
  - intros t' pc'' H'.
    destruct (Nat.eq_dec t t') as [<-|Hne].
    + rewrite Hpc' in H'; now injection H' as <-.
    + rewrite nth_error_upd_ne in H' by auto.
      eapply count_guar_tinv; eauto; lia.
Qed.

Definition count_mu (m : list Z * list Z) (pc : count_pc) : nat :=
  match pc with
  | KStart => 2 * length x + 3
  | KFind j => 2 * depth (fst m) j + 2
  | KLoad j => 2 * depth (fst m) j + 1
  | KEnd j => 1
  | KDone => 0
  end%nat.

Lemma count_mu_step m ls t pc :
  count_inv (m, ls) -> nth_error ls t = Some pc -> count_done pc = false ->
  (count_mu (fst (count_step (Z.of_nat t) m pc))
            (snd (count_step (Z.of_nat t) m pc))
   < count_mu m pc)%nat.
Proof.
  destruct m as [y count].
  intros (F & Hf & Hc2 & Hc1 & Hc0 & Hlen & T) Hpc Hd; cbn [fst snd] in *.
  specialize (T t pc Hpc).
  assert (t < length x)%nat as Ht
    by (rewrite <- Hlen; apply nth_error_Some; congruence).
  assert (0 <= Z.of_nat t < len x) as Hi by (unfold len; lia).
  assert (wrap32 (Z.of_nat t) = Z.of_nat t) as Wi.
  { apply wrap32_id; unfold in_range, min_signed, max_signed in *; lia. }
  destruct pc as [|j|j|j|]; cbn [count_step count_tinv count_mu] in *;
    try discriminate.
  - rewrite Wi; destruct (Z.ltb_spec (rd y (Z.of_nat t)) 0);
      cbn [fst snd count_mu]; [lia|].
    assert (act (Z.of_nat t)) as A
      by (apply (forest_active_iff x y _ F Hi); lia).
    pose proof (depth_bound x y _ F A); lia.
  - destruct (Z.eqb_spec j (rd y j)); cbn [fst snd negb count_mu]; lia.
  - destruct T as [(A & Aj & E) R]; cbn [fst snd count_mu].
    rewrite (depth_parent x y j F Aj R); lia.
  - destruct (negb (j =? Z.of_nat t)); cbn [fst snd count_mu]; lia.
Qed.

Lemma count_mu_bound m ls t pc :
  count_inv (m, ls) -> nth_error ls t = Some pc ->
  (count_mu m pc <= count_fuel (length x))%nat.
Proof.
  destruct m as [y count].
  intros (F & Hf & Hc2 & Hc1 & Hc0 & Hlen & T) Hpc; cbn [fst snd] in *.
  specialize (T t pc Hpc); unfold count_fuel.
  assert (forall j, act j -> (2 * depth y j + 2 <= 2 * length x + 3)%nat) as HD.
  { intros j A; pose proof (depth_bound x y j F A).
    pose proof (act_range x j A); unfold len in *; lia. }
  destruct pc as [|j|j|j|]; cbn [count_tinv count_mu fst] in *; try lia.
  - destruct T as (_ & Aj & _); specialize (HD j Aj); lia.
  - destruct T as [(_ & Aj & _) _]; specialize (HD j Aj); lia.
Qed.

Lemma count_if_false p n :
  (forall t, (t < n)%nat -> p t = false) -> count_if p n = O.
Proof.
  induction n as [|n IH]; intros H; auto.
  rewrite count_if_S, IH, H by auto; reflexivity.
Qed.

(** After any interleaving of the count threads every active cell holds
    its root, the roots are unchanged, and [count[0]] is the number of
    roots. *)
Theorem count_result sched :
  let st := launch count_step sched (count_fuel (length x)) (length x)
                   KStart (y0, [0; 0]) in
  let y := fst (fst st) in
  let count := snd (fst st) in
  forest x y /\
  (forall a, act a -> rd y a = find y0 a /\ find y a = find y0 a) /\
  rd count 0
  = Z.of_nat (count_if (fun t => rd y (Z.of_nat t) =? Z.of_nat t) (length x)) /\
  rd count 1 = 0 /\ len count = 2.
Proof.
  intros st y count.
  destruct (launch_done count_step count_inv count_done count_mu
              (count_fuel (length x)) count_inv_step)
    with (sched := sched) (fuel := count_fuel (length x))
         (n := length x) (l0 := KStart) (m := (y0, [0; 0]))
    as ((F & Hf & Hc2 & Hc1 & Hc0 & Hlen & T) & Hn & D); auto.
  - intros i m [] H; simpl in *; try discriminate.
    now destruct m.
  - intros m ls t l HI Hl Hd; apply (count_mu_step m ls t l HI Hl Hd).
  - intros m ls t l HI Hl; apply (count_mu_bound m ls t l HI Hl).
  - unfold count_inv; cbn [fst snd].
    split; [exact forest0 | split; [auto | split; [reflexivity |]]].
    split; [reflexivity | split; [| split; [apply repeat_length |]]].
    + rewrite count_if_false; [reflexivity|].
      intros t Ht; unfold counted.
      destruct (nth_error (repeat KStart (length x)) t) as [pc|] eqn:E; auto.
      apply nth_error_In, repeat_spec in E; now subst.
    + intros t pc H; apply nth_error_In, repeat_spec in H; now subst.
  - fold st in F, Hf, Hc2, Hc1, Hc0, Hlen, T, Hn, D.
    fold y in F, Hf, Hc0, T. fold count in Hc2, Hc1, Hc0.
    assert (forall t, (t < length x)%nat -> nth_error (snd st) t = Some KDone)
      as HD.
    { intros t Ht.
      destruct (nth_error (snd st) t) as [pc|] eqn:Hpc.
      2:{ apply nth_error_None in Hpc; lia. }
      rewrite Forall_forall in D; specialize (D pc (nth_error_In _ _ Hpc)).
      destruct pc; try discriminate; auto. }
    split; auto; split; [| split; [| auto]].
    + intros a A; split; [| auto].
      pose proof (act_range x a A) as Ra; unfold len in Ra.
      specialize (T _ _ (HD (Z.to_nat a) ltac:(lia))).
      rewrite Z2Nat.id in T by lia; simpl in T.
      rewrite T, Hf; auto.
    + rewrite Hc0; f_equal; apply count_if_ext; intros t Ht.
      unfold counted; now rewrite HD.
Qed.

End CountProof.

(** ** The labels kernel *)

(** The roots of a buffer, in increasing order. *)
Definition roots (y : list Z) : list Z :=
  filter (fun i => rd y i =? i) (zrange (len y)).

Section LabelsProof.

Variable y : list Z.
Hypothesis y_fits : len y <= max_signed.

Definition is_root (t : nat) : bool := rd y (Z.of_nat t) =? Z.of_nat t.

Definition root_threads : list nat := filter is_root (seq 0 (length y)).

Lemma roots_threads : roots y = map Z.of_nat root_threads.
Proof.
  unfold roots, root_threads, zrange, len; rewrite Nat2Z.id.
  induction (seq 0 (length y)) as [|a l IH]; simpl; auto.
  unfold is_root at 1; destruct (rd y (Z.of_nat a) =? Z.of_nat a); simpl;
    now rewrite IH.
Qed.

Definition labels_done (pc : labels_pc) : bool :=
  match pc with LDone => true | _ => false end.

(** [order] lists the threads that have performed their [atomicAdd], in the
    order in which they did. *)
Definition labels_inv_with (order : list nat)
           (st : (list Z * list Z) * list labels_pc) : Prop :=
  let labels := fst (fst st) in
  let count := snd (fst st) in
  let ls := snd st in
  NoDup order /\
  rd count 1 = Z.of_nat (length order) /\ len count = 2 /\
  length labels = length root_threads /\ length ls = length y /\
  (forall t, In t order -> In t root_threads) /\
  (forall j t, nth_error order j = Some t ->
     nth_error ls t = Some (LStore (Z.of_nat j)) \/
     (nth_error ls t = Some LDone /\ rd labels (Z.of_nat j) = Z.of_nat t)) /\
  (forall t, nth_error ls t = Some LStart -> ~ In t order) /\
  (forall t, nth_error ls t = Some LAdd -> is_root t = true /\ ~ In t order) /\
  (forall t j, nth_error ls t = Some (LStore j) ->
     0 <= j /\ nth_error order (Z.to_nat j) = Some t) /\
  (forall t, nth_error ls t = Some LDone -> is_root t = true -> In t order).

Definition labels_inv (st : (list Z * list Z) * list labels_pc) : Prop :=
  exists order, labels_inv_with order st.

Lemma order_length order :
  NoDup order -> (forall t, In t order -> In t root_threads) ->
  (length order <= length root_threads)%nat.
Proof. intros N I; now apply NoDup_incl_length. Qed.

Lemma root_threads_bound : (length root_threads <= length y)%nat.
Proof. apply (count_if_le is_root (length y)). Qed.

Lemma in_root_threads t :
  In t root_threads <-> (t < length y)%nat /\ is_root t = true.
Proof.
  unfold root_threads; rewrite filter_In, in_seq; intuition lia.
Qed.

Lemma nth_error_upd {A : Type} (ls : list A) t t' v :
  (t < length ls)%nat ->
  nth_error (upd t v ls) t' = if Nat.eq_dec t t' then Some v else nth_error ls t'.
Proof.
  intros H; destruct (Nat.eq_dec t t') as [<-|Hne];
    [now apply nth_error_upd_eq | now apply nth_error_upd_ne].
Qed.

Lemma labels_inv_step st t :
  labels_inv st -> labels_inv (pool_step (labels_step y) st t).
Proof.
  destruct st as [[labels count] ls]; intros (order & Inv).
  destruct (nth_error ls t) as [pc|] eqn:Hpc.
  2:{ unfold pool_step; cbn [fst snd]; rewrite Hpc; now exists order. }
  rewrite (pool_step_self (labels_step y) (labels, count, ls) t pc Hpc).
  destruct Inv as (N & Hc & Hc2 & Hlab & Hlen & Hin & Hent & Hst & Hadd & Hsto & Hdn).
  cbn [fst snd] in *.
  assert (t < length ls)%nat as Ht by (apply nth_error_Some; congruence).
  pose proof (order_length order N Hin) as Hol.
  pose proof root_threads_bound as Hrb.
  destruct pc as [| |j|]; cbn [labels_step fst snd].
  - (* LStart *)
    pose proof (Hst t Hpc) as Hnot.
    destruct (Z.eqb_spec (rd y (Z.of_nat t)) (Z.of_nat t)) as [R|R];
      cbn [negb fst snd]; exists order; unfold labels_inv_with; cbn [fst snd];
      (split; [auto | split; [auto | split; [auto | split; [auto |
         split; [now rewrite length_upd | split; [auto |]]]]]]).
    + split; [| split; [| split; [| split]]]; intros *;
        rewrite nth_error_upd by auto; destruct (Nat.eq_dec t _) as [<-|Hne];
        try discriminate; auto.
      * intros Hj; apply nth_error_In in Hj; contradiction.
      * intros _; split; auto; unfold is_root; now apply Z.eqb_eq.
    + split; [| split; [| split; [| split]]]; intros *;
        rewrite nth_error_upd by auto; destruct (Nat.eq_dec t _) as [<-|Hne];
        try discriminate; auto.
      * intros Hj; apply nth_error_In in Hj; contradiction.
      * intros _ Hr; unfold is_root in Hr; apply Z.eqb_eq in Hr; contradiction.
  - (* LAdd *)
    destruct (Hadd t Hpc) as [Hr Hnot].
    unfold atomicAdd; cbn [fst snd].
    assert (NoDup (order ++ [t])) as N'.
    { apply NoDup_app; [auto | repeat constructor; auto | ].
      intros a Ha [<-|[]]; contradiction. }
    assert (forall a, In a (order ++ [t]) -> In a root_threads) as Hin'.
    { intros a Ha; apply in_app_iff in Ha as [Ha|[<-|[]]]; auto.
      apply in_root_threads; split; auto; lia. }
    pose proof (order_length _ N' Hin') as Hol'.
    rewrite length_app in Hol'; cbn [length] in Hol'.
    exists (order ++ [t]); unfold labels_inv_with; cbn [fst snd].
    split; [auto | split; [| split; [now rewrite len_wr | split; [auto |
      split; [now rewrite length_upd | split; [auto |]]]]]].
    { rewrite rd_wr_eq by lia; rewrite Hc, length_app; cbn [length].
      rewrite wrap32_id; [lia|].
      unfold in_range, min_signed, max_signed, len in *; lia. }
    split; [| split; [| split; [| split]]]; intros *;
      rewrite nth_error_upd by auto; destruct (Nat.eq_dec t _) as [<-|Hne];
      try discriminate.
    + intros Hj; left; f_equal; f_equal.
      destruct (Nat.lt_ge_cases j (length order)) as [Hlt|Hge].
      * rewrite nth_error_app1 in Hj by auto.
        apply nth_error_In in Hj; contradiction.
      * assert (j < length (order ++ [t]))%nat
          by (apply nth_error_Some; congruence).
        rewrite length_app in *; cbn [length] in *; lia.
    + intros Hj.
      destruct (Nat.lt_ge_cases j (length order)) as [Hlt|Hge].
      * rewrite nth_error_app1 in Hj by auto; auto.
      * rewrite nth_error_app2 in Hj by auto.
        destruct (j - length order)%nat as [|[|?]]; simpl in Hj; congruence.
    + intros H Hi; apply in_app_iff in Hi as [Hi|[Hi|[]]];
        [apply (Hst _ H Hi) | congruence].
    + intros H; destruct (Hadd _ H) as [? Hn]; split; auto.
      intros Hi; apply in_app_iff in Hi as [Hi|[Hi|[]]]; auto.
    + intros [= <-]; rewrite Hc, Nat2Z.id; split; [lia|].
      rewrite nth_error_app2, Nat.sub_diag by auto; reflexivity.
    + intros H; destruct (Hsto _ _ H) as [? Hn]; split; auto.
      rewrite nth_error_app1; auto; apply nth_error_Some; congruence.
    + intros; apply in_app_iff; auto.
  - (* LStore *)
    destruct (Hsto t j Hpc) as [Hj Ho].
    assert (Z.to_nat j < length order)%nat as Hjl
      by (apply nth_error_Some; congruence).
    assert (wrap32 (Z.of_nat t) = Z.of_nat t) as Wt.
    { apply wrap32_id; unfold in_range, min_signed, max_signed, len in *; lia. }
    rewrite Wt.
    exists order; unfold labels_inv_with; cbn [fst snd].
    split; [auto | split; [auto | split; [auto | split;
      [unfold wr; now rewrite length_upd | split;
        [now rewrite length_upd | split; [auto |]]]]]].
    split; [| split; [| split; [| split]]]; intros *;
      rewrite nth_error_upd by auto; destruct (Nat.eq_dec t _) as [<-|Hne];
      try discriminate; auto.
    + intros Hj'; right; split; auto.
      assert (j0 = Z.to_nat j) as ->.
      { apply (NoDup_nth_error order); auto; [apply nth_error_Some|]; congruence. }
      rewrite Z2Nat.id by lia; apply rd_wr_eq; unfold len; lia.
    + intros Hj'; destruct (Hent _ _ Hj') as [?|[? R]]; auto; right; split; auto.
      rewrite rd_wr_ne; auto; try lia.
      intros ->; rewrite Nat2Z.id in Ho; congruence.
    + intros _ _; eapply nth_error_In; eauto.
  - (* LDone *)
    exists order; unfold labels_inv_with; cbn [fst snd].
    rewrite upd_same by auto.
    repeat (split; auto).
Qed.

Definition labels_mu (m : list Z * list Z) (pc : labels_pc) : nat :=
  match pc with LStart => 3 | LAdd => 2 | LStore _ => 1 | LDone => 0 end.

(** After any interleaving of the labels threads, [labels] holds every
    root exactly once, in the order in which the threads obtained their
    slots. *)
Theorem labels_result sched labels0 count0 :
  length labels0 = length root_threads -> len count0 = 2 -> rd count0 1 = 0 ->
  let m := fst (launch (labels_step y) sched 3 (length y) LStart
                       (labels0, count0)) in
  Permutation (fst m) (roots y).
Proof.
  intros Hl0 Hc2 Hc1 m.
  destruct (launch_done (labels_step y) labels_inv labels_done labels_mu 3
              labels_inv_step)
    with (sched := sched) (fuel := 3%nat)
         (n := length y) (l0 := LStart) (m := (labels0, count0))
    as ((order & Inv) & Hn & D); auto.
  - intros i [l c] [] H; simpl in *; try discriminate; auto.
  - intros [l c] ls t pc _ _ Hd; destruct pc; try discriminate;
      cbn [labels_step].
    + destruct (negb _); simpl; lia.
    + unfold atomicAdd; simpl; lia.
    + simpl; lia.
  - intros [l c] ls t pc _ _; destruct pc; simpl; lia.
  - exists []; unfold labels_inv_with; cbn [fst snd].
    split; [constructor | split; [auto | split; [auto | split; [auto |
      split; [apply repeat_length | split; [intros ? []|]]]]]].
    split; [| split; [| split; [| split]]]; intros *.
    + destruct j; discriminate.
    + auto.
    + intros H; apply nth_error_In, repeat_spec in H; discriminate.
    + intros H; apply nth_error_In, repeat_spec in H; discriminate.
    + intros H; apply nth_error_In, repeat_spec in H; discriminate.
  - set (st := launch _ _ _ _ _ _) in *.
    destruct Inv as (N & Hc & _ & Hlab & Hlen & Hin & Hent & _ & _ & _ & Hdn).
    assert (forall t, (t < length y)%nat -> nth_error (snd st) t = Some LDone)
      as HD.
    { intros t Ht.
      destruct (nth_error (snd st) t) as [pc|] eqn:Hpc.
      2:{ apply nth_error_None in Hpc; lia. }
      rewrite Forall_forall in D; specialize (D pc (nth_error_In _ _ Hpc)).
      destruct pc; try discriminate; auto. }
    assert (Permutation order root_threads) as P.
    { apply NoDup_Permutation; auto.
      - apply NoDup_filter, seq_NoDup.
      - intros t; split; auto; intros Ht.
        apply in_root_threads in Ht as [Ht Hr]; auto. }
    rewrite roots_threads, <- P.
    replace (fst m) with (map Z.of_nat order); [reflexivity|].
    apply (nth_ext _ _ 0 0).
    + rewrite length_map; unfold m; fold st.
      rewrite Hlab; now apply Permutation_length.
    + intros j Hj; rewrite length_map in Hj.
      change 0 with (Z.of_nat 0) at 1; rewrite map_nth.
      destruct (nth_error order j) as [t|] eqn:Ho;
        [| apply nth_error_None in Ho; lia].
      rewrite (nth_error_nth _ _ _ Ho).
      destruct (Hent _ _ Ho) as [H|[_ R]].
      * rewrite HD in H; [discriminate|].
        apply in_root_threads, Hin; eapply nth_error_In; eauto.
      * unfold rd in R; rewrite Nat2Z.id in R; unfold m; fold st; auto.
Qed.

End LabelsProof.

(** ** Sorting *)

Section Sorting.

Lemma insert_sorted_perm a l : Permutation (insert_sorted a l) (a :: l).
Proof.
  induction l as [|b l IH]; simpl; auto.
  destruct (a <=? b); auto.
  rewrite IH; apply perm_swap.
Qed.

Lemma sort_perm l : Permutation (sort l) l.
Proof.
  induction l as [|a l IH]; simpl; auto.
  rewrite insert_sorted_perm; now constructor.
Qed.

Lemma insert_sorted_sorted a l :
  StronglySorted Z.le l -> StronglySorted Z.le (insert_sorted a l).
Proof.
  induction 1 as [|b l S IH H]; simpl.
  - repeat constructor.
  - destruct (Z.leb_spec a b).
    + constructor; [now constructor|].
      constructor; auto; eapply Forall_impl; [|exact H]; simpl; intros; lia.
    + constructor; auto.
      rewrite (insert_sorted_perm a l); constructor; auto; lia.
Qed.

Lemma sort_sorted l : StronglySorted Z.le (sort l).
Proof.
  induction l; simpl; [constructor | now apply insert_sorted_sorted].
Qed.

Lemma sorted_perm_eq l1 : forall l2,
  StronglySorted Z.le l1 -> StronglySorted Z.le l2 -> Permutation l1 l2 ->
  l1 = l2.
Proof.
  induction l1 as [|a l1 IH]; intros l2 S1 S2 P.
  - now apply Permutation_nil in P.
  - destruct l2 as [|b l2]; [apply Permutation_sym, Permutation_nil in P; discriminate|].
    inversion S1 as [|? ? S1' H1]; inversion S2 as [|? ? S2' H2]; subst.
    assert (a = b) as ->.
    { assert (In b (a :: l1)) as Hb
        by (eapply Permutation_in; [symmetry; exact P | now left]).
      assert (In a (b :: l2)) as Ha
        by (eapply Permutation_in; [exact P | now left]).
      rewrite Forall_forall in H1, H2.
      destruct Hb as [|Hb]; auto; destruct Ha as [|Ha]; auto.
      specialize (H1 _ Hb); specialize (H2 _ Ha); lia. }
    f_equal; apply IH; auto; eapply Permutation_cons_inv; eauto.
Qed.

Lemma sorted_zrange_from s n :
  StronglySorted Z.lt (map Z.of_nat (seq s n)).
Proof.
  revert s; induction n as [|n IH]; intros s; simpl; constructor; auto.
  apply Forall_forall; intros z Hz.
  apply in_map_iff in Hz as (k & <- & Hk); apply in_seq in Hk; lia.
Qed.

Lemma sorted_filter (R : Z -> Z -> Prop) f l :
  StronglySorted R l -> StronglySorted R (filter f l).
Proof.
  induction 1 as [|a l S IH H]; simpl; [constructor|].
  destruct (f a); auto; constructor; auto.
  apply Forall_forall; intros z Hz; apply filter_In in Hz as [Hz _].
  rewrite Forall_forall in H; auto.
Qed.

Lemma sorted_lt_le l : StronglySorted Z.lt l -> StronglySorted Z.le l.
Proof.
  induction 1 as [|a l S IH H]; constructor; auto.
  eapply Forall_impl; [|exact H]; simpl; intros; lia.
Qed.

Lemma sorted_roots y : StronglySorted Z.lt (roots y).
Proof. apply sorted_filter, sorted_zrange_from. Qed.

(** The sorted roots do not depend on the order in which the labels
    kernel collected them. *)
Lemma sort_roots y labels : Permutation labels (roots y) -> sort labels = roots y.
Proof.
  intros P; apply sorted_perm_eq.
  - apply sort_sorted.
  - apply sorted_lt_le, sorted_roots.
  - now rewrite sort_perm.
Qed.

Lemma sorted_rd l : StronglySorted Z.lt l ->
  forall p q, 0 <= p -> p < q -> q < len l -> rd l p < rd l q.
Proof.
  unfold rd, len; induction 1 as [|a l S IH H]; intros p q Hp Hpq Hq;
    simpl in *; [lia|].
  destruct (Z.to_nat q) as [|q'] eqn:Eq; [lia|].
  destruct (Z.to_nat p) as [|p'] eqn:Ep.
  - rewrite Forall_forall in H; apply H, nth_In; lia.
  - specialize (IH (Z.of_nat p') (Z.of_nat q')).
    rewrite !Nat2Z.id in IH; apply IH; lia.
Qed.

End Sorting.

(** Position of the first occurrence of [v]. *)
Fixpoint index_of (v : Z) (l : list Z) : Z :=
  match l with
  | [] => 0
  | h :: t => if h =? v then 0 else 1 + index_of v t
  end.

Lemma index_of_in v l :
  In v l -> 0 <= index_of v l < len l /\ rd l (index_of v l) = v.
Proof.
  unfold len, rd; induction l as [|h t IH]; intros H; [destruct H|].
  cbn [index_of]; destruct (Z.eqb_spec h v) as [->|Hne].
  - simpl; split; [lia | reflexivity].
  - destruct H as [|H]; [contradiction|]; destruct (IH H) as [B R].
    split; [cbn [length]; lia|].
    replace (Z.to_nat (1 + index_of v t)) with (S (Z.to_nat (index_of v t)))
      by lia.
    exact R.
Qed.

Lemma index_of_nonneg v l : 0 <= index_of v l.
Proof. induction l; cbn [index_of]; [lia | destruct (_ =? _); lia]. Qed.

Lemma index_of_rd l p :
  StronglySorted Z.lt l -> 0 <= p < len l -> index_of (rd l p) l = p.
Proof.
  intros S Hp.
  assert (In (rd l p) l) as Hin by (apply nth_In; unfold len in *; lia).
  destruct (index_of_in _ _ Hin) as [B R].
  destruct (Z.lt_trichotomy (index_of (rd l p) l) p) as [C|[C|C]]; auto.
  - pose proof (sorted_rd l S _ _ (proj1 B) C (proj2 Hp)); lia.
  - pose proof (sorted_rd l S _ _ (proj1 Hp) C (proj2 B)); lia.
Qed.

(** The label of a cell that holds [v] after the count kernel. *)
Definition final_label (labels : list Z) (v : Z) : Z :=
  if v <? 0 then 0 else index_of v labels + 1.

(** ** The finalize kernel *)

Section FinalizeProof.

Variables (maxlabel : Z) (labels y0 : list Z).

Hypothesis labels_sorted : StronglySorted Z.lt labels.
Hypothesis labels_len : len labels = maxlabel.
Hypothesis maxlabel_small : maxlabel <= 2 ^ 30.
Hypothesis resolved_in :
  forall i, 0 <= i < len y0 -> 0 <= rd y0 i -> In (rd y0 i) labels.

Definition finalize_done (pc : finalize_pc) : bool :=
  match pc with FDone => true | _ => false end.

Definition finalize_tinv (y : list Z) (i : Z) (pc : finalize_pc) : Prop :=
  match pc with
  | FStart => rd y i = rd y0 i
  | FLoop yi j_min j_max j =>
      yi = rd y0 i /\ 0 <= yi /\
      0 <= j_min <= index_of yi labels /\ index_of yi labels <= j_max /\
      j_max < maxlabel /\ j = Z.quot (j_min + j_max) 2
  | FDone => rd y i = final_label labels (rd y0 i)
  end.

Definition finalize_inv (st : list Z * list finalize_pc) : Prop :=
  len (fst st) = len y0 /\ length (snd st) = length y0 /\
  forall t pc, nth_error (snd st) t = Some pc ->
               finalize_tinv (fst st) (Z.of_nat t) pc.

Definition finalize_mu (y : list Z) (pc : finalize_pc) : nat :=
  match pc with
  | FStart => Z.to_nat maxlabel + 2
  | FLoop yi j_min j_max j => Z.to_nat (j_max - j_min) + 1
  | FDone => 0
  end.

Lemma wrap32_small z : - 2 ^ 31 <= z <= 2 ^ 31 - 1 -> wrap32 z = z.
Proof. intros; now apply wrap32_id. Qed.

Lemma quot2_bounds a b : 0 <= a -> a <= b -> a <= Z.quot (a + b) 2 <= b.
Proof.
  intros Ha Hab; rewrite Z.quot_div_nonneg by lia.
  pose proof (Z.div_mod (a + b) 2 ltac:(lia)).
  pose proof (Z.mod_pos_bound (a + b) 2 ltac:(lia)); lia.
Qed.

Lemma quot2_lt a b : 0 <= a -> a < b -> Z.quot (a + b) 2 < b.
Proof.
  intros Ha Hab; rewrite Z.quot_div_nonneg by lia.
  pose proof (Z.div_mod (a + b) 2 ltac:(lia)).
  pose proof (Z.mod_pos_bound (a + b) 2 ltac:(lia)); lia.
Qed.

(** One step of thread [i]: it stores to its own cell only, keeps its
    invariant and comes closer to its end. *)
Lemma finalize_step_sound y i pc :
  len y = len y0 -> 0 <= i < len y0 -> finalize_tinv y i pc ->
  let st' := finalize_step maxlabel labels i y pc in
  (fst st' = y \/ exists v, fst st' = wr y i v) /\
  finalize_tinv (fst st') i (snd st') /\
  (finalize_done pc = false ->
   (finalize_mu (fst st') (snd st') < finalize_mu y pc)%nat) /\
  (finalize_mu y pc <= finalize_fuel maxlabel)%nat.
Proof.
  intros Hl Hi T.
  assert (0 <= maxlabel) as Hm by (rewrite <- labels_len; unfold len; lia).
  assert (2 ^ 30 = 1073741824) as P30 by reflexivity.
  assert (2 ^ 31 = 2147483648) as P31 by reflexivity.
  destruct pc as [|yi j_min j_max j|];
    cbn [finalize_step finalize_tinv finalize_mu finalize_done] in *.
  - destruct (Z.ltb_spec (rd y i) 0) as [Hneg|Hpos]; cbn [fst snd finalize_tinv finalize_mu].
    + split; [right; eauto | split; [| split; unfold finalize_fuel; lia]].
      rewrite rd_wr_eq by lia; unfold final_label.
      rewrite <- T; destruct (Z.ltb_spec (rd y i) 0); auto; lia.
    + rewrite T in Hpos.
      destruct (index_of_in _ _ (resolved_in i Hi Hpos)) as [B R].
      rewrite (wrap32_small (maxlabel - 1)) by lia.
      rewrite (wrap32_small (0 + (maxlabel - 1))) by lia.
      split; [now left | split; [| split; unfold finalize_fuel; lia]].
      rewrite T; repeat split; auto; lia.
  - destruct T as (Ey & Hy & Hmin & Hmax & Hjm & Ej).
    destruct (index_of_in _ _ (resolved_in i Hi ltac:(lia))) as [B R].
    rewrite <- Ey in B, R.
    set (p := index_of yi labels) in *.
    assert (forall q, 0 <= q < maxlabel -> rd labels q = yi -> q = p) as Uniq.
    { intros q Hq Eq; unfold p; rewrite <- Eq; symmetry.
      apply index_of_rd; auto; lia. }
    destruct (Z.ltb_spec j_min j_max) as [Hlt|Hge];
      cbn [fst snd finalize_tinv finalize_mu].
    + pose proof (quot2_bounds j_min j_max ltac:(lia) ltac:(lia)) as Bj.
      pose proof (quot2_lt j_min j_max ltac:(lia) Hlt) as Bj'.
      rewrite <- Ej in Bj, Bj'.
      destruct (Z.eqb_spec yi (rd labels j)) as [E|E];
        cbn [fst snd finalize_tinv finalize_mu].
      * assert (j = p) as -> by (apply Uniq; auto; lia).
        rewrite wrap32_small by lia.
        split; [right; eauto | split; [| split; unfold finalize_fuel; lia]].
        rewrite rd_wr_eq by lia; unfold final_label; rewrite <- Ey.
        destruct (Z.ltb_spec yi 0); auto; lia.
      * destruct (Z.ltb_spec yi (rd labels j)) as [C|C];
          cbn [fst snd finalize_tinv finalize_mu].
        -- assert (p < j) as Hpj.
           { destruct (Z_lt_le_dec p j) as [|Hle]; auto.
             assert (j = p \/ j < p) as [->|Hjp] by lia; [lia|].
             pose proof (sorted_rd labels labels_sorted j p); lia. }
           rewrite (wrap32_small (j - 1)) by lia.
           rewrite (wrap32_small (j_min + (j - 1))) by lia.
           split; [now left | split; [| split; unfold finalize_fuel; lia]].
           repeat split; auto; lia.
        -- assert (j < p) as Hpj.
           { destruct (Z_lt_le_dec j p) as [|Hle]; auto.
             assert (j = p \/ p < j) as [->|Hjp] by lia; [lia|].
             pose proof (sorted_rd labels labels_sorted p j); lia. }
           rewrite (wrap32_small (j + 1)) by lia.
           rewrite (wrap32_small (j + 1 + j_max)) by lia.
           split; [now left | split; [| split; unfold finalize_fuel; lia]].
           repeat split; auto; lia.
    + assert (j = p) as ->.
      { assert (j_min = p /\ j_max = p) as [-> ->] by lia.
        rewrite Ej; replace (p + p) with (p * 2) by ring.
        apply Z.quot_mul; lia. }
      rewrite wrap32_small by lia.
      split; [right; eauto | split; [| split; unfold finalize_fuel; lia]].
      rewrite rd_wr_eq by lia; unfold final_label; rewrite <- Ey.
      destruct (Z.ltb_spec yi 0); auto; lia.
  - cbn [fst snd finalize_tinv finalize_mu].
    split; [now left | split; [auto | split; [discriminate | lia]]].
Qed.

Lemma finalize_inv_step st t :
  finalize_inv st ->
  finalize_inv (pool_step (finalize_step maxlabel labels) st t).
Proof.
  destruct st as [y ls]; intros (Hl & Hlen & T); cbn [fst snd] in *.
  destruct (nth_error ls t) as [pc|] eqn:Hpc.
  2:{ unfold pool_step; cbn [fst snd]; rewrite Hpc; repeat split; auto. }
  assert (t < length y0)%nat as Ht
    by (rewrite <- Hlen; apply nth_error_Some; congruence).
  assert (0 <= Z.of_nat t < len y0) as Hi by (unfold len; lia).
  destruct (finalize_step_sound y (Z.of_nat t) pc Hl Hi (T t pc Hpc))
    as (G & T' & _).
  rewrite (pool_step_self _ (y, ls) t pc Hpc); cbn [fst snd] in *.
  destruct (finalize_step maxlabel labels (Z.of_nat t) y pc) as [y' pc'].
  cbn [fst snd] in *; unfold finalize_inv; cbn [fst snd].
  split; [destruct G as [->|[v ->]]; auto; now rewrite len_wr|].
  split; [now rewrite length_upd|].
  intros t' pc'' H'; rewrite nth_error_upd in H' by lia.
  destruct (Nat.eq_dec t t') as [<-|Hne]; [now injection H' as <-|].
  specialize (T t' pc'' H').
  assert (rd y' (Z.of_nat t') = rd y (Z.of_nat t')) as E.
  { destruct G as [->|[v ->]]; auto; rewrite rd_wr_ne; auto; lia. }
  destruct pc''; cbn [finalize_tinv] in *; auto; congruence.
Qed.

Lemma finalize_launch sched :
  let st := launch (finalize_step maxlabel labels) sched
                   (finalize_fuel maxlabel) (length y0) FStart y0 in
  finalize_inv st /\ Forall (fun pc => finalize_done pc = true) (snd st).
Proof.
  destruct (launch_done (finalize_step maxlabel labels) finalize_inv
              finalize_done finalize_mu (finalize_fuel maxlabel)
              finalize_inv_step)
    with (sched := sched) (fuel := finalize_fuel maxlabel)
         (n := length y0) (l0 := FStart) (m := y0)
    as (Inv & Hn & D); auto.
  - intros i m [] H; simpl in *; try discriminate; auto.
  - intros y ls t pc (Hl & Hlen & T) Hpc Hd; cbn [fst snd] in *.
    assert (t < length y0)%nat as Ht
      by (rewrite <- Hlen; apply nth_error_Some; congruence).
    apply (finalize_step_sound y (Z.of_nat t) pc); auto; unfold len; lia.
  - intros y ls t pc (Hl & Hlen & T) Hpc; cbn [fst snd] in *.
    assert (t < length y0)%nat as Ht
      by (rewrite <- Hlen; apply nth_error_Some; congruence).
    apply (finalize_step_sound y (Z.of_nat t) pc); auto; unfold len; lia.
  - repeat split; auto; [apply repeat_length|].
    intros t pc H; apply nth_error_In, repeat_spec in H; now subst.
Qed.

(** After any interleaving of the finalize threads every thread has left
    its search loop. *)
Theorem finalize_terminates sched :
  Forall (fun pc => pc = FDone)
         (snd (launch (finalize_step maxlabel labels) sched
                      (finalize_fuel maxlabel) (length y0) FStart y0)).
Proof.
  destruct (finalize_launch sched) as [_ D].
  eapply Forall_impl; [|exact D]; intros []; simpl; congruence.
Qed.

(** After any interleaving of the finalize threads every cell holds its
    final label. *)
Theorem finalize_result sched :
  fst (launch (finalize_step maxlabel labels) sched
              (finalize_fuel maxlabel) (length y0) FStart y0)
  = map (final_label labels) y0.
Proof.
  destruct (finalize_launch sched) as [(Hl & Hlen & T) D].
  set (st := launch _ _ _ _ _ _) in *.
  apply (nth_ext _ _ 0 (final_label labels 0)).
  - rewrite length_map; unfold len in Hl; lia.
  - intros t Ht; rewrite map_nth.
    assert (t < length y0)%nat as Ht' by (unfold len in Hl; lia).
    destruct (nth_error (snd st) t) as [pc|] eqn:Hpc.
    2:{ apply nth_error_None in Hpc; lia. }
    rewrite Forall_forall in D; specialize (D pc (nth_error_In _ _ Hpc)).
    specialize (T t pc Hpc); destruct pc; try discriminate.
    unfold finalize_tinv, rd in T; rewrite Nat2Z.id in T; exact T.
Qed.

End FinalizeProof.

(** ** Coordinates and the neighbour computation *)

(** Mixed-radix digits of [i], least significant axis first. *)
Fixpoint digits (ds : list Z) (i : Z) : list Z :=
  match ds with
  | [] => []
  | d :: ds' => i mod d :: digits ds' (i / d)
  end.

Fixpoint undigits (ds cs : list Z) : Z :=
  match ds, cs with
  | d :: ds', c :: cs' => c + d * undigits ds' cs'
  | _, _ => 0
  end.

(** [numpy.unravel_index(i, shape)]: the multi-index of the flat index [i]
    in row-major order. *)
Definition unravel (shape : list Z) (i : Z) : list Z :=
  rev (digits (rev shape) i).

Definition vadd (a b : list Z) : list Z :=
  map (fun p => fst p + snd p) (combine a b).

Definition in_bounds (cs ds : list Z) : bool :=
  forallb (fun p => (0 <=? fst p) && (fst p <? snd p)) (combine cs ds).

(** Cell [q] is the cell at offset [v] from cell [p]: both lie in the
    array and the multi-index of [q] is that of [p] plus [v]. *)
Definition offset_step (shape v : list Z) (p q : Z) : Prop :=
  0 <= p < prod_shape shape /\ 0 <= q < prod_shape shape /\
  unravel shape q = vadd (unravel shape p) v.

(** The loop over [dm] without machine arithmetic, on the reversed shape
    and offset. *)
Fixpoint nb (ds us : list Z) (rest stride k : Z) : Z :=
  match ds, us with
  | d :: ds', u :: us' =>
      let pos := rest mod d + u in
      if (pos <? 0) || (pos >=? d) then -1
      else nb ds' us' (rest / d) (stride * d) (k + pos * stride)
  | _, _ => k
  end.

Section Neighbour.

Lemma length_digits ds i : length (digits ds i) = length ds.
Proof. revert i; induction ds; simpl; auto. Qed.

Lemma prod_shape_pos ds : Forall (fun d => 1 <= d) ds -> 1 <= prod_shape ds.
Proof. induction 1; simpl; [lia | nia]. Qed.

Lemma prod_shape_app a b : prod_shape (a ++ b) = prod_shape a * prod_shape b.
Proof.
  unfold prod_shape; induction a as [|x a IH]; cbn [app fold_right]; [lia|].
  fold (prod_shape (a ++ b)) in *; fold (prod_shape a) in *.
  unfold prod_shape in *; rewrite IH; ring.
Qed.

Lemma prod_shape_rev l : prod_shape (rev l) = prod_shape l.
Proof.
  induction l as [|x l IH]; simpl; auto.
  rewrite prod_shape_app, IH; unfold prod_shape; simpl; ring.
Qed.

Lemma undigits_bound ds cs :
  in_bounds cs ds = true -> length cs = length ds ->
  0 <= undigits ds cs < prod_shape ds.
Proof.
  unfold in_bounds, prod_shape; revert cs; induction ds as [|d ds IH];
    intros [|c cs] H L; try discriminate; cbn [undigits fold_right] in *;
    [lia|].
  cbn [combine forallb fst snd] in H; apply andb_true_iff in H as [H1 H2].
  specialize (IH cs H2 ltac:(simpl in L; lia)); nia.
Qed.

Lemma digits_undigits ds cs :
  in_bounds cs ds = true -> length cs = length ds ->
  digits ds (undigits ds cs) = cs.
Proof.
  unfold in_bounds; revert cs; induction ds as [|d ds IH];
    intros [|c cs] H L; try discriminate; cbn [undigits digits] in *; auto.
  cbn [combine forallb fst snd] in H; apply andb_true_iff in H as [H1 H2].
  assert (0 <= c < d) as Hc by lia.
  replace (c + d * undigits ds cs) with (c + undigits ds cs * d) by ring.
  rewrite Z_mod_plus_full, Z.mod_small by lia.
  rewrite Z.div_add, (Z.div_small c d), Z.add_0_l by lia.
  f_equal; apply IH; auto.
Qed.

Lemma undigits_digits ds i :
  Forall (fun d => 1 <= d) ds -> 0 <= i < prod_shape ds ->
  undigits ds (digits ds i) = i /\ in_bounds (digits ds i) ds = true.
Proof.
  unfold in_bounds, prod_shape; intros F; revert i.
  induction F as [|d ds Hd F IH]; intros i Hi;
    cbn [undigits digits fold_right combine forallb fst snd] in *.
  - split; [lia | reflexivity].
  - pose proof (prod_shape_pos ds F) as Hp; unfold prod_shape in Hp.
    pose proof (Z.mod_pos_bound i d ltac:(lia)).
    pose proof (Z.div_mod i d ltac:(lia)).
    assert (0 <= i / d < fold_right Z.mul 1 ds) as Hq.
    { split; [apply Z.div_pos; lia|].
      apply Z.div_lt_upper_bound; lia. }
    destruct (IH (i / d) Hq) as [-> ->].
    split; [lia|].
    rewrite andb_true_r; lia.
Qed.

Lemma nb_spec ds : forall us rest stride k,
  length us = length ds ->
  nb ds us rest stride k
  = if in_bounds (vadd (digits ds rest) us) ds
    then k + stride * undigits ds (vadd (digits ds rest) us)
    else -1.
Proof.
  unfold in_bounds, vadd; induction ds as [|d ds IH];
    intros [|u us] rest stride k L; try discriminate;
    cbn [nb digits combine map forallb undigits fst snd]; [lia|].
  destruct (Z.ltb_spec (rest mod d + u) 0); cbn [orb].
  { destruct (Z.leb_spec 0 (rest mod d + u)); [lia | reflexivity]. }
  destruct (Z.geb_spec (rest mod d + u) d).
  { destruct (Z.leb_spec 0 (rest mod d + u)); cbn [andb]; auto.
    destruct (Z.ltb_spec (rest mod d + u) d); [lia | reflexivity]. }
  destruct (Z.leb_spec 0 (rest mod d + u)); [|lia].
  destruct (Z.ltb_spec (rest mod d + u) d); [|lia]; cbn [andb].
  rewrite IH by (simpl in L; lia).
  destruct (forallb _ _); auto; ring.
Qed.

Lemma length_vadd a b : length a = length b -> length (vadd a b) = length a.
Proof.
  unfold vadd; intros H; rewrite length_map, length_combine; lia.
Qed.

Lemma vadd_rev a b :
  length a = length b -> vadd (rev a) (rev b) = rev (vadd a b).
Proof.
  unfold vadd; revert b; induction a as [|x a IH]; intros [|y b] L;
    try discriminate; auto; simpl in *.
  rewrite <- IH by lia.
  assert (length (rev a) = length (rev b)) as Lr by (rewrite !length_rev; lia).
  revert Lr; generalize (rev a) (rev b); intros l1; induction l1 as [|z l1 IH1];
    intros [|w l2] Lr; try discriminate; simpl; auto.
  f_equal; apply IH1; simpl in Lr; lia.
Qed.

(** The result of the loop in terms of multi-indices. *)
Lemma nb_offset_step shape v p q :
  Forall (fun d => 1 <= d) shape -> length v = length shape ->
  0 <= p < prod_shape shape ->
  (nb (rev shape) (rev v) p 1 0 = q /\ 0 <= q) <-> offset_step shape v p q.
Proof.
  intros F L Hp.
  assert (Forall (fun d => 1 <= d) (rev shape)) as Fr.
  { apply Forall_forall; intros d Hd; apply in_rev in Hd.
    rewrite Forall_forall in F; auto. }
  assert (length (rev v) = length (rev shape)) as Lr
    by (rewrite !length_rev; auto).
  assert (length (vadd (digits (rev shape) p) (rev v)) = length (rev shape))
    as Lv by (rewrite length_vadd, length_digits; auto; now rewrite length_digits).
  rewrite nb_spec by auto; unfold offset_step, unravel.
  rewrite <- (prod_shape_rev shape) in *.
  assert (vadd (rev (digits (rev shape) p)) v
          = rev (vadd (digits (rev shape) p) (rev v))) as ->.
  { rewrite <- vadd_rev, rev_involutive; auto.
    rewrite length_digits; lia. }
  split.
  - intros [E Hq].
    destruct (in_bounds _ _) eqn:B; [|lia].
    pose proof (undigits_bound _ _ B Lv).
    split; auto; split; [lia|].
    f_equal; rewrite <- E, Z.add_0_l, Z.mul_1_l.
    now apply digits_undigits.
  - intros (_ & Hq & E).
    apply (f_equal (@rev Z)) in E; rewrite !rev_involutive in E.
    rewrite <- E.
    destruct (undigits_digits (rev shape) q Fr Hq) as [-> ->]; lia.
Qed.

Lemma nb_range shape v p :
  length v = length shape ->
  nb (rev shape) (rev v) p 1 0 < prod_shape shape \/
  nb (rev shape) (rev v) p 1 0 = -1.
Proof.
  intros L.
  assert (length (rev v) = length (rev shape)) as Lr
    by (rewrite !length_rev; auto).
  rewrite nb_spec by auto.
  destruct (in_bounds _ _) eqn:B; auto; left.
  rewrite <- prod_shape_rev.
  apply undigits_bound in B; [lia|].
  rewrite length_vadd, length_digits; auto; now rewrite length_digits.
Qed.

Lemma dim_le_prod shape d :
  Forall (fun d => 1 <= d) shape -> In d shape -> 1 <= d <= prod_shape shape.
Proof.
  induction 1 as [|a l Ha Hl IH]; intros H; [destruct H|].
  pose proof (prod_shape_pos l Hl).
  unfold prod_shape in *; cbn [fold_right].
  destruct H as [->|H]; [nia | specialize (IH H); nia].
Qed.

End Neighbour.

Section NeighbourLoop.

Variable shape : list Z.
Variable dirs : list (list Z).

Hypothesis shape_pos : Forall (fun d => 1 <= d) shape.
Hypothesis shape_fits : prod_shape shape <= max_signed.
Hypothesis dirs_rows :
  forall v, In v dirs -> length v = length shape /\ Forall trit v.
Hypothesis dirs_fit :
  (Z.of_nat (length dirs) + 1) * Z.of_nat (length shape) <= max_signed.

Lemma rd_shape d :
  (d < length shape)%nat -> rd (map wrap32 shape) (Z.of_nat d) = nth d shape 0.
Proof.
  intros H; unfold rd; rewrite Nat2Z.id.
  change 0 with (wrap32 0) at 1; rewrite map_nth.
  apply wrap32_id.
  pose proof (dim_le_prod shape (nth d shape 0) shape_pos (nth_In _ _ H)).
  unfold in_range, min_signed, max_signed in *; lia.
Qed.

Lemma nth_concat (rows : list (list Z)) n : forall dr d,
  (forall v, In v rows -> length v = n) ->
  (dr < length rows)%nat -> (d < n)%nat ->
  nth (d + dr * n) (concat rows) 0 = nth d (nth dr rows []) 0.
Proof.
  induction rows as [|r rows IH]; intros dr d U Hdr Hd; [simpl in Hdr; lia|].
  assert (length r = n) as Lr by (apply U; now left).
  destruct dr as [|dr]; cbn [concat nth].
  - rewrite Nat.mul_0_l, Nat.add_0_r, app_nth1; auto; lia.
  - rewrite app_nth2 by (simpl; lia).
    replace (d + S dr * n - length r)%nat with (d + dr * n)%nat by (simpl; lia).
    apply IH; auto; [intros; apply U; now right | simpl in Hdr; lia].
Qed.

Lemma rd_dirs dr d :
  0 <= dr < Z.of_nat (length dirs) -> (d < length shape)%nat ->
  rd (concat dirs)
     (wrap32 (Z.of_nat d + wrap32 (dr * Z.of_nat (length shape))))
  = nth d (nth (Z.to_nat dr) dirs []) 0.
Proof.
  intros Hdr Hd.
  assert (2 ^ 31 = 2147483648) as P31 by reflexivity.
  unfold max_signed in dirs_fit.
  rewrite (wrap32_small (dr * Z.of_nat (length shape))) by nia.
  rewrite wrap32_small by nia.
  unfold rd.
  replace (Z.to_nat (Z.of_nat d + dr * Z.of_nat (length shape)))
    with (d + Z.to_nat dr * length shape)%nat by nia.
  apply nth_concat; auto; [intros v Hv; now apply dirs_rows | lia].
Qed.

Lemma firstn_snoc (l : list Z) n :
  (n < length l)%nat -> firstn (S n) l = firstn n l ++ [nth n l 0].
Proof.
  revert n; induction l as [|a l IH]; intros [|n] H; simpl in *; try lia; auto.
  f_equal; apply IH; lia.
Qed.

Lemma neighbour_loop_nb dr :
  0 <= dr < Z.of_nat (length dirs) ->
  forall dm rest stride k,
    (dm <= length shape)%nat -> 0 <= rest -> 1 <= stride -> 0 <= k < stride ->
    stride * prod_shape (firstn dm shape) <= max_signed ->
    neighbour_loop (map wrap32 shape) (concat dirs)
                   (Z.of_nat (length shape)) dr dm rest stride k
    = nb (rev (firstn dm shape))
         (rev (firstn dm (nth (Z.to_nat dr) dirs []))) rest stride k.
Proof.
  intros Hdr; set (v := nth (Z.to_nat dr) dirs []).
  assert (In v dirs) as Hv by (apply nth_In; lia).
  destruct (dirs_rows v Hv) as [Lv Tv].
  induction dm as [|dm IH]; intros rest stride k Hdm Hrest Hs Hk Hfit;
    [reflexivity|].
  cbn [neighbour_loop].
  rewrite rd_shape, rd_dirs by (auto; lia); fold v.
  rewrite !firstn_snoc, !rev_app_distr by lia; cbn [rev app nb].
  set (D := nth dm shape 0) in *; set (u := nth dm v 0).
  assert (1 <= D <= prod_shape shape) as HD
    by (apply dim_le_prod; auto; apply nth_In; lia).
  assert (trit u) as Hu.
  { rewrite Forall_forall in Tv; apply Tv, nth_In; lia. }
  unfold trit in Hu.
  rewrite firstn_snoc, prod_shape_app in Hfit by lia; fold D in Hfit.
  replace (prod_shape [D]) with D in Hfit by (unfold prod_shape; simpl; lia).
  assert (1 <= prod_shape (firstn dm shape)) as Hp.
  { apply prod_shape_pos, Forall_forall; intros d Hd.
    pose proof shape_pos as Sp; rewrite Forall_forall in Sp; apply Sp.
    rewrite <- (firstn_skipn dm shape); apply in_or_app; now left. }
  rewrite Z.rem_mod_nonneg, Z.quot_div_nonneg by lia.
  pose proof (Z.mod_pos_bound rest D ltac:(lia)) as Hm.
  assert (2 ^ 31 = 2147483648) as P31 by reflexivity.
  unfold max_signed in *.
  rewrite (wrap32_small (rest mod D + u)) by lia.
  destruct ((rest mod D + u <? 0) || (rest mod D + u >=? D)) eqn:Eo; auto.
  apply orb_false_iff in Eo as [E1 E2].
  apply Z.ltb_ge in E1; rewrite Z.geb_leb in E2; apply Z.leb_gt in E2.
  assert (stride * D <= 2 ^ 31 - 1) as Hsd by nia.
  rewrite (wrap32_small (stride * D)) by nia.
  rewrite (wrap32_small ((rest mod D + u) * stride)) by nia.
  rewrite (wrap32_small (k + (rest mod D + u) * stride)) by nia.
  apply IH; try nia.
  apply Z.div_pos; lia.
Qed.

(** The kernel's neighbour computation is the offset step on
    multi-indices. *)
Lemma neighbour_nb p dr :
  0 <= p -> 0 <= dr < Z.of_nat (length dirs) ->
  neighbour (map wrap32 shape) (concat dirs) (Z.of_nat (length shape)) p dr
  = nb (rev shape) (rev (nth (Z.to_nat dr) dirs [])) p 1 0.
Proof.
  intros Hp Hdr; unfold neighbour; rewrite Nat2Z.id.
  assert (In (nth (Z.to_nat dr) dirs []) dirs) as Hv by (apply nth_In; lia).
  destruct (dirs_rows _ Hv) as [Lv _].
  rewrite neighbour_loop_nb; auto; try lia.
  - rewrite firstn_all, <- Lv, firstn_all; reflexivity.
  - rewrite firstn_all; lia.
Qed.

End NeighbourLoop.

(** ** The init kernel *)

Section Init.

Variable x : list Z.
Hypothesis x_fits : len x <= max_signed.

Lemma length_init : length (_kernel_init x) = length x.
Proof.
  unfold _kernel_init; rewrite length_map, length_combine, length_zrange.
  unfold len; lia.
Qed.

Lemma nth_zrange n k : (k < Z.to_nat n)%nat -> nth k (zrange n) 0 = Z.of_nat k.
Proof.
  intros H; unfold zrange; change 0 with (Z.of_nat 0) at 1.
  rewrite map_nth, seq_nth; auto.
Qed.

Lemma rd_init i :
  0 <= i < len x ->
  rd (_kernel_init x) i = if rd x i =? 0 then -1 else i.
Proof.
  intros Hi; unfold rd, _kernel_init.
  set (f := fun p : Z * Z => if snd p =? 0 then -1 else wrap32 (fst p)).
  rewrite (nth_indep _ 0 (f (0, 0))).
  2:{ rewrite length_map, length_combine, length_zrange; unfold len in *; lia. }
  rewrite map_nth, combine_nth.
  - unfold f; cbn [fst snd]; rewrite nth_zrange by (unfold len in *; lia).
    rewrite Z2Nat.id by lia; rewrite wrap32_id; auto.
    unfold in_range, min_signed, max_signed in *; lia.
  - rewrite length_zrange; unfold len; lia.
Qed.

Lemma init_active i : active x i = true -> rd (_kernel_init x) i = i.
Proof.
  intros A; pose proof A as A'; apply act_iff in A' as [R N].
  rewrite rd_init by auto.
  destruct (Z.eqb_spec (rd x i) 0); auto; contradiction.
Qed.

Lemma forest_init : forest x (_kernel_init x).
Proof.
  split; [unfold len; now rewrite length_init|].
  intros i Hi; split.
  - intros A; rewrite init_active by auto; split; [lia | auto].
  - intros A; rewrite rd_init by auto.
    unfold active in A; destruct (Z.eqb_spec (rd x i) 0); auto; lia.
Qed.

End Init.

(** ** The pipeline of [_label] *)

Section Pipeline.

Variables (x y_shape : list Z) (structure : ndarray).

Hypothesis shape_rank : y_shape <> [].
Hypothesis shape_pos : Forall (fun d => 1 <= d) y_shape.
Hypothesis x_len : len x = prod_shape y_shape.
Hypothesis fits : ints_fit y_shape structure.
Hypothesis structure_ok : validated (length y_shape) structure.

Lemma x_small : len x <= 2 ^ 30.
Proof. rewrite x_len; apply fits. Qed.

Local Abbreviation act i := (active x i = true).

(** The arguments [ndirs] and the neighbour function of the connect
    kernel as [_label] passes them. *)
Definition kernel_ndirs : Z := Z.of_nat (length (dirs_of structure)).

Definition kernel_nbr : Z -> Z -> Z :=
  neighbour (map wrap32 y_shape) (concat (dirs_of structure))
            (Z.of_nat (length y_shape)).

(** Two cells are joined by the edges the connect kernel examines. *)
Definition connected : Z -> Z -> Prop := conn x kernel_ndirs kernel_nbr.

(** The buffer after the count kernel: every active cell holds the root
    of its component, and two active cells hold the same root exactly when
    they are connected. *)
Definition resolved (y : list Z) : Prop :=
  forest x y /\
  (forall a, act a -> rd y (rd y a) = rd y a) /\
  (forall a b, act a -> act b -> (rd y a = rd y b <-> connected a b)).

Lemma x_fits32 : len x <= max_signed.
Proof.
  pose proof x_small; unfold max_signed.
  assert (2 ^ 30 < 2 ^ 31 - 1) by reflexivity; lia.
Qed.

Lemma dirs_rows_ok v :
  In v (dirs_of structure) -> length v = length y_shape /\ Forall trit v.
Proof.
  intros H; apply in_dirs_of in H as [H _].
  apply (vecs_shape (length y_shape) structure v structure_ok H).
Qed.

Lemma kernel_nbr_nb p dr :
  0 <= p -> 0 <= dr < kernel_ndirs ->
  kernel_nbr p dr
  = nb (rev y_shape) (rev (nth (Z.to_nat dr) (dirs_of structure) [])) p 1 0.
Proof.
  intros Hp Hdr; unfold kernel_nbr; apply neighbour_nb; auto.
  - rewrite <- x_len; apply x_fits32.
  - apply dirs_rows_ok.
  - apply fits.
Qed.

Lemma kernel_nbr_range i dr :
  0 <= i < len x -> 0 <= dr < kernel_ndirs -> kernel_nbr i dr < len x.
Proof.
  intros Hi Hdr; rewrite kernel_nbr_nb by lia.
  assert (In (nth (Z.to_nat dr) (dirs_of structure) []) (dirs_of structure))
    as Hv by (apply nth_In; unfold kernel_ndirs in Hdr; lia).
  destruct (dirs_rows_ok _ Hv) as [L _].
  destruct (nb_range y_shape _ i L) as [H|H]; lia.
Qed.

Lemma resolved_min y a b :
  resolved y -> act a -> act b -> connected a b -> rd y a <= b.
Proof.
  intros (F & _ & C) A B H.
  apply (C a b A B) in H; rewrite H.
  apply (forest_act x y b F B).
Qed.

Lemma resolved_unique y y' : resolved y -> resolved y' -> y = y'.
Proof.
  intros R R'; pose proof R as (F & I & C); pose proof R' as (F' & I' & C').
  assert (forall z z', resolved z -> resolved z' ->
            forall a, act a -> rd z' a <= rd z a) as Hle.
  { intros z z' Rz Rz' a A; pose proof Rz as (Fz & Iz & Cz).
    destruct (forest_act x z a Fz A) as [B Ar].
    apply (resolved_min z' a (rd z a) Rz' A Ar).
    apply (Cz a (rd z a) A Ar); symmetry; auto. }
  apply (nth_ext _ _ 0 0).
  - destruct F as [E _], F' as [E' _]; unfold len in *; lia.
  - intros k Hk.
    assert (0 <= Z.of_nat k < len x) as Hi
      by (destruct F as [E _]; unfold len in *; lia).
    pose proof (Hle y y' R R' (Z.of_nat k)) as H1.
    pose proof (Hle y' y R' R (Z.of_nat k)) as H2.
    unfold rd in H1, H2; rewrite Nat2Z.id in H1, H2.
    destruct (active x (Z.of_nat k)) eqn:A.
    + specialize (H1 eq_refl); specialize (H2 eq_refl); lia.
    + pose proof (forest_inactive x y _ F Hi A) as E1.
      pose proof (forest_inactive x y' _ F' Hi A) as E2.
      unfold rd in E1, E2; rewrite Nat2Z.id in E1, E2; congruence.
Qed.

Lemma length_forest y : forest x y -> length y = length x.
Proof. intros [E _]; unfold len in E; lia. Qed.

Lemma roots_count y :
  length y = length x ->
  Z.of_nat (count_if (fun t => rd y (Z.of_nat t) =? Z.of_nat t) (length x))
  = len (roots y).
Proof.
  intros E; rewrite roots_threads; unfold len, root_threads, count_if.
  now rewrite length_map, E.
Qed.

Lemma in_roots y r : In r (roots y) <-> 0 <= r < len y /\ rd y r = r.
Proof.
  unfold roots; rewrite filter_In, in_zrange, Z.eqb_eq; tauto.
Qed.

Lemma roots_length_le y : len (roots y) <= len y.
Proof.
  rewrite roots_threads; unfold len; rewrite length_map.
  pose proof (root_threads_bound y); lia.
Qed.

(** What [_label] computes, for every schedule. *)
Theorem label_resolved sched :
  exists y, resolved y /\
    _label sched x y_shape structure
    = (map (final_label (roots y)) y, len (roots y)).
Proof.
  pose proof x_fits32 as Hfit.
  unfold _label.
  assert (1 <= Z.of_nat (length y_shape)) as Hrank
    by (destruct y_shape; [contradiction | simpl; lia]).
  assert (2 ^ 31 = 2147483648) as P31 by reflexivity.
  destruct fits as [_ Hd]; unfold max_signed in Hd.
  rewrite (wrap32_small (Z.of_nat (length y_shape))) by nia.
  rewrite (wrap32_small (Z.of_nat (length (dirs_of structure)))) by nia.
  clear Hrank P31 Hd.
  set (y1 := _kernel_init x).
  set (y2 := _kernel_connect _ _ _ _ _ y1).
  assert (length y1 = length x) as L1 by apply length_init.
  destruct (connect_partition x kernel_ndirs kernel_nbr Hfit
              ltac:(unfold kernel_ndirs; lia) kernel_nbr_range
              (sched_connect sched) y1 (forest_init x Hfit)
              (init_active x Hfit)) as [F2 C2].
  unfold kernel_ndirs, kernel_nbr in F2, C2; rewrite <- L1 in F2, C2.
  fold (_kernel_connect (sched_connect sched) (map wrap32 y_shape)
          (concat (dirs_of structure)) (Z.of_nat (length (dirs_of structure)))
          (Z.of_nat (length y_shape)) y1) in F2, C2.
  fold y2 in F2, C2.
  assert (length y2 = length x) as L2 by now apply length_forest.
  pose proof (count_result x y2 Hfit F2 (sched_count sched)) as H3.
  cbv zeta in H3; rewrite <- L2 in H3.
  fold (_kernel_count (sched_count sched) y2 [0; 0]) in H3.
  destruct (_kernel_count (sched_count sched) y2 [0; 0]) as [y3 count].
  cbn [fst snd] in H3; destruct H3 as (F3 & R3 & Hc0 & Hc1 & Hc2).
  assert (length y3 = length x) as L3 by now apply length_forest.
  rewrite L2, (roots_count y3 L3) in Hc0.
  assert (len y3 <= max_signed) as Hfit3 by (unfold len in *; lia).
  set (maxlabel := rd count 0) in *.
  pose proof (labels_result y3 Hfit3 (sched_labels sched)
                (repeat 0 (Z.to_nat maxlabel)) count) as H4.
  cbv zeta in H4.
  fold (_kernel_labels (sched_labels sched) y3 count
          (repeat 0 (Z.to_nat maxlabel))) in H4.
  destruct (_kernel_labels (sched_labels sched) y3 count
              (repeat 0 (Z.to_nat maxlabel))) as [labels count'].
  cbn [fst] in H4.
  assert (Permutation labels (roots y3)) as P.
  { apply H4; auto.
    rewrite repeat_length, Hc0, roots_threads; unfold len.
    now rewrite Nat2Z.id, length_map. }
  rewrite (sort_roots y3 labels P).
  assert (resolved y3) as Res.
  { split; [auto | split].
    - intros a A; destruct (R3 a A) as [E _]; rewrite E.
      destruct (find_spec x y2 a F2 A) as (_ & _ & Ar).
      destruct (R3 _ Ar) as [-> _]; now apply (find_idem x).
    - intros a b A B; destruct (R3 a A) as [-> _], (R3 b B) as [-> _].
      apply C2; auto. }
  exists y3; split; auto.
  unfold _kernel_finalize; f_equal.
  apply finalize_result.
  - apply sorted_roots.
  - auto.
  - rewrite Hc0; pose proof (roots_length_le y3); pose proof x_small.
    unfold len in *; lia.
  - intros i Hi Hr; apply in_roots.
    assert (0 <= i < len x) as Hi' by (unfold len in *; lia).
    assert (act i) as A by (apply (forest_active_iff x y3 i F3 Hi'); auto).
    destruct Res as (_ & I & _); split; auto.
    destruct (forest_act x y3 i F3 A) as [B _]; unfold len in *; lia.
  - exact Hc0.
Qed.

(** The result of [_label] does not depend on the schedule. *)
Corollary label_deterministic s1 s2 :
  _label s1 x y_shape structure = _label s2 x y_shape structure.
Proof.
  destruct (label_resolved s1) as (y & R & ->).
  destruct (label_resolved s2) as (y' & R' & ->).
  now rewrite (resolved_unique y y' R R').
Qed.

(** *** Chains of structuring-element steps *)

(** One step of a chain: from an active cell to an active cell at an
    offset that is an active entry of the structure. *)
Definition chain_step (p q : Z) : Prop :=
  act p /\ act q /\
  exists v, In v (vecs structure) /\ offset_step y_shape v p q.

(** A chain of active cells from [p] to [q]. *)
Definition chain : Z -> Z -> Prop := clos_refl_trans Z chain_step.

Lemma vecs_ok v :
  In v (vecs structure) -> length v = length y_shape /\ Forall trit v.
Proof. apply (vecs_shape (length y_shape) structure v structure_ok). Qed.

Lemma act_cell p : act p -> 0 <= p < prod_shape y_shape.
Proof. intros A; rewrite <- x_len; now apply act_range. Qed.

Lemma edge_chain_step a b : edge x kernel_ndirs kernel_nbr a b -> chain_step a b.
Proof.
  intros (A & B & dr & Hdr & E).
  pose proof (act_cell a A) as Ha; pose proof (act_cell b B) as Hb.
  rewrite kernel_nbr_nb in E by lia.
  set (v := nth (Z.to_nat dr) (dirs_of structure) []) in *.
  assert (In v (dirs_of structure)) as Hv
    by (apply nth_In; unfold kernel_ndirs in Hdr; lia).
  destruct (dirs_rows_ok v Hv) as [L _].
  split; auto; split; auto; exists v; split.
  - now apply in_dirs_of in Hv.
  - apply nb_offset_step; auto; split; auto; lia.
Qed.

Lemma dirs_edge v p q :
  In v (dirs_of structure) -> act p -> act q -> offset_step y_shape v p q ->
  edge x kernel_ndirs kernel_nbr p q.
Proof.
  intros Hv A B S; destruct (dirs_rows_ok v Hv) as [L _].
  destruct (In_nth _ _ [] Hv) as (dr & Hdr & E).
  split; auto; split; auto; exists (Z.of_nat dr).
  assert (0 <= Z.of_nat dr < kernel_ndirs) as Hdr'
    by (unfold kernel_ndirs; lia).
  split; auto.
  rewrite kernel_nbr_nb, Nat2Z.id, E by (auto; apply (act_cell p A)).
  apply (nb_offset_step y_shape v p q); auto; apply (act_cell p A).
Qed.

Lemma vadd_zero a n : length a = n -> vadd a (repeat 0 n) = a.
Proof.
  unfold vadd; revert n; induction a as [|c a IH]; intros [|n] L;
    try discriminate; simpl; auto.
  rewrite IH by (simpl in L; lia); f_equal; lia.
Qed.

Lemma vadd_neg a v : length a = length v -> vadd (vadd a v) (neg v) = a.
Proof.
  unfold vadd, neg; revert v; induction a as [|c a IH]; intros [|u v] L;
    try discriminate; simpl; auto.
  rewrite IH by (simpl in L; lia); f_equal; lia.
Qed.

Lemma length_unravel p : length (unravel y_shape p) = length y_shape.
Proof. unfold unravel; now rewrite length_rev, length_digits, length_rev. Qed.

Lemma unravel_inj p q :
  0 <= p < prod_shape y_shape -> 0 <= q < prod_shape y_shape ->
  unravel y_shape p = unravel y_shape q -> p = q.
Proof.
  unfold unravel; intros Hp Hq E.
  apply (f_equal (@rev Z)) in E; rewrite !rev_involutive in E.
  assert (Forall (fun d => 1 <= d) (rev y_shape)) as Fr.
  { apply Forall_forall; intros d Hd; apply in_rev in Hd.
    pose proof shape_pos as Sp; rewrite Forall_forall in Sp; auto. }
  rewrite <- prod_shape_rev in Hp, Hq.
  destruct (undigits_digits _ p Fr Hp) as [<- _].
  destruct (undigits_digits _ q Fr Hq) as [<- _].
  now rewrite E.
Qed.

Lemma offset_step_zero p q :
  offset_step y_shape (repeat 0 (length y_shape)) p q -> p = q.
Proof.
  intros (Hp & Hq & E); rewrite vadd_zero in E by apply length_unravel.
  symmetry; now apply unravel_inj.
Qed.

Lemma offset_step_neg v p q :
  length v = length y_shape ->
  offset_step y_shape v p q -> offset_step y_shape (neg v) q p.
Proof.
  intros L (Hp & Hq & E); split; auto; split; auto.
  rewrite E, vadd_neg; auto; rewrite length_unravel; lia.
Qed.

Section Centrosymmetric.

Hypothesis structure_sym : centrosymmetric structure.

Lemma chain_step_sym p q : chain_step p q -> chain_step q p.
Proof.
  intros (A & B & v & Hv & S); destruct (vecs_ok v Hv) as [L _].
  split; auto; split; auto; exists (neg v); split; auto.
  now apply offset_step_neg.
Qed.

Lemma chain_sym p q : chain p q -> chain q p.
Proof.
  induction 1 as [a b H| |a b c _ IH1 _ IH2].
  - apply rt_step; now apply chain_step_sym.
  - apply rt_refl.
  - eapply rt_trans; eauto.
Qed.

Lemma chain_step_connected p q : chain_step p q -> connected p q.
Proof.
  intros (A & B & v & Hv & S); destruct (vecs_ok v Hv) as [L T].
  destruct (Z.lt_trichotomy (enc v) 0) as [C|[C|C]].
  - apply rst_step; apply (dirs_edge v); auto; now apply in_dirs_of.
  - apply enc_zero_inv in C; auto; rewrite L in C; subst v.
    apply offset_step_zero in S; subst q; apply rst_refl.
  - apply rst_sym, rst_step; apply (dirs_edge (neg v)); auto.
    + apply in_dirs_of; split; auto; rewrite enc_neg; lia.
    + now apply offset_step_neg.
Qed.

(** For a centrosymmetric structure the kernel's connectivity is the
    existence of a chain. *)
Lemma connected_chain p q : connected p q <-> chain p q.
Proof.
  split.
  - induction 1 as [a b H|a|a b _ IH|a b c _ IH1 _ IH2].
    + apply rt_step; now apply edge_chain_step.
    + apply rt_refl.
    + now apply chain_sym.
    + eapply rt_trans; eauto.
  - induction 1 as [a b H| |a b c _ IH1 _ IH2].
    + now apply chain_step_connected.
    + apply rst_refl.
    + eapply rst_trans; eauto.
Qed.

End Centrosymmetric.

End Pipeline.

(** ** Verified properties of the labelling engine *)

Lemma rd_map (f : Z -> Z) y i :
  0 <= i < len y -> rd (map f y) i = f (rd y i).
Proof.
  intros H; unfold rd; rewrite (nth_indep _ 0 (f 0)).
  - apply map_nth.
  - rewrite length_map; unfold len in H; lia.
Qed.

Section FinalLabels.

Variables (x y : list Z).
Hypothesis y_forest : forest x y.
Hypothesis y_roots : forall a, active x a = true -> rd y (rd y a) = rd y a.

Lemma resolved_in_roots a : active x a = true -> In (rd y a) (roots y).
Proof.
  intros A; destruct (forest_act x y a y_forest A) as [B A'].
  pose proof (act_range x a A); destruct y_forest as [E _].
  apply filter_In; split; [apply in_zrange; lia | apply Z.eqb_eq; auto].
Qed.

Lemma final_active a :
  active x a = true ->
  rd (map (final_label (roots y)) y) a = index_of (rd y a) (roots y) + 1.
Proof.
  intros A; destruct (forest_act x y a y_forest A) as [B A'].
  pose proof (act_range x a A); destruct y_forest as [E _].
  rewrite rd_map by lia; unfold final_label.
  destruct (Z.ltb_spec (rd y a) 0); auto; lia.
Qed.

Lemma final_inactive i :
  0 <= i < len x -> active x i = false ->
  rd (map (final_label (roots y)) y) i = 0.
Proof.
  intros Hi A; pose proof (forest_inactive x y i y_forest Hi A) as E.
  destruct y_forest as [El _]; rewrite rd_map by lia.
  unfold final_label; now rewrite E.
Qed.

Lemma final_eq_iff a b :
  active x a = true -> active x b = true ->
  (rd (map (final_label (roots y)) y) a = rd (map (final_label (roots y)) y) b
   <-> rd y a = rd y b).
Proof.
  intros A B; rewrite !final_active by auto.
  split; [|now intros ->].
  intros E.
  destruct (index_of_in _ _ (resolved_in_roots a A)) as [_ <-].
  destruct (index_of_in _ _ (resolved_in_roots b B)) as [_ <-].
  f_equal; lia.
Qed.

End FinalLabels.

(** The statement of partition correctness for one run of [_label]: two
    active cells carry the same label exactly when a chain of active cells
    joins them, and inactive cells carry the label 0. *)
Definition partition_correct (sched : schedule) (x y_shape : list Z)
           (structure : ndarray) : Prop :=
  let y := fst (_label sched x y_shape structure) in
  (forall p q, active x p = true -> active x q = true ->
     (rd y p = rd y q <-> chain x y_shape structure p q)) /\
  (forall i, 0 <= i < len x -> active x i = false -> rd y i = 0).

(** C1 (as amended).  For every field and every centrosymmetric
    structure accepted by [label], as long as the kernels' [int]
    arithmetic stays in range, and under every schedule: two active cells
    receive the same label if and only if a chain of active cells joins
    them whose steps are active offsets of the structure; inactive cells
    receive 0. *)
Theorem partition_correct_centrosymmetric
        (sched : schedule) (x y_shape : list Z) (structure : ndarray) :
  y_shape <> [] ->
  Forall (fun d => 1 <= d) y_shape ->
  len x = prod_shape y_shape ->
  ints_fit y_shape structure ->
  validated (length y_shape) structure ->
  centrosymmetric structure ->
  partition_correct sched x y_shape structure.
Proof.
  intros Hrank Hpos Hlen Hfits Hval Hsym; unfold partition_correct.
  destruct (label_resolved x y_shape structure Hrank Hpos Hlen Hfits Hval
              sched) as (y & (F & I & C) & ->); cbn [fst].
  split.
  - intros p q A B.
    rewrite (final_eq_iff x y F I p q A B), (C p q A B).
    now apply connected_chain.
  - intros i Hi A; now apply (final_inactive x y F).
Qed.

Definition field6 : list Z := [1; 0; 1; 1; 0; 1].

Lemma partition_correct_centrosymmetric_witness :
  partition_correct sequential field6 [6] face3.
Proof.
  apply partition_correct_centrosymmetric.
  - discriminate.
  - repeat constructor; lia.
  - reflexivity.
  - split; vm_compute; discriminate.
  - split; [reflexivity | now apply well_formedb_spec].
  - now apply centrosymmetricb_spec.
Defined.

(** A structure that [label] accepts and that is not centrosymmetric: the
    centre and the right neighbour. *)
Definition right_only : ndarray :=
  {| arr_dtype := bool_; arr_shape := [3]; arr_data := [0; 1; 1] |}.

(** C1, counterexample.  With the accepted structure [[0,1,1]] the two
    cells of the field [[1,1]] are joined by a chain (the step [+1] is an
    active offset) and yet receive the labels 1 and 2. *)
Lemma partition_fails_without_symmetry :
  validated 1 right_only /\
  ~ partition_correct sequential [1; 1] [2] right_only.
Proof.
  split; [split; [reflexivity | now apply well_formedb_spec]|].
  intros [H _].
  assert (chain [1; 1] [2] right_only 0 1) as C.
  { apply rt_step; split; [reflexivity | split; [reflexivity|]].
    exists [1]; split; [vm_compute; auto|].
    vm_compute; repeat split; auto; discriminate. }
  apply (H 0 1 eq_refl eq_refl) in C.
  vm_compute in C; discriminate.
Qed.

(** C9.  For a fixed field and structure (with the kernels' [int]
    arithmetic in range), the label array and the feature count returned
    by [_label] are the same for any two schedules: any interleaving of
    the connect threads (and of the threads of the count, labels and
    finalize kernels) gives the same result. *)
Theorem scheduling_independent
        (s1 s2 : schedule) (x y_shape : list Z) (structure : ndarray) :
  y_shape <> [] ->
  Forall (fun d => 1 <= d) y_shape ->
  len x = prod_shape y_shape ->
  ints_fit y_shape structure ->
  validated (length y_shape) structure ->
  _label s1 x y_shape structure = _label s2 x y_shape structure.
Proof.
  intros Hrank Hpos Hlen Hfits Hval.
  now apply label_deterministic.
Qed.

(** A schedule that interleaves the threads of each kernel. *)
Definition interleaved : schedule :=
  mk_schedule [5; 3; 0; 3; 2; 3; 2; 3; 5; 3; 3; 2; 3; 0; 3; 3]%nat
              [3; 5; 3; 0; 3; 2; 3]%nat [5; 0; 5; 2; 0]%nat [2; 2; 5; 0]%nat.

Lemma scheduling_independent_witness :
  _label interleaved field6 [6] face3 = _label sequential field6 [6] face3.
Proof.
  apply scheduling_independent.
  - discriminate.
  - repeat constructor; lia.
  - reflexivity.
  - split; vm_compute; discriminate.
  - split; [reflexivity | now apply well_formedb_spec].
Defined.

(** The statement of density and range for one run of [_label]. *)
Definition dense_labels (sched : schedule) (x y_shape : list Z)
           (structure : ndarray) : Prop :=
  let y := fst (_label sched x y_shape structure) in
  let featureCount := snd (_label sched x y_shape structure) in
  (forall v, In v y -> 0 <= v <= featureCount) /\
  (In 0 y <-> exists i, 0 <= i < len x /\ active x i = false) /\
  (forall v, 1 <= v <= featureCount -> In v y).

(** C5.  The values of the label array lie in [0 .. featureCount]; 0
    occurs exactly when some cell is inactive; every value of
    [1 .. featureCount] occurs. *)
Theorem labels_dense
        (sched : schedule) (x y_shape : list Z) (structure : ndarray) :
  y_shape <> [] ->
  Forall (fun d => 1 <= d) y_shape ->
  len x = prod_shape y_shape ->
  ints_fit y_shape structure ->
  validated (length y_shape) structure ->
  dense_labels sched x y_shape structure.
Proof.
  intros Hrank Hpos Hlen Hfits Hval; unfold dense_labels.
  destruct (label_resolved x y_shape structure Hrank Hpos Hlen Hfits Hval
              sched) as (y & (F & I & C) & ->); cbn [fst snd].
  assert (len y = len x) as El by apply F.
  assert (forall i, 0 <= i < len x ->
            nth (Z.to_nat i) (map (final_label (roots y)) y) 0
            = rd (map (final_label (roots y)) y) i) as Hrd by reflexivity.
  assert (forall v, In v (map (final_label (roots y)) y) <->
            exists i, 0 <= i < len x /\
                      rd (map (final_label (roots y)) y) i = v) as Hin.
  { intros v; split.
    - intros H; apply (In_nth _ _ 0) in H as (k & Hk & E).
      rewrite length_map in Hk; exists (Z.of_nat k).
      unfold rd; rewrite Nat2Z.id; unfold len in *; split; auto; lia.
    - intros (i & Hi & <-); apply nth_In.
      rewrite length_map; unfold len in *; lia. }
  split; [| split].
  - intros v Hv; apply Hin in Hv as (i & Hi & <-).
    destruct (active x i) eqn:A.
    + rewrite (final_active x y F i A).
      destruct (index_of_in _ _ (resolved_in_roots x y F I i A)); lia.
    + rewrite (final_inactive x y F i Hi A).
      unfold len; lia.
  - rewrite Hin; split; intros (i & Hi & E); exists i; split; auto.
    + destruct (active x i) eqn:A; auto.
      rewrite (final_active x y F i A) in E.
      pose proof (index_of_nonneg (rd y i) (roots y)); lia.
    + now apply (final_inactive x y F).
  - intros v Hv; apply Hin.
    set (r := rd (roots y) (v - 1)).
    assert (In r (roots y)) as Hr by (apply nth_In; unfold len in *; lia).
    pose proof Hr as Hr'; apply in_roots in Hr' as [Br Rr].
    assert (active x r = true) as A
      by (apply (forest_active_iff x y r F); lia).
    exists r; split; [lia|].
    rewrite (final_active x y F r A), Rr; unfold r.
    rewrite index_of_rd; [lia | apply sorted_roots | lia].
Qed.

Lemma labels_dense_witness : dense_labels interleaved field6 [6] face3.
Proof.
  apply labels_dense.
  - discriminate.
  - repeat constructor; lia.
  - reflexivity.
  - split; vm_compute; discriminate.
  - split; [reflexivity | now apply well_formedb_spec].
Defined.

(** The predicate of the union tie-break: every cell holds [-1] or an
    index that is not larger than its own. *)
Definition tiebreak (y : list Z) : Prop :=
  forall i, 0 <= i < len y -> rd y i = -1 \/ 0 <= rd y i <= i.

Lemma forest_tiebreak x y : forest x y -> tiebreak y.
Proof.
  intros F i Hi; assert (len y = len x) as E by apply F.
  destruct (active x i) eqn:A.
  - right; apply (forest_act x y i F A).
  - left; apply (forest_inactive x y i F); auto; lia.
Qed.

(** The statement of the tie-break invariant at the state reached by the
    connect kernel after the schedule [sched], and at the state after one
    more step of thread [t]. *)
Definition tiebreak_invariant (sched : list nat) (t : nat)
           (x y_shape : list Z) (structure : ndarray) : Prop :=
  let step := connect_step (kernel_ndirs structure)
                           (kernel_nbr y_shape structure) in
  let st := run step sched (_kernel_init x, repeat CStart (length x)) in
  let st' := pool_step step st t in
  tiebreak (_kernel_init x) /\
  tiebreak (fst st) /\ tiebreak (fst st') /\
  (fst st' = fst st \/
   exists j k, 0 <= j < k /\ rd (fst st) k = k /\ fst st' = wr (fst st) k j) /\
  (forall dr j k, nth_error (snd st) t = Some (CLoadJ dr j k) ->
                  0 <= rd (fst st) j < j) /\
  (forall dr j k, nth_error (snd st) t = Some (CLoadK dr j k) ->
                  0 <= rd (fst st) k < k) /\
  (forall j, 0 <= j < len x -> 0 <= rd (fst st) j ->
             rd (fst st) (find (fst st) j) = find (fst st) j /\
             0 <= find (fst st) j <= j).

(** C3.  The buffer satisfies the tie-break predicate after the init
    kernel and in every state the connect kernel can reach; a step of a
    thread either leaves the buffer unchanged or, by a successful
    [atomicCAS], stores a smaller index [j] in a cell [k] that is a root;
    each iteration of a find loop moves to a strictly smaller
    non-negative index, and following the parents of an active cell ends
    at a root, so there is no cycle. *)
Theorem tiebreak_invariant_holds
        (sched : list nat) (t : nat) (x y_shape : list Z) (structure : ndarray) :
  y_shape <> [] ->
  Forall (fun d => 1 <= d) y_shape ->
  len x = prod_shape y_shape ->
  ints_fit y_shape structure ->
  validated (length y_shape) structure ->
  tiebreak_invariant sched t x y_shape structure.
Proof.
  intros Hrank Hpos Hlen Hfits Hval; unfold tiebreak_invariant.
  pose proof (x_fits32 x y_shape structure Hlen Hfits) as Hfit.
  set (ndirs := kernel_ndirs structure).
  set (nbr := kernel_nbr y_shape structure).
  assert (0 <= ndirs) as Hnd by (unfold ndirs, kernel_ndirs; lia).
  pose proof (kernel_nbr_range x y_shape structure Hpos Hlen Hfits Hval)
    as Hrange; fold ndirs nbr in Hrange.
  set (st := run _ sched _).
  assert (connect_inv x ndirs nbr st) as Inv.
  { apply run_inv; [apply connect_inv_step; auto|].
    split; [now apply forest_init | split; [| split]]; cbn [fst snd].
    - intros i A; rewrite init_active by auto; apply conn_refl.
    - apply repeat_length.
    - intros t' pc H; apply nth_error_In, repeat_spec in H; now subst. }
  pose proof (connect_inv_step x ndirs nbr Hfit Hnd Hrange st t Inv) as Inv'.
  destruct Inv as (F & S & Hl & T), Inv' as (F' & _).
  split; [apply (forest_tiebreak x), forest_init; auto|].
  split; [now apply (forest_tiebreak x)|].
  split; [now apply (forest_tiebreak x)|].
  split; [| split; [| split]].
  - destruct (nth_error (snd st) t) as [pc|] eqn:Hpc.
    2:{ left; unfold pool_step; now rewrite Hpc. }
    assert (0 <= Z.of_nat t < len x) as Hi.
    { assert (t < length (snd st))%nat by (apply nth_error_Some; congruence).
      unfold len; lia. }
    rewrite (pool_step_self _ st t pc Hpc); cbn [fst].
    destruct (connect_step_sound x ndirs nbr Hfit Hnd Hrange (fst st)
                (Z.of_nat t) pc F S Hi (T t pc Hpc)) as [G _].
    destruct G as [G|(j & k & Aj & Ak & R & Hjk & _ & G)]; [now left|].
    right; exists j, k; repeat split; auto.
    apply (act_range x j Aj).
  - intros dr j k Hpc; destruct (T t _ Hpc) as [P R].
    destruct P as (_ & _ & _ & _ & Aj & _).
    destruct (forest_act x (fst st) j F Aj); lia.
  - intros dr j k Hpc; destruct (T t _ Hpc) as [P R].
    destruct P as (_ & _ & _ & _ & _ & Ak & _).
    destruct (forest_act x (fst st) k F Ak); lia.
  - intros j Hj Hr.
    assert (active x j = true) as A
      by (apply (forest_active_iff x (fst st) j F); auto).
    destruct (find_spec x (fst st) j F A) as (R & B & _); auto.
Qed.

Lemma tiebreak_invariant_holds_witness :
  tiebreak_invariant [0; 2; 3; 3; 3; 2; 3]%nat 3%nat field6 [6] face3.
Proof.
  apply tiebreak_invariant_holds.
  - discriminate.
  - repeat constructor; lia.
  - reflexivity.
  - split; vm_compute; discriminate.
  - split; [reflexivity | now apply well_formedb_spec].
Defined.

(** The statement of the compaction rule for a buffer [y] left by the
    count kernel and the roots [labels] collected by the labels kernel. *)
Definition compaction_rule (sched : list nat) (y labels : list Z) : Prop :=
  let maxlabel := len labels in
  let sorted := sort labels in
  let st := launch (finalize_step maxlabel sorted) sched
                   (finalize_fuel maxlabel) (length y) FStart y in
  let y' := _kernel_finalize sched maxlabel sorted y in
  StronglySorted Z.lt sorted /\ Permutation sorted labels /\
  Forall (fun pc => pc = FDone) (snd st) /\
  (forall i, 0 <= i < len y -> rd y i < 0 -> rd y' i = 0) /\
  (forall i, 0 <= i < len y -> 0 <= rd y i ->
     exists k, 0 <= k < maxlabel /\ rd sorted k = rd y i /\ rd y' i = k + 1).

(** C4.  When every non-negative entry of the buffer is a root and
    [labels] holds the roots in any order, the finalize kernel gives every
    cell with a non-negative entry the 1-based position of that root in
    the ascending list of distinct roots and every other cell 0; the
    sorted list is strictly ascending, and every thread leaves the binary
    search, whose midpoint is [(j_min + j_max) / 2] truncated. *)
Theorem compaction_rule_holds (sched : list nat) (y labels : list Z) :
  len y <= 2 ^ 30 ->
  (forall i, 0 <= i < len y -> 0 <= rd y i ->
     rd y i < len y /\ rd y (rd y i) = rd y i) ->
  Permutation labels (roots y) ->
  compaction_rule sched y labels.
Proof.
  intros Hsmall Hres P; unfold compaction_rule, _kernel_finalize.
  rewrite (sort_roots y labels P).
  assert (len labels = len (roots y)) as El
    by (unfold len; now rewrite (Permutation_length P)).
  assert (forall i, 0 <= i < len y -> 0 <= rd y i -> In (rd y i) (roots y))
    as Hin.
  { intros i Hi Hr; destruct (Hres i Hi Hr); apply in_roots; lia. }
  assert (len labels <= 2 ^ 30) as Hm
    by (pose proof (roots_length_le y); lia).
  split; [apply sorted_roots | split; [now symmetry | split]].
  - apply finalize_terminates; auto; apply sorted_roots.
  - rewrite (finalize_result (len labels) (roots y) y (sorted_roots y)
               (eq_sym El) Hm Hin sched).
    split.
    + intros i Hi Hr; rewrite rd_map by auto; unfold final_label.
      destruct (Z.ltb_spec (rd y i) 0); auto; lia.
    + intros i Hi Hr; destruct (index_of_in _ _ (Hin i Hi Hr)) as [B R].
      exists (index_of (rd y i) (roots y)); split; [lia | split; auto].
      rewrite rd_map by auto; unfold final_label.
      destruct (Z.ltb_spec (rd y i) 0); auto; lia.
Qed.

Lemma compaction_rule_holds_witness :
  compaction_rule [3; 3; 0; 5]%nat [0; -1; 2; 2; -1; 5] [5; 0; 2].
Proof.
  apply compaction_rule_holds.
  - vm_compute; discriminate.
  - intros i Hi Hr.
    assert (i = 0 \/ i = 1 \/ i = 2 \/ i = 3 \/ i = 4 \/ i = 5) as H
      by (unfold len in Hi; simpl in Hi; lia).
    destruct H as [-> | [-> | [-> | [-> | [-> | -> ]]]]]; vm_compute in Hr |- *;
      try (split; reflexivity); exfalso; now apply Hr.
  - vm_compute.
    apply perm_trans with [0; 5; 2]; [apply perm_swap|].
    apply perm_skip, perm_swap.
Defined.

(** ** Properties of the entry point *)

(** The structure after [numpy.array(structure, dtype=bool)]. *)
Definition coerced_structure (a : ndarray) (structure : structure_arg) : ndarray :=
  as_bool_array
    match structure with
    | StructureNone => _generate_binary_structure (length (arr_shape a)) 1
    | StructureArray s => s
    end.

(** The output array the labelling writes to, with the flag
    [caller_provided_output]; [None] when the shapes differ. *)
Definition prepared_output (a : ndarray) (output : output_arg)
  : option (bool * ndarray) :=
  match output with
  | OutputArray o =>
      if negb (shape_eqb (arr_shape o) (arr_shape a)) then None
      else Some (true, o)
  | OutputNone => Some (false, empty (arr_shape a) int32)
  | OutputDtype d => Some (false, empty (arr_shape a) d)
  end.

(** The three branches of [label] after validation. *)
Definition labelled (sched : schedule) (a s out0 : ndarray) : ndarray * Z :=
  if size a =? 0 then (out0, 0)
  else if ndim a =? 0 then
    let maxlabel := if rd (arr_data a) 0 =? 0 then 0 else 1 in
    (fill out0 maxlabel, maxlabel)
  else
    let (y, maxlabel) := _label sched (arr_data a) (arr_shape a) s in
    if negb (dtype_eqb (arr_dtype out0) int32)
    then (assign out0 y, maxlabel)
    else ({| arr_dtype := arr_dtype out0; arr_shape := arr_shape out0;
             arr_data := y |}, maxlabel).

Lemma label_eq sched a structure output :
  label sched (CupyArray a) structure output
  = if is_complex (arr_dtype a) then inl TypeError
    else if negb (ndim (coerced_structure a structure) =? ndim a)
    then inl RuntimeError
    else if existsb (fun i => negb (i =? 3))
                    (arr_shape (coerced_structure a structure))
    then inl ValueError
    else match prepared_output a output with
         | None => inl ValueError
         | Some (caller_provided_output, out0) =>
             let (o, m) := labelled sched a (coerced_structure a structure) out0 in
             if caller_provided_output then inr (ReturnCount m o)
             else inr (ReturnPair o m)
         end.
Proof.
  unfold label, coerced_structure, prepared_output, labelled.
  destruct (is_complex _); [reflexivity|].
  destruct (negb (ndim _ =? ndim a)); [reflexivity|].
  destruct (existsb _ _); [reflexivity|].
  destruct output as [|d|o]; reflexivity.
Qed.

Lemma existsb_not3 l :
  existsb (fun i => negb (i =? 3)) l = false <-> Forall (fun i => i = 3) l.
Proof.
  induction l as [|d l IH]; simpl; [split; auto|].
  rewrite orb_false_iff, IH, negb_false_iff, Z.eqb_eq.
  split; [intros []; now constructor | intros H; inversion H; auto].
Qed.

Lemma all3_repeat l : Forall (fun i => i = 3) l <-> l = repeat 3 (length l).
Proof.
  induction l as [|d l IH]; simpl; [split; auto|].
  split.
  - intros H; inversion H; subst; f_equal; now apply IH.
  - intros [= -> E]; constructor; auto; now apply IH.
Qed.

(** The checks of [label] on its arguments. *)
Definition rank_ok (a : ndarray) (structure : structure_arg) : Prop :=
  ndim (coerced_structure a structure) = ndim a.

Definition axes_ok (a : ndarray) (structure : structure_arg) : Prop :=
  Forall (fun i => i = 3) (arr_shape (coerced_structure a structure)).

Definition output_ok (a : ndarray) (output : output_arg) : Prop :=
  forall o, output = OutputArray o -> arr_shape o = arr_shape a.

Lemma prepared_output_none a output :
  prepared_output a output = None <-> ~ output_ok a output.
Proof.
  unfold output_ok; destruct output as [|d|o]; simpl.
  - split; [discriminate | intros H; destruct H; discriminate].
  - split; [discriminate | intros H; destruct H; discriminate].
  - destruct (shape_eqb (arr_shape o) (arr_shape a)) eqn:E; simpl.
    + apply shape_eqb_eq in E; split; [discriminate|].
      intros H; destruct H; now intros ? [= <-].
    + split; auto; intros _ H.
      specialize (H o eq_refl); apply shape_eqb_eq in H; congruence.
Qed.

(** The outcome of [label] according to the checks on its arguments. *)
Lemma label_cases sched a structure output :
  (is_complex (arr_dtype a) = true /\
   label sched (CupyArray a) structure output = inl TypeError) \/
  (is_complex (arr_dtype a) = false /\ ~ rank_ok a structure /\
   label sched (CupyArray a) structure output = inl RuntimeError) \/
  (is_complex (arr_dtype a) = false /\ rank_ok a structure /\
   (~ axes_ok a structure \/ (axes_ok a structure /\ ~ output_ok a output)) /\
   label sched (CupyArray a) structure output = inl ValueError) \/
  (is_complex (arr_dtype a) = false /\ rank_ok a structure /\
   axes_ok a structure /\ output_ok a output /\
   exists r, label sched (CupyArray a) structure output = inr r).
Proof.
  unfold rank_ok, axes_ok; rewrite label_eq.
  destruct (is_complex (arr_dtype a)) eqn:Hc; [now left | right].
  destruct (Z.eqb_spec (ndim (coerced_structure a structure)) (ndim a))
    as [Hr|Hr]; cbn [negb]; [right | now left].
  destruct (existsb _ _) eqn:Ha.
  { left; repeat split; auto; left.
    intros H; apply existsb_not3 in H; congruence. }
  apply existsb_not3 in Ha.
  destruct (prepared_output a output) as [[cp out0]|] eqn:Ho.
  - right; repeat split; auto.
    + intros o ->; simpl in Ho.
      destruct (shape_eqb _ _) eqn:E; try discriminate.
      now apply shape_eqb_eq in E.
    + destruct (labelled sched a _ out0) as [o m]; destruct cp; eauto.
  - left; repeat split; auto; right; split; auto.
    now apply prepared_output_none.
Qed.

(** C6.  [label] raises TypeError (TypeMismatch) for a complex field;
    otherwise RuntimeError (RankMismatch) when the ranks differ; otherwise
    ValueError (ShapeMismatch) when an axis of the structure is not 3 or
    the caller's output array has another shape than the field.  It
    raises in no other case, and an error is the same under every
    schedule and carries no label array: it is decided before any kernel
    runs. *)
Theorem validation_errors
        (sched : schedule) (a : ndarray) (structure : structure_arg)
        (output : output_arg) :
  (is_complex (arr_dtype a) = true ->
   label sched (CupyArray a) structure output = inl TypeError) /\
  (is_complex (arr_dtype a) = false -> ~ rank_ok a structure ->
   label sched (CupyArray a) structure output = inl RuntimeError) /\
  (is_complex (arr_dtype a) = false -> rank_ok a structure ->
   ~ axes_ok a structure \/ ~ output_ok a output ->
   label sched (CupyArray a) structure output = inl ValueError) /\
  (forall e, label sched (CupyArray a) structure output = inl e ->
     (is_complex (arr_dtype a) = true \/ ~ rank_ok a structure \/
      ~ axes_ok a structure \/ ~ output_ok a output) /\
     forall sched', label sched' (CupyArray a) structure output = inl e).
Proof.
  destruct (label_cases sched a structure output)
    as [[Hc E]|[(Hc & Hr & E)|[(Hc & Hr & Hs & E)|(Hc & Hr & Ha & Ho & r & E)]]];
    (split; [| split; [| split]]); try congruence; try tauto.
  - intros e He; split; auto; intros sched'.
    destruct (label_cases sched' a structure output)
      as [[_ E']|[(Hc' & _)|[(Hc' & _)|(Hc' & _)]]]; congruence.
  - intros e He; split; auto; intros sched'.
    destruct (label_cases sched' a structure output)
      as [[Hc' _]|[(_ & _ & E')|[(_ & Hr' & _)|(_ & Hr' & _)]]];
      try congruence; contradiction.
  - intros e He; split; [tauto|]; intros sched'.
    destruct (label_cases sched' a structure output)
      as [[Hc' _]|[(_ & Hr' & _)|[(_ & _ & _ & E')|(_ & _ & Ha' & Ho' & _)]]];
      try congruence; try contradiction; tauto.
Qed.

Lemma as_bool_array_idem s : as_bool_array (as_bool_array s) = as_bool_array s.
Proof.
  unfold as_bool_array; simpl; f_equal.
  rewrite map_map; apply map_ext; intros v.
  destruct (v =? 0); reflexivity.
Qed.

(** C10.  For a real field and an acceptable output argument, [label]
    returns a result exactly when the structure has the rank of the field
    and every axis of length 3, whatever its values and whether or not it
    is centrosymmetric; the values only enter through their coercion to
    booleans. *)
Theorem centrosymmetry_not_checked
        (sched : schedule) (a s : ndarray) (output : output_arg) :
  is_complex (arr_dtype a) = false ->
  output_ok a output ->
  ((exists r, label sched (CupyArray a) (StructureArray s) output = inr r) <->
   length (arr_shape s) = length (arr_shape a) /\
   Forall (fun i => i = 3) (arr_shape s)) /\
  label sched (CupyArray a) (StructureArray s) output
  = label sched (CupyArray a) (StructureArray (as_bool_array s)) output.
Proof.
  intros Hc Ho; split.
  - assert (rank_ok a (StructureArray s) <->
            length (arr_shape s) = length (arr_shape a)) as Hr.
    { unfold rank_ok, ndim; simpl; lia. }
    destruct (label_cases sched a (StructureArray s) output)
      as [[Hc' _]|[(_ & Hr' & E)|[(_ & _ & Hs & E)|(_ & Hr' & Ha & _ & r & E)]]].
    + congruence.
    + split; [intros [r E']; congruence | intros [H _]; tauto].
    + split; [intros [r E']; congruence|].
      intros [_ H]; destruct Hs as [Hs|[_ Hs]]; contradiction.
    + split; [intros _; split; [tauto | exact Ha] | eauto].
  - rewrite !label_eq; unfold coerced_structure.
    now rewrite as_bool_array_idem.
Qed.

Definition field2 : ndarray :=
  {| arr_dtype := int64; arr_shape := [2]; arr_data := [1; 1] |}.

Lemma centrosymmetry_not_checked_witness :
  centrosymmetricb right_only = false /\
  exists r, label sequential (CupyArray field2) (StructureArray right_only)
                  OutputNone = inr r.
Proof.
  split; [reflexivity|].
  apply (centrosymmetry_not_checked sequential field2 right_only OutputNone).
  - reflexivity.
  - intros o; discriminate.
  - split; [reflexivity | repeat constructor].
Defined.

Definition labels6 : ndarray :=
  {| arr_dtype := int32; arr_shape := [6]; arr_data := [1; 0; 2; 2; 0; 3] |}.

(** C8.  Under every schedule, labelling the one-dimensional field
    [[1,0,1,1,0,1]] (of any real dtype) with the structure [[1,1,1]]
    returns the label array [[1,0,2,2,0,3]] and the feature count 3. *)
Theorem scenario_1d (sched : schedule) (d : dtype) :
  is_complex d = false ->
  label sched
        (CupyArray {| arr_dtype := d; arr_shape := [6]; arr_data := field6 |})
        (StructureArray face3) OutputNone
  = inr (ReturnPair labels6 3).
Proof.
  intros Hc; rewrite label_eq; cbn [arr_dtype]; rewrite Hc.
  assert (_label sched field6 [6] (as_bool_array face3)
          = ([1; 0; 2; 2; 0; 3], 3)) as E.
  { rewrite (label_deterministic field6 [6] (as_bool_array face3))
      with (s2 := sequential); [reflexivity | | | | |].
    - discriminate.
    - repeat constructor; lia.
    - reflexivity.
    - split; vm_compute; discriminate.
    - split; [reflexivity | now apply well_formedb_spec]. }
  unfold labelled, coerced_structure; cbn [arr_data arr_shape].
  rewrite E; reflexivity.
Qed.

Lemma scenario_1d_witness :
  label interleaved
        (CupyArray {| arr_dtype := int64; arr_shape := [6]; arr_data := field6 |})
        (StructureArray face3) OutputNone
  = inr (ReturnPair labels6 3).
Proof. apply scenario_1d; reflexivity. Defined.

(** *** Boundary cases *)

(** The array arguments are array objects. *)
Definition well_formed_args (a : ndarray) (structure : structure_arg)
           (output : output_arg) : Prop :=
  well_formed a /\
  (forall s, structure = StructureArray s -> well_formed s) /\
  (forall o, output = OutputArray o -> well_formed o).

Lemma astype_0 d : astype d 0 = 0.
Proof. destruct d; reflexivity. Qed.

Lemma astype_1 d : astype d 1 = 1.
Proof. destruct d; reflexivity. Qed.

Lemma well_formed_as_bool s : well_formed s -> well_formed (as_bool_array s).
Proof.
  intros [H1 H2]; split; auto; unfold len, size in *; simpl.
  now rewrite length_map.
Qed.

Lemma well_formed_generated r c : well_formed (_generate_binary_structure r c).
Proof.
  unfold _generate_binary_structure; destruct (r <? 1)%nat.
  - split; [constructor | reflexivity].
  - split; simpl.
    + apply Forall_forall; intros d Hd; apply repeat_spec in Hd; lia.
    + unfold len, size; simpl; rewrite !length_map.
      apply length_ndindex.
      apply Forall_forall; intros d Hd; apply repeat_spec in Hd; lia.
Qed.

Lemma coerced_validated a structure :
  (forall s, structure = StructureArray s -> well_formed s) ->
  rank_ok a structure -> axes_ok a structure ->
  validated (length (arr_shape a)) (coerced_structure a structure).
Proof.
  intros Hw Hr Ha; split.
  - apply all3_repeat in Ha; rewrite Ha; f_equal.
    unfold rank_ok, ndim in Hr; lia.
  - apply well_formed_as_bool; destruct structure; auto.
    apply well_formed_generated.
Qed.

Lemma shape_positive shape :
  Forall (fun d => 0 <= d) shape -> prod_shape shape <> 0 ->
  Forall (fun d => 1 <= d) shape.
Proof.
  unfold prod_shape; induction 1 as [|d l Hd Hl IH]; cbn [fold_right];
    intros Hp; [constructor|].
  constructor.
  - assert (d <> 0) by (intros ->; now apply Hp); lia.
  - apply IH; intros E; apply Hp; rewrite E; ring.
Qed.

Lemma prod_shape_nonneg shape :
  Forall (fun d => 0 <= d) shape -> 0 <= prod_shape shape.
Proof.
  unfold prod_shape; induction 1; cbn [fold_right]; [lia|].
  now apply Z.mul_nonneg_nonneg.
Qed.

Lemma single_root l c :
  StronglySorted Z.lt l -> (forall r, In r l <-> r = c) -> l = [c].
Proof.
  intros S H; destruct l as [|h t]; [specialize (proj2 (H c) eq_refl) as []|].
  assert (h = c) as -> by (apply H; now left).
  destruct t as [|h2 t]; auto.
  assert (h2 = c) as -> by (apply H; right; now left).
  inversion S as [|? ? _ F]; inversion F; lia.
Qed.

Section Boundary.

Variables (sched : schedule) (x y_shape : list Z) (structure : ndarray).

Hypothesis shape_rank : y_shape <> [].
Hypothesis shape_pos : Forall (fun d => 1 <= d) y_shape.
Hypothesis x_len : len x = prod_shape y_shape.
Hypothesis fits : ints_fit y_shape structure.
Hypothesis structure_ok : validated (length y_shape) structure.

Lemma label_all_zero :
  (forall i, 0 <= i < len x -> rd x i = 0) ->
  snd (_label sched x y_shape structure) = 0 /\
  Forall (fun v => v = 0) (fst (_label sched x y_shape structure)).
Proof.
  intros Hz.
  destruct (label_resolved x y_shape structure shape_rank shape_pos x_len
              fits structure_ok sched) as (y & (F & I & C) & ->);
    cbn [fst snd].
  assert (len y = len x) as El by apply F.
  assert (forall i, 0 <= i < len x -> rd y i = -1) as Hm.
  { intros i Hi; apply (forest_inactive x y i F Hi).
    unfold active; rewrite (Hz i Hi), Z.eqb_refl, andb_false_r; reflexivity. }
  assert (roots y = []) as Er.
  { destruct (roots y) as [|r l] eqn:E; auto.
    assert (In r (roots y)) as Hr by (rewrite E; now left).
    apply in_roots in Hr as [B R]; rewrite Hm in R; lia. }
  rewrite Er; split; [reflexivity|].
  apply Forall_forall; intros v Hv.
  apply in_map_iff in Hv as (u & <- & Hu).
  apply (In_nth _ _ 0) in Hu as (k & Hk & <-).
  specialize (Hm (Z.of_nat k) ltac:(unfold len in *; lia)).
  unfold rd in Hm; rewrite Nat2Z.id in Hm; rewrite Hm; reflexivity.
Qed.

Lemma label_single c :
  0 <= c < len x -> rd x c <> 0 ->
  (forall i, 0 <= i < len x -> i <> c -> rd x i = 0) ->
  snd (_label sched x y_shape structure) = 1 /\
  rd (fst (_label sched x y_shape structure)) c = 1.
Proof.
  intros Hc Hnz Hz.
  destruct (label_resolved x y_shape structure shape_rank shape_pos x_len
              fits structure_ok sched) as (y & (F & I & C) & ->);
    cbn [fst snd].
  assert (len y = len x) as El by apply F.
  assert (active x c = true) as A by (apply act_iff; auto).
  assert (forall i, active x i = true -> i = c) as Hone.
  { intros i Ai; apply act_iff in Ai as [Hi Ni].
    destruct (Z.eq_dec i c); auto; specialize (Hz i Hi n); contradiction. }
  assert (rd y c = c) as Rc.
  { destruct (forest_act x y c F A) as [_ A']; now apply Hone. }
  assert (roots y = [c]) as Er.
  { apply single_root; [apply sorted_roots|].
    intros r; rewrite in_roots; split.
    - intros [B R]; apply Hone.
      apply (forest_active_iff x y r F); lia.
    - intros ->; split; auto; lia. }
  rewrite Er; split; [reflexivity|].
  rewrite rd_map by lia; rewrite Rc; unfold final_label.
  destruct (Z.ltb_spec c 0); [lia|].
  cbn [index_of]; now rewrite Z.eqb_refl.
Qed.

End Boundary.

(** The statement of the boundary cases for a field [a], the feature
    count [m] and the output array [o]. *)
Definition boundary (a : ndarray) (m : Z) (o : ndarray) : Prop :=
  (Forall (fun v => v = 0) (arr_data a) ->
   m = 0 /\ Forall (fun v => v = 0) (arr_data o)) /\
  (forall c, 0 <= c < size a -> rd (arr_data a) c <> 0 ->
     (forall i, 0 <= i < size a -> i <> c -> rd (arr_data a) i = 0) ->
     m = 1 /\ rd (arr_data o) c = 1) /\
  (size a = 0 -> m = 0) /\
  (arr_shape a = [] -> m = if rd (arr_data a) 0 =? 0 then 0 else 1).

Lemma forall_zero_rd l :
  Forall (fun v => v = 0) l -> forall i, 0 <= i < len l -> rd l i = 0.
Proof.
  intros H i Hi; rewrite Forall_forall in H; apply H, nth_In.
  unfold len in Hi; lia.
Qed.

Lemma forall_zero_map (g : Z -> Z) l :
  g 0 = 0 -> Forall (fun v => v = 0) l -> Forall (fun v => v = 0) (map g l).
Proof.
  intros G H; apply Forall_forall; intros v Hv.
  apply in_map_iff in Hv as (u & <- & Hu).
  rewrite Forall_forall in H; now rewrite (H u Hu).
Qed.

Lemma labelled_boundary sched a s out0 :
  well_formed a -> ints_fit (arr_shape a) s ->
  validated (length (arr_shape a)) s ->
  len (arr_data out0) = size a ->
  boundary a (snd (labelled sched a s out0)) (fst (labelled sched a s out0)).
Proof.
  intros [Wd Wl] Hfits Hval Hout; unfold labelled, boundary.
  destruct (Z.eqb_spec (size a) 0) as [Hz|Hnz]; cbn [fst snd].
  { (* empty *)
    assert (arr_data out0 = []) as ->.
    { destruct (arr_data out0); auto; unfold len in Hout; simpl in Hout; lia. }
    repeat split; auto; try lia.
    intros Hs; unfold size in Hz; rewrite Hs in Hz; discriminate. }
  destruct (Z.eqb_spec (ndim a) 0) as [Hn|Hn]; cbn [fst snd].
  { (* 0-dim array *)
    assert (arr_shape a = []) as Es.
    { unfold ndim in Hn; destruct (arr_shape a); auto; simpl in Hn; lia. }
    assert (size a = 1) as E1 by (unfold size; now rewrite Es).
    destruct (arr_data out0) as [|w [|? ?]] eqn:Eo;
      try (unfold len in Hout; simpl in Hout; lia).
    unfold fill; cbn [arr_data]; rewrite Eo; cbn [map].
    split; [| split; [| split]]; auto; try lia.
    - intros H; rewrite (forall_zero_rd _ H 0) by lia; cbn [Z.eqb].
      rewrite astype_0; repeat constructor.
    - intros c Hc Hnzc _; assert (c = 0) as -> by lia.
      destruct (Z.eqb_spec (rd (arr_data a) 0) 0); [contradiction|].
      split; auto; unfold rd; simpl; apply astype_1. }
  (* general case *)
  assert (Forall (fun d => 1 <= d) (arr_shape a)) as Hpos
    by (apply shape_positive; auto).
  assert (arr_shape a <> []) as Hrank.
  { intros Es; unfold ndim in Hn; rewrite Es in Hn; now apply Hn. }
  pose proof (label_all_zero sched (arr_data a) (arr_shape a) s
                Hrank Hpos Wl Hfits Hval) as HA.
  pose proof (label_single sched (arr_data a) (arr_shape a) s
                Hrank Hpos Wl Hfits Hval) as HB.
  destruct (label_resolved (arr_data a) (arr_shape a) s Hrank Hpos Wl Hfits
              Hval sched) as (y3 & (F & _) & EL).
  assert (len (fst (_label sched (arr_data a) (arr_shape a) s))
          = len (arr_data a)) as Ely.
  { rewrite EL; cbn [fst]; unfold len; rewrite length_map.
    destruct F as [E _]; exact E. }
  clear EL y3 F.
  destruct (_label sched (arr_data a) (arr_shape a) s) as [y m].
  cbn [fst snd] in *.
  set (g := fun v : Z => if negb (dtype_eqb (arr_dtype out0) int32)
                         then astype (arr_dtype out0) v else v).
  assert (g 0 = 0 /\ g 1 = 1) as [G0 G1].
  { unfold g; destruct (negb _); auto using astype_0, astype_1. }
  assert (arr_data (fst (if negb (dtype_eqb (arr_dtype out0) int32)
                         then (assign out0 y, m)
                         else ({| arr_dtype := arr_dtype out0;
                                  arr_shape := arr_shape out0;
                                  arr_data := y |}, m)))
          = map g y /\
          snd (if negb (dtype_eqb (arr_dtype out0) int32)
               then (assign out0 y, m)
               else ({| arr_dtype := arr_dtype out0;
                        arr_shape := arr_shape out0;
                        arr_data := y |}, m)) = m) as [-> ->].
  { unfold g; destruct (negb _); cbn [fst snd assign arr_data]; split; auto.
    symmetry; apply map_id. }
  split; [| split; [| split]].
  - intros H; destruct HA as [-> Hy].
    + intros i Hi; now apply forall_zero_rd.
    + split; auto; now apply forall_zero_map.
  - intros c Hc Hnzc Hoth; rewrite <- Wl in Hc.
    destruct (HB c Hc Hnzc) as [-> Rc].
    + intros i Hi; apply Hoth; lia.
    + split; auto; rewrite rd_map by lia; now rewrite Rc.
  - intros; contradiction.
  - intros Es; unfold ndim in Hn; rewrite Es in Hn; simpl in Hn; lia.
Qed.

(** C7.  When [label] returns for well-formed arguments (with the
    kernels' [int] arithmetic in range): an all-zero field gives feature
    count 0 and an all-zero output; a field with exactly one non-zero cell
    gives feature count 1 and the label 1 at that cell; a field of size 0
    gives feature count 0; a field of rank 0 gives 0 or 1 according to
    whether its scalar is zero. *)
Theorem boundary_cases
        (sched : schedule) (a : ndarray) (structure : structure_arg)
        (output : output_arg) (r : label_return) :
  well_formed_args a structure output ->
  ints_fit (arr_shape a) (coerced_structure a structure) ->
  label sched (CupyArray a) structure output = inr r ->
  boundary a (returned_maxlabel r) (returned_output r).
Proof.
  intros (Wa & Ws & Wo) Hfits E.
  destruct (label_cases sched a structure output)
    as [[_ E']|[(_ & _ & E')|[(_ & _ & _ & E')|(Hc & Hr & Ha & Ho & _)]]];
    try congruence.
  pose proof (coerced_validated a structure Ws Hr Ha) as Hval.
  rewrite label_eq, Hc in E.
  unfold rank_ok in Hr; rewrite Hr, Z.eqb_refl in E; cbn [negb] in E.
  apply existsb_not3 in Ha; rewrite Ha in E.
  destruct (prepared_output a output) as [[cp out0]|] eqn:Ep;
    [| discriminate].
  assert (len (arr_data out0) = size a) as Hout.
  { destruct output as [|d|o]; simpl in Ep.
    - injection Ep as _ <-; unfold empty, len; simpl.
      rewrite repeat_length; destruct Wa as [Wd _].
      pose proof (prod_shape_nonneg _ Wd); unfold size; lia.
    - injection Ep as _ <-; unfold empty, len; simpl.
      rewrite repeat_length; destruct Wa as [Wd _].
      pose proof (prod_shape_nonneg _ Wd); unfold size; lia.
    - destruct (negb _); [discriminate|]; injection Ep as _ <-.
      destruct (Wo o eq_refl) as [_ ->].
      unfold size; now rewrite (Ho o eq_refl). }
  pose proof (labelled_boundary sched a (coerced_structure a structure) out0
                Wa Hfits Hval Hout) as B.
  destruct (labelled sched a (coerced_structure a structure) out0) as [o m].
  destruct cp; injection E as <-; exact B.
Qed.

Definition zeros23 : ndarray :=
  {| arr_dtype := float64; arr_shape := [2; 3]; arr_data := [0; 0; 0; 0; 0; 0] |}.

Lemma boundary_cases_witness :
  boundary zeros23 0
           {| arr_dtype := uint8; arr_shape := [2; 3];
              arr_data := [0; 0; 0; 0; 0; 0] |}.
Proof.
  apply (boundary_cases interleaved zeros23 StructureNone (OutputDtype uint8)
           (ReturnPair {| arr_dtype := uint8; arr_shape := [2; 3];
                          arr_data := [0; 0; 0; 0; 0; 0] |} 0)).
  - split; [now apply well_formedb_spec | split; intros ?; discriminate].
  - split; vm_compute; discriminate.
  - reflexivity.
Defined.

(** *** Every undirected edge is examined once *)

Lemma vadd_cancel a : forall w w',
  length w = length a -> length w' = length a ->
  vadd a w = vadd a w' -> w = w'.
Proof.
  unfold vadd; induction a as [|c a IH]; intros [|u w] [|u' w'] L L' E;
    try discriminate; auto; simpl in *.
  injection E as E1 E2; f_equal; [lia | apply IH; auto; lia].
Qed.

Lemma offset_step_unique y_shape w w' p q :
  length w = length y_shape -> length w' = length y_shape ->
  offset_step y_shape w p q -> offset_step y_shape w' p q -> w = w'.
Proof.
  intros L L' (_ & _ & E) (_ & _ & E'); rewrite E in E'.
  apply (vadd_cancel (unravel y_shape p)); auto;
    now rewrite length_unravel.
Qed.

(** The undirected edge between the cells [p] and [q] is examined through
    exactly one retained offset, and from exactly one of its ends. *)
Definition examined_once (s : ndarray) (y_shape : list Z) (p q : Z) : Prop :=
  exists w, In w (dirs_of s) /\
    (offset_step y_shape w p q \/ offset_step y_shape w q p) /\
    ~ (offset_step y_shape w p q /\ offset_step y_shape w q p) /\
    forall w', In w' (dirs_of s) ->
      offset_step y_shape w' p q \/ offset_step y_shape w' q p -> w' = w.

(** C2.  For a centrosymmetric structure accepted by [label] for rank
    [r >= 1], the filter [enc v < 0] keeps exactly one of [v] and [-v] for
    every active non-zero offset [v], never keeps the all-zero offset,
    keeps no offset twice and keeps active offsets only; hence in a field
    of rank [r] the edge between two cells at an active non-zero offset is
    examined through exactly one retained offset, from exactly one of its
    two ends. *)
Theorem offsets_deduplicated (r : nat) (s : ndarray) :
  (1 <= r)%nat -> validated r s -> centrosymmetric s ->
  (forall v, In v (vecs s) -> v <> repeat 0 r ->
     (In v (dirs_of s) /\ ~ In (neg v) (dirs_of s)) \/
     (In (neg v) (dirs_of s) /\ ~ In v (dirs_of s)))
  /\ ~ In (repeat 0 r) (dirs_of s)
  /\ NoDup (dirs_of s)
  /\ (forall v, In v (dirs_of s) -> In v (vecs s) /\ v <> repeat 0 r)
  /\ (forall y_shape p q v,
        length y_shape = r -> In v (vecs s) -> v <> repeat 0 r ->
        offset_step y_shape v p q -> examined_once s y_shape p q).
Proof.
  intros _ Hs Hc.
  destruct (dirs_of_one_direction r s Hs Hc) as (H1 & H2 & H3 & H4).
  split; [auto | split; [auto | split; [auto | split; [auto |]]]].
  intros y_shape p q v Lr Hv Hnz S.
  destruct (vecs_shape r s v Hs Hv) as [Lv Tv].
  assert (forall w, In w (dirs_of s) -> length w = length y_shape /\ enc w < 0)
    as Hd.
  { intros w Hw; apply in_dirs_of in Hw as [Hw ?]; split; auto.
    destruct (vecs_shape r s w Hs Hw); lia. }
  assert (enc v <> 0) as Hne.
  { intros E; apply enc_zero_inv in E; auto; congruence. }
  assert (length (neg v) = length y_shape) as Ln
    by (rewrite length_neg; lia).
  assert (offset_step y_shape (neg v) q p) as Sn
    by (apply offset_step_neg; auto; lia).
  assert (forall w, length w = length y_shape ->
            offset_step y_shape w p q -> w = v) as Upq.
  { intros w Lw Sw; apply (offset_step_unique y_shape w v p q); auto; lia. }
  assert (forall w, length w = length y_shape ->
            offset_step y_shape w q p -> w = neg v) as Uqp.
  { intros w Lw Sw; apply (offset_step_unique y_shape w (neg v) q p); auto. }
  destruct (Z_lt_ge_dec (enc v) 0) as [C|C].
  - exists v; split; [now apply in_dirs_of | split; [now left | split]].
    + intros [_ S']; apply Uqp in S'; [| lia].
      apply (f_equal enc) in S'; rewrite enc_neg in S'; lia.
    + intros w' Hw' [S'|S']; destruct (Hd w' Hw') as [Lw Ew]; auto.
      apply Uqp in S'; auto; subst w'; rewrite enc_neg in Ew; lia.
  - exists (neg v); split; [| split; [now right | split]].
    + apply in_dirs_of; split; auto; rewrite enc_neg; lia.
    + intros [S' _]; apply Upq in S'; auto.
      apply (f_equal enc) in S'; rewrite enc_neg in S'; lia.
    + intros w' Hw' [S'|S']; destruct (Hd w' Hw') as [Lw Ew]; auto.
      apply Upq in S'; auto; subst w'; lia.
Qed.

Lemma offsets_deduplicated_witness :
  (1 <= 1)%nat /\ validated 1 face3 /\ centrosymmetric face3 /\
  dirs_of face3 = [[-1]] /\ examined_once face3 [6] 2 3.
Proof.
  assert (validated 1 face3) as V.
  { split; [reflexivity | now apply well_formedb_spec]. }
  assert (centrosymmetric face3) as C by now apply centrosymmetricb_spec.
  repeat split; try apply V; auto.
  destruct (offsets_deduplicated 1 face3 (le_n 1) V C) as (_ & _ & _ & _ & H).
  apply (H [6] 2 3 [1]); try reflexivity.
  - vm_compute; auto.
  - discriminate.
  - vm_compute; repeat split; auto; discriminate.
Defined.

(** * Part IV: further properties of the labelling code *)

(** ** The partition computed for any accepted structure *)

(** One step along an offset that [_label] retains (an active offset [v]
    with [enc v < 0]), taken in either direction. *)
Definition retained_step (x y_shape : list Z) (structure : ndarray)
           (p q : Z) : Prop :=
  active x p = true /\ active x q = true /\
  exists v, In v (dirs_of structure) /\
            (offset_step y_shape v p q \/ offset_step y_shape v q p).

Definition retained_chain (x y_shape : list Z) (structure : ndarray)
  : Z -> Z -> Prop :=
  clos_refl_trans Z (retained_step x y_shape structure).

Section Retained.

Variables (x y_shape : list Z) (structure : ndarray).

Hypothesis shape_pos : Forall (fun d => 1 <= d) y_shape.
Hypothesis x_len : len x = prod_shape y_shape.
Hypothesis fits : ints_fit y_shape structure.
Hypothesis structure_ok : validated (length y_shape) structure.

Lemma edge_retained a b :
  edge x (kernel_ndirs structure) (kernel_nbr y_shape structure) a b ->
  retained_step x y_shape structure a b.
Proof.
  intros (A & B & dr & Hdr & E).
  pose proof (act_cell x y_shape x_len a A) as Ha.
  pose proof (act_cell x y_shape x_len b B) as Hb.
  rewrite (kernel_nbr_nb x y_shape structure shape_pos x_len fits structure_ok)
    in E by lia.
  set (v := nth (Z.to_nat dr) (dirs_of structure) []) in *.
  assert (In v (dirs_of structure)) as Hv
    by (apply nth_In; unfold kernel_ndirs in Hdr; lia).
  destruct (dirs_rows_ok y_shape structure structure_ok v Hv) as [L _].
  split; auto; split; auto; exists v; split; auto; left.
  apply nb_offset_step; auto; split; auto; lia.
Qed.

Lemma retained_step_sym p q :
  retained_step x y_shape structure p q -> retained_step x y_shape structure q p.
Proof.
  intros (A & B & v & Hv & S); split; auto; split; auto.
  exists v; split; auto; tauto.
Qed.

Lemma retained_chain_sym p q :
  retained_chain x y_shape structure p q -> retained_chain x y_shape structure q p.
Proof.
  induction 1 as [a b H| |a b c _ IH1 _ IH2].
  - apply rt_step; now apply retained_step_sym.
  - apply rt_refl.
  - eapply rt_trans; eauto.
Qed.

Lemma connected_retained p q :
  connected x y_shape structure p q <-> retained_chain x y_shape structure p q.
Proof.
  split.
  - induction 1 as [a b H|a|a b _ IH|a b c _ IH1 _ IH2].
    + apply rt_step; now apply edge_retained.
    + apply rt_refl.
    + now apply retained_chain_sym.
    + eapply rt_trans; eauto.
  - induction 1 as [a b (A & B & v & Hv & [S|S])| |a b c _ IH1 _ IH2].
    + apply rst_step.
      apply (dirs_edge x y_shape structure shape_pos x_len fits structure_ok v);
        auto.
    + apply rst_sym, rst_step.
      apply (dirs_edge x y_shape structure shape_pos x_len fits structure_ok v);
        auto.
    + apply rst_refl.
    + eapply rst_trans; eauto.
Qed.

End Retained.

(** The statement for one run of [_label]: two active cells carry the same
    label exactly when a chain of steps along retained offsets, each taken
    forwards or backwards, joins them; inactive cells carry 0. *)
Definition partition_by_retained (sched : schedule) (x y_shape : list Z)
           (structure : ndarray) : Prop :=
  let y := fst (_label sched x y_shape structure) in
  (forall p q, active x p = true -> active x q = true ->
     (rd y p = rd y q <-> retained_chain x y_shape structure p q)) /\
  (forall i, 0 <= i < len x -> active x i = false -> rd y i = 0).

(** X1.  For every structure that [label] accepts, centrosymmetric or not,
    and under every schedule, [_label] gives two active cells the same
    label exactly when they are joined by a chain of active cells whose
    steps are offsets retained by the filter [enc v < 0], each taken in
    either direction; inactive cells receive 0. *)
Theorem partition_of_any_structure
        (sched : schedule) (x y_shape : list Z) (structure : ndarray) :
  y_shape <> [] ->
  Forall (fun d => 1 <= d) y_shape ->
  len x = prod_shape y_shape ->
  ints_fit y_shape structure ->
  validated (length y_shape) structure ->
  partition_by_retained sched x y_shape structure.
Proof.
  intros Hrank Hpos Hlen Hfits Hval; unfold partition_by_retained.
  destruct (label_resolved x y_shape structure Hrank Hpos Hlen Hfits Hval
              sched) as (y & (F & I & C) & ->); cbn [fst].
  split.
  - intros p q A B.
    rewrite (final_eq_iff x y F I p q A B), (C p q A B).
    now apply connected_retained.
  - intros i Hi A; now apply (final_inactive x y F).
Qed.

Lemma partition_of_any_structure_witness :
  partition_by_retained interleaved [1; 1; 0; 1] [4] right_only.
Proof.
  apply partition_of_any_structure.
  - discriminate.
  - repeat constructor; lia.
  - reflexivity.
  - split; vm_compute; discriminate.
  - split; [reflexivity | now apply well_formedb_spec].
Defined.

(** ** The neighbour computation of the connect kernel *)

Lemma in_bounds_snoc a : forall b c d,
  length a = length b ->
  in_bounds (a ++ [c]) (b ++ [d])
  = in_bounds a b && ((0 <=? c) && (c <? d)).
Proof.
  unfold in_bounds; induction a as [|u a IH]; intros [|w b] c d L;
    try discriminate; cbn [app combine forallb fst snd].
  - now rewrite andb_true_r.
  - rewrite IH by (simpl in L; lia); now rewrite andb_assoc.
Qed.

Lemma in_bounds_rev a : forall b,
  length a = length b -> in_bounds (rev a) (rev b) = in_bounds a b.
Proof.
  induction a as [|u a IH]; intros [|w b] L; try discriminate; auto.
  cbn [rev]; rewrite in_bounds_snoc by (rewrite !length_rev; simpl in L; lia).
  rewrite IH by (simpl in L; lia); unfold in_bounds.
  cbn [combine forallb fst snd]; apply andb_comm.
Qed.

(** The value [k] that the loop over [dm] leaves for cell [p] and
    direction [dr], against the multi-index of [p] moved by the offset. *)
Definition neighbour_exact (y_shape : list Z) (structure : ndarray)
           (p dr : Z) : Prop :=
  let k := neighbour (map wrap32 y_shape) (concat (dirs_of structure))
                     (wrap32 (Z.of_nat (length y_shape))) p dr in
  let c := vadd (unravel y_shape p)
                (nth (Z.to_nat dr) (dirs_of structure) []) in
  if in_bounds c y_shape
  then 0 <= k < prod_shape y_shape /\ unravel y_shape k = c
  else k = -1.

(** X2.  In the connect kernel, the loop over [dm] computes for cell [p]
    and retained direction [dr] the flat index of the cell whose
    multi-index is that of [p] plus the offset when this multi-index lies
    inside the array, and [-1] as soon as one coordinate leaves it: the
    kernel never indexes outside the buffer and never wraps around an edge
    of the array. *)
Theorem neighbour_never_wraps
        (y_shape : list Z) (structure : ndarray) (p dr : Z) :
  y_shape <> [] ->
  Forall (fun d => 1 <= d) y_shape ->
  ints_fit y_shape structure ->
  validated (length y_shape) structure ->
  0 <= p < prod_shape y_shape ->
  0 <= dr < Z.of_nat (length (dirs_of structure)) ->
  neighbour_exact y_shape structure p dr.
Proof.
  intros Hrank Hpos [Hsize Hdirs] Hval Hp Hdr; unfold neighbour_exact.
  assert (2 ^ 30 < max_signed) as H30 by reflexivity.
  assert (1 <= Z.of_nat (length y_shape)) as Hr1
    by (destruct y_shape; [contradiction | simpl; lia]).
  rewrite (wrap32_small (Z.of_nat (length y_shape)))
    by (unfold max_signed in *; nia).
  rewrite (neighbour_nb y_shape (dirs_of structure) Hpos ltac:(lia)
             (dirs_rows_ok y_shape structure Hval) Hdirs p dr) by lia.
  set (v := nth (Z.to_nat dr) (dirs_of structure) []).
  assert (In v (dirs_of structure)) as Hv by (apply nth_In; lia).
  destruct (dirs_rows_ok y_shape structure Hval v Hv) as [L _].
  assert (length (unravel y_shape p) = length y_shape) as Lu
    by apply length_unravel.
  destruct (in_bounds (vadd (unravel y_shape p) v) y_shape) eqn:B.
  - assert (length (vadd (unravel y_shape p) v) = length y_shape) as Lc
      by (rewrite length_vadd; lia).
    set (c := vadd (unravel y_shape p) v) in *.
    set (q := undigits (rev y_shape) (rev c)).
    assert (in_bounds (rev c) (rev y_shape) = true) as Br
      by (rewrite in_bounds_rev; auto).
    pose proof (undigits_bound (rev y_shape) (rev c) Br
                  ltac:(rewrite !length_rev; auto)) as Hq.
    rewrite prod_shape_rev in Hq; fold q in Hq.
    assert (unravel y_shape q = c) as Eq.
    { unfold unravel, q; rewrite digits_undigits; auto.
      - apply rev_involutive.
      - rewrite !length_rev; auto. }
    assert (offset_step y_shape v p q) as S by (split; auto).
    apply nb_offset_step in S as [-> _]; auto.
  - destruct (nb_range y_shape v p L) as [H|H]; auto.
    set (k := nb (rev y_shape) (rev v) p 1 0) in *.
    destruct (Z_lt_le_dec k 0) as [Hn|Hn].
    + assert (length (rev v) = length (rev y_shape)) as Lr
        by (rewrite !length_rev; auto).
      unfold k in *; rewrite nb_spec in * by auto.
      destruct (in_bounds _ (rev y_shape)) eqn:B'; auto.
      apply undigits_bound in B'; [lia|].
      rewrite length_vadd, length_digits; auto; now rewrite length_digits.
    + assert (offset_step y_shape v p k) as (_ & Hk & E)
        by (apply nb_offset_step; auto).
      rewrite <- E in B; unfold unravel in B.
      rewrite <- (rev_involutive y_shape) in B at 2.
      rewrite in_bounds_rev in B
        by (rewrite length_digits; auto).
      assert (Forall (fun d => 1 <= d) (rev y_shape)) as Fr.
      { apply Forall_forall; intros d Hd; apply in_rev in Hd.
        rewrite Forall_forall in Hpos; auto. }
      rewrite <- prod_shape_rev in Hk.
      destruct (undigits_digits (rev y_shape) k Fr Hk) as [_ B'].
      congruence.
Qed.

Definition full33 : ndarray :=
  {| arr_dtype := bool_; arr_shape := [3; 3];
     arr_data := [1; 1; 1; 1; 1; 1; 1; 1; 1] |}.

Lemma neighbour_never_wraps_witness : neighbour_exact [2; 3] full33 3 3.
Proof.
  apply neighbour_never_wraps.
  - discriminate.
  - repeat constructor; lia.
  - split; vm_compute; discriminate.
  - split; [reflexivity | now apply well_formedb_spec].
  - vm_compute; split; [discriminate | reflexivity].
  - vm_compute; split; [discriminate | reflexivity].
Defined.

(** ** The numbering of the features *)

Lemma index_of_first v l j :
  0 <= j < len l -> rd l j = v -> (forall i, 0 <= i < j -> rd l i <> v) ->
  index_of v l = j.
Proof.
  revert j; induction l as [|h t IH]; intros j Hj E Hlt.
  - unfold len in Hj; simpl in Hj; lia.
  - cbn [index_of]; destruct (Z.eqb_spec h v) as [Eh|Nh].
    + destruct (Z.eq_dec j 0) as [->|Nj]; auto.
      exfalso; apply (Hlt 0); [lia | exact Eh].
    + destruct (Z.eq_dec j 0) as [->|Nj]; [contradiction|].
      assert (forall i, 0 <= i -> rd (h :: t) (i + 1) = rd t i) as Hs.
      { intros i Hi; unfold rd.
        replace (Z.to_nat (i + 1)) with (S (Z.to_nat i)) by lia; reflexivity. }
      rewrite (IH (j - 1)); [lia | | |].
      * unfold len in *; cbn [length] in Hj; lia.
      * rewrite <- Hs by lia; now replace (j - 1 + 1) with j by lia.
      * intros i Hi; rewrite <- Hs by lia; apply Hlt; lia.
Qed.

(** The statement for one run of [_label]: every label [k] of
    [1 .. featureCount] occurs, and every cell that comes before its first
    occurrence in row-major order carries a smaller label. *)
Definition numbered_by_first_occurrence (sched : schedule) (x y_shape : list Z)
           (structure : ndarray) : Prop :=
  let y := fst (_label sched x y_shape structure) in
  let featureCount := snd (_label sched x y_shape structure) in
  forall k, 1 <= k <= featureCount ->
    0 <= index_of k y < len y /\ rd y (index_of k y) = k /\
    (forall i, 0 <= i < index_of k y -> rd y i < k) /\
    (k < featureCount -> index_of k y < index_of (k + 1) y).

(** X3.  [_label] numbers the features in the order in which a row-major
    scan of the field first meets them: the first cell that carries the
    label [k] is preceded by cells with smaller labels only, so the first
    occurrences of 1, 2, ..., featureCount come in ascending order of
    their flat index (the sort of the roots and the union tie-break make
    the label of a feature the rank of its smallest cell). *)
Theorem labels_in_scan_order
        (sched : schedule) (x y_shape : list Z) (structure : ndarray) :
  y_shape <> [] ->
  Forall (fun d => 1 <= d) y_shape ->
  len x = prod_shape y_shape ->
  ints_fit y_shape structure ->
  validated (length y_shape) structure ->
  numbered_by_first_occurrence sched x y_shape structure.
Proof.
  intros Hrank Hpos Hlen Hfits Hval; unfold numbered_by_first_occurrence.
  destruct (label_resolved x y_shape structure Hrank Hpos Hlen Hfits Hval
              sched) as (y & (F & I & C) & ->); cbn [fst snd].
  assert (len y = len x) as El by apply F.
  set (out := map (final_label (roots y)) y).
  assert (len out = len y) as Eo by (unfold out, len; now rewrite length_map).
  pose proof (sorted_roots y) as Sr.
  (* the root of the feature with label [k] *)
  assert (forall k, 1 <= k <= len (roots y) ->
            let r := rd (roots y) (k - 1) in
            0 <= r < len x /\ rd y r = r /\ active x r = true /\
            rd out r = k) as Hroot.
  { intros k Hk r.
    assert (In r (roots y)) as Hr by (apply nth_In; unfold len in *; lia).
    pose proof Hr as Hr'; apply in_roots in Hr' as [Br Rr].
    assert (active x r = true) as A
      by (apply (forest_active_iff x y r F); lia).
    split; [lia | split; [auto | split; [auto|]]].
    unfold out; rewrite (final_active x y F r A), Rr; unfold r.
    rewrite index_of_rd; [lia | auto | lia]. }
  (* a cell with label [k] holds the root of rank [k] *)
  assert (forall i k, 0 <= i < len x -> 1 <= k -> rd out i = k ->
            active x i = true /\ rd y i = rd (roots y) (k - 1)) as Hcell.
  { intros i k Hi Hk E.
    destruct (active x i) eqn:A.
    - split; auto; unfold out in E; rewrite (final_active x y F i A) in E.
      destruct (index_of_in _ _ (resolved_in_roots x y F I i A)) as [_ R].
      rewrite <- R at 1; f_equal; lia.
    - unfold out in E; rewrite (final_inactive x y F i Hi A) in E; lia. }
  assert (forall k, 1 <= k <= len (roots y) ->
            index_of k out = rd (roots y) (k - 1)) as Hfirst.
  { intros k Hk; destruct (Hroot k Hk) as (Br & Rr & A & Er).
    apply index_of_first; auto; [lia|].
    intros i Hi E.
    destruct (Hcell i k ltac:(lia) ltac:(lia) E) as [Ai Ei].
    pose proof (forest_act x y i F Ai) as [B _]; lia. }
  intros k Hk; rewrite (Hfirst k Hk).
  destruct (Hroot k Hk) as (Br & Rr & A & Er).
  split; [lia | split; [auto | split]].
  - intros i Hi.
    destruct (active x i) eqn:Ai.
    + unfold out; rewrite (final_active x y F i Ai).
      destruct (index_of_in _ _ (resolved_in_roots x y F I i Ai)) as [Bi Ri].
      pose proof (forest_act x y i F Ai) as [B _].
      set (m := index_of (rd y i) (roots y)) in *.
      destruct (Z_lt_le_dec m (k - 1)) as [Hm|Hm]; [lia|].
      destruct (Z.eq_dec m (k - 1)) as [Em|Nm].
      * rewrite Em in Ri; lia.
      * pose proof (sorted_rd (roots y) Sr (k - 1) m ltac:(lia) ltac:(lia)
                      ltac:(lia)); lia.
    + unfold out; rewrite (final_inactive x y F i ltac:(lia) Ai); lia.
  - intros Hk'; rewrite (Hfirst (k + 1)) by lia.
    replace (k + 1 - 1) with k by lia.
    apply (sorted_rd (roots y) Sr); lia.
Qed.

Lemma labels_in_scan_order_witness :
  numbered_by_first_occurrence interleaved field6 [6] face3.
Proof.
  apply labels_in_scan_order.
  - discriminate.
  - repeat constructor; lia.
  - reflexivity.
  - split; vm_compute; discriminate.
  - split; [reflexivity | now apply well_formedb_spec].
Defined.

(** ** The field enters through its zero pattern only *)

Lemma kernel_init_mask x x' :
  length x' = length x ->
  (forall i, 0 <= i < len x -> (rd x' i = 0 <-> rd x i = 0)) ->
  _kernel_init x' = _kernel_init x.
Proof.
  intros L H; unfold _kernel_init.
  assert (len x' = len x) as -> by (unfold len; now rewrite L).
  set (f := fun p : Z * Z => if snd p =? 0 then -1 else wrap32 (fst p)).
  apply (nth_ext _ _ (f (0, 0)) (f (0, 0))).
  - rewrite !length_map, !length_combine; lia.
  - intros k Hk.
    rewrite length_map, length_combine, length_zrange in Hk.
    rewrite !map_nth, !combine_nth
      by (rewrite length_zrange; unfold len; lia).
    unfold f; cbn [fst snd].
    assert (0 <= Z.of_nat k < len x) as Hi by (unfold len in *; lia).
    specialize (H (Z.of_nat k) Hi); unfold rd in H; rewrite Nat2Z.id in H.
    destruct (Z.eqb_spec (nth k x' 0) 0), (Z.eqb_spec (nth k x 0) 0);
      auto; tauto.
Qed.

(** The statement for a field [x]: a field with the same zero pattern
    gets the same labels and feature count, under any two schedules, and
    so does the label array of [x] itself. *)
Definition determined_by_mask (s1 s2 : schedule) (x y_shape : list Z)
           (structure : ndarray) : Prop :=
  (forall x', length x' = length x ->
     (forall i, 0 <= i < len x -> (rd x' i = 0 <-> rd x i = 0)) ->
     _label s2 x' y_shape structure = _label s1 x y_shape structure) /\
  _label s2 (fst (_label s1 x y_shape structure)) y_shape structure
  = _label s1 x y_shape structure.

(** X4.  [_label] reads the field only through the test [x == 0] of the
    init kernel: two fields with the same zero pattern get the same label
    array and feature count.  The label array has the zero pattern of the
    field, so labelling is idempotent: labelling a label array again, with
    the same structure and under any schedule, returns it unchanged with
    the same feature count. *)
Theorem relabelling_is_idempotent
        (s1 s2 : schedule) (x y_shape : list Z) (structure : ndarray) :
  y_shape <> [] ->
  Forall (fun d => 1 <= d) y_shape ->
  len x = prod_shape y_shape ->
  ints_fit y_shape structure ->
  validated (length y_shape) structure ->
  determined_by_mask s1 s2 x y_shape structure.
Proof.
  intros Hrank Hpos Hlen Hfits Hval.
  assert (forall x', length x' = length x ->
            (forall i, 0 <= i < len x -> (rd x' i = 0 <-> rd x i = 0)) ->
            _label s2 x' y_shape structure = _label s1 x y_shape structure)
    as Hmask.
  { intros x' L H.
    rewrite (label_deterministic x y_shape structure Hrank Hpos Hlen Hfits
               Hval s1 s2).
    unfold _label; now rewrite (kernel_init_mask x x' L H). }
  split; auto.
  apply Hmask.
  - destruct (label_resolved x y_shape structure Hrank Hpos Hlen Hfits Hval
                s1) as (y & (F & _) & ->); cbn [fst].
    rewrite length_map; now apply length_forest.
  - intros i Hi.
    destruct (label_resolved x y_shape structure Hrank Hpos Hlen Hfits Hval
                s1) as (y & (F & I & _) & ->); cbn [fst].
    destruct (active x i) eqn:A.
    + rewrite (final_active x y F i A).
      pose proof (index_of_nonneg (rd y i) (roots y)).
      unfold active in A; apply andb_true_iff in A as [_ A].
      apply negb_true_iff, Z.eqb_neq in A; lia.
    + rewrite (final_inactive x y F i Hi A).
      unfold active in A.
      destruct (Z.leb_spec 0 i); [|lia].
      destruct (Z.ltb_spec i (len x)); [|lia].
      cbn [andb] in A; apply negb_false_iff, Z.eqb_eq in A; tauto.
Qed.

Lemma relabelling_is_idempotent_witness :
  determined_by_mask interleaved sequential field6 [6] face3.
Proof.
  apply relabelling_is_idempotent.
  - discriminate.
  - repeat constructor; lia.
  - reflexivity.
  - split; vm_compute; discriminate.
  - split; [reflexivity | now apply well_formedb_spec].
Defined.

(** ** The count kernel on any parent forest *)

(** A buffer of parent links as the connect kernel leaves it: a cell
    holds [-1], or the index of a cell that is not larger than its own and
    that holds a parent itself. *)
Definition parent_forest (y : list Z) : Prop :=
  forall i, 0 <= i < len y ->
    rd y i = -1 \/ (0 <= rd y i <= i /\ 0 <= rd y (rd y i)).

Definition mask_of (y : list Z) : list Z :=
  map (fun v => if v <? 0 then 0 else 1) y.

Lemma active_mask_of y i :
  active (mask_of y) i = true <-> 0 <= i < len y /\ 0 <= rd y i.
Proof.
  unfold active, mask_of.
  assert (len (map (fun v => if v <? 0 then 0 else 1) y) = len y) as ->
    by (unfold len; now rewrite length_map).
  rewrite !andb_true_iff, Z.leb_le, Z.ltb_lt, negb_true_iff, Z.eqb_neq.
  split.
  - intros [[H1 H2] H3]; rewrite rd_map in H3 by lia.
    destruct (Z.ltb_spec (rd y i) 0); [congruence | lia].
  - intros [H1 H2]; rewrite rd_map by lia.
    destruct (Z.ltb_spec (rd y i) 0); [lia | split; [lia | discriminate]].
Qed.

Lemma forest_mask_of y : parent_forest y -> forest (mask_of y) y.
Proof.
  intros P.
  assert (len (mask_of y) = len y) as E
    by (unfold mask_of, len; now rewrite length_map).
  split; [auto|]; rewrite E; intros i Hi; split.
  - intros A; apply active_mask_of in A as [_ A].
    destruct (P i Hi) as [H|[H1 H2]]; [lia|].
    split; auto; apply active_mask_of; split; [lia | auto].
  - intros A; destruct (P i Hi) as [H|[H1 H2]]; auto.
    assert (active (mask_of y) i = true) as A'
      by (apply active_mask_of; split; [auto | lia]).
    congruence.
Qed.

(** The statement for the count kernel started on the buffer [y0] with
    [count = [0, 0]]. *)
Definition count_flattens (sched : list nat) (y0 : list Z) : Prop :=
  let y := fst (_kernel_count sched y0 [0; 0]) in
  let count := snd (_kernel_count sched y0 [0; 0]) in
  len y = len y0 /\
  (forall i, 0 <= i < len y0 ->
     rd y i = if rd y0 i <? 0 then -1 else find y0 i) /\
  roots y = roots y0 /\
  count = [len (roots y0); 0].

(** X5.  Started on any buffer of parent links that satisfies the
    tie-break predicate, and under every interleaving of its threads, the
    count kernel replaces the entry of every cell that has a parent by the
    root of its tree, leaves the cells holding [-1] and the roots as they
    are, and adds one to [count[0]] per root: afterwards [count] is
    [[number of roots, 0]]. *)
Theorem count_kernel_flattens (sched : list nat) (y0 : list Z) :
  len y0 <= max_signed ->
  parent_forest y0 ->
  count_flattens sched y0.
Proof.
  intros Hfit P; unfold count_flattens.
  pose proof (forest_mask_of y0 P) as F0.
  set (x := mask_of y0) in *.
  assert (length x = length y0) as Lx
    by (unfold x, mask_of; now rewrite length_map).
  assert (len x = len y0) as Ex by (unfold len; now rewrite Lx).
  pose proof (count_result x y0 ltac:(lia) F0 sched) as H.
  cbv zeta in H; rewrite Lx in H.
  fold (_kernel_count sched y0 [0; 0]) in H.
  destruct (_kernel_count sched y0 [0; 0]) as [y count]; cbn [fst snd] in *.
  destruct H as (F & R & Hc0 & Hc1 & Hc2).
  assert (len y = len y0) as Ey by (destruct F as [E _]; lia).
  assert (forall i, 0 <= i < len y0 ->
            rd y i = if rd y0 i <? 0 then -1 else find y0 i) as Hrd.
  { intros i Hi.
    destruct (Z.ltb_spec (rd y0 i) 0) as [Hn|Hn].
    - apply (forest_inactive x y i F); [lia|].
      destruct (active x i) eqn:A; auto.
      apply active_mask_of in A; lia.
    - apply R, active_mask_of; auto. }
  assert (roots y = roots y0) as Er.
  { unfold roots; rewrite Ey; apply filter_ext_in.
    intros i Hi; apply in_zrange in Hi; rewrite (Hrd i Hi).
    destruct (Z.ltb_spec (rd y0 i) 0) as [Hn|Hn].
    - destruct (Z.eqb_spec (-1) i), (Z.eqb_spec (rd y0 i) i); auto; lia.
    - assert (active x i = true) as A by (apply active_mask_of; auto).
      destruct (find_spec x y0 i F0 A) as (Rf & _ & _).
      destruct (Z.eqb_spec (find y0 i) i) as [E|N],
               (Z.eqb_spec (rd y0 i) i) as [E'|N']; auto.
      + rewrite E in Rf; contradiction.
      + apply find_root in E'; contradiction. }
  split; [auto | split; [auto | split; [auto|]]].
  assert (Z.of_nat (count_if (fun t => rd y (Z.of_nat t) =? Z.of_nat t)
                             (length y0)) = len (roots y)) as Hn.
  { rewrite <- Lx; apply roots_count; unfold len in Ey; lia. }
  rewrite Hn, Er in Hc0.
  destruct count as [|c0 [|c1 [|? ?]]]; unfold len in Hc2; simpl in Hc2;
    try lia.
  unfold rd in Hc0, Hc1; simpl in Hc0, Hc1; now subst.
Qed.

Lemma count_kernel_flattens_witness :
  count_flattens [5; 3; 5; 0; 5; 2; 5]%nat [0; -1; 2; 2; -1; 3].
Proof.
  apply count_kernel_flattens.
  - vm_compute; discriminate.
  - intros i Hi; unfold len in Hi; simpl in Hi.
    assert (i = 0 \/ i = 1 \/ i = 2 \/ i = 3 \/ i = 4 \/ i = 5)
      as [-> | [-> | [-> | [-> | [-> | ->]]]]] by lia;
      vm_compute; intuition discriminate.
Defined.

(** ** The labels kernel on any buffer *)

(** The statement for the labels kernel run on the buffer [y] with the
    counters [count0] and the array [labels0]. *)
Definition labels_collected (sched : list nat) (y count0 labels0 : list Z)
  : Prop :=
  let labels := fst (_kernel_labels sched y count0 labels0) in
  let count := snd (_kernel_labels sched y count0 labels0) in
  Permutation labels (roots y) /\ NoDup labels /\
  len count = 2 /\ rd count 1 = len (roots y).

(** X6.  For any buffer, when [labels] has one slot per cell with
    [y[i] == i] and [count[1]] starts at 0, every interleaving of the
    threads of the labels kernel leaves in [labels] each such cell index
    exactly once (no slot is handed out twice by [atomicAdd], none stays
    unwritten), and [count[1]] ends as their number. *)
Theorem labels_kernel_collects (sched : list nat) (y count0 labels0 : list Z) :
  len y <= max_signed ->
  length labels0 = length (roots y) ->
  len count0 = 2 -> rd count0 1 = 0 ->
  labels_collected sched y count0 labels0.
Proof.
  intros Hfit Hl0 Hc2 Hc1; unfold labels_collected, _kernel_labels.
  rewrite roots_threads, length_map in Hl0.
  pose proof (labels_result y Hfit sched labels0 count0 Hl0 Hc2 Hc1) as P.
  cbv zeta in P.
  destruct (launch_done (labels_step y) (labels_inv y) labels_done labels_mu 3
              (labels_inv_step y Hfit))
    with (sched := sched) (fuel := 3%nat)
         (n := length y) (l0 := LStart) (m := (labels0, count0))
    as ((order & Inv) & Hn & D); auto.
  - intros i [l c] [] H; simpl in *; try discriminate; auto.
  - intros [l c] ls t pc _ _ Hd; destruct pc; try discriminate;
      cbn [labels_step].
    + destruct (negb _); simpl; lia.
    + unfold atomicAdd; simpl; lia.
    + simpl; lia.
  - intros [l c] ls t pc _ _; destruct pc; simpl; lia.
  - exists []; unfold labels_inv_with; cbn [fst snd].
    split; [constructor | split; [auto | split; [auto | split; [auto |
      split; [apply repeat_length | split; [intros ? []|]]]]]].
    split; [| split; [| split; [| split]]]; intros *.
    + destruct j; discriminate.
    + auto.
    + intros H; apply nth_error_In, repeat_spec in H; discriminate.
    + intros H; apply nth_error_In, repeat_spec in H; discriminate.
    + intros H; apply nth_error_In, repeat_spec in H; discriminate.
  - set (st := launch _ _ _ _ _ _) in *.
    destruct Inv as (N & Hc & Hcl & Hlab & Hlen & Hin & _ & _ & _ & _ & Hdn).
    assert (forall t, (t < length y)%nat -> nth_error (snd st) t = Some LDone)
      as HD.
    { intros t Ht.
      destruct (nth_error (snd st) t) as [pc|] eqn:Hpc.
      2:{ apply nth_error_None in Hpc; lia. }
      rewrite Forall_forall in D; specialize (D pc (nth_error_In _ _ Hpc)).
      destruct pc; try discriminate; auto. }
    assert (Permutation order (root_threads y)) as Po.
    { apply NoDup_Permutation; auto.
      - apply NoDup_filter, seq_NoDup.
      - intros t; split; auto; intros Ht.
        apply in_root_threads in Ht as [Ht Hr]; auto. }
    split; [exact P | split; [| split; [exact Hcl|]]].
    + apply (Permutation_NoDup (Permutation_sym P)).
      unfold roots; apply NoDup_filter, NoDup_zrange.
    + rewrite Hc, roots_threads; unfold len; rewrite length_map.
      f_equal; now apply Permutation_length.
Qed.

Lemma labels_kernel_collects_witness :
  labels_collected [5; 0; 5; 2; 0]%nat [0; -1; 2; 2; -1; 5] [3; 0] [0; 0; 0].
Proof.
  apply labels_kernel_collects.
  - vm_compute; discriminate.
  - reflexivity.
  - reflexivity.
  - reflexivity.
Defined.

(** ** Termination of the connect kernel *)

(** The statement for the connect kernel as [_label] launches it: after
    the interleaving [sched], every thread that is then left to run alone
    for [connect_fuel] steps has left its loops, and the buffer still
    satisfies the tie-break predicate. *)
Definition connect_terminates (sched : list nat) (x y_shape : list Z)
           (structure : ndarray) : Prop :=
  let ndirs := wrap32 (Z.of_nat (length (dirs_of structure))) in
  let st := launch (connect_step ndirs
                      (neighbour (map wrap32 y_shape)
                                 (concat (dirs_of structure))
                                 (wrap32 (Z.of_nat (length y_shape)))))
                   sched (connect_fuel (length x) ndirs) (length x) CStart
                   (_kernel_init x) in
  length (snd st) = length x /\
  Forall (fun pc => pc = CDone) (snd st) /\
  parent_forest (fst st).

(** X7.  Every thread of the connect kernel reaches the end of its body,
    the retry loop [while (1)] around the two [atomicCAS] included:
    whatever the threads have done to the buffer during an arbitrary
    interleaving, a thread that then runs without interference finishes
    within [ndirs * (10 * size + 6) + 2] steps, and the buffer is a parent
    forest at the end. *)
Theorem connect_kernel_terminates
        (sched : list nat) (x y_shape : list Z) (structure : ndarray) :
  y_shape <> [] ->
  Forall (fun d => 1 <= d) y_shape ->
  len x = prod_shape y_shape ->
  ints_fit y_shape structure ->
  validated (length y_shape) structure ->
  connect_terminates sched x y_shape structure.
Proof.
  intros Hrank Hpos Hlen Hfits Hval; unfold connect_terminates.
  pose proof (x_fits32 x y_shape structure Hlen Hfits) as Hfit.
  assert (1 <= Z.of_nat (length y_shape)) as Hr1
    by (destruct y_shape; [contradiction | simpl; lia]).
  destruct Hfits as [Hsize Hdf]; pose proof (conj Hsize Hdf) as Hfits.
  rewrite (wrap32_small (Z.of_nat (length y_shape)))
    by (unfold max_signed in *; nia).
  rewrite (wrap32_small (Z.of_nat (length (dirs_of structure))))
    by (unfold max_signed in *; nia).
  fold (kernel_ndirs structure); fold (kernel_nbr y_shape structure).
  pose proof (kernel_nbr_range x y_shape structure Hpos Hlen Hfits Hval)
    as Hrange.
  assert (0 <= kernel_ndirs structure) as Hnd by (unfold kernel_ndirs; lia).
  destruct (launch_done
              (connect_step (kernel_ndirs structure)
                            (kernel_nbr y_shape structure))
              (connect_inv x (kernel_ndirs structure)
                           (kernel_nbr y_shape structure))
              connect_done
              (connect_mu x (kernel_ndirs structure))
              (connect_fuel (length x) (kernel_ndirs structure))
              (connect_inv_step x _ _ Hfit Hnd Hrange))
    with (sched := sched)
         (fuel := connect_fuel (length x) (kernel_ndirs structure))
         (n := length x) (l0 := CStart) (m := _kernel_init x)
    as ((F & S & Hl & T) & Hn & D); auto.
  - intros i m [] H; simpl in *; congruence.
  - intros m ls t l HI Hl Hd.
    apply (connect_mu_step x _ _ Hfit Hrange m ls t l HI Hl Hd).
  - intros m ls t l HI Hl; apply (connect_mu_bound x _ _ m ls t l HI Hl).
  - split; [apply (forest_init x Hfit) | split; [| split]]; cbn [fst snd].
    + intros i A; rewrite (init_active x Hfit i A); apply conn_refl.
    + apply repeat_length.
    + intros t pc H; apply nth_error_In, repeat_spec in H; now subst.
  - split; [auto | split].
    + apply Forall_forall; intros pc Hpc.
      rewrite Forall_forall in D; specialize (D pc Hpc).
      destruct pc; try discriminate; auto.
    + set (y := fst _) in *.
      assert (len y = len x) as Ey by apply F.
      intros i Hi; destruct (active x i) eqn:A.
      * right; destruct (forest_act x y i F A) as [B A'].
        split; auto.
        apply (forest_act x y (rd y i) F A').
      * left; apply (forest_inactive x y i F); [lia | auto].
Qed.

Lemma connect_kernel_terminates_witness :
  connect_terminates [5; 3; 0; 3; 2; 3; 2; 3; 5; 3; 3]%nat field6 [6] face3.
Proof.
  apply connect_kernel_terminates.
  - discriminate.
  - repeat constructor; lia.
  - reflexivity.
  - split; vm_compute; discriminate.
  - split; [reflexivity | now apply well_formedb_spec].
Defined.

(** ** The generated structure *)

Lemma where_of_map (h : list Z -> Z) (l : list (list Z)) :
  map fst (filter (fun p => negb (snd p =? 0)) (combine l (map h l)))
  = filter (fun c => negb (h c =? 0)) l.
Proof.
  induction l as [|c l IH]; cbn [map combine filter fst snd]; auto.
  destruct (negb (h c =? 0)); cbn [map fst]; now rewrite IH.
Qed.

Lemma forall2_repeat3 (c : list Z) (r : nat) :
  Forall2 (fun ck d => 0 <= ck < d) c (repeat 3 r) <->
  length c = r /\ Forall (fun ck => 0 <= ck < 3) c.
Proof.
  revert c; induction r as [|r IH]; intros c; cbn [repeat]; split.
  - intros H; inversion H; subst; auto.
  - intros [L _]; destruct c; [constructor | discriminate].
  - intros H; inversion H as [|ck d c' l' Hc Hr]; subst.
    apply IH in Hr as [L F]; cbn [length]; split; auto.
  - intros [L F]; destruct c as [|ck c]; [discriminate|].
    inversion F; subst; constructor; auto.
    apply IH; split; auto.
Qed.

Lemma map_abs_neg v : map Z.abs (neg v) = map Z.abs v.
Proof.
  unfold neg; rewrite map_map; apply map_ext; intros a; apply Z.abs_opp.
Qed.

(** The statement for [_generate_binary_structure(rank, connectivity)]. *)
Definition generated_offsets (rank : nat) (connectivity : Z) : Prop :=
  let s := _generate_binary_structure rank connectivity in
  validated rank s /\ centrosymmetric s /\
  forall v, In v (vecs s) <->
    length v = rank /\ Forall trit v /\
    zsum (map Z.abs v) <= Z.max connectivity 1.

Lemma generated_spec (rank : nat) (connectivity : Z) :
  generated_offsets rank connectivity.
Proof.
  unfold generated_offsets.
  assert (validated rank (_generate_binary_structure rank connectivity)) as V.
  { split; [| apply well_formed_generated].
    unfold _generate_binary_structure.
    destruct (Nat.ltb_spec rank 1); cbn [arr_shape]; auto.
    now replace rank with O by lia. }
  assert (forall v, In v (vecs (_generate_binary_structure rank connectivity))
          <-> length v = rank /\ Forall trit v /\
              zsum (map Z.abs v) <= Z.max connectivity 1) as Hchar.
  { intros v; unfold _generate_binary_structure.
    destruct (Nat.ltb_spec rank 1) as [H0|H1].
    - replace rank with O by lia.
      unfold vecs, numpy_where; cbn; split.
      + intros [<-|[]]; cbn; split; auto; split; auto; lia.
      + intros (L & _ & _); destruct v; [auto | discriminate].
    - unfold vecs, numpy_where; cbn [arr_shape arr_data].
      rewrite (map_map (fun c => zsum (map (fun ck => Z.abs (ck - 1)) c))).
      set (c' := if connectivity <? 1 then 1 else connectivity).
      assert (c' = Z.max connectivity 1) as ->
        by (unfold c'; destruct (Z.ltb_spec connectivity 1); lia).
      rewrite (where_of_map
                 (fun c => if zsum (map (fun ck => Z.abs (ck - 1)) c)
                              <=? Z.max connectivity 1 then 1 else 0)).
      rewrite in_map_iff; split.
      + intros (c & <- & Hc); apply filter_In in Hc as [Hc Hs].
        apply in_ndindex, forall2_repeat3 in Hc as [L F].
        rewrite length_map, !map_map; split; auto; split.
        * apply Forall_map; revert F; apply Forall_impl; unfold trit; lia.
        * destruct (Z.leb_spec (zsum (map (fun ck => Z.abs (ck - 1)) c))
                               (Z.max connectivity 1)); [auto | discriminate].
      + intros (L & T & S); exists (map (fun e => e + 1) v); split.
        * rewrite map_map; rewrite <- (map_id v) at 2.
          apply map_ext; intros; lia.
        * apply filter_In; split.
          -- apply in_ndindex, forall2_repeat3; rewrite length_map.
             split; auto; apply Forall_map.
             revert T; apply Forall_impl; unfold trit; lia.
          -- rewrite map_map.
             replace (map (fun x => Z.abs (x + 1 - 1)) v) with (map Z.abs v)
               by (apply map_ext; intros; f_equal; lia).
             destruct (Z.leb_spec (zsum (map Z.abs v))
                                  (Z.max connectivity 1)); [auto | lia]. }
  split; [auto | split; [| auto]].
  intros v Hv; apply Hchar in Hv as (L & T & S); apply Hchar.
  rewrite length_neg, map_abs_neg; split; auto; split; auto.
  unfold neg; apply Forall_map; revert T; apply Forall_impl; unfold trit; lia.
Qed.

(** X8.  For every rank and connectivity the structure built by
    [_generate_binary_structure] passes the checks of [label] for that
    rank, and its active offsets are exactly the vectors of
    [{-1,0,1}^rank] with at most [max(connectivity, 1)] non-zero
    coordinates; in particular it is centrosymmetric, as the docstring of
    [label] requires of a structure. *)
Theorem generated_structure_offsets (rank : nat) (connectivity : Z) :
  generated_offsets rank connectivity.
Proof. apply generated_spec. Qed.

(** ** [label] with the default structure *)

Lemma as_bool_generated (rank : nat) (connectivity : Z) :
  as_bool_array (_generate_binary_structure rank connectivity)
  = _generate_binary_structure rank connectivity.
Proof.
  unfold _generate_binary_structure, as_bool_array.
  destruct (rank <? 1)%nat; cbn [arr_dtype arr_shape arr_data]; auto.
  f_equal; rewrite map_map; apply map_ext; intros o.
  now destruct (o <=? _).
Qed.

(** A step between two active cells whose multi-indices differ by one in
    at most one coordinate (face neighbours). *)
Definition face_step (x shape : list Z) (p q : Z) : Prop :=
  active x p = true /\ active x q = true /\
  exists v, length v = length shape /\ Forall trit v /\
            zsum (map Z.abs v) <= 1 /\ offset_step shape v p q.

Definition face_chain (x shape : list Z) : Z -> Z -> Prop :=
  clos_refl_trans Z (face_step x shape).

(** The statement for [label(input)] with no structure and no output
    argument. *)
Definition default_labelling (sched : schedule) (a : ndarray) : Prop :=
  exists o m,
    label sched (CupyArray a) StructureNone OutputNone = inr (ReturnPair o m) /\
    arr_dtype o = int32 /\ arr_shape o = arr_shape a /\
    (forall p q, active (arr_data a) p = true -> active (arr_data a) q = true ->
       (rd (arr_data o) p = rd (arr_data o) q
        <-> face_chain (arr_data a) (arr_shape a) p q)) /\
    (forall i, 0 <= i < size a -> rd (arr_data a) i = 0 ->
       rd (arr_data o) i = 0).

(** X9.  Called with a real, non-empty field of rank at least one and
    without [structure] and [output], [label] returns an [int32] array of
    the shape of the field in which two non-zero cells carry the same
    label exactly when a chain of non-zero face neighbours joins them, and
    in which the zero cells carry 0: the generated default structure
    yields the face-connected components. *)
Theorem default_structure_labels_faces (sched : schedule) (a : ndarray) :
  is_complex (arr_dtype a) = false ->
  well_formed a ->
  arr_shape a <> [] ->
  size a <> 0 ->
  ints_fit (arr_shape a)
           (_generate_binary_structure (length (arr_shape a)) 1) ->
  default_labelling sched a.
Proof.
  intros Hc [Wd Wl] Hrank Hsize Hfits; unfold default_labelling.
  set (r := length (arr_shape a)) in *.
  set (s := _generate_binary_structure r 1) in *.
  destruct (generated_spec r 1) as (Hval & Hsym & Hchar); fold s in Hval, Hsym, Hchar.
  assert (Forall (fun d => 1 <= d) (arr_shape a)) as Hpos
    by (apply shape_positive; auto).
  rewrite label_eq, Hc; unfold coerced_structure.
  assert (as_bool_array s = s) as Eb by apply as_bool_generated.
  fold r; fold s; rewrite !Eb.
  assert (arr_shape s = repeat 3 r) as Es by apply Hval.
  assert (ndim s = ndim a) as ->
    by (unfold ndim; rewrite Es, repeat_length; reflexivity).
  rewrite Z.eqb_refl; cbn [negb].
  assert (existsb (fun i => negb (i =? 3)) (arr_shape s) = false) as ->.
  { apply existsb_not3; rewrite Es.
    apply Forall_forall; intros d Hd; now apply repeat_spec in Hd. }
  cbn [prepared_output]; unfold labelled.
  destruct (Z.eqb_spec (size a) 0); [contradiction|].
  destruct (Z.eqb_spec (ndim a) 0) as [Hn|Hn].
  { unfold ndim in Hn; destruct (arr_shape a); [contradiction | simpl in Hn; lia]. }
  destruct (label_resolved (arr_data a) (arr_shape a) s Hrank Hpos Wl Hfits
              Hval sched) as (y & (F & I & C) & ->).
  cbn [empty arr_dtype arr_shape]; cbn.
  eexists; eexists; split; [reflexivity|].
  cbn [arr_dtype arr_shape arr_data].
  split; [auto | split; [auto | split]].
  - intros p q A B.
    rewrite (final_eq_iff (arr_data a) y F I p q A B), (C p q A B).
    rewrite (connected_chain (arr_data a) (arr_shape a) s Hpos Wl Hfits Hval
               Hsym p q).
    assert (forall u w, chain_step (arr_data a) (arr_shape a) s u w
                        <-> face_step (arr_data a) (arr_shape a) u w) as Hs.
    { intros u w; unfold chain_step, face_step; split.
      - intros (Au & Aw & v & Hv & S); split; auto; split; auto.
        exists v; apply Hchar in Hv as (L & T & Z1); auto.
      - intros (Au & Aw & v & L & T & Z1 & S); split; auto; split; auto.
        exists v; split; auto; apply Hchar; auto. }
    clear A B; unfold chain, face_chain; split; intros H;
      (induction H as [u w H| |u w z _ IH1 _ IH2];
       [apply rt_step; now apply Hs | apply rt_refl | eapply rt_trans; eauto]).
  - intros i Hi Hz; apply (final_inactive (arr_data a) y F).
    + unfold size in Hi; rewrite Wl; auto.
    + unfold active; rewrite Hz, Z.eqb_refl; cbn [negb].
      now rewrite andb_false_r.
Qed.

Definition plus23 : ndarray :=
  {| arr_dtype := float32; arr_shape := [2; 3];
     arr_data := [1; 0; 2; 3; 0; 0] |}.

Lemma default_structure_labels_faces_witness :
  default_labelling interleaved plus23.
Proof.
  apply default_structure_labels_faces.
  - reflexivity.
  - now apply well_formedb_spec.
  - discriminate.
  - discriminate.
  - split; vm_compute; discriminate.
Defined.

(** ** The dtype of the output array *)

(** The dtype of the array that [label] fills. *)
Definition output_dtype (output : output_arg) : dtype :=
  match output with
  | OutputNone => int32
  | OutputDtype d => d
  | OutputArray o => arr_dtype o
  end.

(** The largest [n] such that every integer of [0 .. n] is a value of the
    dtype. *)
Definition capacity (d : dtype) : Z :=
  match d with
  | bool_ => 1
  | int8 => 2 ^ 7 - 1
  | uint8 => 2 ^ 8 - 1
  | int16 => 2 ^ 15 - 1
  | uint16 => 2 ^ 16 - 1
  | int32 => 2 ^ 31 - 1
  | uint32 => 2 ^ 32 - 1
  | int64 => 2 ^ 63 - 1
  | uint64 => 2 ^ 64 - 1
  | float32 | complex64 => 2 ^ 24
  | float64 | complex128 => 2 ^ 53
  end.

Lemma wrap_signed_small bits v :
  0 < bits -> 0 <= v < 2 ^ (bits - 1) -> wrap_signed bits v = v.
Proof.
  intros Hb Hv; unfold wrap_signed.
  assert (2 ^ bits = 2 * 2 ^ (bits - 1)) as E.
  { replace bits with (Z.succ (bits - 1)) at 1 by lia.
    rewrite Z.pow_succ_r by lia; reflexivity. }
  rewrite Z.mod_small; lia.
Qed.

Lemma astype_exact d v : 0 <= v <= capacity d -> astype d v = v.
Proof.
  intros H; destruct d; cbn [astype capacity] in *;
    try (apply wrap_signed_small; lia);
    try (unfold wrap_unsigned; apply Z.mod_small; lia).
  - destruct (Z.eqb_spec v 0); lia.
  - destruct (Z.eq_dec v (2 ^ 24)) as [->|]; [reflexivity|].
    unfold round_float; destruct (Z.ltb_spec (Z.abs v) (2 ^ 24)); lia.
  - destruct (Z.eq_dec v (2 ^ 53)) as [->|]; [reflexivity|].
    unfold round_float; destruct (Z.ltb_spec (Z.abs v) (2 ^ 53)); lia.
  - destruct (Z.eq_dec v (2 ^ 24)) as [->|]; [reflexivity|].
    unfold round_float; destruct (Z.ltb_spec (Z.abs v) (2 ^ 24)); lia.
  - destruct (Z.eq_dec v (2 ^ 53)) as [->|]; [reflexivity|].
    unfold round_float; destruct (Z.ltb_spec (Z.abs v) (2 ^ 53)); lia.
Qed.

Lemma astype_overflow d : astype d (capacity d + 1) <> capacity d + 1.
Proof. destruct d; vm_compute; discriminate. Qed.

Lemma capacity_pos d : 1 <= capacity d.
Proof. destruct d; vm_compute; discriminate. Qed.

Section LabelValues.

Variables (sched : schedule) (x y_shape : list Z) (structure : ndarray).

Hypothesis shape_rank : y_shape <> [].
Hypothesis shape_pos : Forall (fun d => 1 <= d) y_shape.
Hypothesis x_len : len x = prod_shape y_shape.
Hypothesis fits : ints_fit y_shape structure.
Hypothesis structure_ok : validated (length y_shape) structure.

Lemma label_values :
  let y := fst (_label sched x y_shape structure) in
  let m := snd (_label sched x y_shape structure) in
  length y = length x /\ 0 <= m <= 2 ^ 30 /\
  (forall i, 0 <= i < len x ->
     0 <= rd y i <= m /\ (rd y i = 0 <-> rd x i = 0)) /\
  (forall v, 1 <= v <= m -> In v y).
Proof.
  destruct (label_resolved x y_shape structure shape_rank shape_pos x_len fits
              structure_ok sched) as (y & (F & I & C) & ->); cbn [fst snd].
  assert (len y = len x) as El by apply F.
  pose proof (x_small x y_shape structure x_len fits) as Hs.
  pose proof (roots_length_le y) as Hr.
  split; [rewrite length_map; now apply length_forest | split].
  { unfold len in *; lia. }
  split.
  - intros i Hi; destruct (active x i) eqn:A.
    + rewrite (final_active x y F i A).
      destruct (index_of_in _ _ (resolved_in_roots x y F I i A)).
      unfold active in A; apply andb_true_iff in A as [_ A].
      apply negb_true_iff, Z.eqb_neq in A; lia.
    + rewrite (final_inactive x y F i Hi A).
      unfold active in A.
      destruct (Z.leb_spec 0 i); [|lia].
      destruct (Z.ltb_spec i (len x)); [|lia].
      cbn [andb] in A; apply negb_false_iff, Z.eqb_eq in A.
      unfold len; split; [lia | tauto].
  - intros v Hv.
    set (r := rd (roots y) (v - 1)).
    assert (In r (roots y)) as Hin by (apply nth_In; unfold len in *; lia).
    pose proof Hin as Hr'; apply in_roots in Hr' as [Br Rr].
    assert (active x r = true) as A
      by (apply (forest_active_iff x y r F); lia).
    assert (rd (map (final_label (roots y)) y) r = v) as E.
    { rewrite (final_active x y F r A), Rr; unfold r.
      rewrite index_of_rd; [lia | apply sorted_roots | lia]. }
    rewrite <- E; apply nth_In; rewrite length_map; unfold len in *; lia.
Qed.

End LabelValues.

Lemma rd_ext (l l' : list Z) :
  length l = length l' -> (forall i, 0 <= i < len l -> rd l i = rd l' i) ->
  l = l'.
Proof.
  intros L H; apply (nth_ext _ _ 0 0); auto.
  intros k Hk; specialize (H (Z.of_nat k)); unfold rd, len in H.
  rewrite Nat2Z.id in H; apply H; lia.
Qed.

(** What the three branches of [label] leave in an output array of dtype
    [d], against what they leave in the default [int32] array. *)
Lemma labelled_cast sched a s out0 :
  well_formed a -> ints_fit (arr_shape a) s ->
  validated (length (arr_shape a)) s ->
  len (arr_data out0) = size a ->
  let o := fst (labelled sched a s out0) in
  let m := snd (labelled sched a s out0) in
  let o32 := fst (labelled sched a s (empty (arr_shape a) int32)) in
  m = snd (labelled sched a s (empty (arr_shape a) int32)) /\
  arr_dtype o = arr_dtype out0 /\ arr_shape o = arr_shape out0 /\
  arr_data o = map (astype (arr_dtype out0)) (arr_data o32) /\
  length (arr_data o32) = length (arr_data a) /\
  0 <= m <= 2 ^ 30 /\
  (forall i, 0 <= i < size a ->
     0 <= rd (arr_data o32) i <= m /\
     (rd (arr_data o32) i = 0 <-> rd (arr_data a) i = 0)) /\
  (forall v, 1 <= v <= m -> In v (arr_data o32)).
Proof.
  intros [Wd Wl] Hfits Hval Hout; unfold labelled.
  destruct (Z.eqb_spec (size a) 0) as [Hz|Hnz]; cbn [fst snd].
  { (* empty *)
    assert (arr_data out0 = []) as Eo.
    { destruct (arr_data out0); auto; unfold len in Hout; simpl in Hout; lia. }
    assert (arr_data a = []) as Ea.
    { destruct (arr_data a); auto; unfold len in Wl; simpl in Wl; lia. }
    unfold empty; cbn [arr_data]; fold (size a); rewrite Hz, Eo, Ea; cbn.
    repeat split; auto; try lia; intros v Hv; lia. }
  destruct (Z.eqb_spec (ndim a) 0) as [Hn|Hn]; cbn [fst snd].
  { (* 0-dim array *)
    assert (arr_shape a = []) as Es.
    { unfold ndim in Hn; destruct (arr_shape a); auto; simpl in Hn; lia. }
    assert (size a = 1) as E1 by (unfold size; now rewrite Es).
    destruct (arr_data out0) as [|w [|? ?]] eqn:Eo;
      try (unfold len in Hout; simpl in Hout; lia).
    destruct (arr_data a) as [|x0 [|? ?]] eqn:Ea;
      try (unfold len in Wl; simpl in Wl; lia).
    unfold fill, empty; cbn [arr_data arr_dtype arr_shape].
    rewrite Eo, Es; change (Z.to_nat (prod_shape [])) with 1%nat.
    cbn [map repeat length].
    set (m := if rd [x0] 0 =? 0 then 0 else 1).
    assert (m = 0 \/ m = 1) as Hm by (unfold m; destruct (_ =? _); auto).
    assert (astype int32 m = m) as -> by (destruct Hm as [-> | ->]; reflexivity).
    split; [auto | split; [auto | split; [auto | split; [auto |
      split; [auto | split; [lia | split]]]]]].
    - intros i Hi; assert (i = 0) as -> by lia.
      change (rd [m] 0) with m; unfold m.
      destruct (Z.eqb_spec (rd [x0] 0) 0); split; try lia; tauto.
    - intros v Hv; left; lia. }
  (* general case *)
  assert (Forall (fun d => 1 <= d) (arr_shape a)) as Hpos
    by (apply shape_positive; auto).
  assert (arr_shape a <> []) as Hrank.
  { intros Es; unfold ndim in Hn; rewrite Es in Hn; now apply Hn. }
  pose proof (label_values sched (arr_data a) (arr_shape a) s
                Hrank Hpos Wl Hfits Hval) as (Ly & Hm & Hv & Hd).
  destruct (_label sched (arr_data a) (arr_shape a) s) as [y m].
  cbn [fst snd] in *.
  change (dtype_eqb (arr_dtype (empty (arr_shape a) int32)) int32) with true.
  cbn [negb fst snd arr_data].
  assert (arr_data (fst (if negb (dtype_eqb (arr_dtype out0) int32)
                         then (assign out0 y, m)
                         else ({| arr_dtype := arr_dtype out0;
                                  arr_shape := arr_shape out0;
                                  arr_data := y |}, m)))
          = map (astype (arr_dtype out0)) y) as Ed.
  { destruct (dtype_eqb (arr_dtype out0) int32) eqn:E; cbn; auto.
    apply dtype_eqb_eq in E; rewrite E.
    symmetry; rewrite <- (map_id y) at 2; apply map_ext_in.
    intros v Hin; apply (In_nth _ _ 0) in Hin as (k & Hk & <-).
    destruct (Hv (Z.of_nat k)) as [Hr _];
      [unfold len; lia|].
    unfold rd in Hr; rewrite Nat2Z.id in Hr.
    apply astype_exact; cbn [capacity].
    assert (2 ^ 30 < 2 ^ 31 - 1) by reflexivity; lia. }
  split; [destruct (negb _); reflexivity|].
  split; [destruct (negb _); reflexivity|].
  split; [destruct (negb _); reflexivity|].
  split; [exact Ed | split; [auto | split; [destruct (negb _); auto|]]].
  assert (snd (if negb (dtype_eqb (arr_dtype out0) int32)
               then (assign out0 y, m)
               else ({| arr_dtype := arr_dtype out0;
                        arr_shape := arr_shape out0;
                        arr_data := y |}, m)) = m) as ->
    by (destruct (negb _); reflexivity).
  split; auto.
  intros i Hi; apply Hv; unfold size in Hi; rewrite Wl; auto.
Qed.

(** The statement for a call of [label] that returns [r]: the result of
    the same call with the default [int32] output, and how far the two
    output arrays agree. *)
Definition output_cast (sched : schedule) (a : ndarray)
           (structure : structure_arg) (output : output_arg)
           (r : label_return) : Prop :=
  exists o32,
    label sched (CupyArray a) structure OutputNone
    = inr (ReturnPair o32 (returned_maxlabel r)) /\
    arr_dtype (returned_output r) = output_dtype output /\
    arr_shape (returned_output r) = arr_shape a /\
    arr_data (returned_output r)
    = map (astype (output_dtype output)) (arr_data o32) /\
    (arr_data (returned_output r) = arr_data o32
     <-> returned_maxlabel r <= capacity (output_dtype output)) /\
    (output_dtype output = bool_ ->
     arr_data (returned_output r)
     = map (fun v => if v =? 0 then 0 else 1) (arr_data a)).

(** X10.  Whatever output the caller asks for (a dtype or an array), the
    feature count is that of the default call, and the output array holds
    the default [int32] labels converted to its dtype.  The conversion
    keeps every label exactly when the feature count does not exceed the
    largest [n] for which [0 .. n] are values of the dtype: beyond it (for
    instance 255 features for [uint8]) some label is changed by the
    conversion.  For the dtype [bool] the output is the mask
    [input != 0]. *)
Theorem output_dtype_conversion
        (sched : schedule) (a : ndarray) (structure : structure_arg)
        (output : output_arg) (r : label_return) :
  well_formed_args a structure output ->
  ints_fit (arr_shape a) (coerced_structure a structure) ->
  label sched (CupyArray a) structure output = inr r ->
  output_cast sched a structure output r.
Proof.
  intros (Wa & Ws & Wo) Hfits E; unfold output_cast.
  destruct (label_cases sched a structure output)
    as [[_ E']|[(_ & _ & E')|[(_ & _ & _ & E')|(Hc & Hr & Ha & Ho & _)]]];
    try congruence.
  pose proof (coerced_validated a structure Ws Hr Ha) as Hval.
  rewrite label_eq, Hc in E |- *.
  unfold rank_ok in Hr; rewrite Hr, Z.eqb_refl in E |- *; cbn [negb] in E |- *.
  apply existsb_not3 in Ha; rewrite Ha in E |- *.
  cbn [prepared_output].
  destruct (prepared_output a output) as [[cp out0]|] eqn:Ep;
    [| discriminate].
  assert (len (arr_data out0) = size a /\ arr_dtype out0 = output_dtype output
          /\ arr_shape out0 = arr_shape a) as (Hout & Hdt & Hsh).
  { destruct output as [|d|o]; simpl in Ep.
    - injection Ep as _ <-; unfold empty, len; simpl.
      rewrite repeat_length; destruct Wa as [Wd _].
      pose proof (prod_shape_nonneg _ Wd); unfold size; split; auto; lia.
    - injection Ep as _ <-; unfold empty, len; simpl.
      rewrite repeat_length; destruct Wa as [Wd _].
      pose proof (prod_shape_nonneg _ Wd); unfold size; split; auto; lia.
    - destruct (negb _); [discriminate|]; injection Ep as _ <-.
      destruct (Wo o eq_refl) as [_ Wl].
      unfold size; rewrite <- (Ho o eq_refl); auto. }
  pose proof (labelled_cast sched a (coerced_structure a structure) out0
                Wa Hfits Hval Hout) as H; cbv zeta in H.
  destruct (labelled sched a (coerced_structure a structure) out0) as [o m].
  destruct (labelled sched a (coerced_structure a structure)
                     (empty (arr_shape a) int32)) as [o32 m32].
  cbn [fst snd] in H.
  destruct H as (Em & Ed & Es & Edata & Hlen & Hm & Hv & Hdense).
  assert (returned_maxlabel r = m /\ returned_output r = o) as [-> ->]
    by (destruct cp; injection E as <-; auto).
  exists o32; subst m32.
  split; [reflexivity|].
  rewrite <- Hdt.
  split; [auto | split; [congruence | split; [auto | split]]].
  - rewrite Edata; split.
    + intros Eq.
      destruct (Z_le_gt_dec m (capacity (arr_dtype out0))) as [Hle|Hgt]; auto.
      exfalso.
      pose proof (capacity_pos (arr_dtype out0)) as Hcp.
      destruct (In_nth _ _ 0 (Hdense (capacity (arr_dtype out0) + 1)
                                ltac:(lia))) as (k & Hk & Ek).
      apply (f_equal (fun l => nth k l 0)) in Eq.
      rewrite (nth_indep _ 0 (astype (arr_dtype out0) 0)) in Eq
        by (rewrite length_map; auto).
      rewrite map_nth, Ek in Eq.
      now apply astype_overflow in Eq.
    + intros Hle; rewrite <- (map_id (arr_data o32)) at 2.
      apply map_ext_in; intros v Hin.
      apply (In_nth _ _ 0) in Hin as (k & Hk & <-).
      destruct (Hv (Z.of_nat k)) as [Hr' _].
      { destruct Wa as [_ Wl]; unfold len in Wl; lia. }
      unfold rd in Hr'; rewrite Nat2Z.id in Hr'.
      apply astype_exact; lia.
  - intros Eb; rewrite Edata, Eb.
    apply rd_ext; [rewrite !length_map; auto|].
    intros i Hi; unfold len in Hi; rewrite !length_map in Hi.
    assert (0 <= i < size a) as Hi'
      by (destruct Wa as [_ Wl]; unfold len in Wl; lia).
    rewrite !rd_map by (unfold len; destruct Wa as [_ Wl]; unfold len in Wl; lia).
    destruct (Hv i Hi') as [_ Hz]; cbn [astype].
    destruct (Z.eqb_spec (rd (arr_data o32) i) 0),
             (Z.eqb_spec (rd (arr_data a) i) 0); auto; tauto.
Qed.

Definition many23 : ndarray :=
  {| arr_dtype := int64; arr_shape := [2; 3];
     arr_data := [7; 0; 7; 0; 7; 0] |}.

Lemma output_dtype_conversion_witness :
  output_cast interleaved many23 StructureNone (OutputDtype bool_)
    (ReturnPair {| arr_dtype := bool_; arr_shape := [2; 3];
                   arr_data := [1; 0; 1; 0; 1; 0] |} 3).
Proof.
  apply output_dtype_conversion.
  - split; [now apply well_formedb_spec | split; intros ?; discriminate].
  - split; vm_compute; discriminate.
  - reflexivity.
Defined.

(** * Part V: the helpers of the measurement functions *)

(** ** Labels that can be used as array indices *)

(** The integers that a cell of an integer or boolean dtype can hold. *)
Definition int_value (d : dtype) (v : Z) : Prop :=
  match d with
  | bool_ => 0 <= v <= 1
  | int8 => - 2 ^ 7 <= v < 2 ^ 7
  | uint8 => 0 <= v < 2 ^ 8
  | int16 => - 2 ^ 15 <= v < 2 ^ 15
  | uint16 => 0 <= v < 2 ^ 16
  | int32 => - 2 ^ 31 <= v < 2 ^ 31
  | uint32 => 0 <= v < 2 ^ 32
  | int64 => - 2 ^ 63 <= v < 2 ^ 63
  | uint64 => 0 <= v < 2 ^ 64
  | float32 | float64 | complex64 | complex128 => False
  end.

(** [v] is a value of the platform's default integer of [int_size]
    bytes. *)
Definition int_fits (int_size v : Z) : Prop :=
  - 2 ^ (8 * int_size - 1) <= v < 2 ^ (8 * int_size - 1).

Lemma pow2_le_iff a b : 0 <= a -> 0 <= b -> (2 ^ a <= 2 ^ b <-> a <= b).
Proof.
  intros Ha Hb; symmetry; apply Z.pow_le_mono_r_iff; lia.
Qed.

Lemma signed_range_fits n k :
  0 <= n -> 1 <= k ->
  ((forall v, - 2 ^ n <= v < 2 ^ n -> int_fits k v) <-> n <= 8 * k - 1).
Proof.
  intros Hn Hk; unfold int_fits; split.
  - intros H; specialize (H (- 2 ^ n)).
    pose proof (Z.pow_pos_nonneg 2 n ltac:(lia) Hn).
    apply pow2_le_iff; lia.
  - intros Hle v Hv.
    assert (2 ^ n <= 2 ^ (8 * k - 1)) by (apply pow2_le_iff; lia); lia.
Qed.

Lemma unsigned_range_fits n k :
  0 <= n -> 1 <= k ->
  ((forall v, 0 <= v < 2 ^ n -> int_fits k v) <-> n <= 8 * k - 1).
Proof.
  intros Hn Hk; unfold int_fits; split.
  - intros H; specialize (H (2 ^ n - 1)).
    pose proof (Z.pow_pos_nonneg 2 n ltac:(lia) Hn).
    apply pow2_le_iff; lia.
  - intros Hle v Hv.
    assert (2 ^ n <= 2 ^ (8 * k - 1)) by (apply pow2_le_iff; lia).
    pose proof (Z.pow_pos_nonneg 2 (8 * k - 1) ltac:(lia) ltac:(lia)); lia.
Qed.

(** The statement for a dtype [dt] on a platform whose default integer
    has [int_size] bytes. *)
Definition castable_iff_values_fit (int_size : Z) (dt : dtype) : Prop :=
  _safely_castable_to_int int_size dt = true <->
  (is_signedinteger dt = true \/ is_unsignedinteger dt = true) /\
  forall v, int_value dt v -> int_fits int_size v.

(** X11.  [_safely_castable_to_int(dt)] holds exactly when [dt] is a
    signed or unsigned integer dtype all of whose values are values of the
    platform's default integer: a signed dtype may be as wide as the
    default integer, an unsigned one must be narrower.  [bool] and the
    floating and complex dtypes are never safely castable. *)
Theorem safely_castable_iff_fits (int_size : Z) (dt : dtype) :
  1 <= int_size ->
  castable_iff_values_fit int_size dt.
Proof.
  intros Hk; unfold castable_iff_values_fit, _safely_castable_to_int.
  destruct dt; cbn [is_signedinteger is_unsignedinteger itemsize int_value
                    andb orb];
    rewrite ?orb_false_r;
    try (split; [discriminate | intros [[H|H] _]; discriminate]).
  - rewrite Z.leb_le, (signed_range_fits 7) by lia.
    split; [intros; split; auto; lia | intros [_ H]; lia].
  - rewrite Z.ltb_lt, (unsigned_range_fits 8) by lia.
    split; [intros; split; auto; lia | intros [_ H]; lia].
  - rewrite Z.leb_le, (signed_range_fits 15) by lia.
    split; [intros; split; auto; lia | intros [_ H]; lia].
  - rewrite Z.ltb_lt, (unsigned_range_fits 16) by lia.
    split; [intros; split; auto; lia | intros [_ H]; lia].
  - rewrite Z.leb_le, (signed_range_fits 31) by lia.
    split; [intros; split; auto; lia | intros [_ H]; lia].
  - rewrite Z.ltb_lt, (unsigned_range_fits 32) by lia.
    split; [intros; split; auto; lia | intros [_ H]; lia].
  - rewrite Z.leb_le, (signed_range_fits 63) by lia.
    split; [intros; split; auto; lia | intros [_ H]; lia].
  - rewrite Z.ltb_lt, (unsigned_range_fits 64) by lia.
    split; [intros; split; auto; lia | intros [_ H]; lia].
Qed.

Lemma safely_castable_iff_fits_witness : castable_iff_values_fit 8 uint32.
Proof. apply safely_castable_iff_fits; lia. Defined.

(** ** Positions as multi-indices *)

(** The running products of the extents, each before its own axis. *)
Fixpoint strides_from (acc : Z) (ds : list Z) : list Z :=
  match ds with
  | [] => []
  | d :: t => acc :: strides_from (acc * d) t
  end.

Lemma length_strides_from ds : forall acc,
  length (strides_from acc ds) = length ds.
Proof. induction ds; intros; simpl; auto. Qed.

Lemma strides_from_pos ds : forall acc,
  1 <= acc -> Forall (fun d => 1 <= d) ds ->
  Forall (fun s => 1 <= s) (strides_from acc ds).
Proof.
  induction ds as [|d ds IH]; intros acc Ha F; simpl; constructor; auto.
  inversion F; subst; apply IH; auto; nia.
Qed.

Lemma digits_strides ds : forall acc p,
  1 <= acc -> Forall (fun d => 1 <= d) ds ->
  digits ds (p / acc)
  = map (fun q => (p / fst q) mod snd q) (combine (strides_from acc ds) ds).
Proof.
  induction ds as [|d ds IH]; intros acc p Ha F; cbn [digits strides_from
    combine map fst snd]; auto.
  inversion F; subst.
  rewrite Z.div_div by lia; f_equal; apply IH; auto; nia.
Qed.

Lemma cumprod_strides l : forall acc c,
  1 <= acc -> Forall (fun d => 1 <= d) l -> acc * prod_shape l < 2 ^ 63 ->
  strides_from acc (l ++ [c]) = acc :: cumprod_from acc l.
Proof.
  induction l as [|a l IH]; intros acc c Ha F Hb; cbn [app strides_from
    cumprod_from]; auto.
  inversion F as [|? ? Ha1 Fl]; subst.
  pose proof (prod_shape_pos l Fl) as Hp.
  unfold prod_shape in Hb; cbn [fold_right] in Hb; fold (prod_shape l) in Hb.
  rewrite wrap_signed_small by (change (64 - 1) with 63; nia).
  f_equal; apply IH; auto; [nia | now rewrite <- Z.mul_assoc].
Qed.

Lemma combine_snoc {A B : Type} (a : list A) : forall (b : list B) x y,
  length a = length b ->
  combine (a ++ [x]) (b ++ [y]) = combine a b ++ [(x, y)].
Proof.
  induction a as [|u a IH]; intros [|w b] x y L; try discriminate; auto.
  cbn [app combine]; f_equal; apply IH; simpl in L; lia.
Qed.

Lemma rev_combine {A B : Type} (a : list A) : forall (b : list B),
  length a = length b -> rev (combine a b) = combine (rev a) (rev b).
Proof.
  induction a as [|u a IH]; intros [|w b] L; try discriminate; auto.
  cbn [combine rev]; rewrite combine_snoc by (rewrite !length_rev; simpl in L; lia).
  f_equal; apply IH; simpl in L; lia.
Qed.

Lemma dim_prod_strides dims :
  dims <> [] -> Forall (fun d => 1 <= d) dims -> prod_shape dims < 2 ^ 63 ->
  dim_prod dims = rev (strides_from 1 (rev dims)).
Proof.
  intros Hne F Hb; destruct dims as [|d1 rest]; [contradiction|].
  inversion F as [|? ? Hd Ft]; subst.
  unfold dim_prod, cumprod; cbn [tl cumprod_from].
  change (wrap_signed 64 (1 * 1)) with 1.
  change (rev (d1 :: rest)) with (rev rest ++ [d1]).
  f_equal; symmetry; apply cumprod_strides; [lia | |].
  - apply Forall_forall; intros x Hx; apply in_rev in Hx.
    rewrite Forall_forall in Ft; auto.
  - rewrite prod_shape_rev.
    pose proof (prod_shape_pos rest Ft).
    unfold prod_shape in Hb; cbn [fold_right] in Hb;
      fold (prod_shape rest) in Hb.
    nia.
Qed.

(** The tuple computed from the position is its mixed-radix
    decomposition. *)
Lemma position_tuple_unravel dims p :
  Forall (fun d => 1 <= d) dims -> prod_shape dims < 2 ^ 63 ->
  position_tuple dims p = unravel dims p.
Proof.
  intros F Hb; unfold position_tuple, unravel.
  destruct dims as [|d1 rest] eqn:Ed; [reflexivity|]; rewrite <- Ed in *.
  assert (dims <> []) as Hne by (rewrite Ed; discriminate).
  assert (Forall (fun d => 1 <= d) (rev dims)) as Fr.
  { apply Forall_forall; intros x Hx; apply in_rev in Hx.
    rewrite Forall_forall in F; auto. }
  rewrite (dim_prod_strides dims Hne F Hb).
  replace (digits (rev dims) p) with (digits (rev dims) (p / 1))
    by (now rewrite Z.div_1_r).
  rewrite (digits_strides (rev dims) 1 p ltac:(lia) Fr).
  rewrite <- map_rev, rev_combine, rev_involutive
    by (rewrite length_strides_from; auto).
  apply map_ext_in; intros [s d] Hin; cbn [fst snd].
  pose proof (in_combine_l _ _ _ _ Hin) as Hs.
  pose proof (in_combine_r _ _ _ _ Hin) as Hd.
  apply in_rev in Hs.
  pose proof (strides_from_pos (rev dims) 1 ltac:(lia) Fr) as Sp.
  rewrite Forall_forall in Sp, F; specialize (Sp s Hs); specialize (F d Hd).
  unfold remainder, floor_divide.
  destruct (Z.eqb_spec s 0); [lia|]; destruct (Z.eqb_spec d 0); [lia | auto].
Qed.

Lemma nth_flat_map_blocks {A B : Type} (f : A -> list B) (n : nat)
      (da : A) (db : B) (l : list A) :
  (0 < n)%nat -> (forall a, length (f a) = n) ->
  forall k, (k < n * length l)%nat ->
  nth k (flat_map f l) db = nth (k mod n) (f (nth (k / n) l da)) db.
Proof.
  intros Hn Hf; induction l as [|a l IH]; intros k Hk;
    cbn [flat_map length] in *; [lia|].
  destruct (Nat.lt_ge_cases k n) as [Hlt|Hge].
  - rewrite app_nth1 by (rewrite Hf; auto).
    now rewrite Nat.div_small, Nat.mod_small.
  - rewrite app_nth2, Hf by (rewrite Hf; auto).
    rewrite IH by nia.
    replace k with ((k - n) + 1 * n)%nat at 3 4 by lia.
    rewrite Nat.div_add, Nat.Div0.mod_add by lia.
    now rewrite Nat.add_1_r.
Qed.

Lemma undigits_snoc ds : forall cs d c,
  length cs = length ds ->
  undigits (ds ++ [d]) (cs ++ [c]) = undigits ds cs + prod_shape ds * c.
Proof.
  induction ds as [|e ds IH]; intros [|b cs] d c L; try discriminate;
    cbn [app undigits].
  - change (prod_shape []) with 1; lia.
  - rewrite IH by (simpl in L; lia).
    unfold prod_shape; cbn [fold_right]; ring.
Qed.

Lemma in_bounds_forall2 cs ds :
  Forall2 (fun ck d => 0 <= ck < d) cs ds ->
  length cs = length ds /\ in_bounds cs ds = true.
Proof.
  unfold in_bounds; induction 1 as [|c d cs ds Hc _ [L IH]];
    cbn [length combine forallb fst snd]; auto.
  split; [lia|]; rewrite IH, andb_true_r.
  apply andb_true_iff; split; [apply Z.leb_le | apply Z.ltb_lt]; lia.
Qed.

(** The multi-index at flat position [p] of the row-major enumeration
    has [p] as its flat index. *)
Lemma ravel_nth_ndindex dims :
  Forall (fun d => 1 <= d) dims ->
  forall p, 0 <= p < prod_shape dims ->
  let c := nth (Z.to_nat p) (ndindex dims) [] in
  Forall2 (fun ck d => 0 <= ck < d) c dims /\
  undigits (rev dims) (rev c) = p.
Proof.
  induction 1 as [|d rest Hd F IH]; intros p Hp c.
  - unfold prod_shape in Hp; simpl in Hp.
    assert (p = 0) by lia; subst; subst c; cbn; auto.
  - unfold prod_shape in Hp; cbn [fold_right] in Hp;
      fold (prod_shape rest) in Hp.
    set (N := prod_shape rest) in *.
    assert (1 <= N) as HN by apply (prod_shape_pos rest F).
    assert (Forall (fun x => 0 <= x) rest) as F0
      by (revert F; apply Forall_impl; intros; lia).
    pose proof (length_ndindex rest F0) as Ln; fold N in Ln.
    assert (0 <= p / N < d) as Hq.
    { split; [apply Z.div_pos; lia | apply Z.div_lt_upper_bound; lia]. }
    pose proof (Z.mod_pos_bound p N ltac:(lia)) as Hr.
    assert (c = (p / N) :: nth (Z.to_nat (p mod N)) (ndindex rest) []) as Ec.
    { unfold c; cbn [ndindex].
      rewrite (nth_flat_map_blocks
                 (fun c0 => map (cons c0) (ndindex rest)) (Z.to_nat N) 0 []).
      - rewrite <- Z2Nat.inj_div, <- Z2Nat.inj_mod by lia.
        rewrite nth_zrange by lia; rewrite Z2Nat.id by lia.
        rewrite (nth_indep _ [] (p / N :: []))
          by (rewrite length_map; lia).
        apply (map_nth (cons (p / N))).
      - lia.
      - intros a; rewrite length_map; lia.
      - rewrite length_zrange; nia. }
    destruct (IH (p mod N) Hr) as [B E].
    rewrite Ec; split; [constructor; auto|].
    cbn [rev]; rewrite undigits_snoc.
    + rewrite E, prod_shape_rev; fold N.
      pose proof (Z.div_mod p N ltac:(lia)); lia.
    + rewrite !length_rev; apply (Forall2_length B).
Qed.

Lemma nth_ndindex_unravel dims p :
  Forall (fun d => 1 <= d) dims -> 0 <= p < prod_shape dims ->
  nth (Z.to_nat p) (ndindex dims) [] = unravel dims p.
Proof.
  intros F Hp; destruct (ravel_nth_ndindex dims F p Hp) as [B E].
  set (c := nth (Z.to_nat p) (ndindex dims) []) in *.
  destruct (in_bounds_forall2 c dims B) as [L Bc].
  unfold unravel; rewrite <- E, digits_undigits.
  - now rewrite rev_involutive.
  - now rewrite in_bounds_rev.
  - now rewrite !length_rev.
Qed.

(** The statement for the flat position [p] in an array of shape
    [dims]. *)
Definition position_is_multi_index (dims : list Z) (p : Z) : Prop :=
  position_tuple dims p = nth (Z.to_nat p) (ndindex dims) [] /\
  position_tuple dims p = unravel dims p /\
  Forall2 (fun ck d => 0 <= ck < d) (position_tuple dims p) dims.

(** X12.  The tuple [(result // dim_prod) % dims] that
    [minimum_position], [maximum_position] and [extrema] return for a flat
    position is the multi-index of that cell: the entry at this position
    of the row-major enumeration of the multi-indices of the shape
    ([numpy.unravel_index]), with every coordinate inside its axis.  The
    products in [dim_prod] are taken in [int64]; they do not overflow for
    an array of fewer than [2^63] cells. *)
Theorem position_tuple_is_multi_index (dims : list Z) (p : Z) :
  Forall (fun d => 1 <= d) dims ->
  prod_shape dims < 2 ^ 63 ->
  0 <= p < prod_shape dims ->
  position_is_multi_index dims p.
Proof.
  intros F Hb Hp; unfold position_is_multi_index.
  rewrite (position_tuple_unravel dims p F Hb).
  rewrite (nth_ndindex_unravel dims p F Hp).
  split; [auto | split; [auto|]].
  rewrite <- (nth_ndindex_unravel dims p F Hp).
  now destruct (ravel_nth_ndindex dims F p Hp) as [B _].
Qed.

Lemma position_tuple_is_multi_index_witness :
  position_is_multi_index [2; 3; 4] 17.
Proof.
  apply position_tuple_is_multi_index.
  - repeat constructor; lia.
  - reflexivity.
  - split; [discriminate | reflexivity].
Defined.

(** * Part VI: the kernels of [sum] and [mean] *)

(** ** Sums over the threads that satisfy a test *)

Definition sum_if (g : nat -> Z) (p : nat -> bool) (n : nat) : Z :=
  zsum (map (fun t => if p t then g t else 0) (seq 0 n)).

Lemma zsum_app a b : zsum (a ++ b) = zsum a + zsum b.
Proof. unfold zsum; induction a; simpl; lia. Qed.

Lemma sum_if_S g p n :
  sum_if g p (S n) = sum_if g p n + if p n then g n else 0.
Proof.
  unfold sum_if; rewrite seq_S, map_app, zsum_app; simpl; lia.
Qed.

Lemma sum_if_ext g p q n :
  (forall t, (t < n)%nat -> p t = q t) -> sum_if g p n = sum_if g q n.
Proof.
  induction n as [|n IH]; intros H; auto.
  rewrite !sum_if_S, IH, (H n) by auto; reflexivity.
Qed.

Lemma sum_if_false g p n :
  (forall t, (t < n)%nat -> p t = false) -> sum_if g p n = 0.
Proof.
  induction n as [|n IH]; intros H; auto.
  rewrite sum_if_S, IH, (H n) by auto; reflexivity.
Qed.

Lemma sum_if_flip g p q n t :
  (t < n)%nat -> p t = false -> q t = true ->
  (forall t', (t' < n)%nat -> t' <> t -> p t' = q t') ->
  sum_if g q n = sum_if g p n + g t.
Proof.
  induction n as [|n IH]; intros Ht Hp Hq H; [lia|].
  rewrite !sum_if_S.
  destruct (Nat.eq_dec t n) as [->|Hn].
  - rewrite Hp, Hq, (sum_if_ext g q p n); [lia|].
    intros t' Ht'; symmetry; apply H; lia.
  - rewrite IH, (H n) by (auto; lia); lia.
Qed.

(** The sum of the absolute values bounds every partial sum. *)
Lemma sum_if_bound g p n :
  Z.abs (sum_if g p n) <= sum_if (fun t => Z.abs (g t)) (fun _ => true) n.
Proof.
  induction n as [|n IH]; [reflexivity|].
  rewrite !sum_if_S; destruct (p n); lia.
Qed.

Lemma sum_if_term g n t :
  (t < n)%nat ->
  Z.abs (g t) <= sum_if (fun t => Z.abs (g t)) (fun _ => true) n.
Proof.
  induction n as [|n IH]; intros Ht; [lia|].
  rewrite sum_if_S.
  assert (0 <= sum_if (fun t => Z.abs (g t)) (fun _ => true) n).
  { pose proof (sum_if_bound g (fun _ => true) n); lia. }
  destruct (Nat.eq_dec t n) as [->|]; [lia|].
  specialize (IH ltac:(lia)); lia.
Qed.

Lemma sum_if_list (f : Z -> Z) (l : list Z) :
  sum_if (fun t => f (rd l (Z.of_nat t))) (fun _ => true) (length l)
  = zsum (map f l).
Proof.
  unfold sum_if; f_equal.
  apply (nth_ext _ _ 0 0).
  - now rewrite !length_map, length_seq.
  - intros k Hk; rewrite length_map, length_seq in Hk.
    rewrite (nth_indep _ 0 ((fun t => f (rd l (Z.of_nat t))) O))
      by (rewrite length_map, length_seq; auto).
    rewrite (map_nth (fun t => f (rd l (Z.of_nat t)))), seq_nth by auto.
    rewrite (nth_indep _ 0 (f 0)) by (rewrite length_map; auto).
    rewrite map_nth; unfold rd; now rewrite Nat2Z.id.
Qed.

Lemma round_float_small p v : Z.abs v < 2 ^ p -> round_float p v = v.
Proof.
  intros H; unfold round_float.
  destruct (Z.ltb_spec (Z.abs v) (2 ^ p)); [auto | lia].
Qed.

(** ** The search for the label in [index] *)

Lemma match_loop_some index label steps : forall j0 j,
  match_loop index label j0 steps = Some j ->
  j0 <= j < j0 + Z.of_nat steps /\ rd index j = label /\
  forall j', j0 <= j' < j -> rd index j' <> label.
Proof.
  induction steps as [|s IH]; intros j0 j H; [discriminate|].
  cbn [match_loop] in H.
  destruct (Z.eqb_spec label (rd index j0)) as [E|N].
  - injection H as <-; split; [lia | split; [auto | intros; lia]].
  - apply IH in H as (H1 & H2 & H3).
    split; [lia | split; [auto|]].
    intros j' Hj'; destruct (Z.eq_dec j' j0) as [->|]; [congruence|].
    apply H3; lia.
Qed.

Lemma match_loop_none index label steps : forall j0,
  match_loop index label j0 steps = None ->
  forall j', j0 <= j' < j0 + Z.of_nat steps -> rd index j' <> label.
Proof.
  induction steps as [|s IH]; intros j0 H j' Hj'; [lia|].
  cbn [match_loop] in H.
  destruct (Z.eqb_spec label (rd index j0)) as [E|N]; [discriminate|].
  destruct (Z.eq_dec j' j0) as [->|]; [congruence|].
  apply (IH (j0 + 1)); auto; lia.
Qed.

Lemma index_of_min v l : forall j, 0 <= j < index_of v l -> rd l j <> v.
Proof.
  induction l as [|h t IH]; intros j Hj; cbn [index_of] in Hj; [lia|].
  destruct (Z.eqb_spec h v) as [E|N]; [lia|].
  destruct (Z.eq_dec j 0) as [->|Nj]; [exact N|].
  unfold rd; replace (Z.to_nat j) with (S (Z.to_nat (j - 1))) by lia.
  apply (IH (j - 1)); lia.
Qed.

Lemma index_of_le_len v l : 0 <= index_of v l <= len l.
Proof.
  unfold len; induction l as [|h t IH]; cbn [index_of length]; [lia|].
  destruct (h =? v); lia.
Qed.

(** The loop stops at the first position of the label in [index]. *)
Lemma match_loop_index_of index label j :
  0 <= j < len index ->
  (match_loop index label 0 (Z.to_nat (len index)) = Some j <->
   rd index j = label /\ index_of (rd index j) index = j).
Proof.
  intros Hj; split.
  - intros H; apply match_loop_some in H as (_ & E & Hmin).
    split; auto; apply index_of_first; auto.
    intros i Hi; rewrite E; apply Hmin; lia.
  - intros [E Hi].
    destruct (match_loop index label 0 (Z.to_nat (len index))) as [j'|] eqn:M.
    + apply match_loop_some in M as (Hr & E' & Hmin).
      f_equal; destruct (Z.lt_trichotomy j' j) as [Hlt|[->|Hgt]]; auto.
      * exfalso; apply (index_of_min (rd index j) index j');
          [lia | congruence].
      * exfalso; apply (Hmin j); [lia | auto].
    + exfalso; apply (match_loop_none _ _ _ _ M j); [lia | auto].
Qed.

(** ** The sum kernel *)

(** The sum of the cells of [input] whose label is [v]. *)
Definition region_sum (input labels : list Z) (v : Z) : Z :=
  sum_if (fun t => rd input (Z.of_nat t))
         (fun t => rd labels (Z.of_nat t) =? v) (length input).

(** The number of cells whose label is [v]. *)
Definition region_count (input labels : list Z) (v : Z) : Z :=
  sum_if (fun _ => 1) (fun t => rd labels (Z.of_nat t) =? v) (length input).

Section SumKernel.

Variables (input labels index : list Z).

Hypothesis exact : zsum (map Z.abs input) < 2 ^ 53.

Let g (t : nat) : Z := rd input (Z.of_nat t).

(** The slot of [out] to which thread [t] adds its cell. *)
Definition hits (t : nat) (j : Z) : bool :=
  match match_loop index (rd labels (Z.of_nat t)) 0 (Z.to_nat (len index)) with
  | Some j' => j' =? j
  | None => false
  end.

Definition sum_done (pc : sum_pc) : bool :=
  match pc with SDone => true | SStart => false end.

Definition sum_added (ls : list sum_pc) (t : nat) : bool :=
  match nth_error ls t with Some SDone => true | _ => false end.

Definition sum_inv (st : list Z * list sum_pc) : Prop :=
  length (snd st) = length input /\ length (fst st) = length index /\
  forall j, 0 <= j < len index ->
    rd (fst st) j
    = sum_if g (fun t => sum_added (snd st) t && hits t j) (length input).

Lemma total_bound p :
  Z.abs (sum_if g p (length input)) < 2 ^ 53.
Proof.
  pose proof (sum_if_bound g p (length input)) as H.
  unfold g in H at 2; rewrite (sum_if_list Z.abs input) in H; lia.
Qed.

Lemma cell_bound t : (t < length input)%nat -> Z.abs (g t) < 2 ^ 53.
Proof.
  intros Ht; pose proof (sum_if_term g (length input) t Ht) as H.
  unfold g in H at 2; rewrite (sum_if_list Z.abs input) in H; lia.
Qed.

Lemma sum_added_upd ls t t' :
  (t < length ls)%nat ->
  sum_added (upd t SDone ls) t'
  = if Nat.eq_dec t t' then true else sum_added ls t'.
Proof.
  intros Ht; unfold sum_added; rewrite nth_error_upd by auto.
  destruct (Nat.eq_dec t t'); auto.
Qed.

Lemma sum_inv_step st t :
  sum_inv st ->
  sum_inv (pool_step (sum_step input labels index (len index)) st t).
Proof.
  intros (Hl & Ho & Hs).
  destruct (nth_error (snd st) t) as [pc|] eqn:Hpc.
  2:{ unfold pool_step; rewrite Hpc; repeat split; auto. }
  assert (t < length input)%nat as Ht
    by (rewrite <- Hl; apply nth_error_Some; congruence).
  rewrite (pool_step_self _ st t pc Hpc).
  destruct st as [out ls]; cbn [fst snd] in *.
  destruct pc; cbn [sum_step fst snd].
  2:{ rewrite (upd_same ls t SDone Hpc); repeat split; auto. }
  assert (sum_added ls t = false) as Hnot by (unfold sum_added; now rewrite Hpc).
  destruct (match_loop index (rd labels (Z.of_nat t)) 0 (Z.to_nat (len index)))
    as [j|] eqn:M; cbn [fst snd].
  - pose proof (match_loop_some _ _ _ _ _ M) as (Hj & _ & _).
    assert (0 <= j < len index) as Hj' by lia.
    unfold sum_inv; cbn [fst snd].
    split; [rewrite length_upd; auto | split].
    { unfold atomicAdd_double, wr; now rewrite length_upd. }
    intros j2 Hj2; unfold atomicAdd_double.
    rewrite rd_wr by (unfold len in *; lia).
    destruct (Z.eq_dec j2 j) as [->|Nj].
    + rewrite (Hs j Hj').
      unfold to_double; rewrite (round_float_small 53 (rd input (Z.of_nat t)))
        by (apply (cell_bound t Ht)).
      change (rd input (Z.of_nat t)) with (g t).
      rewrite <- (sum_if_flip g (fun t0 => sum_added ls t0 && hits t0 j)
                    (fun t0 => sum_added (upd t SDone ls) t0 && hits t0 j)
                    (length input) t Ht).
      * apply round_float_small, total_bound.
      * now rewrite Hnot.
      * rewrite sum_added_upd by lia.
        destruct (Nat.eq_dec t t); [|contradiction].
        unfold hits; rewrite M; apply Z.eqb_refl.
      * intros t' Ht' Ne; rewrite sum_added_upd by lia.
        destruct (Nat.eq_dec t t'); [congruence | auto].
    + rewrite (Hs j2 Hj2); apply sum_if_ext; intros t' Ht'.
      rewrite sum_added_upd by lia.
      destruct (Nat.eq_dec t t') as [<-|]; auto.
      rewrite Hnot; unfold hits; rewrite M.
      destruct (Z.eqb_spec j j2); [congruence | reflexivity].
  - unfold sum_inv; cbn [fst snd].
    split; [rewrite length_upd; auto | split; auto].
    intros j2 Hj2; rewrite (Hs j2 Hj2); apply sum_if_ext; intros t' Ht'.
    rewrite sum_added_upd by lia.
    destruct (Nat.eq_dec t t') as [<-|]; auto.
    rewrite Hnot; unfold hits; now rewrite M.
Qed.

(** The buffer after the launch, for every schedule. *)
Lemma sum_kernel_out sched :
  length labels = length input ->
  let out := _ndimage_sum_kernel sched input labels index (len index)
                                 (repeat 0 (length index)) in
  length out = length index /\
  forall j, 0 <= j < len index ->
    rd out j = if index_of (rd index j) index =? j
               then region_sum input labels (rd index j) else 0.
Proof.
  intros Hlab out.
  destruct (launch_done (sum_step input labels index (len index))
              sum_inv sum_done (fun _ pc => if sum_done pc then O else 1%nat)
              1 sum_inv_step)
    with (sched := sched) (fuel := 1%nat)
         (n := length input) (l0 := SStart) (m := repeat 0 (length index))
    as ((Hl & Ho & Hs) & Hn & D); auto.
  - intros i m [] H; simpl in *; congruence.
  - intros m ls t l _ _ Hd; destruct l; try discriminate.
    cbn [sum_step]; destruct (match_loop _ _ _ _); cbn; lia.
  - intros m ls t l _ _; destruct l; cbn; lia.
  - split; [apply repeat_length | split; [apply repeat_length|]].
    cbn [fst snd]; intros j Hj.
    rewrite sum_if_false.
    + unfold rd; apply nth_repeat.
    + intros t Ht; unfold sum_added.
      destruct (nth_error (repeat SStart (length input)) t) as [pc|] eqn:E;
        auto.
      apply nth_error_In, repeat_spec in E; now subst.
  - fold out in Ho, Hs; split; auto.
    set (st := launch _ _ _ _ _ _) in *.
    assert (forall t, (t < length input)%nat -> sum_added (snd st) t = true)
      as HD.
    { intros t Ht; unfold sum_added.
      destruct (nth_error (snd st) t) as [pc|] eqn:Hpc.
      2:{ apply nth_error_None in Hpc; lia. }
      rewrite Forall_forall in D; specialize (D pc (nth_error_In _ _ Hpc)).
      destruct pc; try discriminate; auto. }
    intros j Hj; unfold out, _ndimage_sum_kernel; fold st; rewrite (Hs j Hj).
    destruct (Z.eqb_spec (index_of (rd index j) index) j) as [Ef|Nf].
    + unfold region_sum; apply sum_if_ext; intros t Ht.
      rewrite (HD t Ht); cbn [andb]; unfold hits.
      destruct (match_loop index (rd labels (Z.of_nat t)) 0
                           (Z.to_nat (len index))) as [j'|] eqn:M.
      * pose proof (match_loop_some _ _ _ _ _ M) as (Hr & E' & _).
        destruct (Z.eqb_spec j' j) as [->|Nj].
        -- symmetry; apply Z.eqb_eq; auto.
        -- symmetry; apply Z.eqb_neq; intros El.
           apply Nj; assert (Some j' = Some j) as Es; [|congruence].
           rewrite <- M; apply match_loop_index_of; auto.
      * symmetry; apply Z.eqb_neq; intros El.
        apply (match_loop_none _ _ _ _ M j); [lia | auto].
    + apply sum_if_false; intros t Ht; rewrite (HD t Ht); cbn [andb].
      unfold hits.
      destruct (match_loop index (rd labels (Z.of_nat t)) 0
                           (Z.to_nat (len index))) as [j'|] eqn:M; auto.
      destruct (Z.eqb_spec j' j) as [->|]; auto.
      apply match_loop_index_of in M as [_ E]; [contradiction | auto].
Qed.

End SumKernel.

(** The statement for [_ndimage_sum_kernel] as [sum] launches it, with
    [size = index.size] and [out] filled with zeros. *)
Definition sum_kernel_result (sched : list nat) (input labels index : list Z)
  : Prop :=
  let out := _ndimage_sum_kernel sched input labels index (len index)
                                 (repeat 0 (length index)) in
  length out = length index /\
  forall j, 0 <= j < len index ->
    rd out j = if index_of (rd index j) index =? j
               then region_sum input labels (rd index j) else 0.

(** X13.  On an integer-valued image whose absolute values sum to less
    than [2^53] (so that every [float64] addition is exact), and under
    every interleaving of its threads, [_ndimage_sum_kernel] leaves in
    [out[j]] the sum of the cells whose label equals [index[j]] when [j]
    is the first position of that value in [index], and 0 at every later
    position of a value that occurs in [index] more than once: a cell adds
    to the first matching slot only. *)
Theorem sum_kernel_first_match
        (sched : list nat) (input labels index : list Z) :
  zsum (map Z.abs input) < 2 ^ 53 ->
  length labels = length input ->
  sum_kernel_result sched input labels index.
Proof.
  intros He Hl; now apply sum_kernel_out.
Qed.

Lemma sum_kernel_first_match_witness :
  sum_kernel_result [3; 0; 3; 1]%nat [5; -2; 7; 4] [1; 2; 1; 3] [1; 2; 1].
Proof.
  apply sum_kernel_first_match.
  - reflexivity.
  - reflexivity.
Defined.

(** X14.  Without the bound of X13 the result of [_ndimage_sum_kernel]
    depends on the interleaving: for the three cells [2^53, 1, 1] of one
    region, adding the large cell first gives [2^53] (each [+ 1] is lost to
    rounding), adding it last gives [2^53 + 2]. *)
Theorem sum_kernel_order_sensitive :
  exists (input labels index : list Z) (s1 s2 : list nat),
    length labels = length input /\
    _ndimage_sum_kernel s1 input labels index (len index)
                        (repeat 0 (length index)) = [2 ^ 53] /\
    _ndimage_sum_kernel s2 input labels index (len index)
                        (repeat 0 (length index)) = [2 ^ 53 + 2].
Proof.
  exists [2 ^ 53; 1; 1], [1; 1; 1], [1], [0; 1; 2]%nat, [1; 2; 0]%nat.
  split; [reflexivity | split; vm_compute; reflexivity].
Qed.

(** ** The mean kernel *)

Section MeanKernel.

Variables (input labels index : list Z).

Hypothesis exact : zsum (map Z.abs input) < 2 ^ 53.
Hypothesis cells_fit : Z.of_nat (length input) < 2 ^ 64.

Let g (t : nat) : Z := rd input (Z.of_nat t).

Definition mean_done (pc : mean_pc) : bool :=
  match pc with MDone => true | _ => false end.

(** The threads that have performed their first, resp. second,
    [atomicAdd]. *)
Definition mean_added (ls : list mean_pc) (t : nat) : bool :=
  match nth_error ls t with
  | Some (MCount _) | Some MDone => true
  | _ => false
  end.

Definition mean_counted (ls : list mean_pc) (t : nat) : bool :=
  match nth_error ls t with Some MDone => true | _ => false end.

Definition mean_inv (st : (list Z * list Z) * list mean_pc) : Prop :=
  let out := fst (fst st) in
  let count := snd (fst st) in
  let ls := snd st in
  length ls = length input /\ length out = length index /\
  length count = length index /\
  (forall t j, nth_error ls t = Some (MCount j) ->
     match_loop index (rd labels (Z.of_nat t)) 0 (Z.to_nat (len index))
     = Some j) /\
  forall j, 0 <= j < len index ->
    rd out j
    = sum_if g (fun t => mean_added ls t && hits labels index t j)
             (length input) /\
    rd count j
    = sum_if (fun _ => 1) (fun t => mean_counted ls t && hits labels index t j)
             (length input).

Lemma count_bound p :
  0 <= sum_if (fun _ => 1) p (length input) < 2 ^ 64.
Proof.
  assert (forall n, 0 <= sum_if (fun _ => 1) p n <= Z.of_nat n) as H.
  { induction n as [|n IH]; [cbv; split; discriminate|].
    rewrite sum_if_S; destruct (p n); lia. }
  specialize (H (length input)); lia.
Qed.

Lemma mean_inv_step st t :
  mean_inv st ->
  mean_inv (pool_step (mean_step input labels index (len index)) st t).
Proof.
  intros (Hl & Ho & Hc & Hm & Hs).
  destruct (nth_error (snd st) t) as [pc|] eqn:Hpc.
  2:{ unfold pool_step; rewrite Hpc; repeat split; auto; apply Hs; auto. }
  assert (t < length input)%nat as Ht
    by (rewrite <- Hl; apply nth_error_Some; congruence).
  rewrite (pool_step_self _ st t pc Hpc).
  destruct st as [[out count] ls]; cbn [fst snd] in *.
  assert (forall pc' t', nth_error (upd t pc' ls) t'
            = if Nat.eq_dec t t' then Some pc' else nth_error ls t') as Hu
    by (intros; apply nth_error_upd; lia).
  destruct pc as [|j|]; cbn [mean_step fst snd].
  - (* the first atomicAdd *)
    assert (mean_added ls t = false) as Hna
      by (unfold mean_added; now rewrite Hpc).
    assert (mean_counted ls t = false) as Hnc
      by (unfold mean_counted; now rewrite Hpc).
    destruct (match_loop index (rd labels (Z.of_nat t)) 0
                         (Z.to_nat (len index))) as [j|] eqn:M;
      unfold mean_inv; cbn [fst snd].
    + pose proof (match_loop_some _ _ _ _ _ M) as (Hj & _ & _).
      assert (0 <= j < len index) as Hj' by lia.
      split; [rewrite length_upd; auto | split].
      { unfold atomicAdd_double, wr; now rewrite length_upd. }
      split; [auto | split].
      { intros t' j' H; rewrite Hu in H.
        destruct (Nat.eq_dec t t') as [<-|]; [congruence | eauto]. }
      intros j2 Hj2; destruct (Hs j2 Hj2) as [Eo Ec]; split.
      * unfold atomicAdd_double; rewrite rd_wr by (unfold len in *; lia).
        destruct (Z.eq_dec j2 j) as [->|Nj].
        -- rewrite Eo; unfold to_double.
           rewrite (round_float_small 53 (rd input (Z.of_nat t)))
             by (apply (cell_bound input exact t Ht)).
           change (rd input (Z.of_nat t)) with (g t).
           rewrite <- (sum_if_flip g
                         (fun t0 => mean_added ls t0 && hits labels index t0 j)
                         (fun t0 => mean_added (upd t (MCount j) ls) t0
                                    && hits labels index t0 j)
                         (length input) t Ht).
           ++ apply round_float_small, (total_bound input exact).
           ++ now rewrite Hna.
           ++ unfold mean_added; rewrite Hu.
              destruct (Nat.eq_dec t t); [|contradiction].
              unfold hits; rewrite M; apply Z.eqb_refl.
           ++ intros t' Ht' Ne; unfold mean_added; rewrite Hu.
              destruct (Nat.eq_dec t t'); [congruence | auto].
        -- rewrite Eo; apply sum_if_ext; intros t' Ht'.
           unfold mean_added at 2; rewrite Hu.
           destruct (Nat.eq_dec t t') as [<-|]; auto.
           rewrite Hna; unfold hits; rewrite M.
           destruct (Z.eqb_spec j j2); [congruence | reflexivity].
      * rewrite Ec; apply sum_if_ext; intros t' Ht'.
        unfold mean_counted at 2; rewrite Hu.
        destruct (Nat.eq_dec t t') as [<-|]; auto.
        now rewrite Hnc.
    + split; [rewrite length_upd; auto | split; [auto | split; [auto | split]]].
      { intros t' j' H; rewrite Hu in H.
        destruct (Nat.eq_dec t t') as [<-|]; [congruence | eauto]. }
      intros j2 Hj2; destruct (Hs j2 Hj2) as [Eo Ec]; split.
      * rewrite Eo; apply sum_if_ext; intros t' Ht'.
        unfold mean_added at 2; rewrite Hu.
        destruct (Nat.eq_dec t t') as [<-|]; auto.
        rewrite Hna; unfold hits; now rewrite M.
      * rewrite Ec; apply sum_if_ext; intros t' Ht'.
        unfold mean_counted at 2; rewrite Hu.
        destruct (Nat.eq_dec t t') as [<-|]; auto.
        rewrite Hnc; unfold hits; now rewrite M.
  - (* the second atomicAdd *)
    pose proof (Hm t j Hpc) as M.
    pose proof (match_loop_some _ _ _ _ _ M) as (Hj & _ & _).
    assert (0 <= j < len index) as Hj' by lia.
    assert (mean_counted ls t = false) as Hnc
      by (unfold mean_counted; now rewrite Hpc).
    unfold mean_inv; cbn [fst snd].
    split; [rewrite length_upd; auto | split; [auto | split]].
    { unfold atomicAdd_uint64, wr; now rewrite length_upd. }
    split.
    { intros t' j' H; rewrite Hu in H.
      destruct (Nat.eq_dec t t') as [<-|]; [congruence | eauto]. }
    intros j2 Hj2; destruct (Hs j2 Hj2) as [Eo Ec]; split.
    + rewrite Eo; apply sum_if_ext; intros t' Ht'.
      unfold mean_added; rewrite Hu.
      destruct (Nat.eq_dec t t') as [<-|]; auto; now rewrite Hpc.
    + unfold atomicAdd_uint64; rewrite rd_wr by (unfold len in *; lia).
      destruct (Z.eq_dec j2 j) as [->|Nj].
      * rewrite Ec.
        rewrite <- (sum_if_flip (fun _ => 1)
                      (fun t0 => mean_counted ls t0 && hits labels index t0 j)
                      (fun t0 => mean_counted (upd t MDone ls) t0
                                 && hits labels index t0 j)
                      (length input) t Ht).
        -- unfold wrap_unsigned; apply Z.mod_small, count_bound.
        -- now rewrite Hnc.
        -- unfold mean_counted; rewrite Hu.
           destruct (Nat.eq_dec t t); [|contradiction].
           unfold hits; rewrite M; apply Z.eqb_refl.
        -- intros t' Ht' Ne; unfold mean_counted; rewrite Hu.
           destruct (Nat.eq_dec t t'); [congruence | auto].
      * rewrite Ec; apply sum_if_ext; intros t' Ht'.
        unfold mean_counted at 2; rewrite Hu.
        destruct (Nat.eq_dec t t') as [<-|]; auto.
        rewrite Hnc; unfold hits; rewrite M.
        destruct (Z.eqb_spec j j2); [congruence | reflexivity].
  - rewrite (upd_same ls t MDone Hpc); repeat split; auto; apply Hs; auto.
Qed.

Lemma hits_first t j :
  0 <= j < len index ->
  hits labels index t j
  = (rd labels (Z.of_nat t) =? rd index j)
    && (index_of (rd index j) index =? j).
Proof.
  intros Hj; unfold hits.
  destruct (match_loop index (rd labels (Z.of_nat t)) 0
                       (Z.to_nat (len index))) as [j'|] eqn:M.
  - pose proof (match_loop_some _ _ _ _ _ M) as (Hr & E' & _).
    destruct (Z.eqb_spec j' j) as [->|Nj].
    + apply match_loop_index_of in M as [E1 E2]; auto.
      rewrite E2, <- E1, !Z.eqb_refl; reflexivity.
    + symmetry; apply andb_false_iff.
      destruct (Z.eqb_spec (rd labels (Z.of_nat t)) (rd index j)) as [El|];
        auto; right; apply Z.eqb_neq; intros Ef.
      apply Nj; assert (Some j' = Some j) as Es; [|congruence].
      rewrite <- M; apply match_loop_index_of; auto.
  - symmetry; apply andb_false_iff; left; apply Z.eqb_neq; intros El.
    apply (match_loop_none _ _ _ _ M j); [lia | auto].
Qed.

(** The buffers after the launch, for every schedule. *)
Lemma mean_kernel_out sched :
  length labels = length input ->
  let m := _ndimage_mean_kernel sched input labels index (len index)
             (repeat 0 (length index)) (repeat 0 (length index)) in
  length (fst m) = length index /\ length (snd m) = length index /\
  forall j, 0 <= j < len index ->
    rd (fst m) j = (if index_of (rd index j) index =? j
                    then region_sum input labels (rd index j) else 0) /\
    rd (snd m) j = (if index_of (rd index j) index =? j
                    then region_count input labels (rd index j) else 0).
Proof.
  intros Hlab m.
  destruct (launch_done (mean_step input labels index (len index))
              mean_inv mean_done
              (fun _ pc => match pc with
                           | MStart => 2 | MCount _ => 1 | MDone => 0
                           end%nat)
              2 mean_inv_step)
    with (sched := sched) (fuel := 2%nat)
         (n := length input) (l0 := MStart)
         (m := (repeat 0 (length index), repeat 0 (length index)))
    as ((Hl & Ho & Hc & _ & Hs) & Hn & D); auto.
  - intros i [o c] [] H; simpl in *; congruence.
  - intros [o c] ls t l _ _ Hd; destruct l; try discriminate;
      cbn [mean_step]; [destruct (match_loop _ _ _ _)|]; cbn; lia.
  - intros [o c] ls t l _ _; destruct l; cbn; lia.
  - unfold mean_inv; cbn [fst snd].
    split; [apply repeat_length | split; [apply repeat_length |
      split; [apply repeat_length | split]]].
    + intros t j H; apply nth_error_In, repeat_spec in H; discriminate.
    + intros j Hj; rewrite !sum_if_false.
      * unfold rd; rewrite nth_repeat; auto.
      * intros t Ht; unfold mean_counted.
        destruct (nth_error (repeat MStart (length input)) t) as [pc|] eqn:E;
          auto.
        apply nth_error_In, repeat_spec in E; now subst.
      * intros t Ht; unfold mean_added.
        destruct (nth_error (repeat MStart (length input)) t) as [pc|] eqn:E;
          auto.
        apply nth_error_In, repeat_spec in E; now subst.
  - set (st := launch _ _ _ _ _ _) in *.
    assert (forall t, (t < length input)%nat ->
              nth_error (snd st) t = Some MDone) as HD.
    { intros t Ht.
      destruct (nth_error (snd st) t) as [pc|] eqn:Hpc.
      2:{ apply nth_error_None in Hpc; lia. }
      rewrite Forall_forall in D; specialize (D pc (nth_error_In _ _ Hpc)).
      destruct pc; try discriminate; auto. }
    unfold m, _ndimage_mean_kernel; fold st.
    split; [auto | split; [auto|]].
    intros j Hj; destruct (Hs j Hj) as [Eo Ec]; rewrite Eo, Ec.
    assert (forall (f : nat -> Z) (a : list mean_pc -> nat -> bool),
              (forall t, (t < length input)%nat -> a (snd st) t = true) ->
              sum_if f (fun t => a (snd st) t && hits labels index t j)
                     (length input)
              = if index_of (rd index j) index =? j
                then sum_if f (fun t => rd labels (Z.of_nat t) =? rd index j)
                            (length input)
                else 0) as Hf.
    { intros f a Ha.
      destruct (Z.eqb_spec (index_of (rd index j) index) j) as [Ef|Nf].
      - apply sum_if_ext; intros t Ht.
        rewrite (Ha t Ht), hits_first, Ef, Z.eqb_refl, andb_true_r by auto.
        reflexivity.
      - apply sum_if_false; intros t Ht.
        rewrite (Ha t Ht), hits_first by auto.
        destruct (Z.eqb_spec (index_of (rd index j) index) j);
          [contradiction | apply andb_false_r]. }
    split; apply Hf; intros t Ht;
      [unfold mean_added | unfold mean_counted]; now rewrite HD.
Qed.

End MeanKernel.

(** The statement for [_ndimage_mean_kernel] as [_mean_driver] launches
    it, with [size = index.size] and [out] and [count] filled with
    zeros. *)
Definition mean_kernel_result (sched : list nat) (input labels index : list Z)
  : Prop :=
  let m := _ndimage_mean_kernel sched input labels index (len index)
             (repeat 0 (length index)) (repeat 0 (length index)) in
  length (fst m) = length index /\ length (snd m) = length index /\
  forall j, 0 <= j < len index ->
    rd (fst m) j = (if index_of (rd index j) index =? j
                    then region_sum input labels (rd index j) else 0) /\
    rd (snd m) j = (if index_of (rd index j) index =? j
                    then region_count input labels (rd index j) else 0).

(** X15.  On an integer-valued image whose absolute values sum to less
    than [2^53], and under every interleaving of its threads (each thread
    performs two separate [atomicAdd]s), [_ndimage_mean_kernel] leaves in
    [out[j]] and [count[j]] the sum and the number of the cells whose
    label equals [index[j]] when [j] is the first position of that value
    in [index], and leaves both at 0 when the value occurs earlier in
    [index]. *)
Theorem mean_kernel_sum_and_count
        (sched : list nat) (input labels index : list Z) :
  zsum (map Z.abs input) < 2 ^ 53 ->
  Z.of_nat (length input) < 2 ^ 64 ->
  length labels = length input ->
  mean_kernel_result sched input labels index.
Proof.
  intros He Hn Hl; now apply mean_kernel_out.
Qed.

Lemma mean_kernel_sum_and_count_witness :
  mean_kernel_result [3; 0; 3; 1; 0]%nat [5; -2; 7; 4] [1; 2; 1; 3] [1; 2; 1].
Proof.
  apply mean_kernel_sum_and_count.
  - reflexivity.
  - reflexivity.
  - reflexivity.
Defined.

(** ** The batched sum *)




Section BatchedSum.

Variables (d : dtype) (input labels index : list Z) (batch_size : nat).

Hypothesis batch_pos : (1 <= batch_size)%nat.

Let F (v : Z) : Z :=
  to_double (sum_wrap d (zsum (map (fun p => if snd p =? v then fst p else 0)
                                   (combine input labels)))).




End BatchedSum.




(** * Part VII: [_select] and the functions built on it *)

(** ** Minimum and maximum of a list *)

Lemma fold_min_spec t : forall a,
  let m := fold_left Z.min t a in
  (m = a \/ In m t) /\ m <= a /\ Forall (fun v => m <= v) t.
Proof.
  induction t as [|b t IH]; intros a m; cbn [fold_left] in *.
  - split; [now left | split; [lia | constructor]].
  - destruct (IH (Z.min a b)) as (Hin & Hle & Hall); fold m in Hin, Hle, Hall.
    split; [| split; [lia | constructor; [lia | auto]]].
    destruct Hin as [E|Hin]; [| right; now right].
    destruct (Z.min_spec a b) as [[_ E']|[_ E']]; rewrite E' in E;
      [now left | right; now left].
Qed.

Lemma fold_max_spec t : forall a,
  let m := fold_left Z.max t a in
  (m = a \/ In m t) /\ a <= m /\ Forall (fun v => v <= m) t.
Proof.
  induction t as [|b t IH]; intros a m; cbn [fold_left] in *.
  - split; [now left | split; [lia | constructor]].
  - destruct (IH (Z.max a b)) as (Hin & Hle & Hall); fold m in Hin, Hle, Hall.
    split; [| split; [lia | constructor; [lia | auto]]].
    destruct Hin as [E|Hin]; [| right; now right].
    destruct (Z.max_spec a b) as [[_ E']|[_ E']]; rewrite E' in E;
      [right; now left | now left].
Qed.

Lemma amin_spec l m :
  amin l = Some m -> In m l /\ Forall (fun v => m <= v) l.
Proof.
  destruct l as [|a t]; [discriminate|]; cbn [amin]; intros [= <-].
  destruct (fold_min_spec t a) as (Hin & Hle & Hall).
  split; [destruct Hin as [-> | ?]; [now left | now right]|].
  constructor; auto.
Qed.

Lemma amax_spec l m :
  amax l = Some m -> In m l /\ Forall (fun v => v <= m) l.
Proof.
  destruct l as [|a t]; [discriminate|]; cbn [amax]; intros [= <-].
  destruct (fold_max_spec t a) as (Hin & Hle & Hall).
  split; [destruct Hin as [-> | ?]; [now left | now right]|].
  constructor; auto.
Qed.

Lemma amin_none l : amin l = None <-> l = [].
Proof. destruct l; cbn [amin]; split; intros H; auto; discriminate H. Qed.

Lemma amax_none l : amax l = None <-> l = [].
Proof. destruct l; cbn [amax]; split; intros H; auto; discriminate H. Qed.

(** ** Boolean-mask indexing *)

Lemma compress_map_self (h : Z -> bool) (S : list Z) :
  compress (map h S) S = filter h S.
Proof.
  unfold compress; induction S as [|c S IH];
    cbn [map combine filter fst snd]; auto.
  destruct (h c); cbn [map snd]; now rewrite IH.
Qed.

Lemma compress_map (h : Z -> bool) (g : Z -> Z) (S : list Z) :
  compress (map h S) (map g S) = map g (filter h S).
Proof.
  unfold compress; induction S as [|c S IH];
    cbn [map combine filter fst snd]; auto.
  destruct (h c); cbn [map snd]; now rewrite IH.
Qed.

Lemma map_rd_zrange (a : list Z) : map (rd a) (zrange (len a)) = a.
Proof.
  unfold zrange, len; rewrite Nat2Z.id, map_map.
  apply (nth_ext _ _ 0 0); [now rewrite length_map, length_seq|].
  intros k Hk; rewrite length_map, length_seq in Hk.
  rewrite (nth_indep _ 0 ((fun c => rd a (Z.of_nat c)) O))
    by (rewrite length_map, length_seq; auto).
  rewrite (map_nth (fun c => rd a (Z.of_nat c))), seq_nth by auto.
  unfold rd; now rewrite Nat2Z.id.
Qed.

(** Masking by a test on the labels selects the cells that pass it. *)
Lemma compress_cells (f : Z -> bool) (l a : list Z) :
  length l = length a ->
  compress (map f l) a
  = map (rd a) (filter (fun c => f (rd l c)) (zrange (len a))).
Proof.
  intros L.
  rewrite <- (map_rd_zrange a) at 1.
  assert (map f l = map (fun c => f (rd l c)) (zrange (len a))) as ->.
  { rewrite <- (map_rd_zrange l) at 1.
    rewrite map_map; unfold len; now rewrite L. }
  apply compress_map.
Qed.

Lemma hd_filter_first (pred : Z -> bool) (S : list Z) (c0 : Z) :
  StronglySorted Z.lt S -> In c0 S -> pred c0 = true ->
  let p := hd 0 (filter pred S) in
  In p S /\ pred p = true /\ forall c, In c S -> pred c = true -> p <= c.
Proof.
  induction 1 as [|a S HS IH Ha]; intros Hin Hp; [destruct Hin|].
  cbn [filter]; destruct (pred a) eqn:Pa; cbn [hd].
  - split; [now left | split; auto].
    intros c [<-|Hc] _; [lia|].
    rewrite Forall_forall in Ha; specialize (Ha c Hc); lia.
  - destruct Hin as [->|Hin]; [congruence|].
    destruct (IH Hin Hp) as (H1 & H2 & H3).
    split; [now right | split; auto].
    intros c [<-|Hc] Pc; [congruence | auto].
Qed.

Lemma sorted_zrange n : StronglySorted Z.lt (zrange n).
Proof. apply sorted_zrange_from. Qed.

Lemma filter_all (l : list Z) : filter (fun _ => true) l = l.
Proof. induction l; cbn [filter]; congruence. Qed.

(** ** One group: no labels, or an [index] that is [None] or a scalar *)

(** The cells that [_select] hands to [single_group]. *)
Definition group_selected (labels : option ndarray) (index : index_arg)
           (c : Z) : bool :=
  match labels with
  | None => true
  | Some l =>
      match index with
      | IndexNone => 0 <? rd (arr_data l) c
      | IndexScalar v => rd (arr_data l) c =? v
      | IndexArray _ => false
      end
  end.

(** [p] is the first selected cell, in row-major order, that holds the
    least, resp. the greatest, value of the selected cells. *)
Definition is_first_min (x : list Z) (sel : Z -> bool) (p : Z) : Prop :=
  0 <= p < len x /\ sel p = true /\
  forall c, 0 <= c < len x -> sel c = true ->
    rd x p <= rd x c /\ (c < p -> rd x p < rd x c).

Definition is_first_max (x : list Z) (sel : Z -> bool) (p : Z) : Prop :=
  0 <= p < len x /\ sel p = true /\
  forall c, 0 <= c < len x -> sel c = true ->
    rd x c <= rd x p /\ (c < p -> rd x c < rd x p).

Section Group.

Variables (x : list Z) (sel : Z -> bool).

Let S := filter sel (zrange (len x)).

Lemma in_group c : In c S <-> 0 <= c < len x /\ sel c = true.
Proof. unfold S; rewrite filter_In, in_zrange; tauto. Qed.

Lemma group_sorted : StronglySorted Z.lt S.
Proof. apply sorted_filter, sorted_zrange. Qed.

Lemma first_equal_group m :
  first_equal m (map (rd x) S) S = hd 0 (filter (fun c => rd x c =? m) S).
Proof.
  unfold first_equal; rewrite map_map.
  now rewrite (compress_map_self (fun c => rd x c =? m)).
Qed.

Lemma group_min c0 :
  0 <= c0 < len x -> sel c0 = true ->
  exists p, amin (map (rd x) S) = Some (rd x p) /\
            first_equal (rd x p) (map (rd x) S) S = p /\
            is_first_min x sel p.
Proof.
  intros Hc0 Hs0.
  assert (In c0 S) as Hin by (apply in_group; auto).
  destruct (amin (map (rd x) S)) as [m|] eqn:Em.
  2:{ apply amin_none in Em; destruct S; [destruct Hin | discriminate]. }
  destruct (amin_spec _ _ Em) as [Hm Hall].
  apply in_map_iff in Hm as (q & Eq & Hq).
  rewrite Forall_forall in Hall.
  pose proof (hd_filter_first (fun c => rd x c =? m) S q group_sorted Hq
                ltac:(now apply Z.eqb_eq)) as (H1 & H2 & H3).
  set (p := hd 0 (filter (fun c => rd x c =? m) S)) in *.
  apply Z.eqb_eq in H2.
  exists p; rewrite H2; split; [auto | split].
  - rewrite first_equal_group; reflexivity.
  - apply in_group in H1 as [Hp Sp].
    split; [auto | split; [auto|]].
    intros c Hc Sc; assert (In c S) as Hc' by (apply in_group; auto).
    rewrite H2; split; [apply Hall, in_map; auto|].
    intros Hlt.
    assert (m <= rd x c) by (apply Hall, in_map; auto).
    destruct (Z.eq_dec (rd x c) m) as [E|]; [|lia].
    specialize (H3 c Hc' ltac:(now apply Z.eqb_eq)); lia.
Qed.

Lemma group_max c0 :
  0 <= c0 < len x -> sel c0 = true ->
  exists p, amax (map (rd x) S) = Some (rd x p) /\
            first_equal (rd x p) (map (rd x) S) S = p /\
            is_first_max x sel p.
Proof.
  intros Hc0 Hs0.
  assert (In c0 S) as Hin by (apply in_group; auto).
  destruct (amax (map (rd x) S)) as [m|] eqn:Em.
  2:{ apply amax_none in Em; destruct S; [destruct Hin | discriminate]. }
  destruct (amax_spec _ _ Em) as [Hm Hall].
  apply in_map_iff in Hm as (q & Eq & Hq).
  rewrite Forall_forall in Hall.
  pose proof (hd_filter_first (fun c => rd x c =? m) S q group_sorted Hq
                ltac:(now apply Z.eqb_eq)) as (H1 & H2 & H3).
  set (p := hd 0 (filter (fun c => rd x c =? m) S)) in *.
  apply Z.eqb_eq in H2.
  exists p; rewrite H2; split; [auto | split].
  - rewrite first_equal_group; reflexivity.
  - apply in_group in H1 as [Hp Sp].
    split; [auto | split; [auto|]].
    intros c Hc Sc; assert (In c S) as Hc' by (apply in_group; auto).
    rewrite H2; split; [apply Hall, in_map; auto|].
    intros Hlt.
    assert (rd x c <= m) by (apply Hall, in_map; auto).
    destruct (Z.eq_dec (rd x c) m) as [E|]; [|lia].
    specialize (H3 c Hc' ltac:(now apply Z.eqb_eq)); lia.
Qed.

Lemma group_empty :
  (forall c, 0 <= c < len x -> sel c = false) -> S = [].
Proof.
  intros H; destruct S as [|c S'] eqn:E; auto.
  assert (In c S) as Hc by (rewrite E; now left).
  apply in_group in Hc as [Hc Sc]; rewrite H in Sc; auto; discriminate.
Qed.

End Group.

Section GroupExtrema.

Variable int_size : Z.
Variable lexsort : list Z -> list Z -> list nat.
Variable cupy_median : list Z -> py_exception + value.

(** In the three cases without an array [index], [_select] applies
    [single_group] to the values and the positions of the selected
    cells. *)
Lemma select_group flags input labels index :
  (forall l, labels = Some l ->
     length (arr_data l) = length (arr_data input)) ->
  (forall a, index = IndexArray a -> labels = None) ->
  let S := filter (group_selected labels index)
                  (zrange (len (arr_data input))) in
  _select int_size lexsort cupy_median flags input labels index
  = single_group cupy_median flags (map (rd (arr_data input)) S) S.
Proof.
  intros Hl Hi S; unfold _select, S, group_selected.
  destruct labels as [l|].
  - specialize (Hl l eq_refl).
    destruct index as [|v|a]; [| | specialize (Hi a eq_refl); discriminate].
    + rewrite (compress_cells (fun v => 0 <? v)) by auto.
      rewrite (compress_cells (fun v => 0 <? v) (arr_data l)
                 (zrange (len (arr_data input)))).
      2:{ rewrite length_zrange; unfold len; lia. }
      assert (len (zrange (len (arr_data input))) = len (arr_data input)) as ->
        by (unfold len; rewrite length_zrange; lia).
      f_equal.
      rewrite <- (map_id (filter _ _)) at 2.
      apply map_ext_in; intros c Hc; apply filter_In in Hc as [Hc _].
      apply in_zrange in Hc; unfold rd.
      rewrite nth_zrange by lia; lia.
    + rewrite (compress_cells (fun a => a =? v)) by auto.
      rewrite (compress_cells (fun a => a =? v) (arr_data l)
                 (zrange (len (arr_data input)))).
      2:{ rewrite length_zrange; unfold len; lia. }
      assert (len (zrange (len (arr_data input))) = len (arr_data input)) as ->
        by (unfold len; rewrite length_zrange; lia).
      f_equal.
      rewrite <- (map_id (filter _ _)) at 2.
      apply map_ext_in; intros c Hc; apply filter_In in Hc as [Hc _].
      apply in_zrange in Hc; unfold rd.
      rewrite nth_zrange by lia; lia.
  - rewrite filter_all, map_rd_zrange; reflexivity.
Qed.

End GroupExtrema.

(** The statement for the calls without an array [index]. *)
Definition group_extrema (int_size : Z) (lexsort : list Z -> list Z -> list nat)
           (cupy_median : list Z -> py_exception + value)
           (input : ndarray) (labels : option ndarray) (index : index_arg)
  : Prop :=
  let x := arr_data input in
  let sel := group_selected labels index in
  let dims := arr_shape input in
  ((forall c, 0 <= c < len x -> sel c = false) ->
   extrema int_size lexsort cupy_median input labels index = inl ValueError /\
   minimum int_size lexsort cupy_median input labels index = inl ValueError /\
   maximum int_size lexsort cupy_median input labels index = inl ValueError /\
   minimum_position int_size lexsort cupy_median input labels index
   = inl ValueError /\
   maximum_position int_size lexsort cupy_median input labels index
   = inl ValueError) /\
  ((exists c, 0 <= c < len x /\ sel c = true) ->
   exists pmin pmax,
     is_first_min x sel pmin /\ is_first_max x sel pmax /\
     extrema int_size lexsort cupy_median input labels index
     = inr (Scalar0 (VInt (rd x pmin)), Scalar0 (VInt (rd x pmax)),
            OneTuple (unravel dims pmin), OneTuple (unravel dims pmax)) /\
     minimum int_size lexsort cupy_median input labels index
     = inr (Scalar0 (VInt (rd x pmin))) /\
     maximum int_size lexsort cupy_median input labels index
     = inr (Scalar0 (VInt (rd x pmax))) /\
     minimum_position int_size lexsort cupy_median input labels index
     = inr (OneTuple (unravel dims pmin)) /\
     maximum_position int_size lexsort cupy_median input labels index
     = inr (OneTuple (unravel dims pmax))).

(** X17.  Called without [labels], or with [labels] and an [index] that
    is [None] (the cells with a positive label) or a scalar (the cells
    with that label), [minimum], [maximum], [minimum_position],
    [maximum_position] and [extrema] raise ValueError when no cell is
    selected, and otherwise return the least and the greatest value of
    the selected cells and, as positions, the multi-index of the first
    selected cell in row-major order that holds that value. *)
Theorem extrema_of_one_group
        (int_size : Z) (lexsort : list Z -> list Z -> list nat)
        (cupy_median : list Z -> py_exception + value)
        (input : ndarray) (labels : option ndarray) (index : index_arg) :
  well_formed input ->
  size input < 2 ^ 63 ->
  (forall l, labels = Some l ->
     length (arr_data l) = length (arr_data input)) ->
  (forall a, index = IndexArray a -> labels = None) ->
  group_extrema int_size lexsort cupy_median input labels index.
Proof.
  intros [Wd Wl] Hsize Hl Hi; unfold group_extrema.
  set (x := arr_data input) in *.
  set (sel := group_selected labels index).
  pose proof (select_group int_size lexsort cupy_median) as HS.
  unfold extrema, minimum, maximum, minimum_position, maximum_position.
  rewrite !HS by auto; clear HS; fold x; fold sel.
  split.
  - intros He; rewrite (group_empty x sel He); cbn; auto.
  - intros (c0 & Hc0 & Sc0).
    destruct (group_min x sel c0 Hc0 Sc0) as (pmin & Emin & Fmin & Imin).
    destruct (group_max x sel c0 Hc0 Sc0) as (pmax & Emax & Fmax & Imax).
    exists pmin, pmax; split; [auto | split; [auto|]].
    assert (Forall (fun d => 1 <= d) (arr_shape input)) as Hpos.
    { apply shape_positive; auto; fold (size input); lia. }
    unfold single_group; rewrite Emin, Emax; cbn [find_min find_max
      find_min_positions find_max_positions find_median app first_result
      positions_of as_position].
    rewrite ?Fmin, ?Fmax.
    rewrite !(position_tuple_unravel (arr_shape input)) by auto.
    repeat split; reflexivity.
Qed.

Lemma extrema_of_one_group_witness :
  group_extrema 8 (fun _ _ => []) (fun _ => inl ValueError)
    {| arr_dtype := int32; arr_shape := [2; 3];
       arr_data := [4; 1; 7; 1; 7; 0] |}
    (Some {| arr_dtype := int32; arr_shape := [2; 3];
             arr_data := [1; 2; 2; 2; 0; 0] |})
    (IndexScalar 2).
Proof.
  apply extrema_of_one_group.
  - now apply well_formedb_spec.
  - reflexivity.
  - intros l [= <-]; reflexivity.
  - intros a H; discriminate H.
Defined.

(** ** Counting in an ascending list *)

Lemma searchsorted_cons a t e :
  searchsorted (a :: t) e = (if a <? e then 1 else 0) + searchsorted t e.
Proof.
  unfold searchsorted; cbn [filter]; destruct (a <? e); cbn [length]; lia.
Qed.

Lemma searchsorted_range ls e : 0 <= searchsorted ls e <= len ls.
Proof.
  unfold searchsorted, len; pose proof (filter_length_le (fun a => a <? e) ls).
  lia.
Qed.

Lemma searchsorted_step ls v :
  searchsorted ls (v + 1)
  = searchsorted ls v + Z.of_nat (count_occ Z.eq_dec ls v).
Proof.
  induction ls as [|a t IH]; [reflexivity|].
  rewrite !searchsorted_cons, IH; cbn [count_occ].
  destruct (Z.eq_dec a v) as [->|N].
  - destruct (Z.ltb_spec v (v + 1)), (Z.ltb_spec v v); lia.
  - destruct (Z.ltb_spec a (v + 1)), (Z.ltb_spec a v); lia.
Qed.

Lemma searchsorted_zero ls e :
  Forall (fun a => e <= a) ls -> searchsorted ls e = 0.
Proof.
  induction 1 as [|a t Ha _ IH]; [reflexivity|].
  rewrite searchsorted_cons, IH; destruct (Z.ltb_spec a e); lia.
Qed.

Lemma searchsorted_all ls e :
  Forall (fun a => a < e) ls -> searchsorted ls e = len ls.
Proof.
  unfold len; induction 1 as [|a t Ha _ IH]; [reflexivity|].
  rewrite searchsorted_cons, IH; cbn [length].
  destruct (Z.ltb_spec a e); lia.
Qed.

Lemma rd_cons a t k : 0 < k -> rd (a :: t) k = rd t (k - 1).
Proof.
  intros Hk; unfold rd.
  replace (Z.to_nat k) with (S (Z.to_nat (k - 1))) by lia; reflexivity.
Qed.

(** In an ascending list the entries below [e] are the first
    [searchsorted ls e] ones. *)
Lemma sorted_searchsorted ls e :
  StronglySorted Z.le ls ->
  forall k, 0 <= k < len ls -> (k < searchsorted ls e <-> rd ls k < e).
Proof.
  unfold len; induction 1 as [|a t Ht IH Ha]; intros k Hk;
    [simpl in Hk; lia|].
  cbn [length] in Hk; rewrite searchsorted_cons.
  pose proof (searchsorted_range t e) as Hr.
  destruct (Z.eq_dec k 0) as [->|Nk].
  - change (rd (a :: t) 0) with a.
    destruct (Z.ltb_spec a e); [lia|].
    rewrite searchsorted_zero; [lia|].
    revert Ha; apply Forall_impl; intros; lia.
  - rewrite rd_cons by lia.
    destruct (Z.ltb_spec a e).
    + rewrite <- IH by lia; lia.
    + rewrite searchsorted_zero
        by (revert Ha; apply Forall_impl; intros; lia).
      assert (a <= rd t (k - 1)); [|lia].
      rewrite Forall_forall in Ha; apply Ha, nth_In; lia.
Qed.

Lemma sorted_of_nth (l : list Z) :
  (forall a b, (a <= b < length l)%nat -> nth a l 0 <= nth b l 0) ->
  StronglySorted Z.le l.
Proof.
  induction l as [|h t IH]; intros H; constructor.
  - apply IH; intros a b Hab; apply (H (S a) (S b)); simpl; lia.
  - apply Forall_forall; intros v Hv.
    apply (In_nth _ _ 0) in Hv as (k & Hk & <-).
    apply (H O (S k)); simpl; lia.
Qed.

Lemma sorted_nth (l : list Z) :
  StronglySorted Z.le l ->
  forall a b, 0 <= a <= b -> b < len l -> rd l a <= rd l b.
Proof.
  unfold len; induction 1 as [|h t Ht IH Hh]; intros a b Hab Hb;
    [simpl in Hb; lia|].
  cbn [length] in Hb.
  destruct (Z.eq_dec a 0) as [->|Na], (Z.eq_dec b 0) as [->|Nb];
    try lia.
  - change (rd (h :: t) 0) with h; rewrite rd_cons by lia.
    rewrite Forall_forall in Hh; apply Hh, nth_In; lia.
  - rewrite !rd_cons by lia; apply IH; lia.
Qed.

Section Ascending.

Variable ls : list Z.

Hypothesis ls_sorted : StronglySorted Z.le ls.

(** The first and the last position of a value that occurs. *)
Lemma first_position e :
  In e ls ->
  let s := searchsorted ls e in
  0 <= s < len ls /\ rd ls s = e /\
  forall k, 0 <= k < len ls -> rd ls k = e -> s <= k.
Proof.
  intros Hin s.
  apply (In_nth _ _ 0) in Hin as (k0 & Hk0 & E0).
  pose proof (searchsorted_range ls e) as Hr; fold s in Hr.
  assert (forall k, 0 <= k < len ls -> rd ls k = e -> s <= k) as Hmin.
  { intros k Hk E.
    destruct (Z_lt_le_dec k s) as [Hlt|]; [|lia].
    apply (sorted_searchsorted ls e ls_sorted k Hk) in Hlt; lia. }
  assert (s <= Z.of_nat k0) as Hs.
  { apply Hmin; [unfold len; lia | unfold rd; now rewrite Nat2Z.id]. }
  assert (0 <= s < len ls) as Hs' by (unfold len in *; lia).
  split; [auto | split; [| auto]].
  assert (~ rd ls s < e) as H1.
  { intros H; apply (sorted_searchsorted ls e ls_sorted s Hs') in H; lia. }
  pose proof (sorted_nth ls ls_sorted s (Z.of_nat k0) ltac:(lia)
                ltac:(unfold len; lia)) as H2.
  unfold rd in H2 at 2; rewrite Nat2Z.id, E0 in H2; lia.
Qed.

Lemma last_position e :
  In e ls ->
  let t := searchsorted ls (e + 1) - 1 in
  0 <= t < len ls /\ rd ls t = e /\
  forall k, 0 <= k < len ls -> rd ls k = e -> k <= t.
Proof.
  intros Hin t.
  apply (In_nth _ _ 0) in Hin as (k0 & Hk0 & E0).
  pose proof (searchsorted_range ls (e + 1)) as Hr.
  assert (forall k, 0 <= k < len ls -> rd ls k = e -> k <= t) as Hmax.
  { intros k Hk E.
    assert (k < searchsorted ls (e + 1)); [|unfold t; lia].
    apply (sorted_searchsorted ls (e + 1) ls_sorted k Hk); lia. }
  assert (Z.of_nat k0 <= t) as Ht.
  { apply Hmax; [unfold len; lia | unfold rd; now rewrite Nat2Z.id]. }
  assert (0 <= t < len ls) as Ht' by (unfold t, len in *; lia).
  split; [auto | split; [| auto]].
  assert (rd ls t < e + 1) as H1.
  { apply (sorted_searchsorted ls (e + 1) ls_sorted t Ht'); unfold t; lia. }
  pose proof (sorted_nth ls ls_sorted (Z.of_nat k0) t ltac:(lia)
                ltac:(lia)) as H2.
  unfold rd in H2 at 1; rewrite Nat2Z.id, E0 in H2; lia.
Qed.

End Ascending.

Section AscendingNeighbours.

Variable ls : list Z.

Hypothesis ls_sorted : StronglySorted Z.le ls.

(** The entry at the position where the values not below [v] begin is a
    value whose first position this is. *)
Lemma next_value v :
  searchsorted ls v < len ls ->
  let e := rd ls (searchsorted ls v) in
  In e ls /\ v <= e /\ searchsorted ls e = searchsorted ls v.
Proof.
  intros Hs e.
  pose proof (searchsorted_range ls v) as Hr.
  set (s := searchsorted ls v) in *.
  assert (In e ls) as Hin by (apply nth_In; unfold len in *; lia).
  assert (v <= e) as Hv.
  { destruct (Z_lt_le_dec e v) as [Hlt|]; [|lia].
    apply (sorted_searchsorted ls v ls_sorted s ltac:(lia)) in Hlt.
    fold s in Hlt; lia. }
  split; [auto | split; [auto|]].
  destruct (first_position ls ls_sorted e Hin) as (Hs1 & E1 & Hmin).
  pose proof (Hmin s ltac:(lia) eq_refl) as Hle.
  destruct (Z_lt_le_dec (searchsorted ls e) s) as [Hlt|]; [|lia].
  assert (rd ls (searchsorted ls e) < v) as H.
  { apply (sorted_searchsorted ls v ls_sorted); [lia | fold s; lia]. }
  lia.
Qed.

(** The entry before the position where the values above [v] begin is a
    value whose last position this is. *)
Lemma previous_value v :
  0 < searchsorted ls (v + 1) ->
  let e := rd ls (searchsorted ls (v + 1) - 1) in
  In e ls /\ e <= v /\ searchsorted ls (e + 1) = searchsorted ls (v + 1).
Proof.
  intros Hs e.
  pose proof (searchsorted_range ls (v + 1)) as Hr.
  set (t := searchsorted ls (v + 1) - 1) in *.
  assert (0 <= t < len ls) as Ht by (unfold t; lia).
  assert (In e ls) as Hin by (apply nth_In; unfold len in *; lia).
  assert (e < v + 1) as Hv.
  { apply (sorted_searchsorted ls (v + 1) ls_sorted t Ht); unfold t; lia. }
  split; [auto | split; [lia|]].
  destruct (last_position ls ls_sorted e Hin) as (Ht1 & E1 & Hmax).
  pose proof (Hmax t Ht eq_refl) as Hle.
  destruct (Z_lt_le_dec t (searchsorted ls (e + 1) - 1)) as [Hlt|];
    [|unfold t in *; lia].
  exfalso.
  assert (t + 1 < searchsorted ls (e + 1)) as H1 by lia.
  pose proof (searchsorted_range ls (e + 1)) as Hr'.
  assert (rd ls (t + 1) < e + 1) as H2
    by (apply (sorted_searchsorted ls (e + 1) ls_sorted); lia).
  assert (~ rd ls (t + 1) < v + 1) as H3.
  { intros H; apply (sorted_searchsorted ls (v + 1) ls_sorted) in H;
      [unfold t in *; lia | lia]. }
  lia.
Qed.

End AscendingNeighbours.

Lemma searchsorted_mono ls a b :
  a <= b -> searchsorted ls a <= searchsorted ls b.
Proof.
  intros Hab; induction ls as [|h t IH]; [reflexivity|].
  rewrite !searchsorted_cons.
  destruct (Z.ltb_spec h a), (Z.ltb_spec h b); lia.
Qed.

(** ** The indices at which the label changes *)

Lemma cumsum_counts ls : forall n s acc,
  acc = searchsorted ls (Z.of_nat s) ->
  cumsum_from acc (map (fun v => Z.of_nat (count_occ Z.eq_dec ls v))
                       (map Z.of_nat (seq s n)))
  = map (fun v => searchsorted ls (v + 1)) (map Z.of_nat (seq s n)).
Proof.
  induction n as [|n IH]; intros s acc ->; [reflexivity|].
  cbn [seq map cumsum_from]; rewrite <- searchsorted_step; f_equal.
  apply IH; f_equal; lia.
Qed.

Lemma label_change_index_spec ls M :
  Forall (fun v => 0 <= v) ls -> amax ls = Some M ->
  label_change_index ls
  = map (fun v => searchsorted ls (v + 1)) (zrange (M + 1)).
Proof.
  intros Hn Hm; unfold label_change_index, cumsum, bincount; rewrite Hm.
  apply cumsum_counts; symmetry; apply searchsorted_zero.
  revert Hn; apply Forall_impl; intros; exact H.
Qed.

Lemma shifted_starts ls : forall n s,
  searchsorted ls (Z.of_nat s)
  :: removelast (map (fun v => searchsorted ls (v + 1))
                     (map Z.of_nat (seq s (S n))))
  = map (searchsorted ls) (map Z.of_nat (seq s (S n))).
Proof.
  induction n as [|n IH]; intros s; [reflexivity|].
  change (seq s (S (S n))) with (s :: seq (S s) (S n)).
  cbn [map]; f_equal.
  change (seq (S s) (S n)) with (S s :: seq (S (S s)) n) at 1.
  cbn [map removelast].
  change (S s :: seq (S (S s)) n) with (seq (S s) (S n)).
  replace (Z.of_nat s + 1) with (Z.of_nat (S s)) by lia.
  specialize (IH (S s)).
  change (seq (S s) (S n)) with (S s :: seq (S (S s)) n) in IH at 1.
  cbn [map] in IH.
  replace (Z.of_nat (S s) + 1) with (Z.of_nat (S (S s))) in * by lia.
  exact IH.
Qed.

Lemma min_index_spec ls M :
  Forall (fun v => 0 <= v) ls -> amax ls = Some M ->
  min_index ls = map (searchsorted ls) (zrange (M + 1)).
Proof.
  intros Hn Hm; unfold min_index.
  rewrite (label_change_index_spec ls M Hn Hm).
  assert (0 <= M) as HM.
  { apply amax_spec in Hm as [Hin _].
    rewrite Forall_forall in Hn; now apply Hn. }
  unfold zrange.
  replace (Z.to_nat (M + 1)) with (S (Z.to_nat M)) by lia.
  rewrite <- shifted_starts; f_equal.
  symmetry; apply searchsorted_zero.
  revert Hn; apply Forall_impl; intros; exact H.
Qed.

Lemma max_index_spec ls M :
  Forall (fun v => 0 <= v) ls -> amax ls = Some M ->
  max_index ls = map (fun v => searchsorted ls (v + 1) - 1) (zrange (M + 1)).
Proof.
  intros Hn Hm; unfold max_index.
  rewrite (label_change_index_spec ls M Hn Hm), map_map; reflexivity.
Qed.

(** ** Stores through an index array *)

Definition store (b : list Z) (p : Z * Z) : list Z :=
  wr b (wrap_index (len b) (fst p)) (snd p).

Lemma scatter_fold a idx vals :
  scatter a idx vals = fold_left store (combine idx vals) a.
Proof. reflexivity. Qed.

Lemma len_store b p : len (store b p) = len b.
Proof. unfold store, wr, len; now rewrite length_upd. Qed.

Lemma rd_wr_eqb b t v e :
  0 <= t < len b -> 0 <= e ->
  rd (wr b t v) e = if e =? t then v else rd b e.
Proof.
  intros Ht He; unfold rd, wr, len in *.
  destruct (Z.eqb_spec e t) as [->|N].
  - apply nth_upd_eq; lia.
  - apply nth_upd_ne; lia.
Qed.

Lemma len_stores W : forall b, len (fold_left store W b) = len b.
Proof.
  induction W as [|p W IH]; intros b; [reflexivity|].
  cbn [fold_left]; now rewrite IH, len_store.
Qed.

(** When all the stores to one cell carry one value, the cell ends with
    that value, and a cell that no store names keeps its content. *)
Lemma stores_functional (f : Z -> Z) W : forall base,
  (forall p, In p W -> 0 <= fst p < len base /\ snd p = f (fst p)) ->
  forall e, 0 <= e ->
    rd (fold_left store W base) e
    = if existsb (Z.eqb e) (map fst W) then f e else rd base e.
Proof.
  induction W as [|[t v] W IH]; intros base HW e He; [reflexivity|].
  cbn [fold_left map existsb fst].
  destruct (HW (t, v) (or_introl eq_refl)) as [Ht Hv]; cbn [fst snd] in Ht, Hv.
  rewrite IH; auto.
  - destruct (existsb (Z.eqb e) (map fst W)); [now rewrite orb_true_r|].
    rewrite orb_false_r; unfold store, wrap_index; cbn [fst snd].
    rewrite Z.mod_small by lia.
    rewrite rd_wr_eqb by lia.
    destruct (Z.eqb_spec e t) as [->|]; auto.
  - intros p Hp; rewrite len_store; apply HW; now right.
Qed.

(** The order of such stores does not matter. *)
Lemma stores_any_order (f : Z -> Z) W W' base :
  (forall p, In p W -> 0 <= fst p < len base /\ snd p = f (fst p)) ->
  Permutation W' W ->
  fold_left store W' base = fold_left store W base.
Proof.
  intros HW P.
  assert (forall p, In p W' -> 0 <= fst p < len base /\ snd p = f (fst p))
    as HW' by (intros p Hp; apply HW; eapply Permutation_in; eauto).
  pose proof len_stores as Hlen.
  apply rd_ext.
  - pose proof (Hlen W base) as H1; pose proof (Hlen W' base) as H2.
    unfold len in *; lia.
  - intros e He.
    rewrite (stores_functional f W' base HW' e) by lia.
    rewrite (stores_functional f W base HW e) by lia.
    assert (existsb (Z.eqb e) (map fst W') = existsb (Z.eqb e) (map fst W))
      as ->; [|reflexivity].
    apply eq_true_iff_eq; rewrite !existsb_exists.
    split; intros (u & Hu & E); exists u; split; auto;
      eapply Permutation_in; try exact Hu;
      [apply Permutation_map; exact P
      | apply Permutation_map; symmetry; exact P].
Qed.

(** ** The per-label arrays of [_select] *)

(** The stores of [r[labels[idx]] = a[idx]]: cell and value. *)
Definition label_stores (ls idx a : list Z) : list (Z * Z) :=
  combine (gather ls idx) (gather a idx).

Lemma per_label_fold size ls idx a :
  per_label size ls idx a
  = fold_left store (label_stores ls idx a) (repeat 0 (Z.to_nat size)).
Proof. reflexivity. Qed.

Lemma len_per_label size ls idx a :
  0 <= size -> len (per_label size ls idx a) = size.
Proof.
  intros H; rewrite per_label_fold, len_stores.
  unfold len; rewrite repeat_length; lia.
Qed.

Lemma combine_map {A B C : Type} (f : A -> B) (g : A -> C) l :
  combine (map f l) (map g l) = map (fun v => (f v, g v)) l.
Proof. induction l as [|h t IH]; cbn [map combine]; now rewrite ?IH. Qed.

Lemma rd_repeat_zero k e : rd (repeat 0 k) e = 0.
Proof.
  unfold rd; generalize (Z.to_nat e) as j.
  induction k as [|k IH]; intros [|j]; cbn [repeat nth]; auto.
Qed.

Lemma take_inside a i : 0 <= i < len a -> take a i = rd a i.
Proof. intros H; unfold take, wrap_index; now rewrite Z.mod_small. Qed.

Lemma take_last a : 0 < len a -> take a (-1) = rd a (len a - 1).
Proof.
  intros H; unfold take, wrap_index; f_equal.
  rewrite <- (Z.mod_add _ 1) by lia.
  rewrite Z.mod_small; lia.
Qed.

Section PerLabel.

Variables (ls a : list Z) (M : Z).

Hypothesis ls_sorted : StronglySorted Z.le ls.
Hypothesis ls_nonneg : Forall (fun v => 0 <= v) ls.
Hypothesis ls_max : amax ls = Some M.
Hypothesis a_len : len a = len ls.

Lemma labels_bounded : In M ls /\ forall v, In v ls -> 0 <= v <= M.
Proof.
  destruct (amax_spec ls M ls_max) as [Hin Hall].
  rewrite Forall_forall in Hall, ls_nonneg.
  split; [auto | intros v Hv; split; [apply ls_nonneg | apply Hall]; auto].
Qed.

Lemma last_is_max :
  searchsorted ls (M + 1) = len ls /\ rd ls (len ls - 1) = M /\ 0 < len ls.
Proof.
  destruct labels_bounded as [Hin Hb].
  assert (searchsorted ls (M + 1) = len ls) as E.
  { apply searchsorted_all, Forall_forall; intros v Hv; apply Hb in Hv; lia. }
  destruct (last_position ls ls_sorted M Hin) as (Ht & Et & _).
  rewrite E in Ht, Et; split; [auto | split; [auto | lia]].
Qed.

Lemma min_stores_spec p :
  In p (label_stores ls (min_index ls) a) ->
  In (fst p) ls /\ snd p = rd a (searchsorted ls (fst p)).
Proof.
  unfold label_stores, gather.
  rewrite (min_index_spec ls M ls_nonneg ls_max), !map_map, combine_map.
  rewrite in_map_iff; intros (v & <- & Hv); cbn [fst snd].
  apply in_zrange in Hv.
  destruct labels_bounded as [Hin Hb].
  destruct (first_position ls ls_sorted M Hin) as (HsM & _ & _).
  pose proof (searchsorted_mono ls v M ltac:(lia)) as Hm.
  pose proof (searchsorted_range ls v) as Hr.
  rewrite !take_inside by (rewrite ?a_len; lia).
  destruct (next_value ls ls_sorted v ltac:(lia)) as (He & _ & Es).
  split; [auto | now rewrite Es].
Qed.

Lemma min_stores_cover e :
  In e ls -> In e (map fst (label_stores ls (min_index ls) a)).
Proof.
  intros He; unfold label_stores, gather.
  rewrite (min_index_spec ls M ls_nonneg ls_max), !map_map, combine_map.
  rewrite map_map; cbn [fst].
  destruct labels_bounded as [_ Hb].
  destruct (first_position ls ls_sorted e He) as (Hs & Es & _).
  apply in_map_iff; exists e; split.
  - now rewrite take_inside by lia.
  - apply in_zrange; apply Hb in He; lia.
Qed.

Lemma max_stores_spec p :
  In p (label_stores ls (max_index ls) a) ->
  In (fst p) ls /\ snd p = rd a (searchsorted ls (fst p + 1) - 1).
Proof.
  unfold label_stores, gather.
  rewrite (max_index_spec ls M ls_nonneg ls_max), !map_map, combine_map.
  rewrite in_map_iff; intros (v & <- & Hv); cbn [fst snd].
  apply in_zrange in Hv.
  destruct labels_bounded as [Hin Hb].
  destruct last_is_max as (EM & EL & Hpos).
  pose proof (searchsorted_range ls (v + 1)) as Hr.
  destruct (Z.eq_dec (searchsorted ls (v + 1)) 0) as [E0|N0].
  - rewrite E0; change (0 - 1) with (-1).
    rewrite !take_last by (rewrite ?a_len; lia).
    rewrite a_len, EL, EM; auto.
  - rewrite !take_inside by (rewrite ?a_len; lia).
    destruct (previous_value ls ls_sorted v ltac:(lia)) as (He & _ & Es).
    split; [auto | now rewrite Es].
Qed.

Lemma max_stores_cover e :
  In e ls -> In e (map fst (label_stores ls (max_index ls) a)).
Proof.
  intros He; unfold label_stores, gather.
  rewrite (max_index_spec ls M ls_nonneg ls_max), !map_map, combine_map.
  rewrite map_map; cbn [fst].
  destruct labels_bounded as [_ Hb].
  destruct (last_position ls ls_sorted e He) as (Ht & Et & _).
  apply in_map_iff; exists e; split.
  - now rewrite take_inside by lia.
  - apply in_zrange; apply Hb in He; lia.
Qed.

Variable size : Z.

Hypothesis size_fits : M + 1 <= size.

Lemma stores_in_range (f : Z -> Z) idx :
  (forall p, In p (label_stores ls idx a) ->
     In (fst p) ls /\ snd p = f (fst p)) ->
  forall p, In p (label_stores ls idx a) ->
    0 <= fst p < len (repeat 0 (Z.to_nat size)) /\ snd p = f (fst p).
Proof.
  intros H p Hp; destruct (H p Hp) as [Hin E]; split; auto.
  destruct labels_bounded as [_ Hb]; apply Hb in Hin.
  unfold len; rewrite repeat_length; lia.
Qed.

Lemma per_label_slot (f : Z -> Z) idx e :
  (forall p, In p (label_stores ls idx a) ->
     In (fst p) ls /\ snd p = f (fst p)) ->
  (forall v, In v ls -> In v (map fst (label_stores ls idx a))) ->
  0 <= e ->
  (In e ls -> rd (per_label size ls idx a) e = f e) /\
  (~ In e ls -> rd (per_label size ls idx a) e = 0).
Proof.
  intros Hs Hc He; rewrite per_label_fold.
  rewrite (stores_functional f _ _ (stores_in_range f idx Hs) e He).
  split; intros H.
  - assert (existsb (Z.eqb e) (map fst (label_stores ls idx a)) = true) as ->;
      [|reflexivity].
    apply existsb_exists; exists e; split; [auto | apply Z.eqb_refl].
  - assert (existsb (Z.eqb e) (map fst (label_stores ls idx a)) = false) as ->;
      [|apply rd_repeat_zero].
    apply not_true_is_false; rewrite existsb_exists.
    intros (u & Hu & E); apply Z.eqb_eq in E; subst u.
    apply in_map_iff in Hu as (p & <- & Hp); apply H, (Hs p Hp).
Qed.

Lemma per_label_min e :
  0 <= e ->
  (In e ls ->
   rd (per_label size ls (min_index ls) a) e = rd a (searchsorted ls e)) /\
  (~ In e ls -> rd (per_label size ls (min_index ls) a) e = 0).
Proof.
  apply (per_label_slot (fun e => rd a (searchsorted ls e)));
    [exact min_stores_spec | exact min_stores_cover].
Qed.

Lemma per_label_max e :
  0 <= e ->
  (In e ls ->
   rd (per_label size ls (max_index ls) a) e
   = rd a (searchsorted ls (e + 1) - 1)) /\
  (~ In e ls -> rd (per_label size ls (max_index ls) a) e = 0).
Proof.
  apply (per_label_slot (fun e => rd a (searchsorted ls (e + 1) - 1)));
    [exact max_stores_spec | exact max_stores_cover].
Qed.

(** Whatever the order of the stores, the arrays are the same. *)
Lemma per_label_min_any_order W :
  Permutation W (label_stores ls (min_index ls) a) ->
  fold_left store W (repeat 0 (Z.to_nat size))
  = per_label size ls (min_index ls) a.
Proof.
  intros P; rewrite per_label_fold.
  apply (stores_any_order (fun e => rd a (searchsorted ls e))); auto.
  apply (stores_in_range (fun e => rd a (searchsorted ls e))), min_stores_spec.
Qed.

Lemma per_label_max_any_order W :
  Permutation W (label_stores ls (max_index ls) a) ->
  fold_left store W (repeat 0 (Z.to_nat size))
  = per_label size ls (max_index ls) a.
Proof.
  intros P; rewrite per_label_fold.
  apply (stores_any_order (fun e => rd a (searchsorted ls (e + 1) - 1))); auto.
  apply (stores_in_range (fun e => rd a (searchsorted ls (e + 1) - 1))),
    max_stores_spec.
Qed.

End PerLabel.

(** ** The cells in the order of [lexsort] *)

(** [order] arranges the cells of [x] by label [l] and, within a label,
    by value. *)
Definition cells_sorted (x l : list Z) (order : list nat) : Prop :=
  Permutation order (seq 0 (length x)) /\
  forall a b, (a <= b < length x)%nat ->
    let ca := nth a order O in
    let cb := nth b order O in
    nth ca l 0 < nth cb l 0 \/
    (nth ca l 0 = nth cb l 0 /\ nth ca x 0 <= nth cb x 0).

(** [lexsort] does so for every array and labelling. *)
Definition sorts_by_label_then_value
           (lexsort : list Z -> list Z -> list nat) : Prop :=
  forall x l, length l = length x -> cells_sorted x l (lexsort x l).

(** Cell [c] belongs to the region of label [v]. *)
Definition region (l : list Z) (v c : Z) : Prop :=
  0 <= c < len l /\ rd l c = v.

(** Cell [p] of the region of [v] holds the least, resp. the greatest,
    value of the region. *)
Definition region_min (x l : list Z) (v p : Z) : Prop :=
  region l v p /\ forall c, region l v c -> rd x p <= rd x c.

Definition region_max (x l : list Z) (v p : Z) : Prop :=
  region l v p /\ forall c, region l v c -> rd x c <= rd x p.

Lemma nth_map_cells (a : list Z) (order : list nat) k :
  (k < length order)%nat ->
  nth k (map (fun c => nth c a 0) order) 0 = nth (nth k order O) a 0.
Proof.
  intros Hk; rewrite (nth_indep _ 0 (nth O a 0)) by (rewrite length_map; lia).
  exact (map_nth (fun c => nth c a 0) order O k).
Qed.

Lemma map_nth_seq (l : list Z) :
  map (fun c => nth c l 0) (seq 0 (length l)) = l.
Proof.
  apply (nth_ext _ _ 0 0); [now rewrite length_map, length_seq|].
  intros k Hk; rewrite length_map, length_seq in Hk.
  rewrite nth_map_cells by (rewrite length_seq; lia).
  now rewrite seq_nth.
Qed.

Lemma amax_perm l1 l2 : Permutation l1 l2 -> amax l1 = amax l2.
Proof.
  intros P.
  destruct (amax l1) as [m1|] eqn:E1, (amax l2) as [m2|] eqn:E2; auto.
  - destruct (amax_spec _ _ E1) as [I1 A1], (amax_spec _ _ E2) as [I2 A2].
    rewrite Forall_forall in A1, A2.
    assert (m2 <= m1) by (apply A1; eapply Permutation_in; [symmetry|]; eauto).
    assert (m1 <= m2) by (apply A2; eapply Permutation_in; eauto).
    f_equal; lia.
  - apply amax_none in E2; subst l2.
    apply Permutation_sym, Permutation_nil in P; subst l1; discriminate.
  - apply amax_none in E1; subst l1.
    apply Permutation_nil in P; subst l2; discriminate.
Qed.

Section SortedCells.

Variables (x L : list Z) (order : list nat).

Hypothesis L_len : length L = length x.
Hypothesis order_sorted : cells_sorted x L order.

Let xs := map (fun c => nth c x 0) order.
Let ls := map (fun c => nth c L 0) order.
Let positions := map (fun c => nth c (zrange (len x)) 0) order.

Lemma cells_length : length order = length x.
Proof.
  destruct order_sorted as [P _].
  apply Permutation_length in P; now rewrite length_seq in P.
Qed.

Lemma order_cell k : (k < length x)%nat -> (nth k order O < length x)%nat.
Proof.
  intros Hk; destruct order_sorted as [P _].
  assert (In (nth k order O) (seq 0 (length x))) as H.
  { eapply Permutation_in; [exact P|]; apply nth_In.
    now rewrite cells_length. }
  apply in_seq in H; lia.
Qed.

Lemma cell_position c :
  (c < length x)%nat -> exists k, (k < length x)%nat /\ nth k order O = c.
Proof.
  intros Hc; destruct order_sorted as [P _].
  assert (In c order) as H.
  { eapply Permutation_in; [symmetry; exact P|]; apply in_seq; lia. }
  apply (In_nth _ _ O) in H as (k & Hk & E).
  exists k; split; [now rewrite <- cells_length | auto].
Qed.

Lemma sorted_len : len ls = len x /\ len xs = len x /\ len positions = len x.
Proof.
  unfold len, ls, xs, positions; rewrite !length_map, cells_length; auto.
Qed.

Lemma rd_sorted (a : list Z) k :
  0 <= k < len x ->
  rd (map (fun c => nth c a 0) order) k
  = nth (nth (Z.to_nat k) order O) a 0.
Proof.
  intros Hk; unfold rd, len in *.
  apply nth_map_cells; rewrite cells_length; lia.
Qed.

Lemma rd_positions k :
  0 <= k < len x -> rd positions k = Z.of_nat (nth (Z.to_nat k) order O).
Proof.
  intros Hk; unfold positions; rewrite rd_sorted by auto.
  apply nth_zrange; unfold len in *.
  pose proof (order_cell (Z.to_nat k) ltac:(lia)); lia.
Qed.

Lemma sorted_labels_perm : Permutation ls L.
Proof.
  destruct order_sorted as [P _]; unfold ls.
  pose proof (map_nth_seq L) as E; rewrite L_len in E.
  apply (Permutation_map (fun c => nth c L 0)) in P.
  now rewrite E in P.
Qed.

Lemma sorted_labels_in e : In e ls <-> In e L.
Proof.
  split; apply Permutation_in;
    [exact sorted_labels_perm | symmetry; exact sorted_labels_perm].
Qed.

Lemma sorted_labels_max : amax ls = amax L.
Proof. apply amax_perm, sorted_labels_perm. Qed.

Lemma sorted_labels_sorted : StronglySorted Z.le ls.
Proof.
  apply sorted_of_nth; intros a b Hab.
  unfold ls in Hab; rewrite length_map, cells_length in Hab.
  destruct order_sorted as [_ K]; specialize (K a b Hab); cbv zeta in K.
  unfold ls.
  rewrite !nth_map_cells by (rewrite cells_length; lia); lia.
Qed.

(** The cell sorted first among those of a label holds the least value of
    the region, the one sorted last the greatest. *)
Lemma first_of_label e :
  In e L ->
  let s := searchsorted ls e in
  0 <= s < len x /\ region_min x L e (rd positions s) /\
  rd xs s = rd x (rd positions s).
Proof.
  intros He s.
  destruct sorted_len as (Ll & Lx & Lp).
  destruct (first_position ls sorted_labels_sorted e
              (proj2 (sorted_labels_in e) He)) as (Hs & Es & Hmin).
  fold s in Hs, Es; rewrite Ll in Hs, Hmin.
  pose proof (order_cell (Z.to_nat s) ltac:(unfold len in *; lia)) as Hc.
  split; [auto|].
  rewrite rd_positions by auto.
  unfold ls in Es; rewrite rd_sorted in Es by auto.
  unfold xs; rewrite rd_sorted by auto.
  set (cs := nth (Z.to_nat s) order O) in *.
  assert (len L = len x) as LL by (unfold len; now rewrite L_len).
  split; [|unfold rd; now rewrite Nat2Z.id].
  split.
  - split; [rewrite LL; unfold len; lia | unfold rd; now rewrite Nat2Z.id].
  - intros c [Hc1 Hc2]; rewrite LL in Hc1.
    destruct (cell_position (Z.to_nat c) ltac:(unfold len in *; lia))
      as (k & Hk & Ek).
    assert (rd ls (Z.of_nat k) = e) as Ek'.
    { unfold ls; rewrite rd_sorted by (unfold len; lia).
      rewrite Nat2Z.id, Ek; exact Hc2. }
    pose proof (Hmin (Z.of_nat k) ltac:(unfold len; lia) Ek') as Hle.
    destruct order_sorted as [_ K].
    specialize (K (Z.to_nat s) k ltac:(lia)); cbv zeta in K.
    fold cs in K; rewrite Ek in K.
    unfold rd in *; rewrite Nat2Z.id; lia.
Qed.

Lemma last_of_label e :
  In e L ->
  let t := searchsorted ls (e + 1) - 1 in
  0 <= t < len x /\ region_max x L e (rd positions t) /\
  rd xs t = rd x (rd positions t).
Proof.
  intros He t.
  destruct sorted_len as (Ll & Lx & Lp).
  destruct (last_position ls sorted_labels_sorted e
              (proj2 (sorted_labels_in e) He)) as (Ht & Et & Hmax).
  fold t in Ht, Et; rewrite Ll in Ht, Hmax.
  pose proof (order_cell (Z.to_nat t) ltac:(unfold len in *; lia)) as Hc.
  split; [auto|].
  rewrite rd_positions by auto.
  unfold ls in Et; rewrite rd_sorted in Et by auto.
  unfold xs; rewrite rd_sorted by auto.
  set (ct := nth (Z.to_nat t) order O) in *.
  assert (len L = len x) as LL by (unfold len; now rewrite L_len).
  split; [|unfold rd; now rewrite Nat2Z.id].
  split.
  - split; [rewrite LL; unfold len; lia | unfold rd; now rewrite Nat2Z.id].
  - intros c [Hc1 Hc2]; rewrite LL in Hc1.
    destruct (cell_position (Z.to_nat c) ltac:(unfold len in *; lia))
      as (k & Hk & Ek).
    assert (rd ls (Z.of_nat k) = e) as Ek'.
    { unfold ls; rewrite rd_sorted by (unfold len; lia).
      rewrite Nat2Z.id, Ek; exact Hc2. }
    pose proof (Hmax (Z.of_nat k) ltac:(unfold len; lia) Ek') as Hle.
    fold t in Hle.
    destruct order_sorted as [_ K].
    specialize (K k (Z.to_nat t) ltac:(unfold len in *; lia)); cbv zeta in K.
    fold ct in K; rewrite Ek in K.
    unfold rd in *; rewrite Nat2Z.id; lia.
Qed.

End SortedCells.

(** ** The sorted cells of one label *)




Section LabelSegment.

Variables (x L : list Z) (order : list nat).

Hypothesis L_len : length L = length x.
Hypothesis order_sorted : cells_sorted x L order.

Let xs := map (fun c => nth c x 0) order.
Let ls := map (fun c => nth c L 0) order.



End LabelSegment.

(** ** The labels and the indices that [_select] works with *)

Lemma unique_in l v : In v (unique l) <-> In v l.
Proof.
  unfold unique; rewrite nodup_In; split; apply Permutation_in;
    [apply sort_perm | symmetry; apply sort_perm].
Qed.

Lemma nodup_sorted l :
  StronglySorted Z.le l -> StronglySorted Z.lt (nodup Z.eq_dec l).
Proof.
  induction 1 as [|a t Ht IH Ha]; cbn [nodup]; [constructor|].
  destruct (in_dec Z.eq_dec a t) as [Hin|Hnin]; auto.
  constructor; auto.
  apply Forall_forall; intros v Hv; apply nodup_In in Hv.
  rewrite Forall_forall in Ha; specialize (Ha v Hv).
  assert (v <> a) by (intros ->; auto); lia.
Qed.

Lemma unique_sorted l : StronglySorted Z.lt (unique l).
Proof. apply nodup_sorted, sort_sorted. Qed.

Lemma nodup_length_le (l : list Z) :
  (length (nodup Z.eq_dec l) <= length l)%nat.
Proof.
  induction l as [|a t IH]; cbn [nodup]; auto.
  destruct (in_dec Z.eq_dec a t); cbn [length]; lia.
Qed.

Lemma unique_length l : len (unique l) <= len l.
Proof.
  unfold unique, len; pose proof (nodup_length_le (sort l)) as H.
  rewrite (Permutation_length (sort_perm l)) in H; lia.
Qed.

Lemma unique_position l v :
  In v l ->
  0 <= searchsorted (unique l) v < len (unique l) /\
  rd (unique l) (searchsorted (unique l) v) = v.
Proof.
  intros Hv; apply unique_in in Hv.
  destruct (first_position (unique l) (sorted_lt_le _ (unique_sorted l)) v Hv)
    as (H1 & H2 & _); auto.
Qed.

Lemma rd_unique_in l i : 0 <= i < len (unique l) -> In (rd (unique l) i) l.
Proof. intros Hi; apply unique_in, nth_In; unfold len in Hi; lia. Qed.

(** What [_select] finds for the entry [v] of [index]: [idx] is a cell
    of the per-label arrays, which have [M + 2] cells; when [v] is a
    label of [l], the cells labelled [idx] in the labels [L] that
    [_select] works with are those labelled [v] in [l]; otherwise no
    cell is labelled [idx]. *)
Definition entry_found (l L : list Z) (M v idx : Z) : Prop :=
  0 <= idx <= M + 1 /\
  (In v l ->
   In idx L /\ forall c, 0 <= c < len l -> (rd L c = idx <-> rd l c = v)) /\
  (~ In v l -> ~ In idx L).

Lemma plain_entry l lmin lmax v :
  amin l = Some lmin -> amax l = Some lmax -> 0 <= lmin ->
  entry_found l l lmax v
    (if (v >=? 0) && (v <=? lmax) then v else lmax + 1).
Proof.
  intros Emin Emax Hmin.
  destruct (amin_spec l lmin Emin) as [Imin Amin].
  destruct (amax_spec l lmax Emax) as [Imax Amax].
  rewrite Forall_forall in Amin, Amax.
  pose proof (Amin _ Imax) as H0.
  destruct ((v >=? 0) && (v <=? lmax)) eqn:E.
  - apply andb_prop in E as [E1 E2].
    apply Z.geb_le in E1; apply Z.leb_le in E2.
    split; [lia | split; [|tauto]].
    intros Hv; split; [auto | tauto].
  - split; [lia | split].
    + intros Hv; pose proof (Amin _ Hv); pose proof (Amax _ Hv).
      assert ((v >=? 0) && (v <=? lmax) = true); [|congruence].
      apply andb_true_intro; split; [apply Z.geb_le | apply Z.leb_le]; lia.
    + intros _ Hin; apply Amax in Hin; lia.
Qed.

Section RemappedLabels.

Variable l : list Z.

Let U := unique l.
Let L := map (searchsorted U) l.

Lemma remapped_range c : 0 <= c < len l -> 0 <= rd L c < len U.
Proof.
  intros Hc; unfold L; rewrite rd_map by auto.
  apply (unique_position l), nth_In; unfold len in Hc; lia.
Qed.

Lemma remapped_nonneg : Forall (fun v => 0 <= v) L.
Proof.
  apply Forall_forall; intros v Hv; unfold L in Hv.
  apply in_map_iff in Hv as (u & <- & _).
  apply searchsorted_range.
Qed.

Lemma remapped_below v : In v L -> v < len l.
Proof.
  unfold L; intros Hv; apply in_map_iff in Hv as (u & <- & Hu).
  pose proof (unique_position l u Hu) as [H _].
  pose proof (unique_length l) as H'; fold U in H, H'; lia.
Qed.

Lemma remapped_entry M top v :
  amax L = Some M -> top = M + 1 ->
  entry_found l L M v
    (let i := if searchsorted U v >=? len U then 0 else searchsorted U v in
     if take U i =? v then i else top).
Proof.
  intros EM ->.
  destruct (amax_spec L M EM) as [IM AM]; rewrite Forall_forall in AM.
  pose proof remapped_nonneg as Hnn; rewrite Forall_forall in Hnn.
  pose proof (Hnn _ IM) as HM0.
  pose proof (searchsorted_range U v) as Hr.
  assert (0 < len U) as HU.
  { unfold L in IM; apply in_map_iff in IM as (u & _ & Hu).
    pose proof (unique_position l u Hu) as [H _]; fold U in H; lia. }
  cbv zeta.
  set (i := if searchsorted U v >=? len U then 0 else searchsorted U v).
  assert (0 <= i < len U) as Hi
    by (unfold i; destruct (Z.geb_spec (searchsorted U v) (len U)); lia).
  rewrite take_inside by lia.
  destruct (in_dec Z.eq_dec v l) as [Hv|Hv].
  - destruct (unique_position l v Hv) as [Hp Ep]; fold U in Hp, Ep.
    assert (i = searchsorted U v) as Ei
      by (unfold i; destruct (Z.geb_spec (searchsorted U v) (len U)); lia).
    rewrite Ei, Ep, Z.eqb_refl.
    assert (In (searchsorted U v) L) as HinL by (unfold L; apply in_map; auto).
    split; [pose proof (AM _ HinL); lia | split; [|tauto]].
    intros _; split.
    + exact HinL.
    + intros c Hc; unfold L; rewrite rd_map by auto.
      assert (In (rd l c) l) as Hin by (apply nth_In; unfold len in Hc; lia).
      destruct (unique_position l (rd l c) Hin) as [Hq Eq]; fold U in Hq, Eq.
      split; intros E; [|now rewrite E].
      rewrite <- Eq, E; auto.
  - assert (rd U i <> v) as Hne
      by (intros E; apply Hv; rewrite <- E; apply rd_unique_in; auto).
    apply Z.eqb_neq in Hne; rewrite Hne.
    split; [lia | split; [tauto|]].
    intros _ Hin; apply AM in Hin; lia.
Qed.

End RemappedLabels.

Lemma remapped_idxs U top index :
  map (fun p : Z * bool => if snd p then fst p else top)
      (combine
         (map (fun i => if i >=? len U then 0 else i)
              (map (searchsorted U) index))
         (map (fun p : Z * Z => take U (fst p) =? snd p)
              (combine
                 (map (fun i => if i >=? len U then 0 else i)
                      (map (searchsorted U) index))
                 index)))
  = map (fun v =>
           let i := if searchsorted U v >=? len U then 0
                    else searchsorted U v in
           if take U i =? v then i else top) index.
Proof.
  induction index as [|v t IH]; [reflexivity|].
  cbn [map combine fst snd]; now rewrite IH.
Qed.

Lemma plain_idxs lmax top index :
  map (fun p : Z * bool => if snd p then fst p else top)
      (combine index (map (fun i => (i >=? 0) && (i <=? lmax)) index))
  = map (fun v => if (v >=? 0) && (v <=? lmax) then v else top) index.
Proof.
  induction index as [|v t IH]; [reflexivity|].
  cbn [map combine fst snd]; now rewrite IH.
Qed.

(** ** The results of [_select] for an array [index] *)



(** The two middle positions between [lo] and [hi]. *)
Lemma median_entries (d : dtype) (xs : list Z) : forall lo0 hi0,
  let step := map (fun p : Z * Z => (snd p - fst p) / 2) (combine lo0 hi0) in
  let lo := map (fun p : Z * Z => fst p + snd p) (combine lo0 step) in
  let hi := map (fun p : Z * Z => fst p - snd p) (combine hi0 step) in
  map (fun p : Z * Z =>
         VHalf (astype d (take xs (fst p) + take xs (snd p))))
      (combine lo hi)
  = map VHalf
        (map (fun p : Z * Z =>
                astype d (take xs (fst p + (snd p - fst p) / 2)
                          + take xs (snd p - (snd p - fst p) / 2)))
             (combine lo0 hi0)).
Proof.
  induction lo0 as [|a t IH]; intros [|b u]; try reflexivity.
  cbn [combine map fst snd]; f_equal; apply IH.
Qed.


Section ByLabel.

Variables (x l L index idxs : list Z) (order : list nat) (M : Z) (d : dtype).

Hypothesis l_len : length l = length x.
Hypothesis L_len : length L = length x.
Hypothesis L_nonneg : Forall (fun v => 0 <= v) L.
Hypothesis L_max : amax L = Some M.
Hypothesis L_order : forall c c', 0 <= c < len l -> 0 <= c' < len l ->
  (rd L c < rd L c' -> rd l c < rd l c') /\
  (rd L c = rd L c' -> rd l c = rd l c').
Hypothesis order_sorted : cells_sorted x L order.
Hypothesis idxs_len : length idxs = length index.
Hypothesis idxs_found : forall k, 0 <= k < len index ->
  entry_found l L M (rd index k) (rd idxs k).

Let xs := map (fun c => nth c x 0) order.
Let ls := map (fun c => nth c L 0) order.
Let positions := map (fun c => nth c (zrange (len x)) 0) order.
Let locs := zrange (len ls).
Let at_min (a : list Z) :=
  gather (per_label (M + 2) ls (min_index ls) a) idxs.
Let at_max (a : list Z) :=
  gather (per_label (M + 2) ls (max_index ls) a) idxs.

Let ls_sorted : StronglySorted Z.le ls :=
  sorted_labels_sorted x L order L_len order_sorted.

Lemma by_label_in e : In e ls <-> In e L.
Proof. apply (sorted_labels_in x L order L_len order_sorted). Qed.

Lemma by_label_nonneg : Forall (fun v => 0 <= v) ls.
Proof.
  apply Forall_forall; intros v Hv; apply by_label_in in Hv.
  rewrite Forall_forall in L_nonneg; auto.
Qed.

Lemma by_label_max : amax ls = Some M.
Proof.
  unfold ls; rewrite (sorted_labels_max x L order L_len order_sorted); auto.
Qed.

Lemma by_label_len :
  len ls = len x /\ len xs = len x /\ len positions = len x /\
  len locs = len x /\ len l = len x /\ len L = len x /\ len idxs = len index.
Proof.
  destruct (sorted_len x L order order_sorted) as (H1 & H2 & H3).
  fold ls in H1; fold xs in H2; fold positions in H3.
  repeat split; auto; unfold locs; unfold len in *;
    rewrite ?length_zrange; lia.
Qed.

Lemma at_entry (a : list Z) k :
  len a = len ls -> 0 <= k < len index ->
  let v := rd index k in
  let e := rd idxs k in
  (In v l ->
   In e L /\
   rd (at_min a) k = rd a (searchsorted ls e) /\
   rd (at_max a) k = rd a (searchsorted ls (e + 1) - 1)) /\
  (~ In v l -> rd (at_min a) k = 0 /\ rd (at_max a) k = 0).
Proof.
  intros Ha Hk v e.
  destruct by_label_len as (_ & _ & _ & _ & _ & _ & Li).
  destruct (idxs_found k Hk) as (He & Hin & Hout); fold v e in He, Hin, Hout.
  unfold at_min, at_max, gather; rewrite !rd_map by lia; fold e.
  rewrite !take_inside by (rewrite len_per_label; lia).
  destruct (per_label_min ls a M ls_sorted by_label_nonneg by_label_max Ha
              (M + 2) ltac:(lia) e ltac:(lia)) as [Pm Am].
  destruct (per_label_max ls a M ls_sorted by_label_nonneg by_label_max Ha
              (M + 2) ltac:(lia) e ltac:(lia)) as [Px Ax].
  split.
  - intros Hv; destruct (Hin Hv) as [HL _].
    pose proof (proj2 (by_label_in e) HL) as Hl.
    split; [auto | split; auto].
  - intros Hv; specialize (Hout Hv).
    assert (~ In e ls) as Hl by (rewrite by_label_in; auto).
    split; auto.
Qed.

Lemma region_transfer k c :
  0 <= k < len index -> In (rd index k) l ->
  (region L (rd idxs k) c <-> region l (rd index k) c).
Proof.
  intros Hk Hv.
  destruct by_label_len as (_ & _ & _ & _ & Ll & LL & _).
  destruct (idxs_found k Hk) as (_ & Hin & _).
  destruct (Hin Hv) as [_ Hr].
  unfold region; rewrite LL, Ll; split; intros [H1 H2]; split; auto;
    apply (Hr c); auto; lia.
Qed.

(** The values and the positions of the extrema for one entry of
    [index]. *)
Lemma extrema_entry k :
  0 <= k < len index ->
  let v := rd index k in
  let p := rd (at_min positions) k in
  let q := rd (at_max positions) k in
  (In v l ->
   region_min x l v p /\ region_max x l v q /\
   rd (at_min xs) k = rd x p /\ rd (at_max xs) k = rd x q) /\
  (~ In v l ->
   p = 0 /\ q = 0 /\ rd (at_min xs) k = 0 /\ rd (at_max xs) k = 0).
Proof.
  intros Hk v p q.
  destruct by_label_len as (Ls & Lx & Lp & _).
  destruct (at_entry xs k ltac:(lia) Hk) as [Xin Xout].
  destruct (at_entry positions k ltac:(lia) Hk) as [Pin Pout].
  fold v in Xin, Xout, Pin, Pout; fold p q in Pin, Pout.
  split.
  - intros Hv.
    destruct (Xin Hv) as (He & Xm & Xx), (Pin Hv) as (_ & Pm & Px).
    destruct (first_of_label x L order L_len order_sorted _ He)
      as (_ & [Rm Am] & Em).
    destruct (last_of_label x L order L_len order_sorted _ He)
      as (_ & [Rx Ax] & Ex).
    fold ls xs positions in Rm, Am, Em, Rx, Ax, Ex.
    rewrite <- Pm in Rm, Am, Em; rewrite <- Px in Rx, Ax, Ex.
    split; [|split; [|split; congruence]].
    + split; [now apply (region_transfer k)|].
      intros c Hc; apply Am; now apply (region_transfer k).
    + split; [now apply (region_transfer k)|].
      intros c Hc; apply Ax; now apply (region_transfer k).
  - intros Hv; destruct (Xout Hv) as [X1 X2]; destruct (Pout Hv) as [P1 P2].
    repeat split; assumption.
Qed.



End ByLabel.

(** The results of [_select] in terms of the labels [L] it sorts by, the
    entries [idxs] it looks up, the largest label [M] and the order of
    the cells. *)
Definition select_results (flags : select_flags) (d : dtype)
           (x L idxs : list Z) (order : list nat) (M : Z)
  : list select_array :=
  let xs := map (fun c => nth c x 0) order in
  let ls := map (fun c => nth c L 0) order in
  let positions := map (fun c => nth c (zrange (len x)) 0) order in
  let at_min (a : list Z) :=
    gather (per_label (M + 2) ls (min_index ls) a) idxs in
  let at_max (a : list Z) :=
    gather (per_label (M + 2) ls (max_index ls) a) idxs in
  let locs := zrange (len ls) in
  (if find_min flags then [Array1 (map VInt (at_min xs))] else [])
  ++ (if find_min_positions flags
      then [Array1 (map VInt (at_min positions))] else [])
  ++ (if find_max flags then [Array1 (map VInt (at_max xs))] else [])
  ++ (if find_max_positions flags
      then [Array1 (map VInt (at_max positions))] else [])
  ++ (if find_median flags
      then [Array1
              (map VHalf
                   (map (fun p : Z * Z =>
                           astype d
                             (take xs (fst p + (snd p - fst p) / 2)
                              + take xs (snd p - (snd p - fst p) / 2)))
                        (combine (at_min locs) (at_max locs))))]
      else []).

(** What the branches of [_select] establish before the cells are
    sorted. *)
Definition select_prepared (lexsort : list Z -> list Z -> list nat)
           (x l index L idxs : list Z) (order : list nat) (M : Z) : Prop :=
  length L = length x /\
  Forall (fun v => 0 <= v) L /\
  amax L = Some M /\
  (forall c c', 0 <= c < len l -> 0 <= c' < len l ->
     (rd L c < rd L c' -> rd l c < rd l c') /\
     (rd L c = rd L c' -> rd l c = rd l c')) /\
  order = lexsort x L /\
  length idxs = length index /\
  forall k, 0 <= k < len index -> entry_found l L M (rd index k) (rd idxs k).

Section SelectByIndex.

Variables (int_size : Z) (lexsort : list Z -> list Z -> list nat).
Variables (input labels : ndarray) (index : list Z).

Let x := arr_data input.
Let l := arr_data labels.

Hypothesis l_len : length l = length x.
Hypothesis x_cells : 0 < len x < 2 ^ 63.
Hypothesis top_fits :
  _safely_castable_to_int int_size (arr_dtype labels) = true ->
  forall m, amax l = Some m -> m + 1 <= capacity (arr_dtype labels).

Lemma select_by_index_prepared :
  exists L idxs order M,
    (forall flags,
       select_by_index int_size lexsort flags input labels index
       = inr (select_results flags (arr_dtype input) x L idxs order M)) /\
    select_prepared lexsort x l index L idxs order M.
Proof.
  assert (l <> []) as Hne.
  { intros E; unfold len in x_cells; rewrite <- l_len, E in x_cells.
    simpl in x_cells; lia. }
  destruct (amin l) as [lmin|] eqn:Emin; [|now apply amin_none in Emin].
  destruct (amax l) as [lmax|] eqn:Emax; [|now apply amax_none in Emax].
  destruct (negb (_safely_castable_to_int int_size (arr_dtype labels))
            || (lmin <? 0) || (lmax >? len l)) eqn:Er.
  - (* the labels are renumbered *)
    set (U := unique l); set (L := map (searchsorted U) l).
    assert (L <> []) as HL by (unfold L; destruct l; [tauto | discriminate]).
    destruct (amax L) as [M|] eqn:EM; [|now apply amax_none in EM].
    assert (wrap_signed 64 (M + 1) = M + 1) as Etop.
    { apply wrap_signed_small; [lia|].
      destruct (amax_spec L M EM) as [IM _].
      pose proof (remapped_below l M IM) as Hb.
      pose proof (remapped_nonneg l) as Hn; fold U L in Hn.
      rewrite Forall_forall in Hn; specialize (Hn M IM).
      change (2 ^ (64 - 1)) with (2 ^ 63).
      unfold len in *; lia. }
    eexists L, _, (lexsort x L), M; split.
    { intros flags; unfold select_by_index; fold x l.
      rewrite Emin, Emax, Er; cbv zeta iota; fold U L.
      rewrite EM, Etop, remapped_idxs, median_entries; reflexivity. }
    split; [unfold L; now rewrite length_map|].
    split; [apply remapped_nonneg|].
    split; [auto|].
    split.
    { intros c c' Hc Hc'; unfold L; rewrite !rd_map by auto.
      assert (In (rd l c) l) as I1 by (apply nth_In; unfold len in *; lia).
      assert (In (rd l c') l) as I2 by (apply nth_In; unfold len in *; lia).
      destruct (unique_position l _ I1) as [_ E1].
      destruct (unique_position l _ I2) as [_ E2].
      fold U in E1, E2; split; intros H.
      - destruct (Z_lt_le_dec (rd l c) (rd l c')) as [|Hge]; auto.
        pose proof (searchsorted_mono U _ _ Hge); lia.
      - rewrite <- E1, <- E2, H; reflexivity. }
    split; [reflexivity|].
    split; [now rewrite length_map|].
    intros k Hk; rewrite rd_map by auto.
    apply (remapped_entry l M (M + 1)); auto.
  - (* the labels are used as they are *)
    pose proof Er as Er'.
    apply orb_false_elim in Er' as [Er' E3].
    apply orb_false_elim in Er' as [E1 E2].
    apply negb_false_iff in E1; apply Z.ltb_ge in E2.
    pose proof (top_fits E1 lmax eq_refl) as Hcap.
    destruct (amin_spec l lmin Emin) as [Imin Amin].
    destruct (amax_spec l lmax Emax) as [Imax Amax].
    rewrite Forall_forall in Amin, Amax.
    pose proof (Amin _ Imax) as H0.
    eexists l, _, (lexsort x l), lmax; split.
    { intros flags; unfold select_by_index; fold x l.
      rewrite Emin, Emax, Er; cbv zeta iota.
      rewrite !Emax, astype_exact by lia.
      rewrite plain_idxs, median_entries; reflexivity. }
    split; [auto|].
    split; [apply Forall_forall; intros v Hv; apply Amin in Hv; lia|].
    split; [auto|].
    split; [intros; split; auto|].
    split; [reflexivity|].
    split; [now rewrite length_map|].
    intros k Hk; rewrite rd_map by auto.
    apply (plain_entry l lmin lmax); auto.
Qed.

End SelectByIndex.

(** ** A sorting of the cells by insertion

    One function that meets [sorts_by_label_then_value]. *)

Definition key_le (x l : list Z) (c1 c2 : nat) : bool :=
  (nth c1 l 0 <? nth c2 l 0)
  || ((nth c1 l 0 =? nth c2 l 0) && (nth c1 x 0 <=? nth c2 x 0)).

Fixpoint insert_cell (x l : list Z) (c : nat) (order : list nat) : list nat :=
  match order with
  | [] => [c]
  | d :: t =>
      if key_le x l c d then c :: d :: t else d :: insert_cell x l c t
  end.

Definition insertion_lexsort (x l : list Z) : list nat :=
  fold_right (insert_cell x l) [] (seq 0 (length x)).

Lemma key_le_spec x l c1 c2 :
  key_le x l c1 c2 = true <->
  nth c1 l 0 < nth c2 l 0 \/
  (nth c1 l 0 = nth c2 l 0 /\ nth c1 x 0 <= nth c2 x 0).
Proof.
  unfold key_le.
  rewrite orb_true_iff, andb_true_iff, Z.ltb_lt, Z.eqb_eq, Z.leb_le; tauto.
Qed.

Lemma insert_cell_perm x l c order :
  Permutation (insert_cell x l c order) (c :: order).
Proof.
  induction order as [|d t IH]; cbn [insert_cell]; [reflexivity|].
  destruct (key_le x l c d); [reflexivity|].
  rewrite IH; apply perm_swap.
Qed.

Lemma insert_cell_sorted x l c order :
  StronglySorted (fun a b => key_le x l a b = true) order ->
  StronglySorted (fun a b => key_le x l a b = true) (insert_cell x l c order).
Proof.
  induction 1 as [|d t Ht IH Hd]; cbn [insert_cell].
  - constructor; constructor.
  - destruct (key_le x l c d) eqn:E.
    + constructor; [constructor; auto|].
      constructor; auto.
      revert Hd; apply Forall_impl; intros b Hb.
      apply key_le_spec in E, Hb; apply key_le_spec; lia.
    + constructor; auto.
      apply Forall_forall; intros b Hb.
      apply (Permutation_in _ (insert_cell_perm x l c t)) in Hb.
      destruct Hb as [<-|Hb].
      * apply key_le_spec.
        assert (~ (nth c l 0 < nth d l 0 \/
                   (nth c l 0 = nth d l 0 /\ nth c x 0 <= nth d x 0))) as N
          by (rewrite <- key_le_spec; congruence).
        lia.
      * rewrite Forall_forall in Hd; auto.
Qed.

Lemma insertion_lexsort_sorts : sorts_by_label_then_value insertion_lexsort.
Proof.
  intros x l _; unfold cells_sorted, insertion_lexsort.
  set (cells := seq 0 (length x)).
  assert (Permutation (fold_right (insert_cell x l) [] cells) cells) as P.
  { induction cells as [|c t IH]; cbn [fold_right]; [reflexivity|].
    rewrite insert_cell_perm; now constructor. }
  assert (StronglySorted (fun a b => key_le x l a b = true)
                         (fold_right (insert_cell x l) [] cells)) as S.
  { clear P; induction cells as [|c t IH]; cbn [fold_right];
      [constructor | now apply insert_cell_sorted]. }
  split; [exact P|].
  assert (length (fold_right (insert_cell x l) [] cells) = length x) as Ln
    by (rewrite (Permutation_length P); apply length_seq).
  revert S Ln; generalize (fold_right (insert_cell x l) [] cells) as order.
  generalize (length x) as n; clear.
  intros n order S; revert n; induction S as [|d t St IH Hd];
    intros n Ln a b Hab; cbn [length] in Ln; [lia|].
  destruct a as [|a], b as [|b]; cbn [nth]; try lia.
  - apply key_le_spec.
    rewrite Forall_forall in Hd; apply Hd, nth_In; lia.
  - apply (IH (length t) eq_refl); lia.
Qed.

(** ** The extrema and the median for an array [index] *)

(** Every result has one entry per entry of [index].  For an entry that
    is the label of some cell, the positions are cells of its region
    that hold the least and the greatest value of the region, and the
    values are those; for an entry that labels no cell, values and
    positions are 0. *)
Definition indexed_extrema (int_size : Z)
           (lexsort : list Z -> list Z -> list nat)
           (cupy_median : list Z -> py_exception + value)
           (input labels : ndarray) (index : list Z) : Prop :=
  let x := arr_data input in
  let l := arr_data labels in
  let dims := arr_shape input in
  exists mins maxs pmin pmax : list Z,
    minimum int_size lexsort cupy_median input (Some labels) (IndexArray index)
    = inr (Array1 (map VInt mins)) /\
    maximum int_size lexsort cupy_median input (Some labels) (IndexArray index)
    = inr (Array1 (map VInt maxs)) /\
    minimum_position int_size lexsort cupy_median input (Some labels)
                     (IndexArray index)
    = inr (TupleList (map (unravel dims) pmin)) /\
    maximum_position int_size lexsort cupy_median input (Some labels)
                     (IndexArray index)
    = inr (TupleList (map (unravel dims) pmax)) /\
    extrema int_size lexsort cupy_median input (Some labels) (IndexArray index)
    = inr (Array1 (map VInt mins), Array1 (map VInt maxs),
           TupleList (map (unravel dims) pmin),
           TupleList (map (unravel dims) pmax)) /\
    length mins = length index /\ length maxs = length index /\
    length pmin = length index /\ length pmax = length index /\
    forall k, 0 <= k < len index ->
      let v := rd index k in
      (In v l ->
       region_min x l v (rd pmin k) /\ region_max x l v (rd pmax k) /\
       rd mins k = rd x (rd pmin k) /\ rd maxs k = rd x (rd pmax k)) /\
      (~ In v l ->
       rd mins k = 0 /\ rd maxs k = 0 /\ rd pmin k = 0 /\ rd pmax k = 0).

(** [labels.max() + 1] is a value of the dtype of [labels] whenever
    [_select] computes it in that dtype. *)
Definition top_label_fits (int_size : Z) (labels : ndarray) : Prop :=
  _safely_castable_to_int int_size (arr_dtype labels) = true ->
  forall m, amax (arr_data labels) = Some m ->
    m + 1 <= capacity (arr_dtype labels).

Lemma positions_of_array dims P :
  Forall (fun d => 1 <= d) dims -> prod_shape dims < 2 ^ 63 ->
  positions_of dims (Array1 (map VInt P)) = TupleList (map (unravel dims) P).
Proof.
  intros F Hb; cbn [positions_of]; unfold position_tuples.
  rewrite !map_map; cbn [as_position]; f_equal.
  apply map_ext; intros p; now apply position_tuple_unravel.
Qed.

(** X18.  With [labels] and an array [index], on a non-empty image,
    [minimum], [maximum], [minimum_position], [maximum_position] and
    [extrema] return one entry per entry of [index]: for a label that
    occurs, the least and the greatest value of its region and the
    multi-index of a cell of the region that holds it; for a value that
    labels no cell, 0 and the multi-index of cell 0.  This holds whether
    or not the labels are renumbered, for every [lexsort] that sorts by
    label and then by value. *)
Theorem extrema_of_index_array
        (int_size : Z) (lexsort : list Z -> list Z -> list nat)
        (cupy_median : list Z -> py_exception + value)
        (input labels : ndarray) (index : list Z) :
  well_formed input ->
  0 < size input < 2 ^ 63 ->
  length (arr_data labels) = length (arr_data input) ->
  sorts_by_label_then_value lexsort ->
  top_label_fits int_size labels ->
  indexed_extrema int_size lexsort cupy_median input labels index.
Proof.
  intros [Wd Wl] Hsize Hl Hsort Htop; unfold indexed_extrema.
  set (x := arr_data input) in *; set (l := arr_data labels) in *.
  assert (len x = size input) as Lx by exact Wl.
  destruct (select_by_index_prepared int_size lexsort input labels index
              Hl ltac:(fold x; lia) Htop)
    as (L & idxs & order & M & Hsel & HL & Hnn & HM & Hord & -> & Hi & Hf).
  fold x l in Hsel, HL, Hnn, HM, Hord, Hi, Hf.
  pose proof (Hsort x L HL) as Hcs.
  set (order := lexsort x L) in *.
  set (ls := map (fun c => nth c L 0) order).
  set (xs := map (fun c => nth c x 0) order).
  set (positions := map (fun c => nth c (zrange (len x)) 0) order).
  set (at_min := fun a => gather (per_label (M + 2) ls (min_index ls) a) idxs).
  set (at_max := fun a => gather (per_label (M + 2) ls (max_index ls) a) idxs).
  assert (Forall (fun d => 1 <= d) (arr_shape input)) as Hpos.
  { apply shape_positive; auto; fold (size input); lia. }
  exists (at_min xs), (at_max xs), (at_min positions), (at_max positions).
  unfold minimum, maximum, minimum_position, maximum_position, extrema,
    _select; rewrite !Hsel; unfold select_results.
  cbn [find_min find_max find_min_positions find_max_positions find_median
       app first_result]; fold x ls xs positions.
  rewrite !positions_of_array by (auto; fold (size input); lia).
  repeat (split; [reflexivity|]).
  repeat (split; [unfold at_min, at_max, gather; now rewrite length_map|]).
  intros k Hk.
  destruct (extrema_entry x l L index idxs order M Hl HL Hnn HM Hcs Hi Hf k Hk)
    as [Hin Hout].
  split; [exact Hin|].
  intros Hv; destruct (Hout Hv) as (P1 & P2 & P3 & P4); auto.
Qed.

Lemma extrema_of_index_array_witness :
  indexed_extrema 8 insertion_lexsort (fun _ => inl ValueError)
    {| arr_dtype := int32; arr_shape := [2; 3];
       arr_data := [4; 1; 7; 1; 7; 0] |}
    {| arr_dtype := int32; arr_shape := [2; 3];
       arr_data := [1; 3; 3; 3; 0; 0] |}
    [3; 2; 0; 9].
Proof.
  apply extrema_of_index_array.
  - now apply well_formedb_spec.
  - split; reflexivity.
  - reflexivity.
  - exact insertion_lexsort_sorts.
  - intros _ m [= <-]; vm_compute; discriminate.
Defined.




(** The arrays of [_select] do not depend on the order of the stores. *)
Definition stores_commute (size : Z) (ls a : list Z) : Prop :=
  forall W,
    (Permutation W (label_stores ls (min_index ls) a) ->
     fold_left store W (repeat 0 (Z.to_nat size))
     = per_label size ls (min_index ls) a) /\
    (Permutation W (label_stores ls (max_index ls) a) ->
     fold_left store W (repeat 0 (Z.to_nat size))
     = per_label size ls (max_index ls) a).

(** X20.  In [mins[labels[min_index]] = input[min_index]] and its
    siblings several stores can name one cell: the entry of [min_index]
    for a value that labels no cell is that of the next label, and an
    entry -1 of [max_index] reads the last cell.  For ascending
    non-negative labels all the stores to one cell carry one value, so
    the array is the same whichever store is performed last. *)
Theorem label_stores_commute (ls a : list Z) (M size : Z) :
  StronglySorted Z.le ls ->
  Forall (fun v => 0 <= v) ls ->
  amax ls = Some M ->
  len a = len ls ->
  M + 1 <= size ->
  stores_commute size ls a.
Proof.
  intros Hs Hn Hm Ha Hsz W; split; intros P.
  - now apply (per_label_min_any_order ls a M).
  - now apply (per_label_max_any_order ls a M).
Qed.

Lemma label_stores_commute_witness :
  stores_commute 7 [0; 0; 2; 2; 2; 5] [10; 11; 12; 13; 14; 15].
Proof.
  apply (label_stores_commute _ _ 5).
  - repeat constructor; lia.
  - repeat constructor; lia.
  - reflexivity.
  - reflexivity.
  - lia.
Defined.

(** * Part VIII: [sum] and [mean] *)

(** ** The batches of [_ndimage_mean_kernel_2] *)


Section Batches.

Variables (index : list Z) (batch_size : nat).

Hypothesis batch_pos : (1 <= batch_size)%nat.




Variables (d : dtype) (input labels : list Z).

Let F (v : Z) : Z :=
  to_double (sum_wrap d (zsum (map (fun p => if snd p =? v then fst p else 0)
                                   (combine input labels)))).
Let G (v : Z) : Z :=
  wrap_unsigned 64
    (wrap_signed 64 (zsum (map (fun a => if a =? v then 1 else 0) labels))).



End Batches.

(** ** Exact sums and counts *)







(** ** The public functions for an array [index] *)












